(** * open_kiro: workflow controller, hook engine and configuration watcher

    A shallow embedding of the reactive core of the repository:
    - [AgentController] (approval queue for proposed edits, the per-spec
      phase state machine, messages and tasks),
    - [HookManager] (rule registration, validation, event dispatch and the
      hooks on disk),
    - [ConfigWatcher] / [ConfigReloader] (debounced change notifications and
      reload of the three configuration categories) and [StartupLoader],
    - [InMemoryFileSystemAdapter] (module [MemoryFS]), on which the managers
      are run,
    - [SpecManager] (creation and listing of specs, search in the tree of
      tasks), [ContextManager] (the files and messages of a context) and
      the file references of [SteeringManager],
    - [PluginRegistry] (registration of plugins and of their extensions).

    Stateful methods are written as state-passing functions; injected
    collaborators (filesystem adapter, message sender, child processes,
    managers) are interfaces (classes) acting on an abstract [World]. *)

From Stdlib Require Import DecimalString DecimalN.
From stdpp Require Import base option list sorting gmap strings.

Set Default Proof Using "Type".

(** ** JavaScript strings *)

Module JS.

(** A JavaScript string is a sequence of UTF-16 code units. *)
Definition jsstring := list N.

(** A literal of the source, written with ASCII characters. *)
Definition str (s : string) : jsstring :=
  (λ a, N.of_nat (Ascii.nat_of_ascii a)) <$> String.list_ascii_of_string s.

Global Arguments str : simpl never.

(** Truthiness of a string value: only the empty string is falsy. *)
Definition truthy (s : jsstring) : bool :=
  match s with [] => false | _ => true end.

(** Truthiness of an optional string property ([undefined] is falsy). *)
Definition truthy_opt (o : option jsstring) : bool :=
  match o with Some s => truthy s | None => false end.

(** Code units removed by [String.prototype.trim]: WhiteSpace and
    LineTerminator of ECMAScript. *)
Definition is_white (c : N) : bool :=
  (bool_decide (c ∈ [9; 10; 11; 12; 13; 32; 160; 5760; 8232; 8233; 8239; 8287;
                     12288; 65279]%N))
  || ((8192 <=? c)%N && (c <=? 8202)%N).

Fixpoint trim_start (s : jsstring) : jsstring :=
  match s with
  | c :: r => if is_white c then trim_start r else s
  | [] => []
  end.

Definition trim (s : jsstring) : jsstring :=
  reverse (trim_start (reverse (trim_start s))).

(** [!s || s.trim().length === 0] *)
Definition blank (s : jsstring) : bool :=
  negb (truthy s) || (length (trim s) =? 0).

(** A thrown value, kept as the text that
    [error instanceof Error ? error.message : String(error)] extracts. *)
Definition Exn := jsstring.

(** Decimal rendering of a number inside a template literal. *)
Definition of_number (n : N) : jsstring :=
  str (DecimalString.NilEmpty.string_of_uint (N.to_uint n)).

(** The filesystem adapter ([IFileSystemAdapter]) as far as the core calls
    it.  Every method acts on the outside world and may throw. *)
Class FileSystemAdapter (World : Type) := {
  fs_mkdir : jsstring → World → World * option Exn;
  fs_writeFile : jsstring → jsstring → World → World * option Exn;
  fs_delete : jsstring → World → World * option Exn
}.

End JS.

Import JS.

(** ** AgentController: approval queue and phase gate *)

Module AgentController.

Inductive SpecPhase := requirements | design | tasks | implementation.

Global Instance SpecPhase_eq_dec : EqDecision SpecPhase.
Proof. solve_decision. Defined.

Record SpecWorkflowState := {
  specName : jsstring;
  currentPhase : SpecPhase;
  requirementsApproved : bool;
  designApproved : bool;
  tasksApproved : bool
}.

Inductive Operation := create | update | delete.

Record CodeChange := {
  path : jsstring;
  content : jsstring;
  operation : Operation
}.

Record PendingCodeChange := {
  id : jsstring;
  changes : list CodeChange;
  approved : bool;
  timestamp : N
}.

Record Session := {
  specWorkflows : gmap jsstring SpecWorkflowState;
  pendingChanges : list PendingCodeChange
}.

(** The fields of the controller that the approval gate and the phase
    machine read or write. *)
Record Controller := {
  session : Session;
  changeIdCounter : N
}.

Definition with_workflows (c : Controller) (m : gmap jsstring SpecWorkflowState)
  : Controller :=
  {| session := {| specWorkflows := m;
                   pendingChanges := pendingChanges (session c) |};
     changeIdCounter := changeIdCounter c |}.

Definition with_pending (c : Controller) (l : list PendingCodeChange)
  : Controller :=
  {| session := {| specWorkflows := specWorkflows (session c);
                   pendingChanges := l |};
     changeIdCounter := changeIdCounter c |}.

(** A fresh controller, as built by the constructor. *)
Definition new_controller : Controller :=
  {| session := {| specWorkflows := ∅; pendingChanges := [] |};
     changeIdCounter := 0 |}.

(** *** Phase state machine *)

Definition initial_state (name : jsstring) : SpecWorkflowState :=
  {| specName := name; currentPhase := requirements;
     requirementsApproved := false; designApproved := false;
     tasksApproved := false |}.

(** [getOrCreateWorkflowState]: the state object of [name], created and
    stored on first reference. *)
Definition getOrCreateWorkflowState (name : jsstring) (c : Controller)
  : SpecWorkflowState * Controller :=
  match specWorkflows (session c) !! name with
  | Some st => (st, c)
  | None =>
      (initial_state name,
       with_workflows c (<[name := initial_state name]> (specWorkflows (session c))))
  end.

(** Writing through the state object returned by
    [getOrCreateWorkflowState]: the object is the one held by the map. *)
Definition store_state (name : jsstring) (st : SpecWorkflowState)
    (c : Controller) : Controller :=
  with_workflows c (<[name := st]> (specWorkflows (session c))).

Definition getWorkflowPhase (name : jsstring) (c : Controller)
  : SpecPhase * Controller :=
  let '(st, c1) := getOrCreateWorkflowState name c in (currentPhase st, c1).

Definition canTransitionToPhase (name : jsstring) (targetPhase : SpecPhase)
    (c : Controller) : bool * Controller :=
  let '(state, c1) := getOrCreateWorkflowState name c in
  (match targetPhase with
   | requirements => true
   | design => requirementsApproved state
   | tasks => designApproved state
   | implementation => tasksApproved state
   end, c1).

Definition set_phase (st : SpecWorkflowState) (p : SpecPhase) :=
  {| specName := specName st; currentPhase := p;
     requirementsApproved := requirementsApproved st;
     designApproved := designApproved st;
     tasksApproved := tasksApproved st |}.

Definition set_requirementsApproved (st : SpecWorkflowState) (b : bool) :=
  {| specName := specName st; currentPhase := currentPhase st;
     requirementsApproved := b;
     designApproved := designApproved st;
     tasksApproved := tasksApproved st |}.

Definition set_designApproved (st : SpecWorkflowState) (b : bool) :=
  {| specName := specName st; currentPhase := currentPhase st;
     requirementsApproved := requirementsApproved st;
     designApproved := b;
     tasksApproved := tasksApproved st |}.

Definition set_tasksApproved (st : SpecWorkflowState) (b : bool) :=
  {| specName := specName st; currentPhase := currentPhase st;
     requirementsApproved := requirementsApproved st;
     designApproved := designApproved st;
     tasksApproved := b |}.

Definition transitionToPhase (name : jsstring) (targetPhase : SpecPhase)
    (c : Controller) : bool * Controller :=
  let '(ok, c1) := canTransitionToPhase name targetPhase c in
  if negb ok then (false, c1)
  else
    let '(state, c2) := getOrCreateWorkflowState name c1 in
    (true, store_state name (set_phase state targetPhase) c2).

Definition approveCurrentPhase (name : jsstring) (c : Controller)
  : bool * Controller :=
  let '(state, c1) := getOrCreateWorkflowState name c in
  match currentPhase state with
  | requirements =>
      (true, store_state name
               (set_phase (set_requirementsApproved state true) design) c1)
  | design =>
      (true, store_state name
               (set_phase (set_designApproved state true) tasks) c1)
  | tasks =>
      (true, store_state name
               (set_phase (set_tasksApproved state true) implementation) c1)
  | implementation => (true, c1)
  end.

Definition resetPhaseApproval (name : jsstring) (phase : SpecPhase)
    (c : Controller) : Controller :=
  let '(state, c1) := getOrCreateWorkflowState name c in
  match phase with
  | requirements =>
      store_state name
        (set_phase
           (set_tasksApproved
              (set_designApproved (set_requirementsApproved state false) false)
              false)
           requirements) c1
  | design =>
      let s1 := set_tasksApproved (set_designApproved state false) false in
      store_state name
        (if bool_decide (currentPhase s1 ≠ requirements)
         then set_phase s1 design else s1) c1
  | tasks =>
      let s1 := set_tasksApproved state false in
      store_state name
        (if bool_decide (currentPhase s1 = implementation)
         then set_phase s1 tasks else s1) c1
  | implementation => c1
  end.

Definition isPhaseApproved (name : jsstring) (phase : SpecPhase)
    (c : Controller) : bool * Controller :=
  let '(state, c1) := getOrCreateWorkflowState name c in
  (match phase with
   | requirements => requirementsApproved state
   | design => designApproved state
   | tasks => tasksApproved state
   | implementation => tasksApproved state
   end, c1).

(** *** Approval gate for proposed edits *)

Definition generateChangeId (c : Controller) : jsstring * Controller :=
  let n := (changeIdCounter c + 1)%N in
  (str "change-" ++ of_number n,
   {| session := session c; changeIdCounter := n |}).

(** [queueCodeChanges]; [now] is the value of [new Date()]. *)
Definition queueCodeChanges (chs : list CodeChange) (now : N) (c : Controller)
  : jsstring * Controller :=
  let '(cid, c1) := generateChangeId c in
  let pendingChange :=
    {| id := cid; changes := chs; approved := false; timestamp := now |} in
  (cid, with_pending c1 (pendingChanges (session c1) ++ [pendingChange])).

Definition getPendingChanges (c : Controller) : list PendingCodeChange :=
  filter (λ p, approved p = false) (pendingChanges (session c)).

Definition set_approved (p : PendingCodeChange) (b : bool) :=
  {| id := id p; changes := changes p; approved := b;
     timestamp := timestamp p |}.

(** [find] followed by a write through the found object: the first entry
    with the given id is the one that changes. *)
Fixpoint approve_first (changeId : jsstring) (l : list PendingCodeChange)
  : option (list PendingCodeChange) :=
  match l with
  | [] => None
  | p :: r =>
      if bool_decide (id p = changeId) then Some (set_approved p true :: r)
      else (λ r', p :: r') <$> approve_first changeId r
  end.

Definition approveChange (changeId : jsstring) (c : Controller)
  : bool * Controller :=
  match approve_first changeId (pendingChanges (session c)) with
  | None => (false, c)
  | Some l => (true, with_pending c l)
  end.

(** [findIndex] followed by [splice(index, 1)]. *)
Fixpoint remove_first (changeId : jsstring) (l : list PendingCodeChange)
  : option (list PendingCodeChange) :=
  match l with
  | [] => None
  | p :: r =>
      if bool_decide (id p = changeId) then Some r
      else (λ r', p :: r') <$> remove_first changeId r
  end.

Definition rejectChange (changeId : jsstring) (c : Controller)
  : bool * Controller :=
  match remove_first changeId (pendingChanges (session c)) with
  | None => (false, c)
  | Some l => (true, with_pending c l)
  end.

(** One invocation of the filesystem sink. *)
Inductive SinkCall :=
| WriteFile (p content : jsstring)
| Delete (p : jsstring).

(** What the loop of [applyApprovedChanges] leaves behind: the edits pushed
    to [appliedChanges], and the sink invocations it made, each with the
    pending entry it was made for and whether it returned normally. *)
Record Applied := {
  appliedChanges : list CodeChange;
  sinkCalls : list (PendingCodeChange * SinkCall * bool)
}.

Definition call_of (ch : CodeChange) : SinkCall :=
  match operation ch with
  | create | update => WriteFile (path ch) (content ch)
  | delete => Delete (path ch)
  end.

Definition perform `{FileSystemAdapter World} (k : SinkCall) (w : World)
  : World * option Exn :=
  match k with
  | WriteFile p body => fs_writeFile p body w
  | Delete p => fs_delete p w
  end.

(** Body of the inner [for]: the [try] around one edit.  A throwing sink
    call skips the [push] and the loop goes on. *)
Definition apply_change `{FileSystemAdapter World} (pending : PendingCodeChange)
    (acc : Applied) (w : World) (change : CodeChange) : Applied * World :=
  let '(w1, r) := perform (call_of change) w in
  match r with
  | None =>
      ({| appliedChanges := appliedChanges acc ++ [change];
          sinkCalls := sinkCalls acc ++ [(pending, call_of change, true)] |}, w1)
  | Some _ =>
      ({| appliedChanges := appliedChanges acc;
          sinkCalls := sinkCalls acc ++ [(pending, call_of change, false)] |}, w1)
  end.

Fixpoint apply_changes `{FileSystemAdapter World} (pending : PendingCodeChange)
    (chs : list CodeChange) (acc : Applied) (w : World) : Applied * World :=
  match chs with
  | [] => (acc, w)
  | change :: r =>
      let '(acc1, w1) := apply_change pending acc w change in
      apply_changes pending r acc1 w1
  end.

(** The outer [for]: entries that are not approved are skipped. *)
Fixpoint apply_pending `{FileSystemAdapter World} (l : list PendingCodeChange)
    (acc : Applied) (w : World) : Applied * World :=
  match l with
  | [] => (acc, w)
  | pending :: r =>
      if negb (approved pending) then apply_pending r acc w
      else
        let '(acc1, w1) := apply_changes pending (changes pending) acc w in
        apply_pending r acc1 w1
  end.

(** [applyApprovedChanges(fs)], for a call that runs to completion without
    another operation of the controller interleaved at its [await]s. *)
Definition applyApprovedChanges `{FileSystemAdapter World} (c : Controller)
    (w : World) : Applied * Controller * World :=
  let '(acc, w1) :=
    apply_pending (pendingChanges (session c))
      {| appliedChanges := []; sinkCalls := [] |} w in
  (acc,
   with_pending c (filter (λ p, approved p = false) (pendingChanges (session c))),
   w1).

(** The workflow state of [name] as an observer sees it (the state that
    the next [getOrCreateWorkflowState] returns). *)
Definition workflow (c : Controller) (name : jsstring) : SpecWorkflowState :=
  (getOrCreateWorkflowState name c).1.

End AgentController.

(** ** String.prototype.replace with a global pattern *)

Module Replace.

Fixpoint strip_prefix (p s : jsstring) : option jsstring :=
  match p, s with
  | [], _ => Some s
  | a :: p', b :: s' => if bool_decide (a = b) then strip_prefix p' s' else None
  | _ :: _, [] => None
  end.

(** GetSubstitution for a pattern without capture groups: [$$] is a dollar
    sign, [$&] the matched text, [$`] the text before the match, [$'] the
    text after it; any other [$] stands for itself. *)
Fixpoint get_substitution (matched before after template : jsstring)
  : jsstring :=
  match template with
  | [] => []
  | c :: r =>
      if bool_decide (c = 36%N) then
        match r with
        | d :: r' =>
            if bool_decide (d = 36%N) then
              36%N :: get_substitution matched before after r'
            else if bool_decide (d = 38%N) then
              matched ++ get_substitution matched before after r'
            else if bool_decide (d = 96%N) then
              before ++ get_substitution matched before after r'
            else if bool_decide (d = 39%N) then
              after ++ get_substitution matched before after r'
            else c :: get_substitution matched before after r
        | [] => [c]
        end
      else c :: get_substitution matched before after r
  end.

(** Left-to-right scan of [s]; [before] is the text already passed and
    [skip] the number of code units of the last match still to pass. *)
Fixpoint replace_go (needle template before s : jsstring) (skip : nat)
  : jsstring :=
  match s with
  | [] => []
  | c :: r =>
      match skip with
      | S k => replace_go needle template (before ++ [c]) r k
      | O =>
          match strip_prefix needle s with
          | Some after =>
              get_substitution needle before after template
              ++ replace_go needle template (before ++ [c]) r
                   (length needle - 1)
          | None => c :: replace_go needle template (before ++ [c]) r 0
          end
      end
  end.

(** [s.replace(/needle/g, template)] where the regular expression matches
    the non-empty text [needle] literally. *)
Definition replace_all (needle template s : jsstring) : jsstring :=
  replace_go needle template [] s 0.

End Replace.

(** ** HookManager: registration and dispatch of automation rules *)

Module HookManager.

Inductive HookEventType :=
| file_save | message_sent | session_created | agent_complete | manual.

Global Instance HookEventType_eq_dec : EqDecision HookEventType.
Proof. solve_decision. Defined.

Definition event_name (t : HookEventType) : jsstring :=
  match t with
  | file_save => str "file_save"
  | message_sent => str "message_sent"
  | session_created => str "session_created"
  | agent_complete => str "agent_complete"
  | manual => str "manual"
  end.

Inductive HookTrigger :=
| on_file_save (pattern : option jsstring)
| on_message_sent
| on_session_created
| on_agent_complete
| on_manual.

Definition trigger_type (t : HookTrigger) : HookEventType :=
  match t with
  | on_file_save _ => file_save
  | on_message_sent => message_sent
  | on_session_created => session_created
  | on_agent_complete => agent_complete
  | on_manual => manual
  end.

Definition trigger_pattern (t : HookTrigger) : option jsstring :=
  match t with on_file_save p => p | _ => None end.

Inductive HookAction :=
| send_message (message : jsstring)
| execute_command (command : jsstring) (cwd : option jsstring).

Record HookCondition := { cond_type : jsstring; cond_value : jsstring }.

Record HookConfig := {
  id : jsstring;
  name : jsstring;
  description : option jsstring;
  trigger : HookTrigger;
  action : HookAction;
  enabled : bool;
  conditions : option (list HookCondition)
}.

(** The object handed to [registerHook] at run time.  Its static type is
    [HookConfig], but a cast lets an action arrive without its payload,
    which is what [validateHook] looks for. *)
Inductive ActionInput :=
| send_message_input (message : option jsstring)
| execute_command_input (command : option jsstring) (cwd : option jsstring).

Record HookInput := {
  in_id : jsstring;
  in_name : jsstring;
  in_description : option jsstring;
  in_trigger : HookTrigger;
  in_action : ActionInput;
  in_enabled : bool;
  in_conditions : option (list HookCondition)
}.

Definition with_action (h : HookInput) (a : HookAction) : HookConfig :=
  {| id := in_id h; name := in_name h; description := in_description h;
     trigger := in_trigger h; action := a; enabled := in_enabled h;
     conditions := in_conditions h |}.

Record HookResult := {
  success : bool;
  output : option jsstring;
  error : option jsstring
}.

Record HookContext := {
  event : option jsstring;
  filePath : option jsstring;
  message : option jsstring;
  specName : option jsstring;
  taskId : option jsstring
}.

Definition empty_context : HookContext :=
  {| event := None; filePath := None; message := None; specName := None;
     taskId := None |}.

(** What the logger ([IHookLogger]) has been told.  The logger is taken to
    record and return. *)
Inductive LogEntry :=
| log_error (text : jsstring) (err : option Exn)
| log_info (text : jsstring).

(** The host services the manager relies on: the filesystem adapter,
    [execAsync] (resolving with stdout and stderr, or rejecting),
    [new RegExp(source).test(input)] (the constructor may throw) and
    [JSON.stringify(hook, null, 2)]. *)
Class Host (World : Type) := {
  host_fs :: FileSystemAdapter World;
  execAsync : jsstring → option jsstring → World
              → World * (Exn + jsstring * jsstring);
  RegExp_test : jsstring → jsstring → Exn + bool;
  JSON_stringify : HookConfig → jsstring
}.

Definition IMessageSender (World : Type) :=
  jsstring → World → World * option Exn.

Definition HookEventHandler (World : Type) :=
  HookContext → World → World * option Exn.

Record Manager (World : Type) := {
  hooks : list HookConfig;
  eventListeners : HookEventType → list (HookEventHandler World);
  messageSender : option (IMessageSender World);
  logger : list LogEntry
}.
Arguments hooks {World}.
Arguments eventListeners {World}.
Arguments messageSender {World}.
Arguments logger {World}.

Section Methods.
Context {World : Type} `{Host World}.

Definition new_manager : Manager World :=
  {| hooks := []; eventListeners := λ _, []; messageSender := None;
     logger := [] |}.

Definition with_hooks (m : Manager World) (l : list HookConfig) :=
  {| hooks := l; eventListeners := eventListeners m;
     messageSender := messageSender m; logger := logger m |}.

Definition log (m : Manager World) (e : LogEntry) :=
  {| hooks := hooks m; eventListeners := eventListeners m;
     messageSender := messageSender m; logger := logger m ++ [e] |}.

Definition setMessageSender (sender : IMessageSender World)
    (m : Manager World) :=
  {| hooks := hooks m; eventListeners := eventListeners m;
     messageSender := Some sender; logger := logger m |}.

Definition hooksBasePath : jsstring := str ".kiro/hooks".

Definition getHookPath (hookId : jsstring) : jsstring :=
  hooksBasePath ++ str "/" ++ hookId ++ str ".json".

(** [validateHook] either throws or returns; when it returns, the action
    is known to carry its payload, and the hook is handed back at its
    declared type.  The tests on [hook.trigger] and [hook.action] being
    present cannot fail on a value of this type. *)
Definition validateHook (hook : HookInput) : Exn + HookConfig :=
  if blank (in_id hook) then inl (str "Hook ID cannot be empty")
  else if blank (in_name hook) then inl (str "Hook name cannot be empty")
  else
    match in_action hook with
    | send_message_input None =>
        inl (str "send_message action requires a message")
    | send_message_input (Some msg) => inr (with_action hook (send_message msg))
    | execute_command_input None _ =>
        inl (str "execute_command action requires a command")
    | execute_command_input (Some cmd) cwd =>
        inr (with_action hook (execute_command cmd cwd))
    end.

(** [Map.prototype.set] on the map of hooks, which iterates in insertion
    order: an existing key keeps its place and takes the new value, a new
    key goes last. *)
Fixpoint map_set (k : jsstring) (v : HookConfig) (l : list HookConfig)
  : list HookConfig :=
  match l with
  | [] => [v]
  | h :: r => if bool_decide (id h = k) then v :: r else h :: map_set k v r
  end.

Fixpoint map_get (k : jsstring) (l : list HookConfig) : option HookConfig :=
  match l with
  | [] => None
  | h :: r => if bool_decide (id h = k) then Some h else map_get k r
  end.

Definition registerHook (hook : HookInput) (m : Manager World) (w : World)
  : Manager World * World * option Exn :=
  match validateHook hook with
  | inl e => (m, w, Some e)
  | inr h =>
      let '(w1, r1) := fs_mkdir hooksBasePath w in
      match r1 with
      | Some e => (m, w1, Some e)
      | None =>
          let '(w2, r2) :=
            fs_writeFile (getHookPath (id h)) (JSON_stringify h) w1 in
          match r2 with
          | Some e => (m, w2, Some e)
          | None => (with_hooks m (map_set (id h) h (hooks m)), w2, None)
          end
      end
  end.

Definition listHooks (m : Manager World) : list HookConfig := hooks m.

Definition getHook (hookId : jsstring) (m : Manager World)
  : option HookConfig := map_get hookId (hooks m).

(** [on]: the handler is appended to the listeners of the event type. *)
Definition on (eventType : HookEventType) (handler : HookEventHandler World)
    (m : Manager World) : Manager World :=
  {| hooks := hooks m;
     eventListeners := λ t,
       if bool_decide (t = eventType) then eventListeners m t ++ [handler]
       else eventListeners m t;
     messageSender := messageSender m; logger := logger m |}.

Definition replace_if_present (placeholder : jsstring)
    (value : option jsstring) (s : jsstring) : jsstring :=
  match value with
  | Some v => if truthy v then Replace.replace_all placeholder v s else s
  | None => s
  end.

Definition interpolateMessage (msg : jsstring) (context : HookContext)
  : jsstring :=
  replace_if_present (str "{event}") (event context)
    (replace_if_present (str "{message}") (message context)
       (replace_if_present (str "{filePath}") (filePath context) msg)).

Definition executeSendMessage (m : Manager World) (msg : jsstring)
    (context : HookContext) (w : World) : World * HookResult :=
  match messageSender m with
  | None =>
      (w, {| success := false; output := None;
             error := Some (str "No message sender configured") |})
  | Some sender =>
      let interpolatedMessage := interpolateMessage msg context in
      let '(w1, r) := sender interpolatedMessage w in
      match r with
      | None =>
          (w1, {| success := true; output := Some interpolatedMessage;
                  error := None |})
      | Some errorMessage =>
          (w1, {| success := false; output := None;
                  error := Some errorMessage |})
      end
  end.

Definition executeCommand (command : jsstring) (cwd : option jsstring)
    (w : World) : World * HookResult :=
  let '(w1, r) := execAsync command cwd w in
  match r with
  | inr (stdout, stderr) =>
      (w1, {| success := true;
              output := Some (if truthy stdout then stdout else stderr);
              error := None |})
  | inl errorMessage =>
      (w1, {| success := false; output := None; error := Some errorMessage |})
  end.

Definition executeHookAction (m : Manager World) (hook : HookConfig)
    (context : HookContext) (w : World) : World * HookResult :=
  match action hook with
  | send_message msg => executeSendMessage m msg context w
  | execute_command command cwd => executeCommand command cwd w
  end.

(** The characters that [matchesPattern] escapes: [. + ^ $ { } ( ) | [ ]]. *)
Definition regex_special (c : N) : bool :=
  bool_decide (c ∈ [46; 43; 94; 36; 123; 125; 40; 41; 124; 91; 93]%N).

(** [.replace(/[.+^${}()|[\]]/g, '\\$&')] *)
Definition escape_specials (s : jsstring) : jsstring :=
  s ≫= λ c, if regex_special c then [92%N; c] else [c].

(** The source of the regular expression that [matchesPattern] builds
    from a glob pattern: separators normalised, special characters escaped,
    [**] turned into [.*] and [*] into [[^/]*], the whole anchored. *)
Definition regex_source (pattern : jsstring) : jsstring :=
  let regexPattern :=
    escape_specials (Replace.replace_all (str "\") (str "/") pattern) in
  let regexPattern :=
    Replace.replace_all [0%N] (str ".*")
      (Replace.replace_all (str "*") (str "[^/]*")
         (Replace.replace_all (str "**") [0%N] regexPattern)) in
  str "^" ++ regexPattern ++ str "$".

Definition matchesPattern (path pattern : jsstring) : Exn + bool :=
  let normalizedPath := Replace.replace_all (str "\") (str "/") path in
  RegExp_test (regex_source pattern) normalizedPath.

(** The test made for each matching hook before its action runs:
    [inr false] is the [continue], [inl] a throw of [matchesPattern]. *)
Definition pattern_gate (hook : HookConfig) (context : HookContext)
  : Exn + bool :=
  match trigger hook, filePath context with
  | on_file_save (Some pattern), Some path =>
      if truthy pattern && truthy path then matchesPattern path pattern
      else inr true
  | _, _ => inr true
  end.

(** One call of an action as [emit] sees it: it throws or it returns a
    result. *)
Definition Executor :=
  HookConfig → HookContext → World → World * (Exn + HookResult).

(** The state of one [emit] call: the manager (whose logger grows), the
    world, and the outcome of every action run so far, in order. *)
Record Dispatch := {
  manager : Manager World;
  world : World;
  results : list (HookConfig * (Exn + HookResult))
}.

(** The [try] around one action. *)
Definition run_action (exec : Executor) (context : HookContext)
    (d : Dispatch) (hook : HookConfig) : Dispatch :=
  let '(w1, r) := exec hook context (world d) in
  let m1 :=
    match r with
    | inr result =>
        if negb (success result) && truthy_opt (error result) then
          log (manager d)
            (log_error (str "Hook '" ++ id hook ++ str "' execution failed: "
                        ++ default [] (error result)) None)
        else manager d
    | inl e =>
        log (manager d)
          (log_error (str "Hook '" ++ id hook ++ str "' execution failed")
             (Some e))
    end in
  {| manager := m1; world := w1; results := results d ++ [(hook, r)] |}.

(** The loop over the matching hooks.  A throw of the pattern test leaves
    the loop and the call. *)
Fixpoint run_hooks (exec : Executor) (context : HookContext)
    (l : list HookConfig) (d : Dispatch) : Dispatch * option Exn :=
  match l with
  | [] => (d, None)
  | hook :: r =>
      match pattern_gate hook context with
      | inl e => (d, Some e)
      | inr false => run_hooks exec context r d
      | inr true => run_hooks exec context r (run_action exec context d hook)
      end
  end.

(** The loop over the listeners of the event type. *)
Fixpoint notify_listeners (eventType : HookEventType) (context : HookContext)
    (l : list (HookEventHandler World)) (d : Dispatch) : Dispatch :=
  match l with
  | [] => d
  | handler :: r =>
      let '(w1, e) := handler context (world d) in
      let m1 :=
        match e with
        | None => manager d
        | Some err =>
            log (manager d)
              (log_error (str "Event handler for '" ++ event_name eventType
                          ++ str "' failed") (Some err))
        end in
      notify_listeners eventType context r
        {| manager := m1; world := w1; results := results d |}
  end.

Definition matching_hooks (eventType : HookEventType) (m : Manager World)
  : list HookConfig :=
  filter (λ hook, enabled hook = true ∧ trigger_type (trigger hook) = eventType)
    (hooks m).

(** [emit], with the call of [this.executeHookAction] left open. *)
Definition emit_with (exec : Executor) (eventType : HookEventType)
    (context : HookContext) (m : Manager World) (w : World)
  : Dispatch * option Exn :=
  let '(d, thrown) :=
    run_hooks exec context (matching_hooks eventType m)
      {| manager := m; world := w; results := [] |} in
  match thrown with
  | Some e => (d, Some e)
  | None =>
      (notify_listeners eventType context (eventListeners m eventType) d, None)
  end.

Definition emit (eventType : HookEventType) (context : HookContext)
    (m : Manager World) (w : World) : Dispatch * option Exn :=
  emit_with
    (λ hook context w,
       let '(w1, r) := executeHookAction m hook context w in (w1, inr r))
    eventType context m w.

Definition triggerByEvent := emit.

Definition triggerHook (hookId : jsstring) (context : HookContext)
    (m : Manager World) (w : World) : World * HookResult :=
  match map_get hookId (hooks m) with
  | None =>
      (w, {| success := false; output := None;
             error := Some (str "Hook '" ++ hookId ++ str "' not found") |})
  | Some hook =>
      if negb (enabled hook) then
        (w, {| success := false; output := None;
               error := Some (str "Hook '" ++ hookId ++ str "' is disabled") |})
      else executeHookAction m hook context w
  end.

End Methods.

End HookManager.

(** ** ConfigWatcher: debounced change notifications *)

Module ConfigWatcher.

Inductive ConfigChangeType := specs | hooks | steering.

Global Instance ConfigChangeType_eq_dec : EqDecision ConfigChangeType.
Proof. solve_decision. Defined.

Inductive WatchEventType := create | change | delete.

Global Instance WatchEventType_eq_dec : EqDecision WatchEventType.
Proof. solve_decision. Defined.

Record WatchEvent := { type : WatchEventType; path : jsstring }.

Global Instance WatchEvent_eq_dec : EqDecision WatchEvent.
Proof. solve_decision. Defined.

Record ConfigChangeEvent := {
  change_type : ConfigChangeType;
  event : WatchEvent
}.

Global Instance ConfigChangeEvent_eq_dec : EqDecision ConfigChangeEvent.
Proof. solve_decision. Defined.

Definition type_name (t : ConfigChangeType) : jsstring :=
  match t with
  | specs => str "specs"
  | hooks => str "hooks"
  | steering => str "steering"
  end.

Definition CONFIG_PATHS : list (ConfigChangeType * jsstring) :=
  [(specs, str ".kiro/specs"); (hooks, str ".kiro/hooks");
   (steering, str ".kiro/steering")].

Definition DEFAULT_DEBOUNCE_MS : nat := 100.

(** [`${type}:${event.path}`] *)
Definition debounceKey (t : ConfigChangeType) (e : WatchEvent) : jsstring :=
  type_name t ++ str ":" ++ path e.

(** A timer of the host that has been set and has neither fired nor been
    cleared: its handle, the time at which it is due, and what its callback
    closes over. *)
Record Timer := {
  handle : nat;
  due : nat;
  timer_key : jsstring;
  timer_type : ConfigChangeType;
  timer_event : WatchEvent
}.

(** A handler registered with [onConfigChange], known by a number. *)
Definition ConfigChangeHandler := nat.

(** The watcher together with the part of the host it lives in: the clock
    (in milliseconds), the timers that are set, the subscriptions held by the
    filesystem adapter, and the calls of handlers made so far. *)
Record Watcher := {
  debounceMs : nat;
  watchers : list ConfigChangeType;
  handlers : list ConfigChangeHandler;
  watching : bool;
  debounceTimers : gmap jsstring nat;
  now : nat;
  next_handle : nat;
  timers : list Timer;
  notified : list (ConfigChangeHandler * ConfigChangeEvent)
}.

Definition new_watcher (ms : nat) : Watcher :=
  {| debounceMs := ms; watchers := []; handlers := []; watching := false;
     debounceTimers := ∅; now := 0; next_handle := 1; timers := [];
     notified := [] |}.

(** [start]: one subscription per watched root, whose callback passes the
    root's category to [handleChange]. *)
Definition start (w : Watcher) : Watcher :=
  if watching w then w
  else
    {| debounceMs := debounceMs w;
       watchers := watchers w ++ (CONFIG_PATHS.*1);
       handlers := handlers w; watching := true;
       debounceTimers := debounceTimers w; now := now w;
       next_handle := next_handle w; timers := timers w;
       notified := notified w |}.

(** [clearTimeout] *)
Definition clearTimeout (h : nat) (l : list Timer) : list Timer :=
  filter (λ t, handle t ≠ h) l.

(** [stop]: the subscriptions are disposed, every timer held in
    [debounceTimers] is cleared and the map is emptied. *)
Definition stop (w : Watcher) : Watcher :=
  if negb (watching w) then w
  else
    {| debounceMs := debounceMs w; watchers := []; handlers := handlers w;
       watching := false; debounceTimers := ∅; now := now w;
       next_handle := next_handle w;
       timers :=
         foldr clearTimeout (timers w) ((map_to_list (debounceTimers w)).*2);
       notified := notified w |}.

Definition onConfigChange (h : ConfigChangeHandler) (w : Watcher) : Watcher :=
  {| debounceMs := debounceMs w; watchers := watchers w;
     handlers := handlers w ++ [h]; watching := watching w;
     debounceTimers := debounceTimers w; now := now w;
     next_handle := next_handle w; timers := timers w;
     notified := notified w |}.

(** [indexOf] and [splice(index, 1)] *)
Fixpoint remove_first (h : ConfigChangeHandler) (l : list ConfigChangeHandler)
  : list ConfigChangeHandler :=
  match l with
  | [] => []
  | x :: r => if bool_decide (x = h) then r else x :: remove_first h r
  end.

(** [dispose] of the value returned by [onConfigChange]. *)
Definition dispose_handler (h : ConfigChangeHandler) (w : Watcher) : Watcher :=
  {| debounceMs := debounceMs w; watchers := watchers w;
     handlers := remove_first h (handlers w); watching := watching w;
     debounceTimers := debounceTimers w; now := now w;
     next_handle := next_handle w; timers := timers w;
     notified := notified w |}.

(** [handleChange]: the timer of the key, if there is one, is cleared and a
    new one is set. *)
Definition handleChange (t : ConfigChangeType) (e : WatchEvent) (w : Watcher)
  : Watcher :=
  let key := debounceKey t e in
  let cleared :=
    match debounceTimers w !! key with
    | Some existingTimer => clearTimeout existingTimer (timers w)
    | None => timers w
    end in
  let timer :=
    {| handle := next_handle w; due := now w + debounceMs w;
       timer_key := key; timer_type := t; timer_event := e |} in
  {| debounceMs := debounceMs w; watchers := watchers w;
     handlers := handlers w; watching := watching w;
     debounceTimers := <[key := next_handle w]> (debounceTimers w);
     now := now w; next_handle := S (next_handle w);
     timers := cleared ++ [timer]; notified := notified w |}.

(** [notifyHandlers]: every handler is called, whether or not an earlier
    one threw. *)
Definition notifyHandlers (e : ConfigChangeEvent) (w : Watcher) : Watcher :=
  {| debounceMs := debounceMs w; watchers := watchers w;
     handlers := handlers w; watching := watching w;
     debounceTimers := debounceTimers w; now := now w;
     next_handle := next_handle w; timers := timers w;
     notified := notified w ++ ((λ h, (h, e)) <$> handlers w) |}.

(** The callback of a timer. *)
Definition timer_callback (t : Timer) (w : Watcher) : Watcher :=
  notifyHandlers {| change_type := timer_type t; event := timer_event t |}
    {| debounceMs := debounceMs w; watchers := watchers w;
       handlers := handlers w; watching := watching w;
       debounceTimers := base.delete (timer_key t) (debounceTimers w);
       now := now w; next_handle := next_handle w; timers := timers w;
       notified := notified w |}.

(** A raw event from the filesystem adapter for the root of category [t]:
    it reaches [handleChange] when the subscription for [t] is live. *)
Definition raw_event (t : ConfigChangeType) (e : WatchEvent) (w : Watcher)
  : Watcher :=
  if bool_decide (t ∈ watchers w) then handleChange t e w else w.

(** The host lets [ms] milliseconds pass and runs the callbacks of the
    timers that have become due, oldest first.  All timers are set with the
    same delay, so the oldest is the one due first. *)
Definition elapse (ms : nat) (w : Watcher) : Watcher :=
  let t1 := now w + ms in
  foldl (λ w t, timer_callback t w)
    {| debounceMs := debounceMs w; watchers := watchers w;
       handlers := handlers w; watching := watching w;
       debounceTimers := debounceTimers w; now := t1;
       next_handle := next_handle w;
       timers := filter (λ t, t1 < due t) (timers w);
       notified := notified w |}
    (filter (λ t, due t ≤ t1) (timers w)).

(** What can happen to a watcher. *)
Inductive Input :=
| Start
| Stop
| OnConfigChange (h : ConfigChangeHandler)
| Dispose (h : ConfigChangeHandler)
| RawEvent (t : ConfigChangeType) (e : WatchEvent)
| Elapse (ms : nat).

Definition step (w : Watcher) (i : Input) : Watcher :=
  match i with
  | Start => start w
  | Stop => stop w
  | OnConfigChange h => onConfigChange h w
  | Dispose h => dispose_handler h w
  | RawEvent t e => raw_event t e w
  | Elapse ms => elapse ms w
  end.

Definition run (w : Watcher) (l : list Input) : Watcher := foldl step w l.

End ConfigWatcher.

(** ** ConfigReloader: reload of the three configuration categories *)

Module ConfigReloader.
Import ConfigWatcher.

Inductive LogEntry :=
| log_info (text : jsstring)
| log_error (text : jsstring) (err : Exn).

(** A manager, seen through the one method the reloader calls: [None] when
    the refresh resolves, [Some e] when it rejects with [e]. *)
Definition Refresh := option Exn.

Record Reloader := {
  specManager : option Refresh;
  hookManager : option Refresh;
  steeringManager : option Refresh
}.

(** One category reload: what it tells the logger and how its promise
    settles.  The [catch] logs and throws again. *)
Definition reload (manager : option Refresh) (done failed : jsstring)
  : list LogEntry * option Exn :=
  match manager with
  | None => ([], None)
  | Some None => ([log_info done], None)
  | Some (Some e) => ([log_error failed e], Some e)
  end.

Definition reloadSpecs (r : Reloader) : list LogEntry * option Exn :=
  reload (specManager r) (str "Specs reloaded") (str "Failed to reload specs").

Definition reloadHooks (r : Reloader) : list LogEntry * option Exn :=
  reload (hookManager r) (str "Hooks reloaded") (str "Failed to reload hooks").

Definition reloadSteering (r : Reloader) : list LogEntry * option Exn :=
  reload (steeringManager r) (str "Steering files reloaded")
    (str "Failed to reload steering files").

Definition reload_category (r : Reloader) (t : ConfigChangeType)
  : list LogEntry * option Exn :=
  match t with
  | specs => reloadSpecs r
  | hooks => reloadHooks r
  | steering => reloadSteering r
  end.

(** [handleConfigChange]: the reload of the category, with a [catch] that
    logs; nothing is thrown. *)
Definition handleConfigChange (r : Reloader) (e : ConfigChangeEvent)
  : list LogEntry :=
  let '(l, thrown) := reload_category r (change_type e) in
  match thrown with
  | None => l
  | Some err =>
      l ++ [log_error (str "Failed to reload " ++ type_name (change_type e)) err]
  end.

(** [Promise.all] over promises that settle in the order [l]: it rejects
    with the first rejection, at that point, and otherwise fulfils when the
    last one has.  The result is the settlement of the combined promise and
    the promises that had settled by then. *)
Fixpoint promise_all {A} (l : list (A * option Exn)) : option Exn * list A :=
  match l with
  | [] => (None, [])
  | (a, Some e) :: _ => (Some e, [a])
  | (a, None) :: r => let '(o, s) := promise_all r in (o, a :: s)
  end.

Record ReloadAll := {
  thrown : option Exn;
  settled : list ConfigChangeType;
  logged : list LogEntry
}.

(** [reloadAll].  The three reloads are started one after the other and
    run concurrently; [order] is the order in which they settle.  [thrown]
    is how the promise of [reloadAll] settles, [settled] the reloads that had
    settled when it did, [logged] what the logger has been told once all
    three have. *)
Definition reloadAll (r : Reloader) (order : list ConfigChangeType)
  : ReloadAll :=
  let outcome := promise_all ((λ t, (t, (reload_category r t).2)) <$> order) in
  {| thrown := outcome.1;
     settled := outcome.2;
     logged := order ≫= λ t, (reload_category r t).1 |}.

End ConfigReloader.

(** ** Doubles of the collaborators, as the tests of the repository use *)

Module Fixtures.
Import HookManager.

(** An in-memory world: the directories made, the files written and the
    messages delivered to the agent. *)
Record Memory := {
  dirs : list jsstring;
  files : list (jsstring * jsstring);
  sent : list jsstring
}.

Definition empty_memory : Memory := {| dirs := []; files := []; sent := [] |}.

(** An in-memory filesystem adapter.  Writing to the empty path throws. *)
Global Instance memory_fs : FileSystemAdapter Memory := {|
  fs_mkdir p w :=
    ({| dirs := dirs w ++ [p]; files := files w; sent := sent w |}, None);
  fs_writeFile p body w :=
    if bool_decide (p = []) then (w, Some (str "ENOENT"))
    else
      ({| dirs := dirs w;
          files := filter (λ f, f.1 ≠ p) (files w) ++ [(p, body)];
          sent := sent w |}, None);
  fs_delete p w :=
    ({| dirs := dirs w; files := filter (λ f, f.1 ≠ p) (files w);
        sent := sent w |}, None)
|}.

(** A host in which the command [true] succeeds and every other command
    fails, a regular expression that begins with a quantifier is refused and
    any other is taken literally, and a hook is serialised to its id. *)
Global Instance memory_host : Host Memory := {|
  execAsync command cwd w :=
    if bool_decide (command = str "true") then (w, inr ([], []))
    else (w, inl (str "Command failed: " ++ command));
  RegExp_test source input :=
    match Replace.strip_prefix (str "^?") source with
    | Some _ => inl (str "Invalid regular expression: Nothing to repeat")
    | None => inr (bool_decide (source = str "^" ++ input ++ str "$"))
    end;
  JSON_stringify hook := id hook
|}.

(** The sender of the failure-isolation tests: it throws an error with the
    given text on the message [fail] and delivers any other message. *)
Definition testSender (text : jsstring) : IMessageSender Memory :=
  λ msg w,
    if bool_decide (msg = str "fail") then (w, Some text)
    else ({| dirs := dirs w; files := files w; sent := sent w ++ [msg] |}, None).

Definition hook_input (i n : string) (t : HookTrigger) (a : ActionInput)
  : HookInput :=
  {| in_id := str i; in_name := str n; in_description := None;
     in_trigger := t; in_action := a; in_enabled := true;
     in_conditions := None |}.

Definition failingHook : HookInput :=
  hook_input "failing-hook" "Failing Hook" on_message_sent
    (send_message_input (Some (str "fail"))).

Definition successHook : HookInput :=
  hook_input "success-hook" "Success Hook" on_message_sent
    (send_message_input (Some (str "success"))).

Definition tsHook : HookInput :=
  hook_input "ts-hook" "TypeScript Hook" (on_file_save (Some (str "**/*.ts")))
    (send_message_input (Some (str "Saved {filePath}"))).

(** The same id as [failingHook], another name and action. *)
Definition failingHook_again : HookInput :=
  hook_input "failing-hook" "Second Registration" on_manual
    (execute_command_input (Some (str "true")) None).

(** A [send_message] action whose message is the empty string. *)
Definition emptyMessageHook : HookInput :=
  hook_input "quiet-hook" "Quiet Hook" on_manual
    (send_message_input (Some [])).

(** A [send_message] action without a message. *)
Definition noMessageHook : HookInput :=
  hook_input "test-hook" "Test Hook" on_manual (send_message_input None).

(** A hook restricted by a pattern that begins with a question mark. *)
Definition questionHook : HookInput :=
  hook_input "question-hook" "Question Hook" (on_file_save (Some (str "?.ts")))
    (send_message_input (Some (str "Saved {filePath}"))).

(** Registration of a list of hooks, one after the other, on a manager. *)
Definition register_all (l : list HookInput) (m : Manager Memory) (w : Memory)
  : Manager Memory * Memory :=
  foldl (λ mw h, (registerHook h mw.1 mw.2).1) (m, w) l.

(** An executor under which the action of [failing-hook] throws and every
    other action succeeds. *)
Definition throwing_executor : @Executor Memory :=
  λ hook context w,
    if bool_decide (id hook = str "failing-hook") then (w, inl (str "boom"))
    else (w, inr {| success := true; output := None; error := None |}).

(** The manager of the failure-isolation test: [failing-hook] registered
    before [success-hook], and a sender that throws an error with an empty
    message on [fail]. *)
Definition isolation_manager : Manager Memory * Memory :=
  register_all [failingHook; successHook]
    (setMessageSender (testSender []) new_manager) empty_memory.

(** The manager with the TypeScript hook of the pattern tests. *)
Definition pattern_manager : Manager Memory * Memory :=
  register_all [tsHook]
    (setMessageSender (testSender []) new_manager) empty_memory.

(** A reloader whose spec manager fails to list the specs. *)
Definition failing_specs : ConfigReloader.Reloader :=
  {| ConfigReloader.specManager := Some (Some (str "EIO: read error"));
     ConfigReloader.hookManager := Some None;
     ConfigReloader.steeringManager := Some None |}.

(** The scenario of the debounce test: a watcher with a delay of 100 ms
    and one handler, three writes to the same spec file, then 150 ms. *)
Definition file_md : jsstring := str ".kiro/specs/test/file.md".

Definition three_writes : list ConfigWatcher.Input :=
  [ConfigWatcher.RawEvent ConfigWatcher.specs
     {| ConfigWatcher.type := ConfigWatcher.change;
        ConfigWatcher.path := file_md |};
   ConfigWatcher.RawEvent ConfigWatcher.specs
     {| ConfigWatcher.type := ConfigWatcher.change;
        ConfigWatcher.path := file_md |}].

End Fixtures.

(** ** IFileSystemAdapter and InMemoryFileSystemAdapter *)

Module FileSystem.

(** The read side of [IFileSystemAdapter]. *)
Class FileSystemReader (World : Type) := {
  fs_readFile : jsstring → World → World * (Exn + jsstring);
  fs_exists : jsstring → World → World * (Exn + bool);
  fs_readdir : jsstring → World → World * (Exn + list jsstring)
}.

End FileSystem.

Module MemoryFS.
Import FileSystem.

(** A [Map] with string keys, in insertion order. *)
Section StringMap.
Context {V : Type}.

Fixpoint map_get (k : jsstring) (m : list (jsstring * V)) : option V :=
  match m with
  | [] => None
  | (k', v) :: r => if bool_decide (k' = k) then Some v else map_get k r
  end.

Definition map_has (k : jsstring) (m : list (jsstring * V)) : bool :=
  bool_decide (is_Some (map_get k m)).

(** [set]: an existing key keeps its place, a new one goes last. *)
Fixpoint map_set (k : jsstring) (v : V) (m : list (jsstring * V))
  : list (jsstring * V) :=
  match m with
  | [] => [(k, v)]
  | (k', v') :: r =>
      if bool_decide (k' = k) then (k, v) :: r else (k', v') :: map_set k v r
  end.

Definition map_delete (k : jsstring) (m : list (jsstring * V))
  : list (jsstring * V) :=
  filter (λ e, e.1 ≠ k) m.

End StringMap.

(** [s.startsWith(p)] *)
Definition startsWith (p s : jsstring) : bool :=
  bool_decide (is_Some (Replace.strip_prefix p s)).

Definition slash : N := 47.
Definition backslash : N := 92.

Fixpoint drop_slashes (s : jsstring) : jsstring :=
  match s with
  | c :: r => if bool_decide (c = slash) then drop_slashes r else s
  | [] => []
  end.

(** [filePath.replace(/\\/g, '/').replace(/^\/+/, '').replace(/\/+$/, '')] *)
Definition normalizePath (filePath : jsstring) : jsstring :=
  reverse (drop_slashes (reverse (drop_slashes
    ((λ c, if bool_decide (c = backslash) then slash else c) <$> filePath)))).

(** [relativePath.split('/')[0]] *)
Fixpoint first_segment (s : jsstring) : jsstring :=
  match s with
  | c :: r => if bool_decide (c = slash) then [] else c :: first_segment r
  | [] => []
  end.

(** The adapter: its two maps, and the calls of watch callbacks it has
    made.  A callback registered with [watch] is known by a value of [C]. *)
Record Adapter (C : Type) := {
  files : list (jsstring * jsstring);
  watchers : list (jsstring * list C);
  notified : list (C * ConfigWatcher.WatchEvent)
}.
Arguments files {C}.
Arguments watchers {C}.
Arguments notified {C}.

Section Methods.
Context {C : Type} `{EqDecision C}.

Definition new_adapter : Adapter C :=
  {| files := []; watchers := []; notified := [] |}.

Definition hasDirectory (dirPath : jsstring) (a : Adapter C) : bool :=
  bool_decide (Exists (λ f, startsWith (dirPath ++ [slash]) f.1 = true)
                 (files a)).

Definition notifyWatchers (filePath : jsstring)
    (eventType : ConfigWatcher.WatchEventType) (a : Adapter C) : Adapter C :=
  {| files := files a; watchers := watchers a;
     notified :=
       notified a
       ++ (watchers a ≫= λ '(pattern, callbacks),
             if startsWith pattern filePath || bool_decide (pattern = filePath)
             then (λ cb, (cb, {| ConfigWatcher.type := eventType;
                                 ConfigWatcher.path := filePath |}))
                    <$> callbacks
             else []) |}.

Definition readFile (filePath : jsstring) (a : Adapter C) : Exn + jsstring :=
  match map_get (normalizePath filePath) (files a) with
  | Some content => inr content
  | None =>
      inl (str "ENOENT: no such file or directory, open '" ++ filePath
           ++ str "'")
  end.

Definition writeFile (filePath content : jsstring) (a : Adapter C)
  : Adapter C :=
  let normalizedPath := normalizePath filePath in
  let isNew := negb (map_has normalizedPath (files a)) in
  notifyWatchers normalizedPath
    (if isNew then ConfigWatcher.create else ConfigWatcher.change)
    {| files := map_set normalizedPath content (files a);
       watchers := watchers a; notified := notified a |}.

Definition exists_ (filePath : jsstring) (a : Adapter C) : bool :=
  let normalizedPath := normalizePath filePath in
  map_has normalizedPath (files a) || hasDirectory normalizedPath a.

Definition mkdir (dirPath : jsstring) (a : Adapter C) : Adapter C := a.

(** [entries.add]: a [Set] keeps the first occurrence. *)
Definition set_add (e : jsstring) (s : list jsstring) : list jsstring :=
  if bool_decide (e ∈ s) then s else s ++ [e].

Definition readdir (dirPath : jsstring) (a : Adapter C) : list jsstring :=
  let normalizedDir := normalizePath dirPath in
  foldl (λ entries f,
           match Replace.strip_prefix (normalizedDir ++ [slash]) f.1 with
           | Some relativePath => set_add (first_segment relativePath) entries
           | None => entries
           end)
    [] (files a).

Definition watch (pattern : jsstring) (callback : C) (a : Adapter C)
  : Adapter C :=
  let normalizedPattern := normalizePath pattern in
  {| files := files a;
     watchers :=
       map_set normalizedPattern
         (default [] (map_get normalizedPattern (watchers a)) ++ [callback])
         (watchers a);
     notified := notified a |}.

(** [indexOf] and [splice(index, 1)] *)
Fixpoint remove_first (callback : C) (l : list C) : list C :=
  match l with
  | [] => []
  | x :: r => if bool_decide (x = callback) then r else x :: remove_first callback r
  end.

(** [dispose] of the value that [watch(pattern, callback)] returned. *)
Definition dispose (pattern : jsstring) (callback : C) (a : Adapter C)
  : Adapter C :=
  let normalizedPattern := normalizePath pattern in
  match map_get normalizedPattern (watchers a) with
  | Some cbs =>
      {| files := files a;
         watchers := map_set normalizedPattern (remove_first callback cbs)
                       (watchers a);
         notified := notified a |}
  | None => a
  end.

Definition delete (targetPath : jsstring) (a : Adapter C) : Adapter C :=
  let normalizedPath := normalizePath targetPath in
  if map_has normalizedPath (files a) then
    notifyWatchers normalizedPath ConfigWatcher.delete
      {| files := map_delete normalizedPath (files a);
         watchers := watchers a; notified := notified a |}
  else
    let prefix := normalizedPath ++ [slash] in
    let toDelete := filter (λ f, startsWith prefix f = true) (files a).*1 in
    foldl (λ a filePath,
             notifyWatchers filePath ConfigWatcher.delete
               {| files := map_delete filePath (files a);
                  watchers := watchers a; notified := notified a |})
      a toDelete.

Definition clear (a : Adapter C) : Adapter C :=
  {| files := []; watchers := []; notified := notified a |}.

Definition getFiles (a : Adapter C) : list (jsstring * jsstring) := files a.

Global Instance memory_adapter : FileSystemAdapter (Adapter C) := {|
  JS.fs_mkdir p a := (mkdir p a, None);
  JS.fs_writeFile p body a := (writeFile p body a, None);
  JS.fs_delete p a := (delete p a, None)
|}.

Global Instance memory_reader : FileSystemReader (Adapter C) := {|
  fs_readFile p a := (a, readFile p a);
  fs_exists p a := (a, inr (exists_ p a));
  fs_readdir p a := (a, inr (readdir p a))
|}.

End Methods.

End MemoryFS.

(** ** HookManager: the hooks on disk *)

Module HookStore.
Import FileSystem HookManager.

(** What [removeHook], [loadHooks] and [setHookEnabled] ask of the host
    beyond [Host]: the read side of the filesystem adapter and
    [JSON.parse], whose result [loadHooks] takes at the type [HookConfig]. *)
Class Store (World : Type) := {
  store_host :: Host World;
  store_reader :: FileSystemReader World;
  JSON_parse : jsstring → Exn + HookConfig
}.

(** [hook.enabled = enabled], on the object that the map holds. *)
Definition set_enabled (hook : HookConfig) (b : bool) : HookConfig :=
  {| id := id hook; name := name hook; description := description hook;
     trigger := trigger hook; action := action hook; enabled := b;
     conditions := conditions hook |}.

(** [s.endsWith(suffix)] *)
Definition endsWith (suffix s : jsstring) : bool :=
  bool_decide (is_Some (Replace.strip_prefix (reverse suffix) (reverse s))).

Section Methods.
Context {World : Type} `{Store World}.

(** [Map.prototype.delete] on the map of hooks. *)
Definition map_delete (k : jsstring) (l : list HookConfig) : list HookConfig :=
  filter (λ h, id h ≠ k) l.

Definition removeHook (hookId : jsstring) (m : Manager World) (w : World)
  : Manager World * World * option Exn :=
  let hookPath := getHookPath hookId in
  let '(w1, r1) := fs_exists hookPath w in
  match r1 with
  | inl e => (m, w1, Some e)
  | inr present =>
      let '(w2, r2) := if present then fs_delete hookPath w1 else (w1, None) in
      match r2 with
      | Some e => (m, w2, Some e)
      | None => (with_hooks m (map_delete hookId (hooks m)), w2, None)
      end
  end.

(** The body of the loop of [loadHooks], with its [try]. *)
Definition load_entry (st : Manager World * World) (entry : jsstring)
  : Manager World * World :=
  if endsWith (str ".json") entry then
    let hookPath := hooksBasePath ++ str "/" ++ entry in
    let '(w1, r) := fs_readFile hookPath st.2 in
    match r with
    | inl e =>
        (log st.1 (log_error (str "Failed to load hook from " ++ entry)
                     (Some e)), w1)
    | inr content =>
        match @JSON_parse World _ content with
        | inl e =>
            (log st.1 (log_error (str "Failed to load hook from " ++ entry)
                         (Some e)), w1)
        | inr hook => (with_hooks st.1 (map_set (id hook) hook (hooks st.1)), w1)
        end
    end
  else st.

Definition loadHooks (m : Manager World) (w : World)
  : Manager World * World * option Exn :=
  let m0 := with_hooks m [] in
  let '(w1, r1) := fs_exists hooksBasePath w in
  match r1 with
  | inl e => (m0, w1, Some e)
  | inr false => (m0, w1, None)
  | inr true =>
      let '(w2, r2) := fs_readdir hooksBasePath w1 in
      match r2 with
      | inl e => (m0, w2, Some e)
      | inr entries => (foldl load_entry (m0, w2) entries, None)
      end
  end.

(** [setHookEnabled]: the flag is set on the hook in the map before the
    file is written. *)
Definition setHookEnabled (hookId : jsstring) (enabled : bool)
    (m : Manager World) (w : World) : Manager World * World * option Exn :=
  match map_get hookId (hooks m) with
  | None => (m, w, Some (str "Hook '" ++ hookId ++ str "' not found"))
  | Some hook =>
      let hook := set_enabled hook enabled in
      let m1 := with_hooks m (map_set hookId hook (hooks m)) in
      let '(w1, r) :=
        fs_writeFile (getHookPath hookId) (@JSON_stringify World _ hook) w in
      (m1, w1, r)
  end.

End Methods.

End HookStore.

(** ** StartupLoader: loading of the three configuration categories *)

Module StartupLoader.
Import ConfigWatcher.

(** What a promise has been rejected with, seen through [reason?.message]:
    the text of its message, if it has one. *)
Definition Reason := option jsstring.

Record StartupLoadError := {
  error_type : ConfigChangeType;
  error_message : jsstring;
  error_reason : Reason
}.

Inductive LogEntry :=
| log_info (text : jsstring)
| log_error (text : jsstring) (err : Reason).

Section Loader.
Variables SpecSummary SteeringFile : Type.

Record StartupLoadResult := {
  specs_loaded : list SpecSummary;
  hooks_loaded : list HookManager.HookConfig;
  steeringFiles_loaded : list SteeringFile;
  errors : list StartupLoadError
}.

(** The hook manager, seen through the two calls that the loader makes,
    one after the other. *)
Record HookCalls := {
  hm_loadHooks : option Reason;
  hm_listHooks : Reason + list HookManager.HookConfig
}.

(** The managers, each seen through how its calls settle. *)
Record Loader := {
  specManager : option (Reason + list SpecSummary);
  hookManager : option HookCalls;
  steeringManager : option (Reason + list SteeringFile)
}.

Definition loadSpecs (l : Loader) : Reason + list SpecSummary :=
  match specManager l with
  | None => inr []
  | Some listSpecs => listSpecs
  end.

Definition loadHooks (l : Loader) : Reason + list HookManager.HookConfig :=
  match hookManager l with
  | None => inr []
  | Some hm =>
      match hm_loadHooks hm with
      | Some reason => inl reason
      | None => hm_listHooks hm
      end
  end.

Definition loadSteeringFiles (l : Loader) : Reason + list SteeringFile :=
  match steeringManager l with
  | None => inr []
  | Some loadSteeringFiles => loadSteeringFiles
  end.

(** [reason?.message || fallback] *)
Definition message_or (reason : Reason) (fallback : jsstring) : jsstring :=
  match reason with
  | Some text => if truthy text then text else fallback
  | None => fallback
  end.

(** The treatment of one settled result in [loadAll]: the value taken, the
    error recorded and what the logger is told. *)
Definition process {A} (settled : Reason + list A) (t : ConfigChangeType)
    (noun failed : jsstring)
  : list A * list StartupLoadError * list LogEntry :=
  match settled with
  | inr value =>
      (value, [],
       [log_info (str "Loaded " ++ of_number (N.of_nat (length value))
                  ++ str " " ++ noun)])
  | inl reason =>
      ([], [{| error_type := t; error_message := message_or reason failed;
               error_reason := reason |}],
       [log_error failed reason])
  end.

(** [loadAll]: the three loads are awaited with [Promise.allSettled], then
    their results are treated in turn. *)
Definition loadAll (l : Loader) : StartupLoadResult * list LogEntry :=
  let '(specs_, e1, l1) :=
    process (loadSpecs l) specs (str "spec(s)") (str "Failed to load specs") in
  let '(hooks_, e2, l2) :=
    process (loadHooks l) hooks (str "hook(s)") (str "Failed to load hooks") in
  let '(steering_, e3, l3) :=
    process (loadSteeringFiles l) steering (str "steering file(s)")
      (str "Failed to load steering files") in
  ({| specs_loaded := specs_; hooks_loaded := hooks_;
      steeringFiles_loaded := steering_; errors := e1 ++ e2 ++ e3 |},
   [log_info (str "Starting configuration loading...")]
   ++ l1 ++ l2 ++ l3 ++ [log_info (str "Configuration loading complete")]).

End Loader.

Arguments specs_loaded {_ _}.
Arguments hooks_loaded {_ _}.
Arguments steeringFiles_loaded {_ _}.
Arguments errors {_ _}.
Arguments specManager {_ _}.
Arguments hookManager {_ _}.
Arguments steeringManager {_ _}.
Arguments loadSpecs {_ _}.
Arguments loadHooks {_ _}.
Arguments loadSteeringFiles {_ _}.
Arguments loadAll {_ _}.

End StartupLoader.

(** ** ConfigReloader: the watcher it owns *)

Module HotReload.
Import ConfigWatcher.

(** A reloader with the watcher it has made for itself.  The handler that
    [start] registers is a new function each time; it is known by a number,
    and [next_handler] is the number of the next one. *)
Record Running := {
  watcher : Watcher;
  watcherDisposable : option ConfigChangeHandler;
  running : bool;
  logger : list ConfigReloader.LogEntry;
  next_handler : ConfigChangeHandler
}.

Definition new_reloader (debounceMs : nat) : Running :=
  {| watcher := new_watcher debounceMs; watcherDisposable := None;
     running := false; logger := []; next_handler := 0 |}.

Definition start (s : Running) : Running :=
  if running s then s
  else
    {| watcher :=
         ConfigWatcher.start (onConfigChange (next_handler s) (watcher s));
       watcherDisposable := Some (next_handler s);
       running := true;
       logger :=
         logger s
         ++ [ConfigReloader.log_info (str "Configuration hot reload started")];
       next_handler := S (next_handler s) |}.

Definition stop (s : Running) : Running :=
  if negb (running s) then s
  else
    let stopped := ConfigWatcher.stop (watcher s) in
    {| watcher :=
         match watcherDisposable s with
         | Some handler => dispose_handler handler stopped
         | None => stopped
         end;
       watcherDisposable := None;
       running := false;
       logger :=
         logger s
         ++ [ConfigReloader.log_info (str "Configuration hot reload stopped")];
       next_handler := next_handler s |}.

Definition isRunning (s : Running) : bool := running s.

(** What can happen to a reloader: its two methods, a raw event from the
    filesystem adapter, and the passing of time. *)
Inductive Event :=
| StartReloader
| StopReloader
| Changed (t : ConfigChangeType) (e : WatchEvent)
| Passed (ms : nat).

Definition with_watcher (s : Running) (w : Watcher) : Running :=
  {| watcher := w; watcherDisposable := watcherDisposable s;
     running := running s; logger := logger s;
     next_handler := next_handler s |}.

Definition react (s : Running) (ev : Event) : Running :=
  match ev with
  | StartReloader => start s
  | StopReloader => stop s
  | Changed t e => with_watcher s (raw_event t e (watcher s))
  | Passed ms => with_watcher s (elapse ms (watcher s))
  end.

(** The change events with which the handler of the reloader has been
    called, each of which starts one [handleConfigChange]. *)
Definition reloads (s : Running) : list ConfigChangeEvent :=
  (notified (watcher s)).*2.

End HotReload.

(** ** AgentController: messages and tasks *)

Module AgentTasks.
Import AgentController.

Inductive AgentEvent :=
| message_sent | response_received | task_started | task_completed.

Global Instance AgentEvent_eq_dec : EqDecision AgentEvent.
Proof. solve_decision. Defined.

Inductive FileReferenceType := file | folder.

Global Instance FileReferenceType_eq_dec : EqDecision FileReferenceType.
Proof. solve_decision. Defined.

Record FileReference := {
  ref_path : jsstring;
  ref_type : FileReferenceType
}.

Record ContextOverride := {
  override_spec : option jsstring;
  override_taskId : option jsstring;
  override_manualSteering : option (list jsstring)
}.

Record UserMessage := {
  message_content : jsstring;
  attachments : option (list FileReference);
  context : option ContextOverride
}.

Inductive ResponseStatus := success | error | pending_approval.

Global Instance ResponseStatus_eq_dec : EqDecision ResponseStatus.
Proof. solve_decision. Defined.

Record AgentResponse := {
  response_content : jsstring;
  codeChanges : option (list CodeChange);
  status : ResponseStatus
}.

Record TaskResult := {
  task_success : bool;
  result_taskId : jsstring;
  task_output : option jsstring;
  task_error : option jsstring;
  task_codeChanges : option (list CodeChange)
}.

Record ContextRequest := {
  request_message : jsstring;
  request_spec : option jsstring;
  request_taskId : option jsstring;
  explicitFiles : option (list jsstring);
  explicitFolders : option (list jsstring);
  manualSteering : option (list jsstring)
}.

Inductive TaskState := not_started | in_progress | completed.

Global Instance TaskState_eq_dec : EqDecision TaskState.
Proof. solve_decision. Defined.

#[warnings="-register-all"]
Inductive Task := {
  task_id : jsstring;
  task_description : jsstring;
  task_status : TaskState;
  subTasks : option (list Task);
  task_requirements : option (list jsstring)
}.

(** [requirements] and [design] are [string | null]. *)
Record SpecContext := {
  spec_name : jsstring;
  spec_requirements : option jsstring;
  spec_design : option jsstring;
  currentTask : option Task
}.

Record FileContent := {
  file_path : jsstring;
  file_content : jsstring
}.

(** The fields of [AgentContext] that the controller reads. *)
Record AgentContext := {
  systemPrompt : jsstring;
  steeringContent : jsstring;
  specContext : option SpecContext;
  fileContents : list FileContent
}.

(** A thrown value, as the [catch] clauses look at it: an [Error] with its
    message, or something else. *)
Inductive Thrown := Error (text : jsstring) | NotAnError.

Global Instance Thrown_eq_dec : EqDecision Thrown.
Proof. solve_decision. Defined.

(** [error instanceof Error ? error.message : 'Unknown error'] *)
Definition errorMessage (t : Thrown) : jsstring :=
  match t with
  | Error text => text
  | NotAnError => str "Unknown error"
  end.

(** The data handed to the handlers of an event. *)
Inductive EventData :=
| message_data (message : UserMessage)
| response_data (response : jsstring) (pendingChangeId : option jsstring)
| task_data (specName taskId : jsstring).

(** The collaborators: the hook manager, the context manager and the spec
    manager, each through the method that the controller calls, with
    [JSON.stringify] on a task and [new Date()]. *)
Class Collaborators (World : Type) := {
  triggerByEvent : HookManager.HookEventType → HookManager.HookContext
                   → World → World * option Thrown;
  buildContext : ContextRequest → World → World * (Thrown + AgentContext);
  setTaskStatus : jsstring → jsstring → TaskState → World
                  → World * option Thrown;
  JSON_stringify_task : Task → jsstring;
  Date_now : World → N
}.

Definition ILLMProvider (World : Type) :=
  jsstring → jsstring → World → World * (Thrown + jsstring).

(** A call on a collaborator, and what it threw if it did. *)
Inductive Request :=
| TriggerByEvent (eventType : HookManager.HookEventType)
    (context : HookManager.HookContext)
| BuildContext (request : ContextRequest)
| GenerateResponse (context message : jsstring)
| SetTaskStatus (specName taskId : jsstring) (status : TaskState).

Record Call := {
  request : Request;
  thrown : option Thrown
}.

(** An event handler, known by a number. *)
Definition EventHandler := nat.

(** The controller with its provider and its handlers.  [eventHandlers]
    gives for each event the handlers of its [Set], in insertion order.
    [emitted] and [calls] record the calls of handlers and of collaborators
    made so far. *)
Record Agent (World : Type) := {
  controller : Controller;
  llmProvider : option (ILLMProvider World);
  eventHandlers : AgentEvent → list EventHandler;
  emitted : list (EventHandler * AgentEvent * EventData);
  calls : list Call
}.
Arguments controller {World}.
Arguments llmProvider {World}.
Arguments eventHandlers {World}.
Arguments emitted {World}.
Arguments calls {World}.

Section Methods.
Context {World : Type} `{Collaborators World}.

Definition new_agent (llm : option (ILLMProvider World)) : Agent World :=
  {| controller := new_controller; llmProvider := llm;
     eventHandlers := λ _, []; emitted := []; calls := [] |}.

Definition with_controller (a : Agent World) (c : Controller) : Agent World :=
  {| controller := c; llmProvider := llmProvider a;
     eventHandlers := eventHandlers a; emitted := emitted a;
     calls := calls a |}.

Definition record_call (a : Agent World) (c : Call) : Agent World :=
  {| controller := controller a; llmProvider := llmProvider a;
     eventHandlers := eventHandlers a; emitted := emitted a;
     calls := calls a ++ [c] |}.

(** [on]: the handler joins the set of the event. *)
Definition on (event : AgentEvent) (handler : EventHandler) (a : Agent World)
  : Agent World :=
  {| controller := controller a; llmProvider := llmProvider a;
     eventHandlers := λ e,
       if bool_decide (e = event) then
         if bool_decide (handler ∈ eventHandlers a e) then eventHandlers a e
         else eventHandlers a e ++ [handler]
       else eventHandlers a e;
     emitted := emitted a; calls := calls a |}.

(** [off]: the handler leaves the set of the event. *)
Definition off (event : AgentEvent) (handler : EventHandler) (a : Agent World)
  : Agent World :=
  {| controller := controller a; llmProvider := llmProvider a;
     eventHandlers := λ e,
       if bool_decide (e = event) then
         filter (λ h, h ≠ handler) (eventHandlers a e)
       else eventHandlers a e;
     emitted := emitted a; calls := calls a |}.

(** [emit]: every handler of the event is called; what a handler throws is
    dropped. *)
Definition emit (event : AgentEvent) (data : EventData) (a : Agent World)
  : Agent World :=
  {| controller := controller a; llmProvider := llmProvider a;
     eventHandlers := eventHandlers a;
     emitted := emitted a ++ ((λ h, (h, event, data)) <$> eventHandlers a event);
     calls := calls a |}.

(** The line feed. *)
Definition nl : jsstring := [10%N].

(** [parts.join(sep)] *)
Fixpoint join (sep : jsstring) (parts : list jsstring) : jsstring :=
  match parts with
  | [] => []
  | [p] => p
  | p :: r => p ++ sep ++ join sep r
  end.

Definition buildContextString (context : AgentContext) : jsstring :=
  let steering :=
    if truthy (steeringContent context) then
      [nl ++ str "--- Steering ---" ++ nl ++ steeringContent context]
    else [] in
  let spec :=
    match specContext context with
    | Some sc =>
        [nl ++ str "--- Spec Context ---"]
        ++ (if truthy_opt (spec_requirements sc) then
              [str "Requirements:" ++ nl ++ default [] (spec_requirements sc)]
            else [])
        ++ (if truthy_opt (spec_design sc) then
              [str "Design:" ++ nl ++ default [] (spec_design sc)]
            else [])
        ++ match currentTask sc with
           | Some task => [str "Current Task:" ++ nl ++ JSON_stringify_task task]
           | None => []
           end
    | None => []
    end in
  let files :=
    if bool_decide (0 < length (fileContents context)) then
      [nl ++ str "--- File Contents ---"]
      ++ ((λ f, str "File: " ++ file_path f ++ nl ++ file_content f) <$> fileContents context)
    else [] in
  join nl ([systemPrompt context] ++ steering ++ spec ++ files).

Definition buildTaskPrompt (task : option Task) : jsstring :=
  match task with
  | None => str "Execute the current task."
  | Some task =>
      let joined :=
        match task_requirements task with
        | Some l => join (str ", ") l
        | None => []
        end in
      str "Execute task " ++ task_id task ++ str ": " ++ task_description task
      ++ nl ++ str "Requirements: "
      ++ (if truthy joined then joined else str "None specified")
  end.

(** [parseCodeChanges] returns the empty array. *)
Definition parseCodeChanges (response : jsstring) : list CodeChange := [].

Definition call_triggerByEvent (eventType : HookManager.HookEventType)
    (context : HookManager.HookContext) (a : Agent World) (w : World)
  : Agent World * World * option Thrown :=
  let '(w1, r) := triggerByEvent eventType context w in
  (record_call a {| request := TriggerByEvent eventType context; thrown := r |},
   w1, r).

Definition call_buildContext (req : ContextRequest) (a : Agent World)
    (w : World) : Agent World * World * (Thrown + AgentContext) :=
  let '(w1, r) := buildContext req w in
  (record_call a
     {| request := BuildContext req;
        thrown := match r with inl t => Some t | inr _ => None end |},
   w1, r).

Definition call_generateResponse (llm : ILLMProvider World)
    (context message : jsstring) (a : Agent World) (w : World)
  : Agent World * World * (Thrown + jsstring) :=
  let '(w1, r) := llm context message w in
  (record_call a
     {| request := GenerateResponse context message;
        thrown := match r with inl t => Some t | inr _ => None end |},
   w1, r).

Definition call_setTaskStatus (specName taskId : jsstring) (st : TaskState)
    (a : Agent World) (w : World) : Agent World * World * option Thrown :=
  let '(w1, r) := setTaskStatus specName taskId st w in
  (record_call a
     {| request := SetTaskStatus specName taskId st; thrown := r |},
   w1, r).

(** The pending entry that [processMessage] and [executeTask] push when
    there are code changes. *)
Definition push_pending (codeChanges : list CodeChange) (a : Agent World)
    (w : World) : jsstring * Agent World :=
  let '(cid, c1) := generateChangeId (controller a) in
  let pendingChange :=
    {| id := cid; changes := codeChanges; approved := false;
       timestamp := Date_now w |} in
  (cid,
   with_controller a
     (with_pending c1 (pendingChanges (session c1) ++ [pendingChange]))).

Definition paths_of (t : FileReferenceType) (l : list FileReference)
  : list jsstring :=
  ref_path <$> filter (λ r, ref_type r = t) l.

Definition error_response (t : Thrown) : AgentResponse :=
  {| response_content := str "Error processing message: " ++ errorMessage t;
     codeChanges := None; status := error |}.

(** [processMessage]: [inl] is a rejection of the promise it returns. *)
Definition processMessage (message : UserMessage) (a : Agent World)
    (w : World) : Agent World * World * (Thrown + AgentResponse) :=
  let a := emit message_sent (message_data message) a in
  let '(a, w, r) :=
    call_triggerByEvent HookManager.message_sent
      {| HookManager.event := None; HookManager.filePath := None;
         HookManager.message := Some (message_content message);
         HookManager.specName := None; HookManager.taskId := None |} a w in
  match r with
  | Some t => (a, w, inl t)
  | None =>
      let '(a, w, r) :=
        call_buildContext
          {| request_message := message_content message;
             request_spec := context message ≫= override_spec;
             request_taskId := context message ≫= override_taskId;
             explicitFiles := paths_of file <$> attachments message;
             explicitFolders := paths_of folder <$> attachments message;
             manualSteering := context message ≫= override_manualSteering |}
          a w in
      match r with
      | inl t => (a, w, inr (error_response t))
      | inr context =>
          let '(a, w, r) :=
            match llmProvider a with
            | Some llm =>
                call_generateResponse llm (buildContextString context)
                  (message_content message) a w
            | None => (a, w, inr (str "Message processed successfully."))
            end in
          match r with
          | inl t => (a, w, inr (error_response t))
          | inr responseContent =>
              let codeChanges := parseCodeChanges responseContent in
              if bool_decide (0 < length codeChanges) then
                let '(cid, a) := push_pending codeChanges a w in
                let a :=
                  emit response_received
                    (response_data responseContent (Some cid)) a in
                (a, w, inr {| response_content := responseContent;
                              codeChanges := Some codeChanges;
                              status := pending_approval |})
              else
                let a :=
                  emit response_received
                    (response_data responseContent None) a in
                (a, w, inr {| response_content := responseContent;
                              codeChanges := None; status := success |})
          end
      end
  end.

Definition task_failed (taskId : jsstring) (t : Thrown) : TaskResult :=
  {| task_success := false; result_taskId := taskId; task_output := None;
     task_error := Some (errorMessage t); task_codeChanges := None |}.

Definition executeTask (specName taskId : jsstring) (a : Agent World)
    (w : World) : Agent World * World * TaskResult :=
  let a := emit task_started (task_data specName taskId) a in
  let '(a, w, r) := call_setTaskStatus specName taskId in_progress a w in
  match r with
  | Some t => (a, w, task_failed taskId t)
  | None =>
      let '(a, w, r) :=
        call_buildContext
          {| request_message := str "Execute task " ++ taskId;
             request_spec := Some specName; request_taskId := Some taskId;
             explicitFiles := None; explicitFolders := None;
             manualSteering := None |} a w in
      match r with
      | inl t => (a, w, task_failed taskId t)
      | inr context =>
          let '(a, w, r) :=
            match llmProvider a with
            | Some llm =>
                let '(a, w, r) :=
                  call_generateResponse llm (buildContextString context)
                    (buildTaskPrompt (specContext context ≫= currentTask))
                    a w in
                (a, w,
                 match r with
                 | inl t => inl t
                 | inr output => inr (output, parseCodeChanges output)
                 end)
            | None =>
                (a, w,
                 inr (str "Task " ++ taskId ++ str " executed successfully.",
                      []))
            end in
          match r with
          | inl t => (a, w, task_failed taskId t)
          | inr (output, codeChanges) =>
              if bool_decide (0 < length codeChanges) then
                let '(_, a) := push_pending codeChanges a w in
                (a, w, {| task_success := true; result_taskId := taskId;
                          task_output := Some output; task_error := None;
                          task_codeChanges := Some codeChanges |})
              else
                let '(a, w, r) :=
                  call_setTaskStatus specName taskId completed a w in
                match r with
                | Some t => (a, w, task_failed taskId t)
                | None =>
                    let a :=
                      emit task_completed (task_data specName taskId) a in
                    let '(a, w, r) :=
                      call_triggerByEvent HookManager.agent_complete
                        {| HookManager.event := None;
                           HookManager.filePath := None;
                           HookManager.message := None;
                           HookManager.specName := Some specName;
                           HookManager.taskId := Some taskId |} a w in
                    match r with
                    | Some t => (a, w, task_failed taskId t)
                    | None =>
                        (a, w, {| task_success := true;
                                  result_taskId := taskId;
                                  task_output := Some output;
                                  task_error := None;
                                  task_codeChanges := None |})
                    end
                end
          end
      end
  end.

End Methods.

End AgentTasks.

(** ** SpecManager: creation and listing of specs *)

Module SpecManager.
Import FileSystem.

Inductive DocType := requirements | design | tasks.

Global Instance DocType_eq_dec : EqDecision DocType.
Proof. solve_decision. Defined.

Definition doc_name (docType : DocType) : jsstring :=
  match docType with
  | requirements => str "requirements"
  | design => str "design"
  | tasks => str "tasks"
  end.

(** A template literal, line by line; every line ends with a line feed. *)
Definition template (lines : list string) : jsstring :=
  lines ≫= λ line, str line ++ [10%N].

Definition REQUIREMENTS_TEMPLATE : jsstring :=
  template
    ["# Requirements Document"; ""; "## Introduction"; "";
     "[Summary of the feature/system]"; ""; "## Glossary"; "";
     "- **Term**: [Definition]"; ""; "## Requirements"; "";
     "### Requirement 1"; "";
     "**User Story:** As a [role], I want [feature], so that [benefit]"; "";
     "#### Acceptance Criteria"; "";
     "1. WHEN [event], THE [System_Name] SHALL [response]"]%string.

Definition DESIGN_TEMPLATE : jsstring :=
  template
    ["# Design Document"; ""; "## Overview"; "";
     "[High-level description of the design]"; ""; "## Architecture"; "";
     "[Architecture description]"; ""; "## Components and Interfaces"; "";
     "[Component descriptions]"; ""; "## Data Models"; "";
     "[Data model definitions]"; ""; "## Correctness Properties"; "";
     "[Properties to verify]"; ""; "## Error Handling"; "";
     "[Error handling strategies]"; ""; "## Testing Strategy"; "";
     "[Testing approach]"]%string.

Definition TASKS_TEMPLATE : jsstring :=
  template
    ["# Implementation Plan"; ""; "- [ ] 1. First task"; "  - Task details";
     "  - _Requirements: 1.1_"]%string.

Record Spec := {
  spec_name : jsstring;
  spec_path : jsstring;
  spec_requirements : option jsstring;
  spec_design : option jsstring;
  spec_tasks : option (list AgentTasks.Task)
}.

Record SpecSummary := {
  name : jsstring;
  path : jsstring;
  hasRequirements : bool;
  hasDesign : bool;
  hasTasks : bool
}.

Definition specsBasePath : jsstring := str ".kiro/specs".

Definition is_lower (c : N) : bool := (97 <=? c)%N && (c <=? 122)%N.
Definition is_digit (c : N) : bool := (48 <=? c)%N && (c <=? 57)%N.

(** [/^[a-z][a-z0-9-]*$/.test(name)] *)
Definition validPattern (name : jsstring) : bool :=
  match name with
  | c :: r =>
      is_lower c
      && forallb (λ d, is_lower d || is_digit d || bool_decide (d = 45%N)) r
  | [] => false
  end.

Definition validateSpecName (name : jsstring) : option Exn :=
  if blank name then Some (str "Spec name cannot be empty")
  else if negb (validPattern name) then
    Some (str "Spec name must be kebab-case (lowercase letters, numbers, and hyphens, starting with a letter)")
  else None.

Definition getSpecPath (name : jsstring) : jsstring :=
  specsBasePath ++ str "/" ++ name.

Definition getDocPath (specName : jsstring) (docType : DocType) : jsstring :=
  getSpecPath specName ++ str "/" ++ doc_name docType ++ str ".md".

Section Methods.
Context {World : Type} `{!FileSystemAdapter World, !FileSystemReader World}.

Definition createSpec (name : jsstring) (w : World) : World * (Exn + Spec) :=
  match validateSpecName name with
  | Some e => (w, inl e)
  | None =>
      let specPath := getSpecPath name in
      let '(w, r) := fs_exists specPath w in
      match r with
      | inl e => (w, inl e)
      | inr true => (w, inl (str "Spec '" ++ name ++ str "' already exists"))
      | inr false =>
          let '(w, r) := fs_mkdir specPath w in
          match r with
          | Some e => (w, inl e)
          | None =>
              let '(w, r) :=
                fs_writeFile (getDocPath name requirements)
                  REQUIREMENTS_TEMPLATE w in
              match r with
              | Some e => (w, inl e)
              | None =>
                  let '(w, r) :=
                    fs_writeFile (getDocPath name design) DESIGN_TEMPLATE w in
                  match r with
                  | Some e => (w, inl e)
                  | None =>
                      let '(w, r) :=
                        fs_writeFile (getDocPath name tasks) TASKS_TEMPLATE w in
                      match r with
                      | Some e => (w, inl e)
                      | None =>
                          (w, inr {| spec_name := name; spec_path := specPath;
                                     spec_requirements :=
                                       Some REQUIREMENTS_TEMPLATE;
                                     spec_design := Some DESIGN_TEMPLATE;
                                     spec_tasks := None |})
                      end
                  end
              end
          end
      end
  end.

(** The three checks that [listSpecs] makes for one entry.  They are
    started in this order and taken to settle in this order. *)
Definition check_entry (specPath : jsstring) (w : World)
  : World * (Exn + bool * bool * bool) :=
  let '(w, r1) := fs_exists (specPath ++ str "/requirements.md") w in
  let '(w, r2) := fs_exists (specPath ++ str "/design.md") w in
  let '(w, r3) := fs_exists (specPath ++ str "/tasks.md") w in
  match r1, r2, r3 with
  | inr hasRequirements, inr hasDesign, inr hasTasks =>
      (w, inr (hasRequirements, hasDesign, hasTasks))
  | inl e, _, _ => (w, inl e)
  | _, inl e, _ => (w, inl e)
  | _, _, inl e => (w, inl e)
  end.

(** The loop of [listSpecs]. *)
Fixpoint summarize (entries : list jsstring) (summaries : list SpecSummary)
    (w : World) : World * (Exn + list SpecSummary) :=
  match entries with
  | [] => (w, inr summaries)
  | entry :: rest =>
      let specPath := specsBasePath ++ str "/" ++ entry in
      let '(w, r) := check_entry specPath w in
      match r with
      | inl e => (w, inl e)
      | inr (hasRequirements, hasDesign, hasTasks) =>
          summarize rest
            (if hasRequirements || hasDesign || hasTasks then
               summaries
               ++ [{| name := entry; path := specPath;
                      hasRequirements := hasRequirements;
                      hasDesign := hasDesign; hasTasks := hasTasks |}]
             else summaries) w
      end
  end.

Definition listSpecs (w : World) : World * (Exn + list SpecSummary) :=
  let '(w, r) := fs_exists specsBasePath w in
  match r with
  | inl e => (w, inl e)
  | inr false => (w, inr [])
  | inr true =>
      let '(w, r) := fs_readdir specsBasePath w in
      match r with
      | inl e => (w, inl e)
      | inr entries => summarize entries [] w
      end
  end.

Definition updateDocument (specName : jsstring) (docType : DocType)
    (content : jsstring) (w : World) : World * option Exn :=
  let '(w, r) := fs_exists (getSpecPath specName) w in
  match r with
  | inl e => (w, Some e)
  | inr false => (w, Some (str "Spec '" ++ specName ++ str "' not found"))
  | inr true => fs_writeFile (getDocPath specName docType) content w
  end.

End Methods.

End SpecManager.

(** ** ConfigWatcher on the in-memory adapter *)

Module WatchedFiles.
Import ConfigWatcher.

(** A watcher and the adapter it was built on.  The callback that [start]
    hands to [watch] for a root passes the category of the root to
    [handleChange]; it is known by that category. *)
Record System := {
  adapter : MemoryFS.Adapter ConfigChangeType;
  watcher : Watcher
}.

Definition new_system (debounceMs : nat) : System :=
  {| adapter := MemoryFS.new_adapter; watcher := new_watcher debounceMs |}.

Definition root_of (t : ConfigChangeType) : jsstring :=
  match t with
  | specs => str ".kiro/specs"
  | hooks => str ".kiro/hooks"
  | steering => str ".kiro/steering"
  end.

(** [start]: the subscriptions are made with the adapter. *)
Definition start (s : System) : System :=
  if watching (watcher s) then s
  else
    {| adapter :=
         foldl (λ a '(t, path), MemoryFS.watch path t a) (adapter s)
           CONFIG_PATHS;
       watcher := ConfigWatcher.start (watcher s) |}.

(** [stop]: every subscription held is disposed of. *)
Definition stop (s : System) : System :=
  if negb (watching (watcher s)) then s
  else
    {| adapter :=
         foldl (λ a t, MemoryFS.dispose (root_of t) t a) (adapter s)
           (watchers (watcher s));
       watcher := ConfigWatcher.stop (watcher s) |}.

(** The callbacks that the adapter has called since it was [before], run
    on the watcher. *)
Definition deliver (before after : MemoryFS.Adapter ConfigChangeType)
    (w : Watcher) : Watcher :=
  foldl (λ w '(t, e), handleChange t e w) w
    (drop (length (MemoryFS.notified before)) (MemoryFS.notified after)).

Definition writeFile (filePath content : jsstring) (s : System) : System :=
  let a := MemoryFS.writeFile filePath content (adapter s) in
  {| adapter := a; watcher := deliver (adapter s) a (watcher s) |}.

Definition delete (targetPath : jsstring) (s : System) : System :=
  let a := MemoryFS.delete targetPath (adapter s) in
  {| adapter := a; watcher := deliver (adapter s) a (watcher s) |}.

(** What can happen to the system. *)
Inductive Event :=
| StartWatcher
| StopWatcher
| Register (h : ConfigChangeHandler)
| Unregister (h : ConfigChangeHandler)
| WriteFile (filePath content : jsstring)
| Delete (targetPath : jsstring)
| Passed (ms : nat).

Definition react (s : System) (ev : Event) : System :=
  match ev with
  | StartWatcher => start s
  | StopWatcher => stop s
  | Register h =>
      {| adapter := adapter s; watcher := onConfigChange h (watcher s) |}
  | Unregister h =>
      {| adapter := adapter s; watcher := dispose_handler h (watcher s) |}
  | WriteFile filePath content => writeFile filePath content s
  | Delete targetPath => delete targetPath s
  | Passed ms => {| adapter := adapter s; watcher := elapse ms (watcher s) |}
  end.

End WatchedFiles.

(** ** PluginRegistry: registration of plugins and of their extensions *)

Module PluginRegistry.
Import MemoryFS.

(** The functions that extensions carry are known by numbers. *)
Record CustomHookTrigger := {
  trigger_type : jsstring;
  trigger_description : jsstring;
  trigger_handler : nat
}.

Record CustomSteeringMode := {
  mode_name : jsstring;
  mode_description : jsstring;
  shouldInclude : nat
}.

Record Command := {
  command_id : jsstring;
  command_name : jsstring;
  command_handler : nat
}.

(** A call that [activate] makes on the context it is given. *)
Inductive ContextCall :=
| RegisterHookTrigger (trigger : CustomHookTrigger)
| RegisterSteeringMode (mode : CustomSteeringMode)
| RegisterCommand (command : Command).

(** [activate] is known by the calls that it makes on its context, which
    may depend on the workspace path found there, and by whether it then
    returns or throws; [deactivate] by whether it returns or throws.  A
    plugin does not call the registry otherwise, nor its context once
    [activate] has settled. *)
Record Plugin := {
  id : jsstring;
  name : jsstring;
  version : jsstring;
  activate : jsstring → list ContextCall * option Exn;
  deactivate : option Exn;
  plugin_hookTriggers : option (list CustomHookTrigger);
  plugin_steeringModes : option (list CustomSteeringMode);
  plugin_commands : option (list Command)
}.

(** [PluginExtensions] *)
Record PluginExtensions := {
  hookTriggers : list jsstring;
  steeringModes : list jsstring;
  ext_commands : list jsstring
}.

Record PluginRegistrationResult := {
  pluginId : jsstring;
  success : bool;
  error : option jsstring
}.

(** The calls made on the logger, which returns normally. *)
Inductive LogEntry :=
| log_info (message : jsstring)
| log_warn (message : jsstring)
| log_error (message : jsstring) (err : Exn).

(** The calls made on plugins. *)
Inductive PluginCall :=
| Activate (plugin : jsstring)
| Deactivate (plugin : jsstring).

(** The maps and the set keep the order of insertion.  [logged] and
    [called] record the calls made on the logger and on the plugins. *)
Record Registry := {
  plugins : list (jsstring * Plugin);
  activePlugins : list jsstring;
  customHookTriggers : list (jsstring * CustomHookTrigger);
  customSteeringModes : list (jsstring * CustomSteeringMode);
  commands : list (jsstring * Command);
  pluginExtensions : list (jsstring * PluginExtensions);
  workspacePath : jsstring;
  logged : list LogEntry;
  called : list PluginCall
}.

Definition new_registry (workspacePath : jsstring) : Registry :=
  {| plugins := []; activePlugins := []; customHookTriggers := [];
     customSteeringModes := []; commands := []; pluginExtensions := [];
     workspacePath := workspacePath; logged := []; called := [] |}.

Definition log (entry : LogEntry) (r : Registry) : Registry :=
  {| plugins := plugins r; activePlugins := activePlugins r;
     customHookTriggers := customHookTriggers r;
     customSteeringModes := customSteeringModes r; commands := commands r;
     pluginExtensions := pluginExtensions r;
     workspacePath := workspacePath r;
     logged := logged r ++ [entry]; called := called r |}.

Definition call (c : PluginCall) (r : Registry) : Registry :=
  {| plugins := plugins r; activePlugins := activePlugins r;
     customHookTriggers := customHookTriggers r;
     customSteeringModes := customSteeringModes r; commands := commands r;
     pluginExtensions := pluginExtensions r;
     workspacePath := workspacePath r;
     logged := logged r; called := called r ++ [c] |}.

Definition with_plugins (m : list (jsstring * Plugin)) (r : Registry)
  : Registry :=
  {| plugins := m; activePlugins := activePlugins r;
     customHookTriggers := customHookTriggers r;
     customSteeringModes := customSteeringModes r; commands := commands r;
     pluginExtensions := pluginExtensions r;
     workspacePath := workspacePath r;
     logged := logged r; called := called r |}.

Definition with_activePlugins (s : list jsstring) (r : Registry) : Registry :=
  {| plugins := plugins r; activePlugins := s;
     customHookTriggers := customHookTriggers r;
     customSteeringModes := customSteeringModes r; commands := commands r;
     pluginExtensions := pluginExtensions r;
     workspacePath := workspacePath r;
     logged := logged r; called := called r |}.

Definition with_customHookTriggers (m : list (jsstring * CustomHookTrigger))
    (r : Registry) : Registry :=
  {| plugins := plugins r; activePlugins := activePlugins r;
     customHookTriggers := m;
     customSteeringModes := customSteeringModes r; commands := commands r;
     pluginExtensions := pluginExtensions r;
     workspacePath := workspacePath r;
     logged := logged r; called := called r |}.

Definition with_customSteeringModes (m : list (jsstring * CustomSteeringMode))
    (r : Registry) : Registry :=
  {| plugins := plugins r; activePlugins := activePlugins r;
     customHookTriggers := customHookTriggers r;
     customSteeringModes := m; commands := commands r;
     pluginExtensions := pluginExtensions r;
     workspacePath := workspacePath r;
     logged := logged r; called := called r |}.

Definition with_commands (m : list (jsstring * Command)) (r : Registry)
  : Registry :=
  {| plugins := plugins r; activePlugins := activePlugins r;
     customHookTriggers := customHookTriggers r;
     customSteeringModes := customSteeringModes r; commands := m;
     pluginExtensions := pluginExtensions r;
     workspacePath := workspacePath r;
     logged := logged r; called := called r |}.

Definition with_pluginExtensions (m : list (jsstring * PluginExtensions))
    (r : Registry) : Registry :=
  {| plugins := plugins r; activePlugins := activePlugins r;
     customHookTriggers := customHookTriggers r;
     customSteeringModes := customSteeringModes r; commands := commands r;
     pluginExtensions := m;
     workspacePath := workspacePath r;
     logged := logged r; called := called r |}.

(** [validatePlugin].  The tests on [typeof] hold by the types. *)
Definition validatePlugin (plugin : Plugin) : option Exn :=
  if blank (id plugin) then
    Some (str "Plugin ID is required and must be a non-empty string")
  else if blank (name plugin) then
    Some (str "Plugin name is required and must be a non-empty string")
  else if negb (truthy (version plugin)) then
    Some (str "Plugin version is required and must be a string")
  else None.

(** The three functions that register an extension.  [extensions] is the
    object that [register] made for the plugin. *)
Definition registerHookTriggerInternal (trigger : CustomHookTrigger)
    (s : Registry * PluginExtensions) : Registry * PluginExtensions :=
  let '(r, extensions) := s in
  if map_has (trigger_type trigger) (customHookTriggers r) then
    (log (log_warn (str "Hook trigger type '" ++ trigger_type trigger
                    ++ str "' already registered, skipping")) r,
     extensions)
  else
    (with_customHookTriggers
       (map_set (trigger_type trigger) trigger (customHookTriggers r)) r,
     {| hookTriggers := hookTriggers extensions ++ [trigger_type trigger];
        steeringModes := steeringModes extensions;
        ext_commands := ext_commands extensions |}).

Definition registerSteeringModeInternal (mode : CustomSteeringMode)
    (s : Registry * PluginExtensions) : Registry * PluginExtensions :=
  let '(r, extensions) := s in
  if map_has (mode_name mode) (customSteeringModes r) then
    (log (log_warn (str "Steering mode '" ++ mode_name mode
                    ++ str "' already registered, skipping")) r,
     extensions)
  else
    (with_customSteeringModes
       (map_set (mode_name mode) mode (customSteeringModes r)) r,
     {| hookTriggers := hookTriggers extensions;
        steeringModes := steeringModes extensions ++ [mode_name mode];
        ext_commands := ext_commands extensions |}).

Definition registerCommandInternal (command : Command)
    (s : Registry * PluginExtensions) : Registry * PluginExtensions :=
  let '(r, extensions) := s in
  if map_has (command_id command) (commands r) then
    (log (log_warn (str "Command '" ++ command_id command
                    ++ str "' already registered, skipping")) r,
     extensions)
  else
    (with_commands (map_set (command_id command) command (commands r)) r,
     {| hookTriggers := hookTriggers extensions;
        steeringModes := steeringModes extensions;
        ext_commands := ext_commands extensions ++ [command_id command] |}).

(** The context of [createPluginContext], called. *)
Definition context_call (s : Registry * PluginExtensions) (c : ContextCall)
  : Registry * PluginExtensions :=
  match c with
  | RegisterHookTrigger trigger => registerHookTriggerInternal trigger s
  | RegisterSteeringMode mode => registerSteeringModeInternal mode s
  | RegisterCommand command => registerCommandInternal command s
  end.

(** An optional array of the plugin, looped over if it is there. *)
Definition each {A} (l : option (list A))
    (f : A → Registry * PluginExtensions → Registry * PluginExtensions)
    (s : Registry * PluginExtensions) : Registry * PluginExtensions :=
  match l with
  | Some l => foldl (λ s x, f x s) s l
  | None => s
  end.

Definition register (plugin : Plugin) (r : Registry)
  : Registry * option Exn :=
  match validatePlugin plugin with
  | Some e => (r, Some e)
  | None =>
      if map_has (id plugin) (plugins r) then
        (r, Some (str "Plugin '" ++ id plugin
                  ++ str "' is already registered"))
      else
        let r := with_plugins (map_set (id plugin) plugin (plugins r)) r in
        let extensions :=
          {| hookTriggers := []; steeringModes := []; ext_commands := [] |} in
        let '(calls, thrown) := activate plugin (workspacePath r) in
        let s := foldl context_call (call (Activate (id plugin)) r, extensions)
                   calls in
        match thrown with
        | None =>
            let s := (with_activePlugins
                        (set_add (id plugin) (activePlugins s.1)) s.1, s.2) in
            let s := each (plugin_hookTriggers plugin)
                       registerHookTriggerInternal s in
            let s := each (plugin_steeringModes plugin)
                       registerSteeringModeInternal s in
            let s := each (plugin_commands plugin)
                       registerCommandInternal s in
            let r := with_pluginExtensions
                       (map_set (id plugin) s.2 (pluginExtensions s.1)) s.1 in
            (log (log_info (str "Plugin '" ++ name plugin ++ str "' ("
                            ++ id plugin ++ str ") v" ++ version plugin
                            ++ str " activated")) r,
             None)
        | Some error =>
            let r := with_plugins (map_delete (id plugin) (plugins s.1)) s.1 in
            (log (log_error (str "Failed to activate plugin '" ++ id plugin
                             ++ str "'") error) r,
             Some error)
        end
  end.

Definition registerAll (plugins : list Plugin) (r : Registry)
  : Registry * list PluginRegistrationResult :=
  foldl (λ '(r, results) plugin,
           let '(r, thrown) := register plugin r in
           match thrown with
           | None =>
               (r, results ++ [{| pluginId := id plugin; success := true;
                                  error := None |}])
           | Some error =>
               (log (log_error (str "Failed to register plugin '"
                                ++ id plugin ++ str "'") error) r,
                results ++ [{| pluginId := id plugin; success := false;
                               error := Some error |}])
           end)
    (r, []) plugins.

Definition removePluginExtensions (pluginId : jsstring) (r : Registry)
  : Registry :=
  match map_get pluginId (pluginExtensions r) with
  | None => r
  | Some extensions =>
      let r := with_customHookTriggers
                 (foldl (λ m type, map_delete type m) (customHookTriggers r)
                    (hookTriggers extensions)) r in
      let r := with_customSteeringModes
                 (foldl (λ m name, map_delete name m) (customSteeringModes r)
                    (steeringModes extensions)) r in
      with_commands
        (foldl (λ m id, map_delete id m) (commands r)
           (ext_commands extensions)) r
  end.

Definition unregister (pluginId : jsstring) (r : Registry)
  : Registry * option Exn :=
  match map_get pluginId (plugins r) with
  | None =>
      (r, Some (str "Plugin '" ++ pluginId ++ str "' is not registered"))
  | Some plugin =>
      let r :=
        if bool_decide (pluginId ∈ activePlugins r) then
          let r := call (Deactivate pluginId) r in
          let r :=
            match deactivate plugin with
            | Some error =>
                log (log_error (str "Error during deactivation of plugin '"
                                ++ pluginId ++ str "'") error) r
            | None => r
            end in
          with_activePlugins (filter (λ p, p ≠ pluginId) (activePlugins r)) r
        else r in
      let r := removePluginExtensions pluginId r in
      let r := with_plugins (map_delete pluginId (plugins r)) r in
      let r := with_pluginExtensions
                 (map_delete pluginId (pluginExtensions r)) r in
      (log (log_info (str "Plugin '" ++ pluginId ++ str "' unregistered")) r,
       None)
  end.

Definition getPlugins (r : Registry) : list Plugin := (plugins r).*2.

Definition getPlugin (pluginId : jsstring) (r : Registry) : option Plugin :=
  map_get pluginId (plugins r).

Definition isPluginActive (pluginId : jsstring) (r : Registry) : bool :=
  bool_decide (pluginId ∈ activePlugins r).

Definition getCustomHookTriggers (r : Registry) : list CustomHookTrigger :=
  (customHookTriggers r).*2.

Definition getCustomHookTrigger (type : jsstring) (r : Registry)
  : option CustomHookTrigger :=
  map_get type (customHookTriggers r).

Definition getCustomSteeringModes (r : Registry) : list CustomSteeringMode :=
  (customSteeringModes r).*2.

Definition getCustomSteeringMode (name : jsstring) (r : Registry)
  : option CustomSteeringMode :=
  map_get name (customSteeringModes r).

Definition getCommands (r : Registry) : list Command := (commands r).*2.

Definition getCommand (commandId : jsstring) (r : Registry) : option Command :=
  map_get commandId (commands r).

End PluginRegistry.

(** ** SpecManager: search in the tree of tasks *)

Module TaskTree.
Import AgentTasks.

(** A loop that returns the first result found. *)
Definition first_found {A B} (f : A → option B) : list A → option B :=
  fix loop (l : list A) : option B :=
    match l with
    | [] => None
    | x :: rest =>
        match f x with
        | Some found => Some found
        | None => loop rest
        end
    end.

(** One turn of the loop of [findTaskById]: the task itself, then its
    sub-tasks. *)
Fixpoint find_in (taskId : jsstring) (task : Task) : option Task :=
  if bool_decide (task_id task = taskId) then Some task
  else
    match subTasks task with
    | Some subs => first_found (find_in taskId) subs
    | None => None
    end.

Definition findTaskById (tasks : list Task) (taskId : jsstring)
  : option Task :=
  first_found (find_in taskId) tasks.

End TaskTree.

(** ** ContextManager: the context given to the model *)

Module ContextManager.
Import FileSystem.

Inductive Role := user | assistant.

(** [timestamp] is a [Date], kept as its time value. *)
Record Message := {
  role : Role;
  content : jsstring;
  timestamp : Z
}.

Record SteeringContext := {
  activeFiles : list jsstring;
  manualInclusions : list jsstring
}.

Record AgentContext := {
  systemPrompt : jsstring;
  steeringContent : jsstring;
  specContext : option AgentTasks.SpecContext;
  fileContents : list AgentTasks.FileContent;
  context_conversationHistory : list Message
}.

Definition DEFAULT_SYSTEM_PROMPT : jsstring :=
  str "You are an AI assistant helping with software development."
  ++ AgentTasks.nl
  ++ str "Follow the project's requirements and design documents when implementing features."
  ++ AgentTasks.nl
  ++ str "Write clean, maintainable code that follows best practices.".

(** The two managers that a context manager is built on. *)
Class Managers (World : Type) := {
  loadSpec : jsstring → World → World * (Exn + SpecManager.Spec);
  getActiveSteeringContent :
    SteeringContext → World → World * (Exn + jsstring)
}.

(** The two sets keep the order of insertion. *)
Record Manager := {
  explicitFiles : list jsstring;
  explicitFolders : list jsstring;
  conversationHistory : list Message
}.

Definition new_manager : Manager :=
  {| explicitFiles := []; explicitFolders := []; conversationHistory := [] |}.

(** The same loop as in the spec manager. *)
Definition findTaskById (tasks : list AgentTasks.Task) (taskId : jsstring)
  : option AgentTasks.Task :=
  TaskTree.first_found (TaskTree.find_in taskId) tasks.

(** [[...new Set(files)]] *)
Definition unique (files : list jsstring) : list jsstring :=
  foldl (λ s f, MemoryFS.set_add f s) [] files.

Definition collectActiveFiles (request : AgentTasks.ContextRequest)
    (specContext : option AgentTasks.SpecContext) (m : Manager)
  : list jsstring :=
  let files :=
    match AgentTasks.explicitFiles request with
    | Some l => l
    | None => []
    end in
  let files := files ++ explicitFiles m in
  let files :=
    match specContext with
    | Some specContext =>
        files
        ++ [str ".kiro/specs/" ++ AgentTasks.spec_name specContext
            ++ str "/requirements.md";
            str ".kiro/specs/" ++ AgentTasks.spec_name specContext
            ++ str "/design.md";
            str ".kiro/specs/" ++ AgentTasks.spec_name specContext
            ++ str "/tasks.md"]
    | None => files
    end in
  unique files.

Section Files.
Context {World : Type} `{!FileSystemReader World}.

Definition safeReadFile (path : jsstring) (w : World)
  : World * option jsstring :=
  let '(w, r) := fs_readFile path w in
  (w, match r with inr content => Some content | inl _ => None end).

(** [loadFolderContents], which is given the world and [processedPaths]
    and returns them with the contents found.  [depth] starts at three and
    goes down by one. *)
Fixpoint loadFolderContents (depth : nat) (folderPath : jsstring)
    (w : World) (processedPaths : list jsstring)
  : World * list jsstring * list AgentTasks.FileContent :=
  match depth with
  | 0 => (w, processedPaths, [])
  | S depth =>
      let '(w, r) := fs_readdir folderPath w in
      match r with
      | inl _ => (w, processedPaths, [])
      | inr entries =>
          foldl (λ '(w, processedPaths, contents) entry,
                   let entryPath := folderPath ++ str "/" ++ entry in
                   if bool_decide (entryPath ∈ processedPaths) then
                     (w, processedPaths, contents)
                   else
                     let '(w, content) := safeReadFile entryPath w in
                     match content with
                     | Some content =>
                         (w, MemoryFS.set_add entryPath processedPaths,
                          contents
                          ++ [{| AgentTasks.file_path := entryPath;
                                 AgentTasks.file_content := content |}])
                     | None =>
                         let '(w, processedPaths, subContents) :=
                           loadFolderContents depth entryPath w
                             processedPaths in
                         (w, processedPaths, contents ++ subContents)
                     end)
            (w, processedPaths, []) entries
      end
  end.

(** What the loops of [loadFileContents] thread: the world,
    [processedPaths] and [contents]. *)
Definition Loading : Type :=
  World * list jsstring * list AgentTasks.FileContent.

(** One turn of its loops over files. *)
Definition load_file (s : Loading) (filePath : jsstring) : Loading :=
  let '(w, processedPaths, contents) := s in
  if bool_decide (filePath ∈ processedPaths) then s
  else
    let '(w, content) := safeReadFile filePath w in
    match content with
    | Some content =>
        (w, MemoryFS.set_add filePath processedPaths,
         contents ++ [{| AgentTasks.file_path := filePath;
                         AgentTasks.file_content := content |}])
    | None => (w, processedPaths, contents)
    end.

(** One turn of its loops over folders. *)
Definition load_folder (s : Loading) (folderPath : jsstring) : Loading :=
  let '(w, processedPaths, contents) := s in
  let '(w, processedPaths, folderContents) :=
    loadFolderContents 3 folderPath w processedPaths in
  (w, processedPaths, contents ++ folderContents).

Definition loadFileContents (request : AgentTasks.ContextRequest)
    (m : Manager) (w : World) : World * list AgentTasks.FileContent :=
  let s := (w, [], []) in
  let s :=
    match AgentTasks.explicitFiles request with
    | Some l => foldl load_file s l
    | None => s
    end in
  let s := foldl load_file s (explicitFiles m) in
  let s :=
    match AgentTasks.explicitFolders request with
    | Some l => foldl load_folder s l
    | None => s
    end in
  let s := foldl load_folder s (explicitFolders m) in
  (s.1.1, s.2).

Definition addFile (path : jsstring) (m : Manager) (w : World)
  : Manager * World * option Exn :=
  let '(w, r) := fs_exists path w in
  match r with
  | inl e => (m, w, Some e)
  | inr true =>
      ({| explicitFiles := MemoryFS.set_add path (explicitFiles m);
          explicitFolders := explicitFolders m;
          conversationHistory := conversationHistory m |}, w, None)
  | inr false => (m, w, Some (str "File not found: " ++ path))
  end.

Definition addFolder (path : jsstring) (m : Manager) (w : World)
  : Manager * World * option Exn :=
  let '(w, r) := fs_exists path w in
  match r with
  | inl e => (m, w, Some e)
  | inr true =>
      ({| explicitFiles := explicitFiles m;
          explicitFolders := MemoryFS.set_add path (explicitFolders m);
          conversationHistory := conversationHistory m |}, w, None)
  | inr false => (m, w, Some (str "Folder not found: " ++ path))
  end.

Context `{!Managers World}.

Definition buildSpecContext (specName : jsstring) (taskId : option jsstring)
    (w : World) : World * (Exn + AgentTasks.SpecContext) :=
  let '(w, r) := loadSpec specName w in
  match r with
  | inl e => (w, inl e)
  | inr spec =>
      let currentTask :=
        match taskId, SpecManager.spec_tasks spec with
        | Some taskId, Some tasks =>
            if truthy taskId then findTaskById tasks taskId else None
        | _, _ => None
        end in
      (w, inr {| AgentTasks.spec_name := SpecManager.spec_name spec;
                 AgentTasks.spec_requirements :=
                   SpecManager.spec_requirements spec;
                 AgentTasks.spec_design := SpecManager.spec_design spec;
                 AgentTasks.currentTask := currentTask |})
  end.

(** [buildContext], from the spec context on. *)
Definition build_with (request : AgentTasks.ContextRequest)
    (specContext : option AgentTasks.SpecContext) (m : Manager) (w : World)
  : World * (Exn + AgentContext) :=
  let activeFiles := collectActiveFiles request specContext m in
  let steeringContext :=
    {| activeFiles := activeFiles;
       manualInclusions :=
         match AgentTasks.manualSteering request with
         | Some l => l
         | None => []
         end |} in
  let '(w, r) := getActiveSteeringContent steeringContext w in
  match r with
  | inl e => (w, inl e)
  | inr steeringContent =>
      let '(w, fileContents) := loadFileContents request m w in
      (w, inr {| systemPrompt := DEFAULT_SYSTEM_PROMPT;
                 steeringContent := steeringContent;
                 specContext := specContext;
                 fileContents := fileContents;
                 context_conversationHistory := conversationHistory m |})
  end.

Definition buildContext (request : AgentTasks.ContextRequest) (m : Manager)
    (w : World) : World * (Exn + AgentContext) :=
  match AgentTasks.request_spec request with
  | Some spec =>
      if truthy spec then
        let '(w, r) :=
          buildSpecContext spec (AgentTasks.request_taskId request) w in
        match r with
        | inl e => (w, inl e)
        | inr specContext => build_with request (Some specContext) m w
        end
      else build_with request None m w
  | None => build_with request None m w
  end.

End Files.

Definition clearContext (m : Manager) : Manager :=
  {| explicitFiles := []; explicitFolders := []; conversationHistory := [] |}.

Definition addMessage (message : Message) (m : Manager) : Manager :=
  {| explicitFiles := explicitFiles m; explicitFolders := explicitFolders m;
     conversationHistory := conversationHistory m ++ [message] |}.

Definition getConversationHistory (m : Manager) : list Message :=
  conversationHistory m.

End ContextManager.

(** ** SteeringManager: references to files *)

Module SteeringReferences.
Import FileSystem Replace.

Record Reference := {
  fullMatch : jsstring;
  ref_path : jsstring
}.

(** The longest start of [s] without a closing bracket: what [[^\]]+]
    takes. *)
Fixpoint not_brackets (s : jsstring) : jsstring :=
  match s with
  | c :: r => if bool_decide (c = 93%N) then [] else c :: not_brackets r
  | [] => []
  end.

(** [/#\[\[file:([^\]]+)\]\]/] tried at the start of [s]: the text matched
    and that of the group.  The group cannot give back what it took, for
    a closing bracket must follow it. *)
Definition match_reference (s : jsstring) : option (jsstring * jsstring) :=
  match strip_prefix (str "#[[file:") s with
  | Some rest =>
      let group := not_brackets rest in
      match group, strip_prefix (str "]]") (drop (length group) rest) with
      | _ :: _, Some _ => Some (str "#[[file:" ++ group ++ str "]]", group)
      | _, _ => None
      end
  | None => None
  end.

(** The loop of [regex.exec]; [skip] is the number of code units of the
    last match still to pass. *)
Fixpoint extract_go (s : jsstring) (skip : nat) : list Reference :=
  match s with
  | [] => []
  | _ :: r =>
      match skip with
      | S k => extract_go r k
      | O =>
          match match_reference s with
          | Some (matched, group) =>
              {| fullMatch := matched; ref_path := trim group |}
              :: extract_go r (length matched - 1)
          | None => extract_go r 0
          end
      end
  end.

Definition extractFileReferences (content : jsstring) : list Reference :=
  extract_go content 0.

(** [s.replace(needle, template)] where [needle] is a string: the first
    occurrence is replaced. *)
Fixpoint replace_first_go (needle template before s : jsstring) : jsstring :=
  match strip_prefix needle s with
  | Some after => get_substitution needle before after template ++ after
  | None =>
      match s with
      | [] => []
      | c :: r => c :: replace_first_go needle template (before ++ [c]) r
      end
  end.

Definition replace_first (needle template s : jsstring) : jsstring :=
  replace_first_go needle template [] s.

Section Methods.
Context {World : Type} `{!FileSystemReader World}.

(** One turn of the loop of [resolveReferences]. *)
Definition resolve (s : World * jsstring) (ref : Reference)
  : World * jsstring :=
  let '(w, resolvedContent) := s in
  let '(w, r) := fs_readFile (ref_path ref) w in
  match r with
  | inr fileContent =>
      let escapedContent := replace_all [36%N] (str "$$$$") fileContent in
      (w, replace_first (fullMatch ref) escapedContent resolvedContent)
  | inl _ =>
      (w, replace_first (fullMatch ref)
            (str "[File not found: " ++ ref_path ref ++ str "]")
            resolvedContent)
  end.

Definition resolveReferences (content : jsstring) (w : World)
  : World * jsstring :=
  let references := extractFileReferences content in
  if length references =? 0 then (w, content)
  else foldl resolve (w, content) references.

End Methods.

End SteeringReferences.

(** * Vocabulary of the properties *)

Module AgentControllerSpec.
Import AgentController.

(** Successor in the sequence requirements, design, tasks, implementation;
    implementation is its own successor. *)
Definition next_phase (p : SpecPhase) : SpecPhase :=
  match p with
  | requirements => design
  | design => tasks
  | tasks => implementation
  | implementation => implementation
  end.

(** A sink invocation without its outcome: the entry it was made for and
    the call. *)
Definition attempted (k : PendingCodeChange * SinkCall * bool)
  : PendingCodeChange * SinkCall := k.1.

(** The invocations that the edits of one entry ask for, in order. *)
Definition calls_for (p : PendingCodeChange)
  : list (PendingCodeChange * SinkCall) :=
  (λ ch, (p, call_of ch)) <$> changes p.

(** The calls that read or move the phase machine. *)
Inductive Call :=
| GetWorkflowPhase (name : jsstring)
| CanTransitionToPhase (name : jsstring) (phase : SpecPhase)
| TransitionToPhase (name : jsstring) (phase : SpecPhase)
| ApproveCurrentPhase (name : jsstring)
| ResetPhaseApproval (name : jsstring) (phase : SpecPhase)
| IsPhaseApproved (name : jsstring) (phase : SpecPhase).

Definition call (c : Controller) (k : Call) : Controller :=
  match k with
  | GetWorkflowPhase name => (getWorkflowPhase name c).2
  | CanTransitionToPhase name phase => (canTransitionToPhase name phase c).2
  | TransitionToPhase name phase => (transitionToPhase name phase c).2
  | ApproveCurrentPhase name => (approveCurrentPhase name c).2
  | ResetPhaseApproval name phase => resetPhaseApproval name phase c
  | IsPhaseApproved name phase => (isPhaseApproved name phase c).2
  end.

(** The gate: the phase that a workflow is in has its predecessor
    approved, and an approval stands on the approvals before it. *)
Definition gated (st : SpecWorkflowState) : bool :=
  match currentPhase st with
  | requirements => true
  | design => requirementsApproved st
  | tasks => designApproved st
  | implementation => tasksApproved st
  end
  && implb (designApproved st) (requirementsApproved st)
  && implb (tasksApproved st) (designApproved st).

End AgentControllerSpec.

Module HookManagerSpec.
Import HookManager.

(** The payload that [validateHook] asks of an action. *)
Definition payload (a : ActionInput) : option jsstring :=
  match a with
  | send_message_input msg => msg
  | execute_command_input command _ => command
  end.

Section Dispatch.
Context {World : Type} `{Host World}.

(** The pattern test of a hook throws. *)
Definition gate_raises (context : HookContext) (hook : HookConfig) : bool :=
  match pattern_gate hook context with inl _ => true | inr _ => false end.

(** The hooks of a dispatch whose action is due: enabled, triggered by the
    event type, and not held back by the pattern test. *)
Definition selected (eventType : HookEventType) (context : HookContext)
    (m : Manager World) : list HookConfig :=
  filter (λ hook, pattern_gate hook context = inr true)
    (matching_hooks eventType m).

(** Running the action of every hook of [l], one after the other, whatever
    each of them does. *)
Fixpoint outcomes (exec : Executor) (context : HookContext)
    (l : list HookConfig) (w : World)
  : list (HookConfig * (Exn + HookResult)) :=
  match l with
  | [] => []
  | hook :: r =>
      let '(w1, o) := exec hook context w in
      (hook, o) :: outcomes exec context r w1
  end.

(** The log entry owed to an outcome: one for a throw, one for a failure
    result that carries a non-empty error text, none otherwise. *)
Definition failure_entry (o : HookConfig * (Exn + HookResult))
  : option LogEntry :=
  match o.2 with
  | inl e =>
      Some (log_error (str "Hook '" ++ id o.1 ++ str "' execution failed")
              (Some e))
  | inr result =>
      if negb (success result) && truthy_opt (error result) then
        Some (log_error (str "Hook '" ++ id o.1 ++ str "' execution failed: "
                         ++ default [] (error result)) None)
      else None
  end.

End Dispatch.

End HookManagerSpec.

Module ConfigReloaderSpec.
Import ConfigWatcher ConfigReloader.

(** How the refresh of a manager fails, if it does; no manager, no
    failure. *)
Definition rejects (manager : option Refresh) : option Exn :=
  match manager with Some (Some e) => Some e | _ => None end.

End ConfigReloaderSpec.

Module ConfigWatcherSpec.
Import ConfigWatcher.

(** The notification that the callback of a timer hands to the handlers. *)
Definition notification (t : Timer) : ConfigChangeEvent :=
  {| change_type := timer_type t; event := timer_event t |}.

(** The calls of handlers made when the timers of [l] fire, in order. *)
Definition calls (hs : list ConfigChangeHandler) (l : list Timer)
  : list (ConfigChangeHandler * ConfigChangeEvent) :=
  l ≫= λ t, (λ h, (h, notification t)) <$> hs.

(** What holds of a watcher at every instant. *)
Record Inv (w : Watcher) : Prop := {
  inv_map : ∀ k h,
    debounceTimers w !! k = Some h
    ↔ ∃ t, t ∈ timers w ∧ handle t = h ∧ timer_key t = k;
  inv_handles : NoDup (handle <$> timers w);
  inv_keys : NoDup (timer_key <$> timers w);
  inv_fresh : ∀ t, t ∈ timers w → handle t < next_handle w;
  inv_closure : ∀ t, t ∈ timers w →
    timer_key t = debounceKey (timer_type t) (timer_event t);
  inv_stopped : watching w = false → timers w = [] ∧ watchers w = []
}.

(** The timers are kept in the order in which they are due, and none is
    due later than one delay from now. *)
Definition in_due_order (w : Watcher) : Prop :=
  StronglySorted (λ t t', due t ≤ due t') (timers w)
  ∧ Forall (λ t, due t ≤ now w + debounceMs w) (timers w).

(** A call of a handler that concerns the category [ty] and the path
    [p]. *)
Definition for_key (ty : ConfigChangeType) (p : jsstring)
    (n : ConfigChangeHandler * ConfigChangeEvent) : Prop :=
  change_type n.2 = ty ∧ path (event n.2) = p.

Global Instance for_key_dec ty p n : Decision (for_key ty p n).
Proof. unfold for_key. apply _. Defined.

Definition notifications_for (ty : ConfigChangeType) (p : jsstring)
    (w : Watcher) : list (ConfigChangeHandler * ConfigChangeEvent) :=
  filter (for_key ty p) (notified w).

(** A burst for the key ([ty], [p]): raw events, for this key or for
    others, and lapses of time, such that less than [D] milliseconds have
    passed since the last raw event for the key.  [elapsed] is the time
    passed since that event. *)
Fixpoint in_window (ty : ConfigChangeType) (p : jsstring) (D elapsed : nat)
    (l : list Input) : bool :=
  match l with
  | [] => true
  | RawEvent t e :: r =>
      if bool_decide (t = ty ∧ path e = p) then in_window ty p D 0 r
      else in_window ty p D elapsed r
  | Elapse ms :: r =>
      bool_decide (elapsed + ms < D) && in_window ty p D (elapsed + ms) r
  | _ :: _ => false
  end.

(** The last raw event for the key in a burst that [e0] opened. *)
Fixpoint last_event (ty : ConfigChangeType) (p : jsstring) (e0 : WatchEvent)
    (l : list Input) : WatchEvent :=
  match l with
  | [] => e0
  | RawEvent t e :: r =>
      if bool_decide (t = ty ∧ path e = p) then last_event ty p e r
      else last_event ty p e0 r
  | _ :: r => last_event ty p e0 r
  end.

(** The time passed since the last raw event for the key. *)
Fixpoint since_last (ty : ConfigChangeType) (p : jsstring) (elapsed : nat)
    (l : list Input) : nat :=
  match l with
  | [] => elapsed
  | RawEvent t e :: r =>
      if bool_decide (t = ty ∧ path e = p) then since_last ty p 0 r
      else since_last ty p elapsed r
  | Elapse ms :: r => since_last ty p (elapsed + ms) r
  | _ :: r => since_last ty p elapsed r
  end.

(** Inputs other than [Start]. *)
Definition no_start (l : list Input) : bool :=
  forallb (λ i, match i with Start => false | _ => true end) l.

Section Burst.
Variables (ty : ConfigChangeType) (p : jsstring).
Variables (D : nat) (hs : list ConfigChangeHandler).
Variable base : list (ConfigChangeHandler * ConfigChangeEvent).

(** The watcher holds the timer of the key, set [elapsed] milliseconds ago
    for the event [e], and has not notified anybody for the key since the
    burst began. *)
Record Armed (w : Watcher) (e : WatchEvent) (elapsed : nat) : Prop := {
  armed_inv : Inv w;
  armed_live : ty ∈ watchers w;
  armed_ms : debounceMs w = D;
  armed_handlers : handlers w = hs;
  armed_path : path e = p;
  armed_timer : ∃ t, t ∈ timers w ∧ timer_type t = ty ∧ timer_event t = e
                     ∧ due t + elapsed = now w + D;
  armed_quiet : notifications_for ty p w = base
}.

End Burst.

End ConfigWatcherSpec.

(** ** The approval queue, as a caller drives it *)

Module ApprovalQueueSpec.
Import AgentController AgentControllerSpec.

(** The calls on the controller: those of the approval queue and those of
    the phase machine. *)
Inductive Request :=
| QueueCodeChanges (chs : list CodeChange) (now : N)
| ApproveChange (changeId : jsstring)
| RejectChange (changeId : jsstring)
| ApplyApprovedChanges
| PhaseCall (k : Call).

Definition request `{FileSystemAdapter World} (s : Controller * World)
    (r : Request) : Controller * World :=
  match r with
  | QueueCodeChanges chs now => ((queueCodeChanges chs now s.1).2, s.2)
  | ApproveChange changeId => ((approveChange changeId s.1).2, s.2)
  | RejectChange changeId => ((rejectChange changeId s.1).2, s.2)
  | ApplyApprovedChanges =>
      ((applyApprovedChanges s.1 s.2).1.2, (applyApprovedChanges s.1 s.2).2)
  | PhaseCall k => (call s.1 k, s.2)
  end.

(** The id that [generateChangeId] makes of a counter value. *)
Definition change_id (n : N) : jsstring := str "change-" ++ of_number n.

(** Every pending entry carries an id issued by the counter, and no two
    carry the same. *)
Definition issued (c : Controller) : Prop :=
  NoDup (id <$> pendingChanges (session c))
  ∧ ∀ p, p ∈ pendingChanges (session c) →
         ∃ n, id p = change_id n ∧ (n ≤ changeIdCounter c)%N.

End ApprovalQueueSpec.

Module MemoryFSSpec.
Import MemoryFS.

(** A path in the form in which the adapter keeps it: no backslash, and no
    slash at either end. *)
Definition normal (p : jsstring) : Prop :=
  (backslash ∉ p) ∧ head p ≠ Some slash ∧ last p ≠ Some slash.

(** The calls on an adapter. *)
Inductive Op (C : Type) :=
| WriteFile (filePath content : jsstring)
| Delete (targetPath : jsstring)
| Mkdir (dirPath : jsstring)
| Watch (pattern : jsstring) (callback : C)
| Dispose (pattern : jsstring) (callback : C)
| Clear.
Arguments WriteFile {C}.
Arguments Delete {C}.
Arguments Mkdir {C}.
Arguments Watch {C}.
Arguments Dispose {C}.
Arguments Clear {C}.

Definition step {C} `{EqDecision C} (a : Adapter C) (op : Op C) : Adapter C :=
  match op with
  | WriteFile p c => writeFile p c a
  | Delete p => delete p a
  | Mkdir p => mkdir p a
  | Watch p cb => watch p cb a
  | Dispose p cb => dispose p cb a
  | Clear => clear a
  end.

Definition run {C} `{EqDecision C} (ops : list (Op C)) : Adapter C :=
  foldl step new_adapter ops.

(** What [delete] of a path removes: the file of that name if there is one,
    and otherwise every file below it. *)
Definition removed_by {C} (a : Adapter C) (normalizedPath k : jsstring) : Prop :=
  if map_has normalizedPath (files a) then k = normalizedPath
  else startsWith (normalizedPath ++ [slash]) k = true.

Global Instance removed_by_dec {C} (a : Adapter C) n k :
  Decision (removed_by a n k).
Proof. unfold removed_by. destruct (map_has n (files a)); apply _. Defined.

End MemoryFSSpec.

Module HookStoreSpec.
Import FileSystem HookManager HookStore.

(** The calls that change the hooks of a manager. *)
Inductive StoreOp :=
| RegisterHook (hook : HookInput)
| RemoveHook (hookId : jsstring)
| SetHookEnabled (hookId : jsstring) (enabled : bool)
| LoadHooks.

(** The calls on a manager. *)
Inductive Request (World : Type) :=
| Change (op : StoreOp)
| SetMessageSender (sender : IMessageSender World)
| On (eventType : HookEventType) (handler : HookEventHandler World)
| Emit (eventType : HookEventType) (context : HookContext)
| TriggerHook (hookId : jsstring) (context : HookContext).
Arguments Change {World}.
Arguments SetMessageSender {World}.
Arguments On {World}.
Arguments Emit {World}.
Arguments TriggerHook {World}.

Section Requests.
Context {World : Type} `{Store World}.

Definition store (s : Manager World * World) (op : StoreOp)
  : Manager World * World :=
  match op with
  | RegisterHook hook => (registerHook hook s.1 s.2).1
  | RemoveHook hookId => (removeHook hookId s.1 s.2).1
  | SetHookEnabled hookId enabled => (setHookEnabled hookId enabled s.1 s.2).1
  | LoadHooks => (loadHooks s.1 s.2).1
  end.

Definition request (s : Manager World * World) (r : Request World)
  : Manager World * World :=
  match r with
  | Change op => store s op
  | SetMessageSender sender => (setMessageSender sender s.1, s.2)
  | On eventType handler => (on eventType handler s.1, s.2)
  | Emit eventType context =>
      let d := (emit eventType context s.1 s.2).1 in (manager d, world d)
  | TriggerHook hookId context => (s.1, (triggerHook hookId context s.1 s.2).1)
  end.

End Requests.

(** *** A manager on the in-memory adapter *)

(** The services of the host other than the filesystem. *)
Record Services (World : Type) := {
  exec_service : jsstring → option jsstring → World
                 → World * (Exn + jsstring * jsstring);
  regexp_service : jsstring → jsstring → Exn + bool;
  stringify_service : HookConfig → jsstring;
  parse_service : jsstring → Exn + HookConfig
}.
Arguments exec_service {World}.
Arguments regexp_service {World}.
Arguments stringify_service {World}.
Arguments parse_service {World}.

Section Memory.
Context {C : Type} `{EqDecision C} (sv : Services (MemoryFS.Adapter C)).

Definition memory_store : Store (MemoryFS.Adapter C) := {|
  store_host := {|
    host_fs := MemoryFS.memory_adapter;
    execAsync := exec_service sv;
    RegExp_test := regexp_service sv;
    JSON_stringify := stringify_service sv
  |};
  store_reader := MemoryFS.memory_reader;
  JSON_parse := parse_service sv
|}.

(** The state of a new manager on an empty adapter after the calls [ops]. *)
Definition persisted (ops : list StoreOp)
  : Manager (MemoryFS.Adapter C) * MemoryFS.Adapter C :=
  foldl (@store _ memory_store) (new_manager, MemoryFS.new_adapter) ops.

(** [loadHooks] of a manager on an adapter. *)
Definition reload (m : Manager (MemoryFS.Adapter C)) (a : MemoryFS.Adapter C)
  : Manager (MemoryFS.Adapter C) * MemoryFS.Adapter C * option Exn :=
  @loadHooks _ memory_store m a.

(** The file of a hook: its path and its content. *)
Definition hook_file (hook : HookConfig) : jsstring * jsstring :=
  (getHookPath (id hook), stringify_service sv hook).

(** A hook whose id is a file name and which [JSON.parse] gives back from
    what [JSON.stringify] makes of it, whatever its flag. *)
Definition keeps (hook : HookConfig) : Prop :=
  (MemoryFS.slash ∉ id hook) ∧ (MemoryFS.backslash ∉ id hook)
  ∧ ∀ b, parse_service sv (stringify_service sv (set_enabled hook b))
         = inr (set_enabled hook b).

(** The files of the adapter are the files of the hooks of the manager, in
    the same order. *)
Record Mirrors (m : Manager (MemoryFS.Adapter C)) (a : MemoryFS.Adapter C)
  : Prop := {
  mirror_files : MemoryFS.files a = hook_file <$> hooks m;
  mirror_ids : NoDup (id <$> hooks m);
  mirror_keeps : Forall keeps (hooks m)
}.

Definition storable (hook : HookInput) : Prop :=
  ∀ h, validateHook hook = inr h → keeps h.

Definition registered (ops : list StoreOp) : list HookInput :=
  omap (λ op, match op with RegisterHook hook => Some hook | _ => None end) ops.

End Memory.

(** A host for the hooks of the failure-isolation test: a hook is
    serialised to its id followed by its flag, and the parser knows these
    two hooks, with either flag. *)
Definition tagged (hook : HookConfig) : jsstring :=
  id hook ++ [if enabled hook then 49%N else 48%N].

Definition known_hooks : list HookConfig :=
  h ← [with_action Fixtures.failingHook (send_message (str "fail"));
       with_action Fixtures.successHook (send_message (str "success"))];
  [set_enabled h true; set_enabled h false].

Definition parse_known (s : jsstring) : Exn + HookConfig :=
  match list_find (λ h, tagged h = s) known_hooks with
  | Some (_, h) => inr h
  | None => inl (str "SyntaxError: Unexpected token")
  end.

Definition known_services : Services (MemoryFS.Adapter unit) := {|
  exec_service command cwd a := (a, inl (str "Command failed: " ++ command));
  regexp_service source input := inr true;
  stringify_service := tagged;
  parse_service := parse_known
|}.

(** Two hooks are registered, one is switched off, the other removed. *)
Definition store_calls : list StoreOp :=
  [RegisterHook Fixtures.failingHook; RegisterHook Fixtures.successHook;
   SetHookEnabled (str "failing-hook") false;
   RemoveHook (str "success-hook")].

End HookStoreSpec.

Module HookDispatchSpec.
Import HookManager HookManagerSpec.

(** The matching hooks that come before the first one whose pattern test
    throws. *)
Fixpoint before_throw `{Host World} (context : HookContext)
    (l : list HookConfig) : list HookConfig :=
  match l with
  | [] => []
  | hook :: r =>
      if gate_raises context hook then [] else hook :: before_throw context r
  end.

End HookDispatchSpec.

Module StartupLoaderSpec.
Import ConfigWatcher StartupLoader.

(** What remains of a settled load: its value, or nothing. *)
Definition value_of {A} (settled : Reason + list A) : list A :=
  match settled with inr value => value | inl _ => [] end.

Definition rejected {A} (settled : Reason + A) : bool :=
  match settled with inl _ => true | inr _ => false end.

(** Whether the load of a category is rejected. *)
Definition fails {S F} (l : Loader S F) (t : ConfigChangeType) : bool :=
  match t with
  | specs => rejected (loadSpecs l)
  | hooks => rejected (loadHooks l)
  | steering => rejected (loadSteeringFiles l)
  end.

End StartupLoaderSpec.

Module HotReloadSpec.
Import ConfigWatcher HotReload.

(** The calls on the watcher that an event of the reloader amounts to. *)
Definition inputs (s : Running) (ev : Event) : list Input :=
  match ev with
  | StartReloader =>
      if running s then [] else [OnConfigChange (next_handler s); Start]
  | StopReloader =>
      if running s then
        Stop :: match watcherDisposable s with
                | Some handler => [Dispose handler]
                | None => []
                end
      else []
  | Changed t e => [RawEvent t e]
  | Passed ms => [Elapse ms]
  end.

(** An event of the reloader as a call on a watcher. *)
Definition as_input (ev : Event) : Input :=
  match ev with
  | StartReloader => Start
  | StopReloader => Stop
  | Changed t e => RawEvent t e
  | Passed ms => Elapse ms
  end.

(** The reloader and its watcher agree. *)
Record Wired (s : Running) : Prop := {
  wired_watching : watching (watcher s) = running s;
  wired_handlers :
    handlers (watcher s)
    = (if running s then option_list (watcherDisposable s) else []);
  wired_disposable : running s = true → is_Some (watcherDisposable s)
}.

End HotReloadSpec.

Module AgentTasksSpec.
Import AgentTasks.

(** The kind of a call on a collaborator. *)
Inductive Step :=
| status_step (st : TaskState)
| context_step
| llm_step
| trigger_step (eventType : HookManager.HookEventType).

Global Instance Step_eq_dec : EqDecision Step.
Proof. solve_decision. Defined.

Definition kind (c : Call) : Step :=
  match request c with
  | TriggerByEvent eventType _ => trigger_step eventType
  | BuildContext _ => context_step
  | GenerateResponse _ _ => llm_step
  | SetTaskStatus _ _ st => status_step st
  end.

(** The calls that [a'] has recorded beyond those of [a]. *)
Definition made {World} (a a' : Agent World) : list Call :=
  drop (length (calls a)) (calls a').

(** The handler calls that [a'] has recorded beyond those of [a]. *)
Definition heard {World} (a a' : Agent World)
  : list (EventHandler * AgentEvent * EventData) :=
  drop (length (emitted a)) (emitted a').

Definition has_provider {World} (a : Agent World) : bool :=
  bool_decide (is_Some (llmProvider a)).

(** The calls of a task that runs to its end, and of a message. *)
Definition task_plan (provider : bool) : list Step :=
  [status_step in_progress; context_step]
  ++ (if provider then [llm_step] else [])
  ++ [status_step completed; trigger_step HookManager.agent_complete].

Definition message_plan (provider : bool) : list Step :=
  [trigger_step HookManager.message_sent; context_step]
  ++ (if provider then [llm_step] else []).

Definition returned (c : Call) : Prop := thrown c = None.

(** The status completed has been set. *)
Definition completion_recorded (l : list Call) : bool :=
  bool_decide (Exists (λ c, kind c = status_step completed ∧ returned c) l).

(** The calls of the handlers of an event with some data. *)
Definition deliveries {World} (a : Agent World) (event : AgentEvent)
    (data : EventData) : list (EventHandler * AgentEvent * EventData) :=
  (λ h, (h, event, data)) <$> eventHandlers a event.

End AgentTasksSpec.

Module SpecManagerSpec.
Import FileSystem SpecManager.

(** The calls that write. *)
Inductive Op :=
| CreateSpec (name : jsstring)
| UpdateDocument (specName : jsstring) (docType : DocType) (content : jsstring).

Definition perform {C} `{EqDecision C} (a : MemoryFS.Adapter C) (op : Op)
  : MemoryFS.Adapter C :=
  match op with
  | CreateSpec name => (createSpec name a).1
  | UpdateDocument specName docType content =>
      (updateDocument specName docType content a).1
  end.

(** A manager on a new in-memory adapter, after the calls [ops]. *)
Definition after {C} `{EqDecision C} (ops : list Op) : MemoryFS.Adapter C :=
  foldl perform MemoryFS.new_adapter ops.

(** The names under which specs have been created: the valid names given
    to [createSpec], each once, in the order of their first creation. *)
Definition created (ops : list Op) : list jsstring :=
  foldl (λ names op,
           match op with
           | CreateSpec name =>
               if validPattern name && bool_decide (name ∉ names)
               then names ++ [name] else names
           | UpdateDocument _ _ _ => names
           end) [] ops.

(** Documents are updated under names that [createSpec] would accept. *)
Definition well_named (op : Op) : Prop :=
  match op with
  | CreateSpec _ => True
  | UpdateDocument specName _ _ => validPattern specName = true
  end.

Definition documents (name : jsstring) : list jsstring :=
  [getDocPath name requirements; getDocPath name design;
   getDocPath name tasks].

Definition complete (name : jsstring) : SpecSummary :=
  {| name := name; path := getSpecPath name; hasRequirements := true;
     hasDesign := true; hasTasks := true |}.

(** The files of the adapter are the documents of the specs [names], in
    order. *)
Record Holds {C} (a : MemoryFS.Adapter C) (names : list jsstring) : Prop := {
  holds_keys : (MemoryFS.files a).*1 = names ≫= documents;
  holds_distinct : NoDup names;
  holds_valid : Forall (λ n, validPattern n = true) names
}.

(** A spec is created, its design is written, and two more creations are
    refused: one for its name, one under the name that was given twice. *)
Definition spec_calls : list Op :=
  [CreateSpec (str "my-feature");
   UpdateDocument (str "my-feature") design (str "# Design");
   CreateSpec (str "My Feature");
   CreateSpec (str "my-feature")].

End SpecManagerSpec.

Module WatchedFilesSpec.
Import ConfigWatcher WatchedFiles.

(** The categories whose root is a prefix of a path, as text. *)
Definition concerned (normalizedPath : jsstring) : list ConfigChangeType :=
  filter (λ t, MemoryFS.startsWith (root_of t) normalizedPath = true)
    [specs; hooks; steering].

(** The raw events that a change of a file amounts to. *)
Definition reports (s : System) (eventType : WatchEventType)
    (normalizedPath : jsstring) : list Input :=
  if watching (watcher s) then
    (λ t, RawEvent t {| type := eventType; path := normalizedPath |})
      <$> concerned normalizedPath
  else [].

(** The subscriptions that the adapter holds for the watcher. *)
Definition subscriptions (s : System)
  : list (jsstring * list ConfigChangeType) :=
  (λ t, (root_of t, if watching (watcher s) then [t] else []))
    <$> [specs; hooks; steering].

(** The files that [delete] removes, in the order in which it does. *)
Definition removed (s : System) (targetPath : jsstring) : list jsstring :=
  let normalizedPath := MemoryFS.normalizePath targetPath in
  if MemoryFS.map_has normalizedPath (MemoryFS.files (adapter s)) then
    [normalizedPath]
  else
    filter (λ k, MemoryFS.startsWith (normalizedPath ++ [MemoryFS.slash]) k
                 = true)
      (MemoryFS.files (adapter s)).*1.

(** The adapter holds the subscriptions of the watcher and no other. *)
Definition Subscribed (s : System) : Prop :=
  (MemoryFS.watchers (adapter s) = subscriptions s
   ∨ (MemoryFS.watchers (adapter s) = [] ∧ watching (watcher s) = false))
  ∧ watchers (watcher s)
    = (if watching (watcher s) then [specs; hooks; steering] else []).

End WatchedFilesSpec.

Module PluginRegistrySpec.
Import MemoryFS PluginRegistry.

(** The calls that change a registry. *)
Inductive Op :=
| Register (plugin : Plugin)
| RegisterAll (plugins : list Plugin)
| Unregister (pluginId : jsstring).

Definition step (r : Registry) (op : Op) : Registry :=
  match op with
  | Register plugin => (register plugin r).1
  | RegisterAll plugins => (registerAll plugins r).1
  | Unregister pluginId => (unregister pluginId r).1
  end.

(** A registry made for a workspace, after the calls [ops]. *)
Definition run (workspacePath : jsstring) (ops : list Op) : Registry :=
  foldl step (new_registry workspacePath) ops.

(** What a registry holds, the records of calls apart. *)
Definition contents (r : Registry) :=
  (plugins r, activePlugins r, customHookTriggers r, customSteeringModes r,
   commands r, pluginExtensions r).

(** The keys of one kind that the registered plugins have registered. *)
Definition owned (kind : PluginExtensions → list jsstring) (r : Registry)
  : list jsstring :=
  (pluginExtensions r).*2 ≫= kind.

Definition as_trigger (c : ContextCall) : option CustomHookTrigger :=
  match c with RegisterHookTrigger trigger => Some trigger | _ => None end.

Definition as_mode (c : ContextCall) : option CustomSteeringMode :=
  match c with RegisterSteeringMode mode => Some mode | _ => None end.

Definition as_command (c : ContextCall) : option Command :=
  match c with RegisterCommand command => Some command | _ => None end.

Section Extensions.
Context {V : Type} (key : V → jsstring).

(** An extension is registered under its key unless the key is taken. *)
Definition add (s : list (jsstring * V) * list jsstring) (v : V)
  : list (jsstring * V) * list jsstring :=
  if map_has (key v) s.1 then s
  else (map_set (key v) v s.1, s.2 ++ [key v]).

(** A map of extensions and the keys that plugins own in it. *)
Record Owned (m : list (jsstring * V)) (own : list jsstring) : Prop := {
  Owned_keys : NoDup m.*1;
  Owned_key : Forall (λ e, key e.2 = e.1) m;
  Owned_once : NoDup own;
  Owned_there : ∀ k, k ∈ own → k ∈ m.*1
}.

End Extensions.

(** The parts of a registry and of the extensions of a plugin being
    registered: what registering an extension leaves alone, and the map and
    the list of each kind. *)
Definition frame (r : Registry) :=
  (plugins r, activePlugins r, pluginExtensions r, workspacePath r, called r).

Definition trig (s : Registry * PluginExtensions) :=
  (customHookTriggers s.1, hookTriggers s.2).

Definition modes (s : Registry * PluginExtensions) :=
  (customSteeringModes s.1, steeringModes s.2).

Definition cmds (s : Registry * PluginExtensions) :=
  (commands s.1, ext_commands s.2).

Definition view (s : Registry * PluginExtensions) :=
  (frame s.1, trig s, modes s, cmds s).

Record Sound (r : Registry) : Prop := {
  Sound_active : activePlugins r = (plugins r).*1;
  Sound_extensions : (pluginExtensions r).*1 = (plugins r).*1;
  Sound_ids : NoDup (plugins r).*1;
  Sound_plugins :
    Forall (λ e, id e.2 = e.1 ∧ validatePlugin e.2 = None) (plugins r);
  Sound_triggers :
    Owned trigger_type (customHookTriggers r) (owned hookTriggers r);
  Sound_modes :
    Owned mode_name (customSteeringModes r) (owned steeringModes r);
  Sound_commands : Owned command_id (commands r) (owned ext_commands r)
}.

(** [r'] holds every extension that [r] holds and that no registered
    plugin owns, and no registered plugin owns it in [r'] either. *)
Definition keeps_kind {V} (kind : PluginExtensions → list jsstring)
    (field : Registry → list (jsstring * V)) (r r' : Registry) : Prop :=
  ∀ k v, map_get k (field r) = Some v → k ∉ owned kind r →
         map_get k (field r') = Some v ∧ k ∉ owned kind r'.

Definition keeps (r r' : Registry) : Prop :=
  keeps_kind hookTriggers customHookTriggers r r'
  ∧ keeps_kind steeringModes customSteeringModes r r'
  ∧ keeps_kind ext_commands commands r r'.

(** A plugin that registers a hook trigger through its context and
    declares a command, and one whose [activate] throws after it has
    registered a hook trigger. *)
Definition sample_trigger : CustomHookTrigger :=
  {| trigger_type := str "onDeploy"; trigger_description := str "deploy";
     trigger_handler := 0 |}.

Definition sample_plugin : Plugin :=
  {| id := str "sample"; name := str "Sample"; version := str "1.0.0";
     activate := λ _, ([RegisterHookTrigger sample_trigger], None);
     deactivate := None;
     plugin_hookTriggers := None; plugin_steeringModes := None;
     plugin_commands :=
       Some [{| command_id := str "sample.run"; command_name := str "Run";
                command_handler := 1 |}] |}.

Definition failing_plugin : Plugin :=
  {| id := str "failing"; name := str "Failing"; version := str "0.1.0";
     activate := λ _, ([RegisterHookTrigger sample_trigger],
                       Some (str "activation failed"));
     deactivate := None;
     plugin_hookTriggers := None; plugin_steeringModes := None;
     plugin_commands := None |}.

End PluginRegistrySpec.

Module TaskTreeSpec.
Import AgentTasks.

(** A task and the tasks below it, in the order of the document. *)
Fixpoint flatten (task : Task) : list Task :=
  task :: match subTasks task with
          | Some subs => subs ≫= flatten
          | None => []
          end.

End TaskTreeSpec.

Module ContextManagerSpec.
Import ContextManager.

(** The path of an entry some folders down. *)
Definition entry_path (folderPath : jsstring) (entries : list jsstring)
  : jsstring :=
  foldl (λ path entry, path ++ str "/" ++ entry) folderPath entries.

(** [path] is at least one and at most [depth] entries below the folder. *)
Definition below (depth : nat) (folderPath path : jsstring) : Prop :=
  ∃ entries, entries ≠ [] ∧ length entries ≤ depth
             ∧ path = entry_path folderPath entries.

(** A content that the adapter gives for its path. *)
Definition read_from {C} `{EqDecision C} (a : MemoryFS.Adapter C)
    (fc : AgentTasks.FileContent) : Prop :=
  MemoryFS.readFile (AgentTasks.file_path fc) a
  = inr (AgentTasks.file_content fc).

(** [processedPaths] and the contents loaded so far. *)
Record Loaded {C} `{EqDecision C} (a : MemoryFS.Adapter C)
    (processedPaths : list jsstring)
    (contents : list AgentTasks.FileContent) : Prop := {
  Loaded_paths : processedPaths = AgentTasks.file_path <$> contents;
  Loaded_once : NoDup processedPaths;
  Loaded_read : Forall (read_from a) contents
}.

(** The calls on a context manager, whose adapter does not change. *)
Inductive Op :=
| AddFile (path : jsstring)
| AddFolder (path : jsstring)
| AddMessage (message : Message)
| ClearContext.

Definition step {C} `{EqDecision C} (a : MemoryFS.Adapter C) (m : Manager)
    (op : Op) : Manager :=
  match op with
  | AddFile path => (addFile path m a).1.1
  | AddFolder path => (addFolder path m a).1.1
  | AddMessage message => addMessage message m
  | ClearContext => clearContext m
  end.

Definition run {C} `{EqDecision C} (a : MemoryFS.Adapter C) (ops : list Op)
  : Manager :=
  foldl (step a) new_manager ops.

(** The calls made since the context was last cleared. *)
Definition since_clear (ops : list Op) : list Op :=
  foldl (λ kept op, match op with ClearContext => [] | _ => kept ++ [op] end)
    [] ops.

Definition as_file (op : Op) : option jsstring :=
  match op with AddFile path => Some path | _ => None end.

Definition as_folder (op : Op) : option jsstring :=
  match op with AddFolder path => Some path | _ => None end.

Definition as_message (op : Op) : option Message :=
  match op with AddMessage message => Some message | _ => None end.

(** Managers that leave the adapter alone. *)
Definition Quiet {C} `{EqDecision C} `{!Managers (MemoryFS.Adapter C)}
  : Prop :=
  (∀ specName a, (loadSpec specName a).1 = a)
  ∧ (∀ steeringContext a,
       (getActiveSteeringContent steeringContext a).1 = a).

(** Managers without specs and without steering files. *)
Definition no_managers : Managers (MemoryFS.Adapter unit) :=
  {| loadSpec specName a :=
       (a, inl (str "Spec '" ++ specName ++ str "' not found"));
     getActiveSteeringContent _ a := (a, inr []) |}.

End ContextManagerSpec.

Module SteeringReferencesSpec.
Import SteeringReferences.

(** A reference to a file, as it is written. *)
Definition reference (target : jsstring) : jsstring :=
  str "#[[file:" ++ target ++ str "]]".

(** A text followed by a reference. *)
Record Part := {
  text : jsstring;
  target : jsstring
}.

(** A content: parts and a last text. *)
Definition render (parts : list Part) (last : jsstring) : jsstring :=
  (parts ≫= (λ part, text part ++ reference (target part))) ++ last.

(** No number sign. *)
Definition plain (s : jsstring) : Prop := 35%N ∉ s.

(** The text of a part has no number sign; its target is not empty and
    has no closing bracket, number sign or dollar sign. *)
Definition well_formed (part : Part) : Prop :=
  plain (text part) ∧ (target part ≠ []) ∧ (93%N ∉ target part)
  ∧ plain (target part) ∧ (36%N ∉ target part).

(** What stands for a reference in the end. *)
Definition replacement {C} `{EqDecision C} (a : MemoryFS.Adapter C)
    (target : jsstring) : jsstring :=
  match MemoryFS.readFile (trim target) a with
  | inr fileContent => fileContent
  | inl _ => str "[File not found: " ++ trim target ++ str "]"
  end.

Definition resolved {C} `{EqDecision C} (a : MemoryFS.Adapter C)
    (parts : list Part) (last : jsstring) : jsstring :=
  (parts ≫= (λ part, text part ++ replacement a (target part))) ++ last.

(** The files referred to have no number sign. *)
Definition plain_files {C} `{EqDecision C} (a : MemoryFS.Adapter C)
    (parts : list Part) : Prop :=
  ∀ part fileContent,
    part ∈ parts →
    MemoryFS.readFile (trim (target part)) a = inr fileContent →
    plain fileContent.

(** A content with one reference, and an adapter with the file; the
    file holds replacement patterns. *)
Definition sample_parts : list Part :=
  [{| text := str "See "; target := str " notes.md " |}].

Definition sample_files : MemoryFS.Adapter unit :=
  MemoryFS.writeFile (str "notes.md") (str "cost: $& and $$ and $1")
    MemoryFS.new_adapter.

(** An adapter in which one file refers to another. *)
Definition nested_files : MemoryFS.Adapter unit :=
  MemoryFS.writeFile (str "b") (str "B")
    (MemoryFS.writeFile (str "a") (str "#[[file:b]]") MemoryFS.new_adapter).

End SteeringReferencesSpec.

(** * Properties *)

(** ** Lists *)

(** Nothing is a member of the empty list. *)
Ltac in_nil :=
  match goal with H : _ ∈ [] |- _ => by inversion H end.

Lemma filter_all {A} (P : A → Prop) `{∀ x, Decision (P x)} (l : list A) :
  (∀ x, x ∈ l → P x) → filter P l = l.
Proof.
  induction l as [|x l IH]; intros Hl; [done|].
  rewrite filter_cons_True by (apply Hl; left).
  f_equal. apply IH. intros y Hy. apply Hl. by right.
Qed.

Lemma filter_none {A} (P : A → Prop) `{∀ x, Decision (P x)} (l : list A) :
  (∀ x, x ∈ l → ¬ P x) → filter P l = [].
Proof.
  induction l as [|x l IH]; intros Hl; [done|].
  rewrite filter_cons_False by (apply Hl; left).
  apply IH. intros y Hy. apply Hl. by right.
Qed.

Lemma filter_ext_in {A} (P Q : A → Prop) `{∀ x, Decision (P x)}
    `{∀ x, Decision (Q x)} (l : list A) :
  (∀ x, x ∈ l → P x ↔ Q x) → filter P l = filter Q l.
Proof.
  induction l as [|x l IH]; intros Hl; [done|].
  assert (filter P l = filter Q l) as E.
  { apply IH. intros y Hy. apply Hl. by right. }
  destruct (decide (P x)) as [HP|HP].
  - rewrite !filter_cons_True; [by rewrite E|by apply Hl; [left|]|done].
  - rewrite !filter_cons_False; [done| |done].
    intros HQ. apply HP. apply Hl; [left|done].
Qed.

Lemma NoDup_fmap_eq {A B} (f : A → B) (l : list A) x y :
  NoDup (f <$> l) → x ∈ l → y ∈ l → f x = f y → x = y.
Proof.
  induction l as [|a l IH]; simpl; [by inversion 2|].
  rewrite NoDup_cons. intros [Ha Hl] Hx Hy E.
  apply elem_of_cons in Hx as [->|Hx];
    apply elem_of_cons in Hy as [->|Hy]; [done| | |by apply IH].
  - exfalso. apply Ha. rewrite E. by apply list_elem_of_fmap_2.
  - exfalso. apply Ha. rewrite <- E. by apply list_elem_of_fmap_2.
Qed.

Lemma NoDup_fmap_filter {A B} (f : A → B) (P : A → Prop)
    `{∀ x, Decision (P x)} (l : list A) :
  NoDup (f <$> l) → NoDup (f <$> filter P l).
Proof.
  intros Hl. eapply sublist_NoDup; [exact Hl|].
  apply fmap_sublist, sublist_filter.
Qed.

Lemma StronglySorted_filter {A} (R : relation A) (P : A → Prop)
    `{∀ x, Decision (P x)} (l : list A) :
  StronglySorted R l → StronglySorted R (filter P l).
Proof.
  induction 1 as [|x l Hl IH Hx]; [constructor|].
  destruct (decide (P x)).
  - rewrite filter_cons_True by done. constructor; [done|].
    apply Forall_forall. intros y Hy.
    apply list_elem_of_filter in Hy as [_ Hy].
    by apply (proj1 (Forall_forall _ _) Hx).
  - by rewrite filter_cons_False.
Qed.

Lemma Forall_filter_weaken {A} (Q : A → Prop) (P : A → Prop)
    `{∀ x, Decision (P x)} (l : list A) :
  Forall Q l → Forall Q (filter P l).
Proof.
  rewrite !Forall_forall. intros Hl x Hx.
  apply list_elem_of_filter in Hx as [_ Hx]. by apply Hl.
Qed.

(** ** The phase gate *)

Module AgentControllerFacts.
Import AgentController AgentControllerSpec.

Lemma getOrCreateWorkflowState_eq (name : jsstring) (c : Controller) :
  getOrCreateWorkflowState name c
  = (workflow c name, store_state name (workflow c name) c).
Proof.
  unfold workflow, getOrCreateWorkflowState, store_state, with_workflows.
  destruct c as [[m p] n]; simpl.
  destruct (m !! name) as [st|] eqn:E; simpl; [|done].
  by rewrite insert_id.
Qed.

Lemma workflow_store_state (name : jsstring) st (c : Controller) :
  workflow (store_state name st c) name = st.
Proof.
  unfold workflow, getOrCreateWorkflowState, store_state, with_workflows; simpl.
  by rewrite lookup_insert_eq.
Qed.

Lemma store_state_twice (name : jsstring) a b (c : Controller) :
  store_state name a (store_state name b c) = store_state name a c.
Proof.
  unfold store_state, with_workflows; simpl. by rewrite insert_insert_eq.
Qed.

Lemma store_state_others (name : jsstring) st (c : Controller) :
  base.delete name (specWorkflows (session (store_state name st c)))
  = base.delete name (specWorkflows (session c)).
Proof. unfold store_state; simpl. by rewrite delete_insert_eq. Qed.

Lemma store_state_pending (name : jsstring) st (c : Controller) :
  pendingChanges (session (store_state name st c)) = pendingChanges (session c).
Proof. done. Qed.

(** Rewriting a method body to the canonical form: one read of the
    observed state, one write. *)
Ltac phase_norm :=
  rewrite ?getOrCreateWorkflowState_eq; simpl;
  rewrite ?store_state_twice, ?workflow_store_state, ?store_state_others.

(** C2.  For every specification name and every controller state, the
    answer of [canTransitionToPhase] for target design is the
    requirements-approval flag of that specification, for tasks the
    design-approval flag, for implementation the tasks-approval flag, and
    for requirements it is always true; [transitionToPhase] answers the same
    and moves the current phase exactly when that answer is true. *)
Theorem canTransitionToPhase_gate (name : jsstring) (c : Controller) :
  let st := workflow c name in
  (canTransitionToPhase name requirements c).1 = true
  ∧ (canTransitionToPhase name design c).1 = requirementsApproved st
  ∧ (canTransitionToPhase name tasks c).1 = designApproved st
  ∧ (canTransitionToPhase name implementation c).1 = tasksApproved st
  ∧ ∀ target : SpecPhase,
      (transitionToPhase name target c).1
      = (canTransitionToPhase name target c).1
      ∧ workflow (transitionToPhase name target c).2 name
        = if (canTransitionToPhase name target c).1
          then set_phase st target else st.
Proof.
  intros st. unfold canTransitionToPhase, transitionToPhase, canTransitionToPhase.
  phase_norm. fold st. repeat split; try done.
  - destruct target; simpl; try done;
      match goal with |- context [negb ?b] => by destruct b end.
  - destruct target; simpl; phase_norm; try done;
      match goal with
      | |- context [negb ?b] => destruct b; simpl; phase_norm; done
      end.
Qed.

(** C7 (as the code has it).  For every specification name,
    [approveCurrentPhase] sets the approval flag of the current phase and
    moves the current phase to its successor; at implementation it changes
    nothing.  Other specifications are not touched.  The returned boolean is
    [true] in every phase, at implementation too. *)
Theorem approveCurrentPhase_advances (name : jsstring) (c : Controller) :
  let st := workflow c name in
  let st' := workflow (approveCurrentPhase name c).2 name in
  (approveCurrentPhase name c).1 = true
  ∧ currentPhase st' = next_phase (currentPhase st)
  ∧ requirementsApproved st'
    = requirementsApproved st || bool_decide (currentPhase st = requirements)
  ∧ designApproved st'
    = designApproved st || bool_decide (currentPhase st = design)
  ∧ tasksApproved st'
    = tasksApproved st || bool_decide (currentPhase st = tasks)
  ∧ (if bool_decide (currentPhase st = implementation)
     then st' = st else True)
  ∧ base.delete name (specWorkflows (session (approveCurrentPhase name c).2))
    = base.delete name (specWorkflows (session c)).
Proof.
  intros st st'. subst st'. unfold approveCurrentPhase. phase_norm.
  fold st. destruct (currentPhase st) eqn:E; simpl; phase_norm; fold st;
    rewrite ?E; simpl; rewrite ?orb_false_r, ?orb_true_r, ?delete_insert_eq;
    done.
Qed.

(** C7, the claim as written fails: at implementation no advance occurs,
    yet the call returns [true]. *)
Lemma approveCurrentPhase_true_without_advance :
  let name := str "feature" in
  let c := (approveCurrentPhase name
             (approveCurrentPhase name
               (approveCurrentPhase name new_controller).2).2).2 in
  currentPhase (workflow c name) = implementation
  ∧ (approveCurrentPhase name c).1
    ≠ bool_decide (currentPhase (workflow (approveCurrentPhase name c).2 name)
                   ≠ currentPhase (workflow c name)).
Proof. vm_compute. split; [done | discriminate]. Qed.

(** C8.  [resetPhaseApproval] cascades downstream: resetting
    requirements clears the three flags and sets the phase to requirements;
    resetting design clears the design and tasks flags, keeps the
    requirements flag, and sets the phase to design unless it was
    requirements; resetting tasks clears only the tasks flag and sets the
    phase to tasks when it was implementation. *)
Theorem resetPhaseApproval_cascade (name : jsstring) (c : Controller) :
  let st := workflow c name in
  let r := workflow (resetPhaseApproval name requirements c) name in
  let d := workflow (resetPhaseApproval name design c) name in
  let t := workflow (resetPhaseApproval name tasks c) name in
  (requirementsApproved r = false ∧ designApproved r = false
   ∧ tasksApproved r = false ∧ currentPhase r = requirements)
  ∧ (requirementsApproved d = requirementsApproved st
     ∧ designApproved d = false ∧ tasksApproved d = false
     ∧ currentPhase d
       = match currentPhase st with
         | requirements => requirements
         | design | tasks | implementation => design
         end)
  ∧ (requirementsApproved t = requirementsApproved st
     ∧ designApproved t = designApproved st ∧ tasksApproved t = false
     ∧ currentPhase t
       = match currentPhase st with
         | implementation => tasks
         | p => p
         end).
Proof.
  intros st r d t. subst r d t. unfold resetPhaseApproval. phase_norm.
  fold st. destruct (currentPhase st) eqn:E; simpl; rewrite ?E; done.
Qed.

Lemma workflow_store_state_ne (name other : jsstring) st (c : Controller) :
  name ≠ other → workflow (store_state name st c) other = workflow c other.
Proof.
  intros Hne.
  unfold workflow, getOrCreateWorkflowState, store_state, with_workflows; simpl.
  rewrite lookup_insert_ne by done.
  by destruct (specWorkflows (session c) !! other).
Qed.

Lemma gated_store_state (name other : jsstring) st (c : Controller) :
  gated st = true → gated (workflow c other) = true →
  gated (workflow (store_state name st c) other) = true.
Proof.
  intros Hst Hc. destruct (decide (name = other)) as [->|Hne].
  - by rewrite workflow_store_state.
  - by rewrite workflow_store_state_ne.
Qed.

Lemma gated_call (c : Controller) (k : Call) :
  (∀ name, gated (workflow c name) = true) →
  ∀ name, gated (workflow (call c k) name) = true.
Proof.
  intros Hc other.
  destruct k as [name|name phase|name phase|name|name phase|name phase];
    pose proof (Hc name) as Hn; pose proof (Hc other) as Ho; simpl;
    unfold getWorkflowPhase, canTransitionToPhase, transitionToPhase,
      canTransitionToPhase, approveCurrentPhase, resetPhaseApproval,
      isPhaseApproved;
    rewrite ?getOrCreateWorkflowState_eq; simpl;
    try (by apply gated_store_state);
    try destruct phase;
    destruct (workflow c name) as [n [] [] [] []];
    simpl in *; try discriminate;
    rewrite ?getOrCreateWorkflowState_eq; simpl;
    rewrite ?store_state_twice, ?workflow_store_state;
    by apply gated_store_state.
Qed.

(** The gate holds in every state that the phase machine can reach: a
    workflow is in design only with the requirements approved, in tasks only
    with the design approved, in implementation only with the tasks
    approved. *)
Theorem phase_gate_invariant (history : list Call) (name : jsstring) :
  gated (workflow (foldl call new_controller history) name) = true.
Proof.
  revert name. induction history as [|k history IH] using rev_ind.
  - intros name. unfold workflow, getOrCreateWorkflowState; simpl.
    by rewrite lookup_empty.
  - rewrite foldl_app. simpl. by apply gated_call.
Qed.

(** *** The approval gate *)

Section ApprovalGate.
Context `{FileSystemAdapter World}.

Lemma apply_changes_attempted p chs acc (w : World) :
  attempted <$> sinkCalls (apply_changes p chs acc w).1
  = (attempted <$> sinkCalls acc) ++ ((λ ch, (p, call_of ch)) <$> chs).
Proof.
  revert acc w. induction chs as [|ch chs IH]; intros acc w; simpl.
  - by rewrite app_nil_r.
  - unfold apply_change.
    destruct (perform (call_of ch) w) as [w1 [e|]]; rewrite IH; simpl;
      by rewrite fmap_app, <- app_assoc.
Qed.

Lemma apply_pending_attempted l acc (w : World) :
  attempted <$> sinkCalls (apply_pending l acc w).1
  = (attempted <$> sinkCalls acc)
    ++ (filter (λ p, approved p = true) l ≫= calls_for).
Proof.
  revert acc w. induction l as [|p l IH]; intros acc w; simpl.
  - by rewrite app_nil_r.
  - destruct (approved p) eqn:E; simpl.
    + rewrite filter_cons_True by done.
      destruct (apply_changes p (changes p) acc w) as [acc1 w1] eqn:E1.
      rewrite IH. pose proof (apply_changes_attempted p (changes p) acc w) as E2.
      rewrite E1 in E2; simpl in E2. rewrite E2.
      by rewrite bind_cons, <- app_assoc.
    + rewrite filter_cons_False by (rewrite E; done). apply IH.
Qed.


End ApprovalGate.

(** The approval gate on the in-memory filesystem: of two queued entries
    the first is approved; its first edit fails (the empty path), the two
    others are applied; the second entry stays pending and untouched. *)
Example applyApprovedChanges_on_memory :
  let edits1 :=
    [{| path := []; content := str "x"; operation := create |};
     {| path := str "a.ts"; content := str "v2"; operation := update |};
     {| path := str "b.ts"; content := []; operation := delete |}] in
  let edits2 :=
    [{| path := str "c.ts"; content := str "y"; operation := create |}] in
  let c1 := (queueCodeChanges edits1 10 new_controller).2 in
  let c2 := (queueCodeChanges edits2 11 c1).2 in
  let c3 := (approveChange (str "change-1") c2).2 in
  let r := applyApprovedChanges c3 Fixtures.empty_memory in
  appliedChanges r.1.1 = drop 1 edits1
  ∧ Fixtures.files r.2 = [(str "a.ts", str "v2")]
  ∧ id <$> getPendingChanges r.1.2 = [str "change-2"]
  ∧ getPendingChanges r.1.2 = getPendingChanges c3.
Proof. vm_compute. done. Qed.

End AgentControllerFacts.

(** ** The hook engine *)

Module HookManagerFacts.
Import HookManager HookManagerSpec.

Section Dispatch.
Context {World : Type} `{Host World}.
Local Opaque str.

Lemma run_action_results (exec : @Executor World) context
    (d : @Dispatch World) hook :
  results (run_action exec context d hook)
  = results d ++ outcomes exec context [hook] (world d).
Proof.
  unfold run_action; simpl. by destruct (exec hook context (world d)).
Qed.

Lemma run_hooks_spec (exec : @Executor World) context l :
  Forall (λ hook, gate_raises context hook = false) l →
  ∀ d : Dispatch, ∃ d',
    run_hooks exec context l d = (d', None)
    ∧ results d'
      = results d
        ++ outcomes exec context
             (filter (λ hook, pattern_gate hook context = inr true) l) (world d)
    ∧ logger (manager d')
      = logger (manager d)
        ++ omap failure_entry
             (outcomes exec context
                (filter (λ hook, pattern_gate hook context = inr true) l)
                (world d))
    ∧ eventListeners (manager d') = eventListeners (manager d).
Proof.
  induction 1 as [|hook l Hg _ IH]; intros d; simpl.
  - exists d. by rewrite !app_nil_r.
  - unfold gate_raises in Hg.
    destruct (pattern_gate hook context) as [e|[|]] eqn:G; [done| |].
    + rewrite filter_cons_True by done.
      destruct (IH (run_action exec context d hook)) as (d' & -> & R & L & E).
      exists d'. split; [done|]. rewrite R, L, E. clear R L E IH.
      unfold run_action; simpl.
      destruct (exec hook context (world d)) as [w1 o]; simpl.
      rewrite <- !app_assoc. unfold failure_entry at 3; simpl.
      repeat split; destruct o as [e|res]; simpl; try done;
        unfold failure_entry; simpl;
        try match goal with |- context [negb ?a && ?b] =>
              destruct (negb a && b) end;
        simpl; rewrite <- ?app_assoc; done.
    + rewrite filter_cons_False by (rewrite G; discriminate). apply IH.
Qed.

Lemma notify_listeners_spec eventType context
    (l : list (HookEventHandler World)) :
  ∀ d : @Dispatch World,
    results (notify_listeners eventType context l d) = results d
       ∧ ∃ tail, logger (manager (notify_listeners eventType context l d))
                 = logger (manager d) ++ tail.
Proof.
  induction l as [|handler l IH]; intros d; simpl.
  - split; [done|]. exists []. by rewrite app_nil_r.
  - destruct (handler context (world d)) as [w1 [err|]];
      match goal with |- context [notify_listeners _ _ _ ?d1] =>
        destruct (IH d1) as (R & tail & L) end; rewrite R, L; simpl;
      (split; [done|]).
    + eexists. by rewrite <- app_assoc.
    + by exists tail.
Qed.



(** *** Registration *)

Lemma map_get_map_set (hook : HookConfig) (l : list HookConfig) :
  map_get (id hook) (map_set (id hook) hook l) = Some hook.
Proof.
  induction l as [|h l IH]; simpl.
  - by rewrite bool_decide_eq_true_2.
  - destruct (bool_decide (id h = id hook)) eqn:E; simpl.
    + by rewrite bool_decide_eq_true_2.
    + by rewrite E.
Qed.

Lemma map_set_keys (hook old : HookConfig) (l : list HookConfig) :
  map_get (id hook) l = Some old →
  id <$> map_set (id hook) hook l = id <$> l.
Proof.
  induction l as [|h l IH]; simpl; [done|].
  destruct (bool_decide (id h = id hook)) eqn:E; simpl.
  - apply bool_decide_eq_true_1 in E. intros _. by rewrite E.
  - intros Hl. f_equal. by apply IH.
Qed.

(** C4 (as the code has it).  [registerHook] does not look for the id
    among the registered hooks: when validation and the two filesystem calls
    succeed, registering an id that is already there raises nothing and puts
    the new hook in the place of the old one. *)
Theorem registerHook_replaces_existing (h : HookInput) (m : Manager World)
    (w : World) (hook old : HookConfig) :
  validateHook h = inr hook →
  getHook (id hook) m = Some old →
  (fs_mkdir hooksBasePath w).2 = None →
  (fs_writeFile (getHookPath (id hook)) (JSON_stringify hook)
     (fs_mkdir hooksBasePath w).1).2 = None →
  let r := registerHook h m w in
  r.2 = None
  ∧ getHook (id hook) r.1.1 = Some hook
  ∧ id <$> listHooks r.1.1 = id <$> listHooks m.
Proof.
  intros Hv Hold Hmk Hwr r. subst r. unfold registerHook. rewrite Hv.
  destruct (fs_mkdir hooksBasePath w) as [w1 r1]; simpl in *; subst r1.
  destruct (fs_writeFile _ _ w1) as [w2 r2]; simpl in *; subst r2; simpl.
  unfold getHook, listHooks in *; simpl.
  split; [done|]. split; [apply map_get_map_set | by eapply map_set_keys].
Qed.


End Dispatch.

(** *** The claims as written, on the doubles *)

Example regex_source_ts :
  regex_source (str "**/*.ts") = str "^.*/[^/]*\.ts$".
Proof. reflexivity. Qed.

Import Fixtures.



(** C4, the claim as written fails: a second registration under the id
    [failing-hook] raises nothing, and the hook stored under that id is the
    second one. *)
Lemma registerHook_twice_overwrites :
  let first := registerHook failingHook new_manager empty_memory in
  let second := registerHook failingHook_again first.1.1 first.1.2 in
  first.2 = None
  ∧ name <$> getHook (str "failing-hook") first.1.1
    = Some (str "Failing Hook")
  ∧ second.2 = None
  ∧ name <$> listHooks second.1.1 = [str "Second Registration"].
Proof. vm_compute. done. Qed.

(** C4 on the doubles. *)
Lemma registerHook_replaces_existing_witness :
  let first := registerHook failingHook new_manager empty_memory in
  let second := registerHook failingHook_again first.1.1 first.1.2 in
  second.2 = None
  ∧ getHook (str "failing-hook") second.1.1
    = Some (with_action failingHook_again
              (execute_command (str "true") None))
  ∧ id <$> listHooks second.1.1 = id <$> listHooks first.1.1.
Proof.
  intros first second.
  apply (registerHook_replaces_existing failingHook_again first.1.1 first.1.2
           (with_action failingHook_again (execute_command (str "true") None))
           (with_action failingHook (send_message (str "fail"))));
    vm_compute; reflexivity.
Defined.



(** Outside the failures of actions: a throw of the pattern test leaves
    [emit]. *)
Example emit_throws_on_refused_pattern :
  let mw := register_all [questionHook; tsHook]
              (setMessageSender (testSender []) new_manager) empty_memory in
  let r := emit file_save
             {| event := None; filePath := Some (str "a.ts"); message := None;
                specName := None; taskId := None |} mw.1 mw.2 in
  r.2 = Some (str "Invalid regular expression: Nothing to repeat")
  ∧ results r.1 = [].
Proof. vm_compute. done. Qed.


End HookManagerFacts.

(** ** Reload of the configuration *)

Module ConfigReloaderFacts.
Import ConfigWatcher ConfigReloader ConfigReloaderSpec Fixtures.

Lemma reload_thrown manager done failed :
  (reload manager done failed).2 = rejects manager.
Proof. by destruct manager as [[e|]|]. Qed.

Lemma promise_all_fulfils {A} (l : list (A * option Exn)) :
  (promise_all l).1 = None ↔ Forall (λ x, x.2 = None) l.
Proof.
  induction l as [|[a [e|]] l IH]; simpl.
  - split; [constructor | done].
  - split; [done | by inversion 1].
  - destruct (promise_all l) as [o s]; simpl in *. rewrite IH.
    split; [by constructor | by inversion 1].
Qed.

Lemma promise_all_settled {A} (l : list (A * option Exn)) :
  (promise_all l).1 = None → (promise_all l).2 = l.*1.
Proof.
  induction l as [|[a [e|]] l IH]; simpl; [done..|].
  destruct (promise_all l) as [o s]; simpl in *. intros ->. by rewrite IH.
Qed.

Lemma promise_all_rejects {A} (l : list (A * option Exn)) e :
  (promise_all l).1 = Some e →
  ∃ a, (a, Some e) ∈ l ∧ a ∈ (promise_all l).2
       ∧ length (promise_all l).2 ≤ length l.
Proof.
  induction l as [|[a [e'|]] l IH]; simpl; [done|..].
  - intros [= ->]. exists a. repeat split; [left | left | lia].
  - destruct (promise_all l) as [o s]; simpl in *. intros ->.
    destruct IH as (b & Hb & Hs & Hl); [done|].
    exists b. repeat split; [by right | by right | lia].
Qed.

(** C5 (as the code has it).  Whatever the order in which the three
    reloads settle: [reloadAll] fulfils exactly when no category's refresh
    fails, and then all three reloads have settled; when one fails, its
    error is thrown again by the category reload and [reloadAll] rejects
    with the error of a reload that has settled; and every category's reload
    runs and logs its own success or failure, whatever the others do. *)
Theorem reloadAll_rejects_on_failure (r : Reloader)
    (order : list ConfigChangeType) :
  order ≡ₚ [specs; hooks; steering] →
  let a := reloadAll r order in
  (thrown a = None
   ↔ rejects (specManager r) = None ∧ rejects (hookManager r) = None
     ∧ rejects (steeringManager r) = None)
  ∧ (thrown a = None → settled a = order)
  ∧ (∀ e, thrown a = Some e →
       ∃ t, t ∈ settled a ∧ (reload_category r t).2 = Some e)
  ∧ ∀ t, (reload_category r t).1 ⊆ logged a.
Proof.
  intros Hp a. subst a. unfold reloadAll; simpl.
  set (l := (λ t, (t, (reload_category r t).2)) <$> order).
  assert (l.*1 = order) as Hl1.
  { subst l. rewrite <- list_fmap_compose. apply list_fmap_id. }
  split; [split|split; [|split]].
  - intros Hn. apply promise_all_fulfils in Hn. subst l.
    rewrite Forall_fmap, Hp in Hn.
    apply Forall_cons in Hn as [Hs Hn]. apply Forall_cons in Hn as [Hh Hn].
    apply Forall_cons in Hn as [Ht _]. simpl in Hs, Hh, Ht.
    unfold reloadSpecs in Hs. unfold reloadHooks in Hh.
    unfold reloadSteering in Ht. by rewrite reload_thrown in Hs, Hh, Ht.
  - intros (Hs & Hh & Ht). apply promise_all_fulfils. subst l.
    rewrite Forall_fmap, Hp.
    repeat constructor; simpl;
      unfold reloadSpecs, reloadHooks, reloadSteering;
      by rewrite reload_thrown.
  - intros Hn. by rewrite promise_all_settled.
  - intros e He. destruct (promise_all_rejects l e He) as (t & Hin & Hs & _).
    exists t. split; [done|]. subst l.
    apply list_elem_of_fmap in Hin as (t' & [= -> He'] & _). done.
  - intros t e He. apply list_elem_of_bind. exists t. split; [done|].
    rewrite Hp. destruct t; set_solver.
Qed.

(** C5, the claim as written fails: the failure of the spec manager
    leaves [reloadAll] as a rejection, at a point where only the reload of
    the specs has settled. *)
Lemma reloadAll_propagates_failure :
  let a := reloadAll failing_specs [specs; hooks; steering] in
  thrown a = Some (str "EIO: read error")
  ∧ settled a = [specs]
  ∧ logged a
    = [log_error (str "Failed to reload specs") (str "EIO: read error");
       log_info (str "Hooks reloaded");
       log_info (str "Steering files reloaded")].
Proof. vm_compute. done. Qed.

(** C5 on this reloader, when the specs settle last. *)
Lemma reloadAll_rejects_on_failure_witness :
  [hooks; steering; specs] ≡ₚ [specs; hooks; steering]
  ∧ ∃ t, t ∈ settled (reloadAll failing_specs [hooks; steering; specs])
         ∧ (reload_category failing_specs t).2 = Some (str "EIO: read error").
Proof.
  assert ([hooks; steering; specs] ≡ₚ [specs; hooks; steering]) as Hp.
  { by rewrite (Permutation_app_comm [hooks; steering] [specs]). }
  split; [exact Hp|].
  apply (proj1 (proj2 (proj2 (reloadAll_rejects_on_failure failing_specs
                                [hooks; steering; specs] Hp)))).
  reflexivity.
Defined.

End ConfigReloaderFacts.

(** ** The debounce of the watcher *)

Module ConfigWatcherFacts.
Import ConfigWatcher ConfigWatcherSpec Fixtures.

Lemma debounceKey_inj t e t' e' :
  debounceKey t e = debounceKey t' e' → t = t' ∧ path e = path e'.
Proof.
  unfold debounceKey. destruct t, t'; vm_compute; intros Hk;
    by simplify_eq.
Qed.

Lemma lookup_foldl_delete (m : gmap jsstring nat) (l : list Timer) k :
  foldl (λ m t, base.delete (timer_key t) m) m l !! k
  = if decide (k ∈ timer_key <$> l) then None else m !! k.
Proof.
  revert m. induction l as [|t l IH]; intros m; simpl; [done|].
  rewrite IH. destruct (decide (k = timer_key t)) as [->|Hne].
  - rewrite lookup_delete_eq.
    rewrite (decide_True (P := _ ∈ _ :: _)) by left. by case_decide.
  - rewrite lookup_delete_ne by done.
    destruct (decide (k ∈ timer_key <$> l)) as [Hin|Hin].
    + rewrite decide_True; [done|]. by right.
    + rewrite decide_False; [done|].
      intros Hk. apply elem_of_cons in Hk as [Hk|Hk]; done.
Qed.

(** The state after [elapse], in closed form. *)
Lemma foldl_timer_callback (l : list Timer) (w : Watcher) :
  foldl (λ w t, timer_callback t w) w l
  = {| debounceMs := debounceMs w; watchers := watchers w;
       handlers := handlers w; watching := watching w;
       debounceTimers :=
         foldl (λ m t, base.delete (timer_key t) m) (debounceTimers w) l;
       now := now w; next_handle := next_handle w; timers := timers w;
       notified := notified w ++ calls (handlers w) l |}.
Proof.
  revert w. induction l as [|t l IH]; intros w; simpl.
  - unfold calls; simpl. rewrite app_nil_r. by destruct w.
  - rewrite IH. unfold timer_callback, notifyHandlers, calls; simpl.
    by rewrite <- app_assoc.
Qed.

Lemma elapse_eq (ms : nat) (w : Watcher) :
  elapse ms w
  = {| debounceMs := debounceMs w; watchers := watchers w;
       handlers := handlers w; watching := watching w;
       debounceTimers :=
         foldl (λ m t, base.delete (timer_key t) m) (debounceTimers w)
           (filter (λ t, due t ≤ now w + ms) (timers w));
       now := now w + ms; next_handle := next_handle w;
       timers := filter (λ t, now w + ms < due t) (timers w);
       notified :=
         notified w
         ++ calls (handlers w) (filter (λ t, due t ≤ now w + ms) (timers w)) |}.
Proof. unfold elapse. by rewrite foldl_timer_callback. Qed.

Lemma foldr_clearTimeout (hs : list nat) (l : list Timer) :
  foldr clearTimeout l hs = filter (λ t, handle t ∉ hs) l.
Proof.
  induction hs as [|h hs IH]; simpl.
  - symmetry. apply filter_all. intros t _ Hin. in_nil.
  - rewrite IH. unfold clearTimeout. rewrite list_filter_filter.
    apply list_filter_iff. intros t. rewrite not_elem_of_cons. tauto.
Qed.

(** With the invariant, clearing the timer that the map holds for a key
    removes the timers of that key, and there is at most one. *)
Lemma handleChange_cleared (w : Watcher) (key : jsstring) :
  Inv w →
  match debounceTimers w !! key with
  | Some existingTimer => clearTimeout existingTimer (timers w)
  | None => timers w
  end = filter (λ t, timer_key t ≠ key) (timers w).
Proof.
  intros I. destruct (debounceTimers w !! key) as [h|] eqn:E.
  - unfold clearTimeout. apply filter_ext_in. intros t Ht.
    apply (inv_map w I) in E as (t0 & Ht0 & Hh & Hk).
    split; intros Hne Heq; apply Hne.
    + assert (t = t0) as ->; [|done].
      eapply (NoDup_fmap_eq timer_key); [apply (inv_keys w I)|done..|congruence].
    + assert (t = t0) as ->; [|done].
      eapply (NoDup_fmap_eq handle); [apply (inv_handles w I)|done..|congruence].
  - symmetry. apply filter_all. intros t Ht Hk.
    assert (debounceTimers w !! key = Some (handle t)) as E'.
    { apply (inv_map w I). by exists t. }
    congruence.
Qed.

Lemma Inv_new (ms : nat) : Inv (new_watcher ms).
Proof.
  split; simpl; try done; try by constructor.
  - intros k h. rewrite lookup_empty. split; [done|].
    intros (t & Ht & _). in_nil.
  - intros t Ht. in_nil.
  - intros t Ht. in_nil.
Qed.

Lemma Inv_start (w : Watcher) : Inv w → Inv (start w).
Proof.
  intros I. unfold start. destruct (watching w) eqn:E; [done|].
  destruct I. by split; simpl.
Qed.

Lemma stop_timers (w : Watcher) : Inv w → timers (stop w) = [].
Proof.
  intros I. unfold stop. destruct (watching w) eqn:E; simpl.
  - rewrite foldr_clearTimeout. apply filter_none. intros t Ht Hn. apply Hn.
    apply list_elem_of_fmap. exists (timer_key t, handle t). split; [done|].
    apply elem_of_map_to_list, (inv_map w I). by exists t.
  - by apply (inv_stopped w I).
Qed.

Lemma Inv_stop (w : Watcher) : Inv w → Inv (stop w).
Proof.
  intros I. pose proof (stop_timers w I) as Ht. unfold stop in *.
  destruct (watching w) eqn:E; [|done]. simpl in *.
  split; simpl; rewrite ?Ht; try done; try by constructor.
  - intros k h. rewrite lookup_empty. split; [done|].
    intros (t & Hin & _). in_nil.
  - intros t Hin. in_nil.
  - intros t Hin. in_nil.
Qed.

Lemma Inv_handleChange (w : Watcher) t e :
  Inv w → watching w = true → Inv (handleChange t e w).
Proof.
  intros I Hw. unfold handleChange. rewrite (handleChange_cleared w _ I).
  set (key := debounceKey t e).
  split; simpl.
  - intros k h. rewrite lookup_insert. case_decide as Hk.
    + subst k. split.
      * intros [= <-]. eexists. split; [apply elem_of_app; right; left|done].
      * intros (t0 & Hin & Hh & Hk). apply elem_of_app in Hin as [Hin|Hin].
        -- apply list_elem_of_filter in Hin as [Hne _]. done.
        -- apply list_elem_of_singleton in Hin as ->. simpl in Hh. by subst.
    + rewrite (inv_map w I). split.
      * intros (t0 & Hin & Hh & Hk0). exists t0. repeat split; try done.
        apply elem_of_app; left. apply list_elem_of_filter.
        split; [congruence|done].
      * intros (t0 & Hin & Hh & Hk0). exists t0. repeat split; try done.
        apply elem_of_app in Hin as [Hin|Hin].
        -- by apply list_elem_of_filter in Hin as [_ Hin].
        -- apply list_elem_of_singleton in Hin as ->. simpl in Hk0. by subst.
  - rewrite fmap_app. apply NoDup_app. repeat split.
    + apply NoDup_fmap_filter, (inv_handles w I).
    + intros h Hh Hn. simpl in Hn. apply list_elem_of_singleton in Hn as ->.
      apply list_elem_of_fmap in Hh as (t0 & Heq & Hin).
      apply list_elem_of_filter in Hin as [_ Hin].
      apply (inv_fresh w I) in Hin. lia.
    + simpl. apply NoDup_singleton.
  - rewrite fmap_app. apply NoDup_app. repeat split.
    + apply NoDup_fmap_filter, (inv_keys w I).
    + intros k Hk Hn. simpl in Hn. apply list_elem_of_singleton in Hn as ->.
      apply list_elem_of_fmap in Hk as (t0 & Heq & Hin).
      apply list_elem_of_filter in Hin as [Hne _]. done.
    + simpl. apply NoDup_singleton.
  - intros t0 Hin. apply elem_of_app in Hin as [Hin|Hin].
    + apply list_elem_of_filter in Hin as [_ Hin].
      apply (inv_fresh w I) in Hin. lia.
    + apply list_elem_of_singleton in Hin as ->. simpl. lia.
  - intros t0 Hin. apply elem_of_app in Hin as [Hin|Hin].
    + apply list_elem_of_filter in Hin as [_ Hin]. by apply (inv_closure w I).
    + by apply list_elem_of_singleton in Hin as ->.
  - congruence.
Qed.

Lemma Inv_raw_event (w : Watcher) t e : Inv w → Inv (raw_event t e w).
Proof.
  intros I. unfold raw_event. case_bool_decide as Hin; [|done].
  apply Inv_handleChange; [done|].
  destruct (watching w) eqn:E; [done|].
  destruct (inv_stopped w I E) as [_ Hws]. rewrite Hws in Hin. in_nil.
Qed.

Lemma Inv_elapse (w : Watcher) ms : Inv w → Inv (elapse ms w).
Proof.
  intros I. rewrite elapse_eq. split; simpl.
  - intros k h. rewrite lookup_foldl_delete. case_decide as Hk.
    + split; [done|]. intros (t & Hin & Hh & Hkt).
      apply list_elem_of_filter in Hin as [Hdue Hin].
      apply list_elem_of_fmap in Hk as (t' & Hk' & Hin').
      apply list_elem_of_filter in Hin' as [Hdue' Hin'].
      assert (t = t') as ->; [|lia].
      eapply (NoDup_fmap_eq timer_key); [apply (inv_keys w I)|done..|congruence].
    + rewrite (inv_map w I). split.
      * intros (t & Hin & Hh & Hkt). exists t. repeat split; try done.
        apply list_elem_of_filter. split; [|done].
        destruct (decide (now w + ms < due t)) as [|Hn]; [done|].
        exfalso. apply Hk. apply list_elem_of_fmap. exists t. split; [done|].
        apply list_elem_of_filter. split; [lia|done].
      * intros (t & Hin & Hh & Hkt). exists t. repeat split; try done.
        by apply list_elem_of_filter in Hin as [_ Hin].
  - apply NoDup_fmap_filter, (inv_handles w I).
  - apply NoDup_fmap_filter, (inv_keys w I).
  - intros t Hin. apply list_elem_of_filter in Hin as [_ Hin].
    by apply (inv_fresh w I).
  - intros t Hin. apply list_elem_of_filter in Hin as [_ Hin].
    by apply (inv_closure w I).
  - intros Hw. destruct (inv_stopped w I Hw) as [-> ->]. done.
Qed.

Lemma Inv_step (w : Watcher) (i : Input) : Inv w → Inv (step w i).
Proof.
  intros I. destruct i; simpl.
  - by apply Inv_start.
  - by apply Inv_stop.
  - destruct I. by split.
  - destruct I. by split.
  - by apply Inv_raw_event.
  - by apply Inv_elapse.
Qed.

Lemma Inv_run (w : Watcher) (l : list Input) : Inv w → Inv (run w l).
Proof.
  revert w. induction l as [|i l IH]; intros w I; [done|].
  simpl. apply IH. by apply Inv_step.
Qed.

(** *** The order of the timers *)

Lemma in_due_order_step (w : Watcher) (i : Input) :
  in_due_order w → in_due_order (step w i).
Proof.
  intros [Hs Hb]. destruct i; simpl; try done.
  - unfold start. by destruct (watching w).
  - unfold stop. destruct (watching w); [|done]. split; simpl.
    + rewrite foldr_clearTimeout. by apply StronglySorted_filter.
    + rewrite foldr_clearTimeout. by apply Forall_filter_weaken.
  - unfold raw_event. case_bool_decide; [|done].
    unfold handleChange.
    set (cleared := match debounceTimers w !! debounceKey t e with
                    | Some existingTimer => clearTimeout existingTimer (timers w)
                    | None => timers w
                    end).
    assert (StronglySorted (λ t t', due t ≤ due t') cleared
            ∧ Forall (λ t, due t ≤ now w + debounceMs w) cleared) as [Hs' Hb'].
    { subst cleared. destruct (debounceTimers w !! debounceKey t e); [|done].
      split; [by apply StronglySorted_filter|by apply Forall_filter_weaken]. }
    split; simpl.
    + apply StronglySorted_app. repeat split; [|done|by repeat constructor].
      intros t1 t2 Ht1 Ht2. apply list_elem_of_singleton in Ht2 as ->. simpl.
      by apply (proj1 (Forall_forall _ _) Hb').
    + apply Forall_app. split; [done|]. by repeat constructor.
  - rewrite elapse_eq. split; simpl.
    + by apply StronglySorted_filter.
    + apply Forall_filter_weaken. eapply Forall_impl; [exact Hb|].
      simpl. intros; lia.
Qed.

(** In every state that a watcher can reach the timers are kept in the
    order in which they are due: the timers that [elapse] fires, oldest
    first, are fired in the order of their due times. *)
Lemma timers_in_due_order (ms : nat) (history : list Input) :
  in_due_order (run (new_watcher ms) history).
Proof.
  induction history as [|i history IH] using rev_ind.
  - split; constructor.
  - unfold run. rewrite foldl_app. simpl. by apply in_due_order_step.
Qed.

(** *** Coalescing of a burst *)

Section Burst.
Variables (ty : ConfigChangeType) (p : jsstring).
Variables (D : nat) (hs : list ConfigChangeHandler).
Variable base : list (ConfigChangeHandler * ConfigChangeEvent).

Local Abbreviation Armed := (ConfigWatcherSpec.Armed ty p D hs base).

Lemma same_key_same_timer (w : Watcher) t t' :
  Inv w → t ∈ timers w → t' ∈ timers w →
  timer_type t = timer_type t' →
  path (timer_event t) = path (timer_event t') → t = t'.
Proof.
  intros I Ht Ht' Hty Hp.
  eapply (NoDup_fmap_eq timer_key); [apply (inv_keys w I)|done..|].
  rewrite (inv_closure w I t Ht), (inv_closure w I t' Ht').
  unfold debounceKey. by rewrite Hty, Hp.
Qed.

Lemma filter_calls_none (l : list Timer) :
  (∀ t, t ∈ l → ¬ (timer_type t = ty ∧ path (timer_event t) = p)) →
  filter (for_key ty p) (calls hs l) = [].
Proof.
  intros Hl. apply filter_none. intros [h n] Hin Hk.
  apply list_elem_of_bind in Hin as (t & Hin & Ht).
  apply list_elem_of_fmap in Hin as (h' & [= -> ->] & _).
  by apply (Hl t Ht).
Qed.

Lemma filter_calls_all (t : Timer) :
  timer_type t = ty → path (timer_event t) = p →
  filter (for_key ty p) (calls hs [t]) = (λ h, (h, notification t)) <$> hs.
Proof.
  intros Hty Hp. unfold calls; simpl. rewrite app_nil_r.
  apply filter_all. intros [h n] Hin.
  by apply list_elem_of_fmap in Hin as (h' & [= -> ->] & _).
Qed.

Lemma arm (w : Watcher) (e : WatchEvent) :
  Inv w → ty ∈ watchers w → debounceMs w = D → handlers w = hs →
  path e = p → notifications_for ty p w = base →
  Armed (raw_event ty e w) e 0.
Proof.
  intros I Hl Hms Hhs Hp Hq.
  pose proof (Inv_raw_event w ty e I) as I'.
  unfold raw_event in *. rewrite bool_decide_eq_true_2 in * by done.
  split; try done.
  eexists. split; [simpl; apply elem_of_app; right; left|]. simpl.
  repeat split. lia.
Qed.

Lemma armed_raw_same (w : Watcher) e elapsed e' :
  Armed w e elapsed → path e' = p → Armed (raw_event ty e' w) e' 0.
Proof. intros [] Hp'. by apply arm. Qed.

Lemma armed_raw_other (w : Watcher) e elapsed t' e' :
  Armed w e elapsed → ¬ (t' = ty ∧ path e' = p) →
  Armed (raw_event t' e' w) e elapsed.
Proof.
  intros A Hne. pose proof (Inv_raw_event w t' e' (armed_inv _ _ _ _ _ _ _ _ A)) as I'.
  destruct A as [I Hl Hms Hhs Hp (t & Ht & Hty & He & Hdue) Hq].
  unfold raw_event in *. case_bool_decide; [|by split; eauto 10].
  split; try done.
  exists t. repeat split; try done.
  unfold handleChange; simpl. rewrite (handleChange_cleared w _ I).
  apply elem_of_app; left. apply list_elem_of_filter. split; [|done].
  rewrite (inv_closure w I t Ht). intros Hk.
  apply debounceKey_inj in Hk as [Hk1 Hk2]. apply Hne. split; congruence.
Qed.

Lemma armed_elapse (w : Watcher) e elapsed ms :
  Armed w e elapsed → elapsed + ms < D → Armed (elapse ms w) e (elapsed + ms).
Proof.
  intros A Hlt. pose proof (Inv_elapse w ms (armed_inv _ _ _ _ _ _ _ _ A)) as I'.
  destruct A as [I Hl Hms Hhs Hp (t & Ht & Hty & He & Hdue) Hq].
  rewrite elapse_eq in *. split; try done; simpl.
  - exists t. repeat split; try done; [|lia].
    apply list_elem_of_filter. split; [lia|done].
  - unfold notifications_for in *; simpl. rewrite filter_app, Hq, Hhs.
    rewrite filter_calls_none; [by rewrite app_nil_r|].
    intros t' Hin [Hty' Hp']. apply list_elem_of_filter in Hin as [Hd Hin].
    assert (t' = t) as ->; [|lia].
    apply (same_key_same_timer w); try done; congruence.
Qed.

Lemma armed_fire (w : Watcher) e elapsed ms :
  Armed w e elapsed → D ≤ elapsed + ms →
  notifications_for ty p (elapse ms w)
  = base ++ ((λ h, (h, {| change_type := ty; event := e |})) <$> hs).
Proof.
  intros [I Hl Hms Hhs Hp (t & Ht & Hty & He & Hdue) Hq] Hge.
  rewrite elapse_eq. unfold notifications_for in *; simpl.
  rewrite filter_app, Hq, Hhs. f_equal.
  assert (t ∈ filter (λ t, due t ≤ now w + ms) (timers w)) as Hf.
  { apply list_elem_of_filter. split; [lia|done]. }
  assert (∀ t', t' ∈ filter (λ t, due t ≤ now w + ms) (timers w) →
                t' ≠ t → ¬ (timer_type t' = ty ∧ path (timer_event t') = p))
    as Hothers.
  { intros t' Hin Hne [Hty' Hp']. apply Hne.
    apply list_elem_of_filter in Hin as [_ Hin].
    apply (same_key_same_timer w); try done; congruence. }
  assert (NoDup (filter (λ t, due t ≤ now w + ms) (timers w))) as Hnd.
  { apply NoDup_filter. eapply NoDup_fmap_1, (inv_handles w I). }
  destruct (list_elem_of_split _ _ Hf) as (l1 & l2 & Hsplit).
  rewrite Hsplit in Hothers, Hnd |- *.
  apply NoDup_app in Hnd as (_ & Hd1 & Hd2). apply NoDup_cons in Hd2 as [Hd2 _].
  unfold calls. rewrite bind_app, bind_cons, !filter_app.
  fold (calls hs l1) (calls hs l2).
  rewrite !filter_calls_none; simpl.
  - rewrite app_nil_r. pose proof (filter_calls_all t Hty) as Hall.
    unfold calls in Hall; simpl in Hall. rewrite app_nil_r in Hall.
    rewrite Hall by congruence. unfold notification. by rewrite Hty, He.
  - intros t' Hin. apply Hothers; [set_solver|]. intros ->. done.
  - intros t' Hin. apply Hothers; [set_solver|]. intros ->.
    by apply (Hd1 t), list_elem_of_here.
Qed.

Lemma armed_run (l : list Input) :
  ∀ (w : Watcher) e elapsed,
    Armed w e elapsed → in_window ty p D elapsed l = true →
    Armed (run w l) (last_event ty p e l) (since_last ty p elapsed l).
Proof.
  induction l as [|i l IH]; intros w e elapsed A Hw; [done|].
  destruct i; simpl in *; try discriminate.
  - case_bool_decide as Hk.
    + destruct Hk as [-> Hk]. apply IH; [|done]. by eapply armed_raw_same.
    + apply IH; [|done]. by apply armed_raw_other.
  - apply andb_prop in Hw as [Hlt Hw]. apply bool_decide_eq_true_1 in Hlt.
    apply IH; [|done]. by apply armed_elapse.
Qed.

End Burst.

Lemma debounceMs_step (w : Watcher) (i : Input) :
  debounceMs (step w i) = debounceMs w.
Proof.
  destruct i; simpl; try done.
  - unfold start. by destruct (watching w).
  - unfold stop. by destruct (watching w).
  - unfold raw_event. by case_bool_decide.
  - by rewrite elapse_eq.
Qed.

Lemma debounceMs_run (w : Watcher) (l : list Input) :
  debounceMs (run w l) = debounceMs w.
Proof.
  revert w. induction l as [|i l IH]; intros w; [done|].
  simpl. by rewrite IH, debounceMs_step.
Qed.

Lemma run_app (w : Watcher) (l1 l2 : list Input) :
  run w (l1 ++ l2) = run (run w l1) l2.
Proof. apply foldl_app. Qed.

(** Once stopped, and as long as it is not started again, a watcher calls
    no handler. *)
Lemma stopped_quiet (l : list Input) :
  ∀ w : Watcher, Inv w → watching w = false → no_start l = true →
    notified (run w l) = notified w.
Proof.
  induction l as [|i l IH]; intros w I Hw Hl; [done|].
  simpl in Hl. apply andb_prop in Hl as [Hi Hl].
  destruct (inv_stopped w I Hw) as [Ht Hws].
  assert (notified (step w i) = notified w ∧ watching (step w i) = false)
    as [Hn Hw'].
  { destruct i; simpl; try done.
    - unfold stop. by rewrite Hw.
    - unfold raw_event. rewrite Hws. by rewrite bool_decide_eq_false_2 by set_solver.
    - rewrite elapse_eq; simpl. rewrite Ht. unfold calls; simpl.
      by rewrite app_nil_r. }
  simpl. rewrite IH; [done|by apply Inv_step|done..].
Qed.



End ConfigWatcherFacts.

Module ApprovalQueueFacts.
Import AgentController AgentControllerSpec ApprovalQueueSpec AgentControllerFacts.

Lemma str_inj (s t : string) : str s = str t → s = t.
Proof.
  unfold str. intros E.
  rewrite <- (String.string_of_list_ascii_of_string s),
          <- (String.string_of_list_ascii_of_string t).
  f_equal. revert E. generalize (String.list_ascii_of_string t).
  induction (String.list_ascii_of_string s) as [|a l IH]; intros [|b m] E;
    simplify_eq/=; [done|].
  f_equal; [|by apply IH].
  rewrite <- (Ascii.ascii_nat_embedding a), <- (Ascii.ascii_nat_embedding b).
  f_equal. lia.
Qed.

Lemma of_number_inj (n m : N) : of_number n = of_number m → n = m.
Proof.
  unfold of_number. intros E%str_inj.
  apply Unsigned.to_uint_inj.
  assert (Some (N.to_uint n) = Some (N.to_uint m)) as [= ->]; [|done].
  by rewrite <- !NilEmpty.usu, E.
Qed.

Lemma change_id_inj (n m : N) : change_id n = change_id m → n = m.
Proof. unfold change_id. intros E%app_inv_head. by apply of_number_inj. Qed.

Lemma call_pending (c : Controller) (k : Call) :
  pendingChanges (session (call c k)) = pendingChanges (session c)
  ∧ changeIdCounter (call c k) = changeIdCounter c.
Proof.
  destruct k as [name|name phase|name phase|name|name phase|name phase]; simpl;
    unfold getWorkflowPhase, canTransitionToPhase, transitionToPhase,
      canTransitionToPhase, approveCurrentPhase, resetPhaseApproval,
      isPhaseApproved, getOrCreateWorkflowState;
    try destruct phase;
    destruct (specWorkflows (session c) !! name) as [[n [] ra da ta]|] eqn:E;
    simpl; rewrite ?E; simpl;
    try destruct ra; try destruct da; try destruct ta; simpl;
    rewrite ?E, ?lookup_insert_eq; done.
Qed.

Lemma approve_first_None cid (l : list PendingCodeChange) :
  approve_first cid l = None ↔ cid ∉ (id <$> l).
Proof.
  induction l as [|p l IH]; simpl.
  - split; [intros _ H; inversion H|done].
  - case_bool_decide as E.
    + split; [done|]. intros Hn. exfalso. apply Hn. rewrite E. left.
    + rewrite fmap_None, IH, not_elem_of_cons. split; [by intros Hn; split|by intros [_ Hn]].
Qed.

Lemma approve_first_Some cid (l : list PendingCodeChange) :
  NoDup (id <$> l) → cid ∈ id <$> l →
  approve_first cid l
  = Some ((λ p, if bool_decide (id p = cid) then set_approved p true else p)
            <$> l).
Proof.
  induction l as [|p l IH]; simpl; [by inversion 2|].
  rewrite NoDup_cons. intros [Hp Hl] Hin. case_bool_decide as E.
  - f_equal. f_equal. symmetry. rewrite <- (list_fmap_id l) at 2.
    apply list_fmap_ext. intros i q Hq. rewrite bool_decide_eq_false_2; [done|].
    intros Eq. apply Hp. rewrite E, <- Eq.
    apply list_elem_of_fmap_2. by eapply list_elem_of_lookup_2.
  - apply elem_of_cons in Hin as [->|Hin]; [done|]. by rewrite IH.
Qed.

Lemma remove_first_None cid (l : list PendingCodeChange) :
  remove_first cid l = None ↔ cid ∉ (id <$> l).
Proof.
  induction l as [|p l IH]; simpl.
  - split; [intros _ H; inversion H|done].
  - case_bool_decide as E.
    + split; [done|]. intros Hn. exfalso. apply Hn. rewrite E. left.
    + rewrite fmap_None, IH, not_elem_of_cons. split; [by intros Hn; split|by intros [_ Hn]].
Qed.

Lemma remove_first_Some cid (l : list PendingCodeChange) :
  NoDup (id <$> l) → cid ∈ id <$> l →
  remove_first cid l = Some (filter (λ p, id p ≠ cid) l).
Proof.
  induction l as [|p l IH]; simpl; [by inversion 2|].
  rewrite NoDup_cons. intros [Hp Hl] Hin. case_bool_decide as E.
  - rewrite filter_cons_False by (intros Hne; by apply Hne). f_equal. symmetry.
    apply filter_all. intros q Hq Eq. apply Hp. rewrite E, <- Eq.
    by apply list_elem_of_fmap_2.
  - apply elem_of_cons in Hin as [->|Hin]; [done|].
    rewrite IH by done. simpl. by rewrite filter_cons_True.
Qed.

Lemma remove_first_filter cid (l : list PendingCodeChange) :
  NoDup (id <$> l) →
  default l (remove_first cid l) = filter (λ p, id p ≠ cid) l.
Proof.
  intros Hl. destruct (decide (cid ∈ id <$> l)) as [Hin|Hin].
  - by rewrite remove_first_Some.
  - rewrite (proj2 (remove_first_None cid l) Hin); simpl. symmetry.
    apply filter_all. intros q Hq Eq. apply Hin. rewrite <- Eq.
    by apply list_elem_of_fmap_2.
Qed.

Section Queue.
Context `{FileSystemAdapter World}.

Lemma issued_sub (c c' : Controller) :
  issued c →
  pendingChanges (session c') `sublist_of` pendingChanges (session c) →
  changeIdCounter c' = changeIdCounter c → issued c'.
Proof.
  intros [Hn Hi] Hs Hc. split.
  - eapply sublist_NoDup; [exact Hn|]. by apply fmap_sublist.
  - intros p Hp. rewrite Hc. apply Hi. by eapply elem_of_sublist.
Qed.

Lemma issued_request (s : Controller * World) (r : Request) :
  issued s.1 → issued (request s r).1.
Proof.
  intros I. pose proof I as [Hn Hi].
  destruct r as [chs now|cid|cid| |k]; simpl.
  - unfold queueCodeChanges, generateChangeId; simpl. split; simpl.
    + rewrite fmap_app. apply NoDup_app. repeat split; [done| |apply NoDup_singleton].
      intros i Hin Hnew. simpl in Hnew. apply list_elem_of_singleton in Hnew as ->.
      apply list_elem_of_fmap in Hin as (p & Hp & Hin).
      destruct (Hi p Hin) as (n & Hid & Hle).
      fold (change_id (changeIdCounter s.1 + 1)) in Hp.
      rewrite Hid in Hp. apply change_id_inj in Hp. lia.
    + intros p Hp. apply elem_of_app in Hp as [Hp|Hp].
      * destruct (Hi p Hp) as (n & Hid & Hle). exists n. split; [done|lia].
      * apply list_elem_of_singleton in Hp as ->. simpl.
        exists (changeIdCounter s.1 + 1)%N. split; [done|lia].
  - unfold approveChange.
    destruct (approve_first cid _) as [l|] eqn:E; [|done]. simpl.
    destruct (decide (cid ∈ id <$> pendingChanges (session s.1))) as [Hin|Hin];
      [|by apply approve_first_None in Hin; congruence].
    rewrite approve_first_Some in E by done. injection E as <-.
    split; simpl.
    + rewrite <- list_fmap_compose.
      erewrite list_fmap_ext; [exact Hn|]. intros i p _; simpl.
      by case_bool_decide.
    + intros p Hp. apply list_elem_of_fmap in Hp as (q & -> & Hq).
      destruct (Hi q Hq) as (n & Hid & Hle). exists n.
      by case_bool_decide.
  - unfold rejectChange.
    destruct (remove_first cid _) as [l|] eqn:E; [|done]. simpl.
    pose proof (remove_first_filter cid _ Hn) as Hf. rewrite E in Hf.
    simpl in Hf. subst l.
    eapply issued_sub; [exact I| |done]. simpl. apply sublist_filter.
  - unfold applyApprovedChanges.
    destruct (apply_pending _ _ _) as [acc w1]; simpl.
    eapply issued_sub; [exact I| |done]. simpl. apply sublist_filter.
  - destruct (call_pending s.1 k) as [Hp Hc]. split; rewrite ?Hp, ?Hc; done.
Qed.

Lemma issued_run (history : list Request) (w0 : World) :
  issued (foldl request (new_controller, w0) history).1.
Proof.
  induction history as [|r history IH] using rev_ind.
  - split; simpl; [constructor|]. intros p Hp. inversion Hp.
  - rewrite foldl_app. simpl. by apply issued_request.
Qed.



Lemma calls_for_other_id cid (l : list PendingCodeChange) :
  (∀ p, p ∈ l → id p ≠ cid) →
  filter (λ a, id a.1 = cid) (l ≫= calls_for) = [].
Proof.
  intros Hl. apply filter_none. intros [p k] Hin Hid. simpl in Hid.
  apply list_elem_of_bind in Hin as (q & Hin & Hq).
  unfold calls_for in Hin. apply list_elem_of_fmap in Hin as (ch & [= -> _] & _).
  by apply (Hl q).
Qed.

Lemma applied_attempted (c : Controller) (w : World) :
  attempted <$> sinkCalls (applyApprovedChanges c w).1.1
  = filter (λ p, approved p = true) (pendingChanges (session c)) ≫= calls_for.
Proof.
  unfold applyApprovedChanges.
  pose proof (apply_pending_attempted (pendingChanges (session c))
                {| appliedChanges := []; sinkCalls := [] |} w) as E.
  by destruct (apply_pending _ _ w).
Qed.

Lemma applied_pending (c : Controller) (w : World) :
  pendingChanges (session (applyApprovedChanges c w).1.2)
  = filter (λ p, approved p = false) (pendingChanges (session c)).
Proof. unfold applyApprovedChanges. by destruct (apply_pending _ _ w). Qed.


End Queue.

End ApprovalQueueFacts.

Module MemoryFSFacts.
Import MemoryFS MemoryFSSpec.

Lemma strip_prefix_Some (p s r : jsstring) :
  Replace.strip_prefix p s = Some r ↔ s = p ++ r.
Proof.
  revert s. induction p as [|a p IH]; intros [|b s]; simpl.
  - split; congruence.
  - split; congruence.
  - split; [done|]. by intros [=].
  - case_bool_decide as E.
    + rewrite IH. subst. split; [by intros ->|by intros [= ->]].
    + split; [done|]. intros [= -> _]. done.
Qed.

Lemma startsWith_true (p s : jsstring) :
  startsWith p s = true ↔ ∃ r, s = p ++ r.
Proof.
  unfold startsWith. rewrite bool_decide_eq_true. unfold is_Some.
  split; intros [r Hr]; exists r; by apply strip_prefix_Some.
Qed.

Section StringMap.
Context {V : Type}.
Implicit Types m : list (jsstring * V).

Lemma string_map_get_set k k' v m :
  map_get k (map_set k' v m) = if decide (k' = k) then Some v else map_get k m.
Proof.
  induction m as [|[k0 v0] m IH]; simpl.
  - case_bool_decide; by case_decide.
  - destruct (decide (k0 = k')) as [->|Hne].
    + rewrite bool_decide_eq_true_2 by done. simpl.
      case_bool_decide; by case_decide.
    + rewrite bool_decide_eq_false_2 by done. simpl. rewrite IH.
      case_bool_decide; case_decide; congruence.
Qed.

Lemma string_map_get_delete k k' m :
  map_get k (map_delete k' m) = if decide (k' = k) then None else map_get k m.
Proof.
  unfold map_delete. induction m as [|[k0 v0] m IH]; simpl.
  - by case_decide.
  - rewrite filter_cons. simpl. destruct (decide (k0 ≠ k')) as [Hne|He]; simpl.
    + rewrite IH. case_bool_decide; case_decide; congruence.
    + apply dec_stable in He. subst k0. rewrite IH.
      case_bool_decide; case_decide; congruence.
Qed.

Lemma string_map_get_filter (P : jsstring → Prop) `{∀ k, Decision (P k)} k m :
  map_get k (filter (λ e, P e.1) m) = if decide (P k) then map_get k m else None.
Proof.
  induction m as [|[k0 v0] m IH]; simpl; [by case_decide|].
  rewrite filter_cons. simpl. destruct (decide (P k0)) as [HP|HP]; simpl.
  - rewrite IH. case_bool_decide; case_decide; congruence.
  - rewrite IH. case_bool_decide; case_decide; congruence.
Qed.

Lemma string_map_get_Some k m : is_Some (map_get k m) ↔ k ∈ m.*1.
Proof.
  induction m as [|[k0 v0] m IH]; simpl.
  - split; [by intros [? [=]]|by inversion 1].
  - rewrite elem_of_cons. case_bool_decide as E.
    + split; [by left|by eexists].
    + rewrite IH. split; [by right|]. intros [->|?]; done.
Qed.

Lemma string_map_get_elem k v m : map_get k m = Some v → (k, v) ∈ m.
Proof.
  induction m as [|[k0 v0] m IH]; simpl; [done|].
  case_bool_decide as E.
  - intros [= ->]. subst. left.
  - intros Hg. right. by apply IH.
Qed.

Lemma string_map_has_true k m : map_has k m = true ↔ k ∈ m.*1.
Proof. unfold map_has. by rewrite bool_decide_eq_true, string_map_get_Some. Qed.

Lemma string_map_set_keys k v m :
  (map_set k v m).*1 = if bool_decide (k ∈ m.*1) then m.*1 else m.*1 ++ [k].
Proof.
  induction m as [|[k0 v0] m IH]; [done|].
  cbn [map_set]. destruct (decide (k0 = k)) as [->|Hne].
  - rewrite bool_decide_eq_true_2 by done.
    rewrite bool_decide_eq_true_2; [done|]. apply list_elem_of_here.
  - rewrite bool_decide_eq_false_2 by done. rewrite !fmap_cons, IH. simpl.
    destruct (decide (k ∈ m.*1)) as [Hin|Hin].
    + rewrite !bool_decide_eq_true_2; [done| |done]. by apply list_elem_of_further.
    + rewrite !bool_decide_eq_false_2; [done| |done].
      rewrite elem_of_cons. intros [->|?]; done.
Qed.

End StringMap.

(** *** Paths *)

Lemma drop_slashes_head s : head (drop_slashes s) ≠ Some slash.
Proof.
  induction s as [|c s IH]; simpl; [done|].
  case_bool_decide; [done|]. simpl. congruence.
Qed.

Lemma drop_slashes_id s : head s ≠ Some slash → drop_slashes s = s.
Proof.
  destruct s as [|c s]; simpl; [done|]. intros Hc.
  rewrite bool_decide_eq_false_2; [done|]. congruence.
Qed.

Lemma drop_slashes_suffix s : drop_slashes s `suffix_of` s.
Proof.
  induction s as [|c s IH]; simpl; [done|].
  case_bool_decide; [|done]. by apply suffix_cons_r.
Qed.

Lemma normalizePath_normal p : normal (normalizePath p).
Proof.
  unfold normalizePath.
  set (m := (λ c, if bool_decide (c = backslash) then slash else c) <$> p).
  assert (backslash ∉ m) as Hm.
  { intros Hin. apply list_elem_of_fmap in Hin as (c & Hc & _).
    case_bool_decide; [done|]. congruence. }
  set (t := drop_slashes m).
  assert (t `suffix_of` m) as Hs by apply drop_slashes_suffix.
  assert (head t ≠ Some slash) as Ht by apply drop_slashes_head.
  pose proof (drop_slashes_suffix (reverse t)) as [k Hk].
  set (d := drop_slashes (reverse t)) in *.
  assert (t = reverse d ++ reverse k) as Et.
  { by rewrite <- reverse_app, <- Hk, reverse_involutive. }
  unfold normal. split; [|split].
  - intros Hin. apply Hm. destruct Hs as [k' Hk']. rewrite Hk'.
    apply elem_of_app. right. rewrite Et. apply elem_of_app. by left.
  - destruct (reverse d) as [|c r] eqn:Ed; [done|].
    rewrite Et in Ht. by simpl in *.
  - rewrite last_reverse. apply drop_slashes_head.
Qed.

Lemma normalizePath_id p : normal p → normalizePath p = p.
Proof.
  intros (Hb & Hh & Hl). unfold normalizePath.
  assert (((λ c, if bool_decide (c = backslash) then slash else c) <$> p) = p)
    as ->.
  { etransitivity; [|apply list_fmap_id]. apply list_fmap_ext.
    intros i c Hc. rewrite bool_decide_eq_false_2; [done|].
    intros ->. apply Hb. by eapply list_elem_of_lookup_2. }
  rewrite (drop_slashes_id p) by done.
  rewrite drop_slashes_id; [apply reverse_involutive|].
  by rewrite head_reverse.
Qed.

(** Paths are compared in a normal form, without backslashes and without
    slashes at either end: [normalizePath] puts every path into this form
    and changes exactly the paths that are not in it. *)
Theorem normalizePath_normal_form (p : jsstring) :
  normal (normalizePath p) ∧ (normalizePath p = p ↔ normal p).
Proof.
  split; [apply normalizePath_normal|]. split.
  - intros <-. apply normalizePath_normal.
  - apply normalizePath_id.
Qed.

Section Adapter.
Context {C : Type} `{EqDecision C}.
Implicit Types a : Adapter C.

Lemma files_notifyWatchers p ty a : files (notifyWatchers p ty a) = files a.
Proof. done. Qed.

Lemma hasDirectory_true d a :
  hasDirectory d a = true ↔ ∃ k, k ∈ (files a).*1 ∧ startsWith (d ++ [slash]) k = true.
Proof.
  unfold hasDirectory. rewrite bool_decide_eq_true, Exists_exists. split.
  - intros ([k v] & Hin & Hk). exists k. split; [|done].
    by apply (list_elem_of_fmap_2 fst) in Hin.
  - intros (k & Hin & Hk). apply list_elem_of_fmap in Hin as ([k' v] & -> & Hin).
    by exists (k', v).
Qed.

Lemma read_after_write (a : Adapter C) (p content q : jsstring) :
  readFile q (writeFile p content a)
  = if bool_decide (normalizePath q = normalizePath p) then inr content
    else readFile q a.
Proof.
  unfold readFile, writeFile. simpl. rewrite string_map_get_set.
  case_decide as E; case_bool_decide; congruence.
Qed.

(** What has been written can be read back under every spelling of the
    path, a write changes the content of no other file, and it makes the
    file and every directory above it exist. *)
Theorem writeFile_readFile (a : Adapter C) (p content q : jsstring) :
  readFile q (writeFile p content a)
  = (if bool_decide (normalizePath q = normalizePath p) then inr content
     else readFile q a)
  ∧ exists_ q (writeFile p content a)
    = exists_ q a
      || bool_decide (normalizePath q = normalizePath p)
      || startsWith (normalizePath q ++ [slash]) (normalizePath p).
Proof.
  split; [apply read_after_write|].
  - unfold exists_. apply eq_true_iff_eq.
    rewrite !orb_true_iff, !string_map_has_true, !hasDirectory_true,
      bool_decide_eq_true.
    unfold writeFile. rewrite files_notifyWatchers. simpl.
    rewrite string_map_set_keys. case_bool_decide as Hin.
    + split; [tauto|]. intros [[H1|H1]|H1]; [tauto| |].
      * left. by rewrite H1.
      * right. by exists (normalizePath p).
    + setoid_rewrite elem_of_app. setoid_rewrite list_elem_of_singleton.
      split.
      * intros [[H1|H1]|(k & [H1| ->] & H2)]; eauto 6.
      * intros [[[H1|(k & H1 & H2)]|H1]|H1]; eauto 6.
Qed.

Lemma removed_by_file a n k :
  map_has n (files a) = true → removed_by a n k ↔ k = n.
Proof. unfold removed_by. by intros ->. Qed.

Lemma removed_by_dir a n k :
  map_has n (files a) = false →
  removed_by a n k ↔ startsWith (n ++ [slash]) k = true.
Proof. unfold removed_by. by intros ->. Qed.

Lemma files_delete p a :
  files (delete p a)
  = filter (λ f, ¬ removed_by a (normalizePath p) f.1) (files a).
Proof.
  unfold delete.
  destruct (map_has (normalizePath p) (files a)) eqn:Hh.
  { simpl. unfold map_delete. apply filter_ext_in. intros [k v] _. simpl.
    by rewrite removed_by_file. }
  assert (∀ (l : list jsstring) a0,
            files (foldl (λ a1 filePath,
                           notifyWatchers filePath ConfigWatcher.delete
                             {| files := map_delete filePath (files a1);
                                watchers := watchers a1;
                                notified := notified a1 |}) a0 l)
            = filter (λ f, f.1 ∉ l) (files a0)) as Hfold.
  { induction l as [|k l IH]; intros a0; simpl.
    - symmetry. apply filter_all. intros x _ Hx. inversion Hx.
    - rewrite IH. simpl. unfold map_delete. rewrite list_filter_filter.
      apply list_filter_iff. intros x. rewrite not_elem_of_cons. tauto. }
  rewrite Hfold. apply filter_ext_in. intros [k v] Hin. simpl.
  rewrite removed_by_dir by done.
  rewrite list_elem_of_filter. split.
  - intros Hn Hs. apply Hn. split; [done|].
    by apply (list_elem_of_fmap_2 fst) in Hin.
  - intros Hn [Hs _]. done.
Qed.

Lemma keys_delete p a k :
  k ∈ (files (delete p a)).*1
  ↔ k ∈ (files a).*1 ∧ ¬ removed_by a (normalizePath p) k.
Proof.
  rewrite files_delete. split.
  - intros Hin. apply list_elem_of_fmap in Hin as ([k' v] & -> & Hin).
    apply list_elem_of_filter in Hin as [Hn Hin]. split; [|done].
    by apply (list_elem_of_fmap_2 fst) in Hin.
  - intros [Hin Hn]. apply list_elem_of_fmap in Hin as ([k' v] & -> & Hin).
    apply (list_elem_of_fmap_2 fst). by apply list_elem_of_filter.
Qed.

Lemma startsWith_slash_self n : startsWith (n ++ [slash]) n = false.
Proof.
  apply not_true_is_false. intros [r Hr]%startsWith_true.
  rewrite <- (app_nil_r n) in Hr at 1.
  rewrite <- app_assoc in Hr. by apply app_inv_head in Hr.
Qed.

(** [delete] removes the file of the given name if there is one, and
    otherwise every file below the name; every other file stays, with its
    content and in its place.  A name that is a file and also has files
    below it exists until it has been deleted twice. *)
Theorem delete_removes (a : Adapter C) (p q : jsstring) :
  files (delete p a)
  = filter (λ f, ¬ removed_by a (normalizePath p) f.1) (files a)
  ∧ readFile q (delete p a)
    = (if decide (removed_by a (normalizePath p) (normalizePath q))
       then inl (str "ENOENT: no such file or directory, open '" ++ q
                 ++ str "'")
       else readFile q a)
  ∧ readFile p (delete p a)
    = inl (str "ENOENT: no such file or directory, open '" ++ p ++ str "'")
  ∧ exists_ p (delete p a)
    = map_has (normalizePath p) (files a) && hasDirectory (normalizePath p) a
  ∧ exists_ p (delete p (delete p a)) = false.
Proof.
  assert (∀ a q, readFile q (delete p a)
    = (if decide (removed_by a (normalizePath p) (normalizePath q))
       then inl (str "ENOENT: no such file or directory, open '" ++ q
                 ++ str "'")
       else readFile q a)) as Hread.
  { intros a0 q0. unfold readFile. rewrite files_delete.
    pose proof (string_map_get_filter (λ k, ¬ removed_by a0 (normalizePath p) k)
                  (normalizePath q0) (files a0)) as E.
    simpl in E. rewrite E.
    repeat case_decide; try done; tauto. }
  assert (∀ a, exists_ p (delete p a)
    = map_has (normalizePath p) (files a) && hasDirectory (normalizePath p) a)
    as Hex.
  { intros a0. unfold exists_. apply eq_true_iff_eq.
    rewrite orb_true_iff, andb_true_iff, !string_map_has_true, !hasDirectory_true.
    setoid_rewrite keys_delete.
    destruct (map_has (normalizePath p) (files a0)) eqn:Hh.
    - pose proof Hh as Hin. apply string_map_has_true in Hin.
      setoid_rewrite (removed_by_file _ _ _ Hh). split.
      + intros [[_ H1]|(k & [H1 _] & H2)]; [done|]. eauto.
      + intros [_ (k & H1 & H2)]. right. exists k. split; [|done].
        split; [done|]. intros ->. by rewrite startsWith_slash_self in H2.
    - assert (normalizePath p ∉ (files a0).*1) as Hn.
      { intros Hin. apply string_map_has_true in Hin. congruence. }
      setoid_rewrite (removed_by_dir _ _ _ Hh).
      split; [|by intros [? _]].
      intros [[H1 _]|(k & [_ H1] & H2)]; done. }
  split; [apply files_delete|]. split; [apply Hread|].
  split; [|split; [apply Hex|]].
  - rewrite Hread. case_decide as Hr; [done|].
    unfold readFile.
    destruct (map_get (normalizePath p) (files a)) eqn:Hg; [|done].
    exfalso. apply Hr. apply removed_by_file; [|done].
    unfold map_has. rewrite Hg. by apply bool_decide_eq_true_2.
  - rewrite Hex. apply andb_false_iff. left.
    apply not_true_is_false. rewrite string_map_has_true, keys_delete.
    intros [Hin Hn]. apply Hn. apply removed_by_file; [|done].
    by apply string_map_has_true.
Qed.

(** *** Listing of a directory *)

Lemma first_segment_split s :
  (slash ∉ first_segment s)
  ∧ (s = first_segment s ∨ ∃ r, s = first_segment s ++ slash :: r).
Proof.
  induction s as [|c s [IH1 IH2]]; simpl.
  - split; [by inversion 1|by left].
  - case_bool_decide as E.
    + subst c. split; [by inversion 1|]. right. by exists s.
    + split.
      * rewrite not_elem_of_cons. split; [congruence|done].
      * destruct IH2 as [IH2|[r IH2]]; [left|right; exists r]; simpl;
          by f_equal.
Qed.

Lemma first_segment_app e r : slash ∉ e → first_segment (e ++ slash :: r) = e.
Proof.
  induction e as [|c e IH]; simpl; intros He; [done|].
  apply not_elem_of_cons in He as [Hc He].
  rewrite bool_decide_eq_false_2 by done. by rewrite IH.
Qed.

Lemma first_segment_id e : slash ∉ e → first_segment e = e.
Proof.
  induction e as [|c e IH]; simpl; intros He; [done|].
  apply not_elem_of_cons in He as [Hc He].
  rewrite bool_decide_eq_false_2 by done. by rewrite IH.
Qed.

Lemma elem_of_set_add e x s : e ∈ set_add x s ↔ e ∈ s ∨ e = x.
Proof.
  unfold set_add. case_bool_decide as E.
  - split; [by left|]. intros [?| ->]; done.
  - by rewrite elem_of_app, list_elem_of_singleton.
Qed.

Lemma NoDup_set_add x s : NoDup s → NoDup (set_add x s).
Proof.
  unfold set_add. intros Hs. case_bool_decide as E; [done|].
  apply NoDup_app. split; [done|]. split; [|apply NoDup_singleton].
  intros y Hy Hx. apply list_elem_of_singleton in Hx as ->. done.
Qed.

Lemma readdir_fold (pre : jsstring) (l : list (jsstring * jsstring))
    (acc : list jsstring) :
  let r := foldl (λ entries f,
                    match Replace.strip_prefix pre f.1 with
                    | Some relativePath =>
                        set_add (first_segment relativePath) entries
                    | None => entries
                    end) acc l in
  (NoDup acc → NoDup r)
  ∧ ∀ e, e ∈ r ↔ e ∈ acc ∨ ∃ k rel, k ∈ l.*1 ∧ k = pre ++ rel
                              ∧ first_segment rel = e.
Proof.
  revert acc. induction l as [|[k v] l IH]; intros acc; simpl.
  - split; [done|]. intros e. split; [by left|].
    intros [?|(k & rel & Hk & _)]; [done|in_nil].
  - destruct (IH (match Replace.strip_prefix pre k with
                  | Some relativePath => set_add (first_segment relativePath) acc
                  | None => acc
                  end)) as [IH1 IH2].
    split.
    + intros Hacc. apply IH1. destruct (Replace.strip_prefix pre k); [|done].
      by apply NoDup_set_add.
    + intros e. rewrite IH2. setoid_rewrite elem_of_cons.
      destruct (Replace.strip_prefix pre k) as [rel0|] eqn:Hs.
      * apply strip_prefix_Some in Hs. rewrite elem_of_set_add. split.
        -- intros [[Ha|He]|(k1 & rel & Hk & Hrel)]; [by left| |].
           ++ right. exists k, rel0. eauto.
           ++ right. exists k1, rel. tauto.
        -- intros [Ha|(k1 & rel & [->|Hk] & -> & Hrel)]; [by left; left| |].
           ++ apply app_inv_head in Hs as ->. by left; right.
           ++ right. exists (pre ++ rel), rel. eauto.
      * split.
        -- intros [Ha|(k1 & rel & Hk & Hrel)]; [by left|].
           right. exists k1, rel. tauto.
        -- intros [Ha|(k1 & rel & [->|Hk] & -> & Hrel)]; [by left| |].
           ++ by rewrite (proj2 (strip_prefix_Some pre (pre ++ rel) rel)) in Hs.
           ++ right. exists (pre ++ rel), rel. eauto.
Qed.

Lemma elem_of_readdir d a e :
  e ∈ readdir d a
  ↔ ∃ k rel, k ∈ (files a).*1 ∧ k = (normalizePath d ++ [slash]) ++ rel
             ∧ first_segment rel = e.
Proof.
  unfold readdir.
  destruct (readdir_fold (normalizePath d ++ [slash]) (files a) []) as [_ Hr].
  rewrite Hr. split; [|by right]. intros [?|?]; [in_nil|done].
Qed.

Lemma keys_normal (ops : list (Op C)) : Forall normal (files (run ops)).*1.
Proof.
  unfold run. induction ops as [|op ops IH] using rev_ind; [constructor|].
  rewrite foldl_app. simpl. set (a := foldl step new_adapter ops) in *.
  destruct op as [p c|p|p|p cb|p cb|]; simpl; try done.
  - rewrite string_map_set_keys. case_bool_decide; [done|].
    apply Forall_app. split; [done|]. constructor; [|constructor].
    apply normalizePath_normal.
  - apply Forall_forall. intros k [Hk _]%keys_delete.
    by apply (proj1 (Forall_forall _ _) IH).
  - unfold dispose. by destruct (map_get _ _).
Qed.


End Adapter.

End MemoryFSFacts.

Module HookStoreFacts.
Import FileSystem HookManager HookManagerSpec HookManagerFacts HookStore
  HookStoreSpec.

Lemma ids_map_set (hook : HookConfig) (l : list HookConfig) :
  id <$> map_set (id hook) hook l
  = if bool_decide (id hook ∈ id <$> l) then id <$> l
    else (id <$> l) ++ [id hook].
Proof.
  induction l as [|h l IH]; [done|]. cbn [map_set].
  destruct (decide (id h = id hook)) as [E|E].
  - rewrite bool_decide_eq_true_2 by done. rewrite !fmap_cons, E.
    rewrite bool_decide_eq_true_2; [done|]. apply list_elem_of_here.
  - rewrite bool_decide_eq_false_2 by done. rewrite !fmap_cons, IH.
    destruct (decide (id hook ∈ id <$> l)) as [Hin|Hin].
    + rewrite !bool_decide_eq_true_2; [done| |done]. by apply list_elem_of_further.
    + rewrite !bool_decide_eq_false_2; [done| |done].
      rewrite elem_of_cons. intros [?|?]; congruence.
Qed.

Lemma NoDup_map_set (hook : HookConfig) (l : list HookConfig) :
  NoDup (id <$> l) → NoDup (id <$> map_set (id hook) hook l).
Proof.
  intros Hl. rewrite ids_map_set. case_bool_decide as E; [done|].
  apply NoDup_app. split; [done|]. split; [|apply NoDup_singleton].
  intros x Hx Hy. apply list_elem_of_singleton in Hy as ->. done.
Qed.

Lemma map_get_Some_id k (l : list HookConfig) hook :
  map_get k l = Some hook → id hook = k ∧ hook ∈ l.
Proof.
  induction l as [|h l IH]; simpl; [done|]. case_bool_decide as E.
  - intros [= ->]. split; [done|left].
  - intros Hg. destruct (IH Hg). split; [done|by right].
Qed.

Lemma map_get_None k (l : list HookConfig) :
  map_get k l = None ↔ k ∉ id <$> l.
Proof.
  induction l as [|h l IH]; simpl.
  - split; [by inversion 2|done].
  - rewrite not_elem_of_cons. case_bool_decide as E.
    + split; [done|]. by intros [? _].
    + rewrite IH. split; [by split|by intros [_ ?]].
Qed.

Lemma map_set_fmap k (hook : HookConfig) (l : list HookConfig) :
  NoDup (id <$> l) → id hook = k →
  map_set k hook l
  = if bool_decide (k ∈ id <$> l)
    then (λ h, if bool_decide (id h = k) then hook else h) <$> l
    else l ++ [hook].
Proof.
  intros Hl <-. induction l as [|h l IH]; [done|]. cbn [map_set].
  rewrite fmap_cons in Hl. apply NoDup_cons in Hl as [Hh Hl].
  destruct (decide (id h = id hook)) as [E|E].
  - rewrite bool_decide_eq_true_2 by done.
    rewrite bool_decide_eq_true_2 by (rewrite fmap_cons, E; left).
    rewrite fmap_cons, bool_decide_eq_true_2 by done. f_equal.
    symmetry. etransitivity; [|apply list_fmap_id]. apply list_fmap_ext.
    intros i x Hx. rewrite bool_decide_eq_false_2; [done|].
    intros Ex. apply Hh. rewrite E, <- Ex.
    apply list_elem_of_fmap_2. by eapply list_elem_of_lookup_2.
  - rewrite bool_decide_eq_false_2 by done. rewrite IH by done.
    rewrite fmap_cons.
    destruct (decide (id hook ∈ id <$> l)) as [Hin|Hin].
    + rewrite !bool_decide_eq_true_2; [|by right|done].
      rewrite fmap_cons. by rewrite bool_decide_eq_false_2.
    + rewrite !bool_decide_eq_false_2; [done| |done].
      rewrite elem_of_cons. intros [?|?]; congruence.
Qed.

Section Store.
Context {World : Type} `{Store World}.
Local Opaque str.

(** *** Dispatch leaves the hooks alone *)

Lemma run_hooks_hooks (exec : @Executor World) context l (d : @Dispatch World) :
  hooks (manager (run_hooks exec context l d).1) = hooks (manager d)
  ∧ (∀ o, o ∈ results (run_hooks exec context l d).1 →
          o ∈ results d ∨ o.1 ∈ l).
Proof.
  revert d. induction l as [|hook l IH]; intros d; simpl.
  - split; [done|]. by left.
  - destruct (pattern_gate hook context) as [e|[|]]; simpl.
    + split; [done|]. by left.
    + destruct (IH (run_action exec context d hook)) as [IH1 IH2].
      rewrite IH1. split.
      * unfold run_action. destruct (exec hook context (world d)) as [w1 r].
        simpl. destruct r as [e|res]; [done|].
        by destruct (negb (success res) && truthy_opt (error res)).
      * intros o [Ho|Ho]%IH2; [|by right; right].
        rewrite run_action_results in Ho. simpl in Ho.
        destruct (exec hook context (world d)) as [w1 r].
        apply elem_of_app in Ho as [Ho|Ho]; [by left|].
        apply list_elem_of_singleton in Ho as ->. right. left.
    + destruct (IH d) as [IH1 IH2]. split; [done|].
      intros o [Ho|Ho]%IH2; [by left|by right; right].
Qed.

Lemma notify_listeners_hooks eventType context
    (l : list (HookEventHandler World)) (d : @Dispatch World) :
  hooks (manager (notify_listeners eventType context l d)) = hooks (manager d).
Proof.
  revert d. induction l as [|handler l IH]; intros d; simpl; [done|].
  destruct (handler context (world d)) as [w1 [err|]]; by rewrite IH.
Qed.

Lemma emit_with_hooks (exec : @Executor World) eventType context
    (m : Manager World) (w : World) :
  hooks (manager (emit_with exec eventType context m w).1) = hooks m
  ∧ ∀ o, o ∈ results (emit_with exec eventType context m w).1 →
         o.1 ∈ matching_hooks eventType m.
Proof.
  unfold emit_with.
  pose proof (run_hooks_hooks exec context (matching_hooks eventType m)
                {| manager := m; world := w; results := [] |}) as [E1 E2].
  destruct (run_hooks exec context (matching_hooks eventType m) _)
    as [d [e|]]; simpl in *.
  - split; [done|]. intros o [Ho|Ho]%E2; [in_nil|done].
  - rewrite notify_listeners_hooks.
    destruct (notify_listeners_spec eventType context
                (eventListeners m eventType) d) as [-> _].
    split; [done|]. intros o [Ho|Ho]%E2; [in_nil|done].
Qed.

(** *** The ids of the hooks of a manager are pairwise different *)

Lemma load_entry_NoDup (st : Manager World * World) entry :
  NoDup (id <$> hooks st.1) → NoDup (id <$> hooks (load_entry st entry).1).
Proof.
  intros Hn. unfold load_entry. destruct (endsWith _ entry); [|done].
  destruct (fs_readFile _ st.2) as [w1 [e|content]]; [done|].
  destruct (JSON_parse content) as [e|hook]; [done|]. simpl.
  by apply NoDup_map_set.
Qed.

Lemma store_NoDup (s : Manager World * World) (op : StoreOp) :
  NoDup (id <$> hooks s.1) → NoDup (id <$> hooks (store s op).1).
Proof.
  intros Hn. destruct op as [hook|hookId|hookId b|]; simpl.
  - unfold registerHook. destruct (validateHook hook) as [e|h]; [done|].
    destruct (fs_mkdir hooksBasePath s.2) as [w1 [e|]]; [done|].
    destruct (fs_writeFile _ _ w1) as [w2 [e|]]; [done|]. simpl.
    by apply NoDup_map_set.
  - unfold removeHook.
    destruct (fs_exists _ s.2) as [w1 [e|present]]; [done|].
    destruct (if present then _ else _) as [w2 [e|]]; [done|]. simpl.
    by apply NoDup_fmap_filter.
  - unfold setHookEnabled.
    destruct (map_get hookId (hooks s.1)) as [hook|] eqn:Hg; [|done].
    destruct (fs_writeFile _ _ s.2) as [w1 r]. simpl.
    apply map_get_Some_id in Hg as [<- _].
    by apply (NoDup_map_set (set_enabled hook b)).
  - unfold loadHooks.
    destruct (fs_exists _ s.2) as [w1 [e|[|]]]; simpl; try constructor.
    destruct (fs_readdir _ w1) as [w2 [e|entries]]; simpl; [constructor|].
    assert (NoDup (id <$> hooks (with_hooks s.1 [], w2).1)) as H0
      by constructor.
    revert H0. generalize (with_hooks s.1 [], w2).
    induction entries as [|entry entries IH]; intros st Hst; simpl; [done|].
    apply IH. by apply load_entry_NoDup.
Qed.

Lemma request_NoDup (s : Manager World * World) (r : Request World) :
  NoDup (id <$> hooks s.1) → NoDup (id <$> hooks (request s r).1).
Proof.
  intros Hn. destruct r as [op|sender|eventType handler|eventType context|
                            hookId context]; simpl; try done.
  - by apply store_NoDup.
  - unfold emit. by rewrite (proj1 (emit_with_hooks _ _ _ _ _)).
Qed.

Lemma run_NoDup (history : list (Request World)) (w0 : World) :
  NoDup (id <$> hooks (foldl request (new_manager, w0) history).1).
Proof.
  induction history as [|r history IH] using rev_ind; [constructor|].
  rewrite foldl_app. simpl. by apply request_NoDup.
Qed.

(** In every state that a manager can reach, [setHookEnabled] with an id
    that is not registered throws and changes nothing; with a registered id
    it sets the flag of that hook and of no other, whether or not the file
    can then be written.  Once the flag is off, no dispatch runs the action
    of the hook and [triggerHook] refuses it, without touching the world. *)
Theorem setHookEnabled_takes_effect (history : list (Request World))
    (w0 : World) (hookId : jsstring) (b : bool) :
  let s := foldl request (new_manager, w0) history in
  let r := setHookEnabled hookId b s.1 s.2 in
  (getHook hookId s.1 = None →
   r = (s.1, s.2, Some (str "Hook '" ++ hookId ++ str "' not found")))
  ∧ listHooks r.1.1
    = (λ h, if bool_decide (id h = hookId) then set_enabled h b else h)
        <$> listHooks s.1
  ∧ (b = false →
     (∀ (exec : @Executor World) eventType context,
        hookId ∉ id <$> (results (emit_with exec eventType context
                                     r.1.1 r.1.2).1).*1)
     ∧ ∀ context,
         (triggerHook hookId context r.1.1 r.1.2).1 = r.1.2
         ∧ success (triggerHook hookId context r.1.1 r.1.2).2 = false).
Proof.
  intros s r. pose proof (run_NoDup history w0) as Hn. fold s in Hn.
  assert (listHooks r.1.1
          = (λ h, if bool_decide (id h = hookId) then set_enabled h b else h)
              <$> listHooks s.1) as Hl.
  { subst r. unfold setHookEnabled, listHooks, getHook.
    destruct (map_get hookId (hooks s.1)) as [hook|] eqn:Hg.
    - destruct (fs_writeFile _ _ s.2) as [w1 r]. simpl.
      pose proof Hg as [Hid Hin]%map_get_Some_id.
      rewrite (map_set_fmap hookId (set_enabled hook b)) by done.
      rewrite bool_decide_eq_true_2
        by (rewrite <- Hid; by apply list_elem_of_fmap_2).
      apply list_fmap_ext. intros i h Hh. case_bool_decide as E; [|done].
      f_equal. apply (NoDup_fmap_eq id (hooks s.1)); try done.
      + by eapply list_elem_of_lookup_2.
      + congruence.
    - simpl. symmetry. etransitivity; [|apply list_fmap_id].
      apply list_fmap_ext. intros i h Hh.
      rewrite bool_decide_eq_false_2; [done|]. intros E.
      apply map_get_None in Hg. apply Hg. rewrite <- E.
      apply list_elem_of_fmap_2. by eapply list_elem_of_lookup_2. }
  split; [|split; [exact Hl|]].
  - subst r. unfold getHook, setHookEnabled. by intros ->.
  - intros ->. unfold listHooks in Hl.
    assert (∀ h, h ∈ hooks r.1.1 → id h = hookId → enabled h = false) as Hoff.
    { intros h Hh E. rewrite Hl in Hh.
      apply list_elem_of_fmap in Hh as (h0 & -> & Hh0).
      case_bool_decide as E0; [done|]. by destruct E0. }
    split.
    + intros exec eventType context Hin.
      apply list_elem_of_fmap in Hin as (h & Hid & Hin).
      apply list_elem_of_fmap in Hin as (o & -> & Hin).
      apply emit_with_hooks in Hin.
      apply list_elem_of_filter in Hin as [[Hen _] Hin].
      rewrite (Hoff o.1) in Hen; done.
    + intros context. unfold triggerHook.
      destruct (map_get hookId (hooks r.1.1)) as [h|] eqn:Hg; [|done].
      apply map_get_Some_id in Hg as [Hid Hin].
      by rewrite (Hoff h Hin Hid).
Qed.

End Store.

(** *** Hooks on the in-memory adapter *)

Lemma getHookPath_shape k :
  getHookPath k = (str ".kiro/hooks" ++ [MemoryFS.slash]) ++ k ++ str ".json".
Proof. reflexivity. Qed.

Lemma getHookPath_inj k k' : getHookPath k = getHookPath k' → k = k'.
Proof.
  rewrite !getHookPath_shape. intros E%app_inv_head. by apply app_inv_tail in E.
Qed.

Lemma not_in_const (c : N) (l : jsstring) :
  bool_decide (c ∈ l) = false → c ∉ l.
Proof. by intros E%bool_decide_eq_false. Qed.

Lemma getHookPath_normal k :
  MemoryFS.backslash ∉ k → MemoryFSSpec.normal (getHookPath k).
Proof.
  intros Hb. rewrite getHookPath_shape. split; [|split].
  - rewrite !elem_of_app.
    intros [[H0|H0]|[H0|H0]]; try done; revert H0; apply not_in_const;
      by vm_compute.
  - done.
  - rewrite !last_app. by vm_compute.
Qed.

Lemma normalizePath_unbackslash p :
  MemoryFS.normalizePath p
  = MemoryFS.normalizePath
      ((λ c, if bool_decide (c = MemoryFS.backslash) then MemoryFS.slash
             else c) <$> p).
Proof.
  unfold MemoryFS.normalizePath. rewrite <- list_fmap_compose.
  do 4 f_equal. apply list_fmap_ext. intros i c _. simpl.
  case_bool_decide as E; [done|]. by rewrite bool_decide_eq_false_2.
Qed.

Lemma normalizePath_getHookPath k :
  MemoryFS.normalizePath (getHookPath k)
  = getHookPath ((λ c, if bool_decide (c = MemoryFS.backslash)
                       then MemoryFS.slash else c) <$> k).
Proof.
  rewrite normalizePath_unbackslash.
  set (f := λ c, if bool_decide (c = MemoryFS.backslash) then MemoryFS.slash
                 else c).
  assert (f <$> getHookPath k = getHookPath (f <$> k)) as ->.
  { rewrite !getHookPath_shape. by rewrite !fmap_app. }
  apply MemoryFSFacts.normalizePath_id, getHookPath_normal.
  intros Hin. apply list_elem_of_fmap in Hin as (c & Hc & _). unfold f in Hc.
  case_bool_decide; [done|]. congruence.
Qed.

Lemma normalizePath_hook_id k :
  MemoryFS.backslash ∉ k → MemoryFS.normalizePath (getHookPath k) = getHookPath k.
Proof. intros Hb. by apply MemoryFSFacts.normalizePath_id, getHookPath_normal. Qed.

Lemma endsWith_json k : endsWith (str ".json") (k ++ str ".json") = true.
Proof.
  unfold endsWith. apply bool_decide_eq_true_2. rewrite reverse_app.
  exists (reverse k). by apply MemoryFSFacts.strip_prefix_Some.
Qed.

Lemma set_enabled_id (h : HookConfig) : set_enabled h (enabled h) = h.
Proof. by destruct h. Qed.

Lemma filter_fmap_comm {A B} (f : A → B) (P : B → Prop)
    `{∀ x, Decision (P x)} (l : list A) :
  filter P (f <$> l) = f <$> filter (λ x, P (f x)) l.
Proof.
  induction l as [|x l IH]; [done|].
  rewrite fmap_cons, !filter_cons, IH. by destruct (decide (P (f x))).
Qed.

Lemma normalizePath_hooksBasePath :
  MemoryFS.normalizePath hooksBasePath = str ".kiro/hooks".
Proof. by vm_compute. Qed.

Lemma slash_not_in_json : MemoryFS.slash ∉ str ".json".
Proof. apply not_in_const. by vm_compute. Qed.

Lemma entry_path k :
  hooksBasePath ++ str "/" ++ k ++ str ".json" = getHookPath k.
Proof. reflexivity. Qed.

Section Memory.
Context {C : Type} `{EqDecision C} (sv : Services (MemoryFS.Adapter C)).
Local Abbreviation hook_file := (HookStoreSpec.hook_file sv).
Local Abbreviation keeps := (HookStoreSpec.keeps sv).
Local Abbreviation Mirrors := (HookStoreSpec.Mirrors sv).
Local Abbreviation entry_of := (λ h : HookConfig, id h ++ str ".json").
Implicit Types (a : MemoryFS.Adapter C) (m : Manager (MemoryFS.Adapter C)).
Local Opaque str.

Lemma files_set_hook (h : HookConfig) (l : list HookConfig) :
  MemoryFS.map_set (getHookPath (id h)) (stringify_service sv h)
    (hook_file <$> l)
  = hook_file <$> map_set (id h) h l.
Proof.
  induction l as [|x l IH]; [done|]. rewrite fmap_cons.
  cbn [MemoryFS.map_set map_set HookStoreSpec.hook_file].
  destruct (decide (id x = id h)) as [E|E].
  - rewrite !bool_decide_eq_true_2 by (done || by rewrite E). done.
  - rewrite !bool_decide_eq_false_2;
      [|done|by intros E'%getHookPath_inj].
    rewrite fmap_cons. f_equal. apply IH.
Qed.

Lemma get_hook_file (l : list HookConfig) (h : HookConfig) :
  NoDup (id <$> l) → h ∈ l →
  MemoryFS.map_get (getHookPath (id h)) (hook_file <$> l)
  = Some (stringify_service sv h).
Proof.
  induction l as [|x l IH]; [by inversion 2|].
  rewrite !fmap_cons, NoDup_cons. intros [Hx Hl] Hin.
  cbn [MemoryFS.map_get HookStoreSpec.hook_file].
  apply elem_of_cons in Hin as [->|Hin].
  - by rewrite bool_decide_eq_true_2.
  - rewrite bool_decide_eq_false_2; [by apply IH|].
    intros E%getHookPath_inj. apply Hx. rewrite E.
    by apply list_elem_of_fmap_2.
Qed.

Lemma keys_hook_file (l : list HookConfig) k :
  k ∈ (hook_file <$> l).*1 ↔ ∃ h, h ∈ l ∧ k = getHookPath (id h).
Proof.
  rewrite <- list_fmap_compose, list_elem_of_fmap. split.
  - intros (h & -> & Hh). by exists h.
  - intros (h & Hh & ->). by exists h.
Qed.

Lemma readdir_fold_hooks (l : list HookConfig) (acc : list jsstring) :
  NoDup (id <$> l) → Forall keeps l →
  (∀ h, h ∈ l → entry_of h ∉ acc) →
  foldl (λ entries f,
           match Replace.strip_prefix (str ".kiro/hooks" ++ [MemoryFS.slash])
                   f.1 with
           | Some relativePath =>
               MemoryFS.set_add (MemoryFS.first_segment relativePath) entries
           | None => entries
           end) acc (hook_file <$> l)
  = acc ++ (entry_of <$> l).
Proof.
  revert acc. induction l as [|x l IH]; intros acc Hn Hk Hacc.
  - by rewrite app_nil_r.
  - rewrite !fmap_cons in *. apply NoDup_cons in Hn as [Hx Hn].
    apply Forall_cons in Hk as [(Hs & Hb & _) Hk]. cbn [foldl].
    cbn [HookStoreSpec.hook_file fst].
    rewrite (proj2 (MemoryFSFacts.strip_prefix_Some _ _ (entry_of x)))
      by apply getHookPath_shape.
    rewrite MemoryFSFacts.first_segment_id.
    2:{ rewrite elem_of_app. intros [?|?]; [done|].
        by apply slash_not_in_json. }
    assert (MemoryFS.set_add (entry_of x) acc = acc ++ [entry_of x]) as ->.
    { unfold MemoryFS.set_add.
      by rewrite bool_decide_eq_false_2 by (apply Hacc; left). }
    rewrite IH; [by rewrite <- app_assoc|done|done|].
    intros h Hh. rewrite elem_of_app, list_elem_of_singleton.
    intros [Hin|E]; [by apply (Hacc h); [right|]|].
    apply app_inv_tail in E. apply Hx. rewrite <- E.
    by apply list_elem_of_fmap_2.
Qed.

Lemma readdir_hooks m a :
  Mirrors m a →
  MemoryFS.readdir hooksBasePath a = entry_of <$> hooks m.
Proof.
  intros [Hf Hn Hk]. unfold MemoryFS.readdir.
  rewrite normalizePath_hooksBasePath, Hf.
  rewrite readdir_fold_hooks; try done. intros h _ Hin. inversion Hin.
Qed.

Lemma load_entries m' a (l1 l2 : list HookConfig) :
  MemoryFS.files a = hook_file <$> (l1 ++ l2) →
  NoDup (id <$> l1 ++ l2) → Forall keeps (l1 ++ l2) →
  foldl (@load_entry _ (HookStoreSpec.memory_store sv)) (with_hooks m' l1, a)
    (entry_of <$> l2)
  = (with_hooks m' (l1 ++ l2), a).
Proof.
  revert l1. induction l2 as [|x l2 IH]; intros l1 Hf Hn Hk.
  - by rewrite app_nil_r.
  - rewrite fmap_cons. cbn [foldl].
    assert (x ∈ l1 ++ x :: l2) as Hx by (apply elem_of_app; right; left).
    pose proof (proj1 (Forall_forall _ _) Hk x Hx) as (Hs & Hb & Hp).
    unfold load_entry at 2. rewrite endsWith_json, entry_path.
    cbn [fs_readFile store_reader HookStoreSpec.memory_store
         MemoryFS.memory_reader snd fst].
    unfold MemoryFS.readFile.
    rewrite normalizePath_hook_id by done.
    rewrite Hf, get_hook_file by done.
    cbn [JSON_parse HookStoreSpec.memory_store].
    rewrite <- (set_enabled_id x) at 1. rewrite Hp, set_enabled_id.
    cbn [hooks with_hooks].
    assert (NoDup (id <$> l1) ∧ id x ∉ id <$> l1) as [Hn1 Hx1].
    { rewrite fmap_app, fmap_cons in Hn.
      apply NoDup_app in Hn as (Hn1 & Hd & _). split; [done|].
      intros Hin. apply (Hd _ Hin). left. }
    rewrite (map_set_fmap (id x) x l1) by done.
    rewrite bool_decide_eq_false_2 by done.
    change (with_hooks (with_hooks m' l1) (l1 ++ [x]))
      with (with_hooks m' (l1 ++ [x])).
    rewrite IH; rewrite <- ?app_assoc; done.
Qed.

Lemma mirrors_reload m a m' :
  Mirrors m a →
  HookStoreSpec.reload sv m' a = (with_hooks m' (hooks m), a, None).
Proof.
  intros Hm. pose proof Hm as [Hf Hn Hk].
  unfold HookStoreSpec.reload, loadHooks.
  cbn [fs_exists fs_readdir store_reader HookStoreSpec.memory_store
       MemoryFS.memory_reader].
  rewrite (readdir_hooks m a Hm).
  destruct (hooks m) as [|x l] eqn:El.
  - assert (MemoryFS.exists_ hooksBasePath a = false) as ->; [|done].
    unfold MemoryFS.exists_, MemoryFS.map_has, MemoryFS.hasDirectory.
    rewrite Hf. by vm_compute.
  - assert (MemoryFS.exists_ hooksBasePath a = true) as ->.
    { unfold MemoryFS.exists_. apply orb_true_iff. right.
      apply MemoryFSFacts.hasDirectory_true. exists (getHookPath (id x)).
      split; [rewrite Hf; left|].
      rewrite normalizePath_hooksBasePath.
      apply MemoryFSFacts.startsWith_true. eexists.
      apply getHookPath_shape. }
    rewrite <- El in *.
    by rewrite (load_entries m' a [] (hooks m)).
Qed.

Lemma mirrors_store (s : Manager (MemoryFS.Adapter C) * MemoryFS.Adapter C)
    (op : StoreOp) :
  (∀ input, op = RegisterHook input → HookStoreSpec.storable sv input) →
  Mirrors s.1 s.2 →
  Mirrors (@store _ (HookStoreSpec.memory_store sv) s op).1
          (@store _ (HookStoreSpec.memory_store sv) s op).2.
Proof.
  intros Hop Hm. pose proof Hm as [Hf Hn Hk].
  destruct op as [input|hookId|hookId b|]; cbn [store].
  - unfold registerHook.
    destruct (validateHook input) as [e|h] eqn:Hv; [done|].
    pose proof (Hop input eq_refl h Hv) as Hh. pose proof Hh as (Hs & Hb & Hp).
    cbn [fs_mkdir fs_writeFile host_fs store_host HookStoreSpec.memory_store
         MemoryFS.memory_adapter JSON_stringify fst snd].
    split; cbn [hooks with_hooks].
    + unfold MemoryFS.writeFile, MemoryFS.mkdir.
      rewrite MemoryFSFacts.files_notifyWatchers. cbn [MemoryFS.files].
      rewrite normalizePath_hook_id by done. rewrite Hf.
      apply files_set_hook.
    + by apply NoDup_map_set.
    + apply Forall_forall. intros x Hx.
      assert (x = h ∨ x ∈ hooks s.1) as [->|Hin]; [|done|].
      { clear -Hx. induction (hooks s.1) as [|y l IH]; simpl in Hx.
        - apply list_elem_of_singleton in Hx. by left.
        - case_bool_decide.
          + apply elem_of_cons in Hx as [->|Hx]; [by left|by right; right].
          + apply elem_of_cons in Hx as [->|Hx]; [by right; left|].
            destruct (IH Hx); [by left|by right; right]. }
      by apply (proj1 (Forall_forall _ _) Hk).
  - unfold removeHook.
    cbn [fs_exists store_reader HookStoreSpec.memory_store
         MemoryFS.memory_reader].
    set (p := getHookPath hookId).
    assert (∀ h, h ∈ hooks s.1 →
              MemoryFSSpec.removed_by s.2 (MemoryFS.normalizePath p)
                (getHookPath (id h)) ↔ id h = hookId) as Hrem.
    { intros h Hh.
      pose proof (proj1 (Forall_forall _ _) Hk h Hh) as (Hs & Hb & _).
      split.
      - unfold p. rewrite normalizePath_getHookPath.
        set (k' := _ <$> hookId).
        destruct (MemoryFS.map_has (getHookPath k') (MemoryFS.files s.2))
          eqn:Hh'.
        + rewrite MemoryFSFacts.removed_by_file by done.
          intros E%getHookPath_inj. rewrite E in Hs, Hb |- *.
          subst k'. etransitivity; [|apply list_fmap_id].
          apply list_fmap_ext. intros i c Hc. simpl.
          rewrite bool_decide_eq_false_2; [done|]. intros ->.
          apply Hs. apply list_elem_of_fmap. exists MemoryFS.backslash.
          split; [done|]. by eapply list_elem_of_lookup_2.
        + rewrite MemoryFSFacts.removed_by_dir by done.
          intros [r Hr]%MemoryFSFacts.startsWith_true. exfalso.
          rewrite !getHookPath_shape, <- !app_assoc in Hr.
          apply app_inv_head in Hr. simpl in Hr.
          assert (MemoryFS.slash ∈ id h ++ str ".json") as Hin.
          { injection Hr as Hr. rewrite Hr.
            rewrite !elem_of_app. right. right. left. }
          apply elem_of_app in Hin as [?|?]; [done|].
          by apply slash_not_in_json.
      - intros <-. unfold p. rewrite normalizePath_hook_id by done.
        rewrite MemoryFSFacts.removed_by_file; [done|].
        apply MemoryFSFacts.string_map_has_true. rewrite Hf.
        apply keys_hook_file. by exists h. }
    destruct (MemoryFS.exists_ p s.2) eqn:Hex.
    + cbn [fs_delete host_fs store_host HookStoreSpec.memory_store
           MemoryFS.memory_adapter fst snd].
      split; cbn [hooks with_hooks].
      * rewrite MemoryFSFacts.files_delete, Hf. unfold map_delete.
        rewrite filter_fmap_comm. f_equal. apply filter_ext_in.
        intros h Hh. cbn [HookStoreSpec.hook_file fst].
        by rewrite Hrem.
      * by apply NoDup_fmap_filter.
      * by apply Forall_filter_weaken.
    + assert (map_delete hookId (hooks s.1) = hooks s.1) as Hsame.
      { apply filter_all. intros h Hh E.
        pose proof (proj2 (Hrem h Hh) E) as Hr.
        pose proof (proj1 (Forall_forall _ _) Hk h Hh) as (Hs & Hb & _).
        unfold MemoryFS.exists_ in Hex. apply orb_false_iff in Hex as [Hex _].
        apply not_true_iff_false in Hex. apply Hex.
        apply MemoryFSFacts.string_map_has_true. unfold p.
        rewrite <- E, normalizePath_hook_id, Hf by done.
        apply keys_hook_file. by exists h. }
      split; cbn [hooks with_hooks fst snd]; rewrite Hsame; done.
  - unfold setHookEnabled.
    destruct (map_get hookId (hooks s.1)) as [hook|] eqn:Hg; [|done].
    pose proof Hg as [Hid Hin]%map_get_Some_id.
    pose proof (proj1 (Forall_forall _ _) Hk hook Hin) as (Hs & Hb & Hp).
    cbn [fs_writeFile host_fs store_host HookStoreSpec.memory_store
         MemoryFS.memory_adapter JSON_stringify fst snd].
    assert (keeps (set_enabled hook b)) as Hk'.
    { split; [done|]. split; [done|]. intros b'. apply Hp. }
    split; cbn [hooks with_hooks].
    + unfold MemoryFS.writeFile.
      rewrite MemoryFSFacts.files_notifyWatchers. cbn [MemoryFS.files].
      rewrite <- Hid. rewrite normalizePath_hook_id by done. rewrite Hf.
      exact (files_set_hook (set_enabled hook b) (hooks s.1)).
    + rewrite <- Hid. by apply (NoDup_map_set (set_enabled hook b)).
    + rewrite (map_set_fmap hookId (set_enabled hook b)) by done.
      rewrite bool_decide_eq_true_2
        by (rewrite <- Hid; by apply list_elem_of_fmap_2).
      apply Forall_fmap, Forall_forall. intros x Hx. simpl.
      case_bool_decide; [done|]. by apply (proj1 (Forall_forall _ _) Hk).
  - pose proof (mirrors_reload s.1 s.2 s.1 Hm) as E.
    unfold HookStoreSpec.reload in E. rewrite E. by split.
Qed.

Lemma mirrors_persisted (ops : list StoreOp) :
  Forall (HookStoreSpec.storable sv) (registered ops) →
  Mirrors (persisted sv ops).1 (persisted sv ops).2.
Proof.
  unfold persisted. induction ops as [|op ops IH] using rev_ind; intros Hs.
  - split; [done|constructor|constructor].
  - rewrite foldl_app. cbn [foldl]. unfold registered in Hs.
    rewrite omap_app in Hs. apply Forall_app in Hs as [Hs1 Hs2].
    apply mirrors_store; [|by apply IH].
    intros input ->. simpl in Hs2. by apply Forall_cons in Hs2 as [? _].
Qed.

(** Hooks persist.  A manager on a new in-memory adapter registers,
    removes, switches and reloads hooks, where the id of every hook is a file
    name and [JSON.parse] gives every hook back from its serialisation.
    Then the adapter holds exactly one file for each hook of the manager, at
    the path of its id, with its serialisation, and in the order of the
    hooks; and any manager that loads its hooks from the adapter ends with
    the same hooks in the same order, logs nothing and changes no file. *)
Theorem hooks_persist (ops : list StoreOp)
    (m' : Manager (MemoryFS.Adapter C)) :
  Forall (HookStoreSpec.storable sv) (registered ops) →
  let s := persisted sv ops in
  let r := reload sv m' s.2 in
  MemoryFS.files s.2 = hook_file <$> listHooks s.1
  ∧ NoDup (id <$> listHooks s.1)
  ∧ r.2 = None
  ∧ listHooks r.1.1 = listHooks s.1
  ∧ logger r.1.1 = logger m'
  ∧ r.1.2 = s.2.
Proof.
  intros Hs s r. pose proof (mirrors_persisted ops Hs) as Hm. fold s in Hm.
  subst r. rewrite (mirrors_reload s.1 s.2 m' Hm).
  destruct Hm as [Hf Hn _]. by repeat split.
Qed.

End Memory.

(** On the hooks of the failure-isolation test: what is loaded back is the
    first hook, switched off. *)
Lemma hooks_persist_witness :
  Forall (storable known_services) (registered store_calls)
  ∧ (λ h, (name h, enabled h))
      <$> listHooks (reload known_services new_manager
                       (persisted known_services store_calls).2).1.1
    = [(str "Failing Hook", false)].
Proof.
  assert (Forall (storable known_services) (registered store_calls)) as Hs.
  { change (registered store_calls)
      with [Fixtures.failingHook; Fixtures.successHook].
    apply Forall_forall. intros input Hin.
    assert (input = Fixtures.failingHook ∨ input = Fixtures.successHook)
      as [-> | ->].
    { apply elem_of_cons in Hin as [?|Hin]; [by left|].
      apply list_elem_of_singleton in Hin. by right. }
    all: intros h Hv; vm_compute in Hv; injection Hv as <-;
      (split; [|split]);
      [apply not_in_const; by vm_compute..|intros []; by vm_compute]. }
  split; [exact Hs|].
  destruct (hooks_persist known_services store_calls new_manager Hs)
    as (_ & _ & _ & -> & _).
  by vm_compute.
Defined.

End HookStoreFacts.

(** ** When a dispatch throws *)

Module HookDispatchFacts.
Import HookManager HookManagerSpec HookManagerFacts HookDispatchSpec.

Section Dispatch.
Context {World : Type} `{Host World}.
Local Opaque str.

Lemma pattern_gate_throws (hook : HookConfig) (context : HookContext) e :
  pattern_gate hook context = inl e →
  ∃ pattern path,
    trigger hook = on_file_save (Some pattern)
    ∧ filePath context = Some path
    ∧ truthy pattern = true ∧ truthy path = true
    ∧ matchesPattern path pattern = inl e.
Proof.
  unfold pattern_gate.
  destruct (trigger hook) as [[pattern|]| | | |]; try done.
  destruct (filePath context) as [path|]; [|done].
  destruct (truthy pattern) eqn:Hp, (truthy path) eqn:Hq; simpl; try done.
  intros He. by exists pattern, path.
Qed.

Lemma run_hooks_throws (exec : @Executor World) context l
    (d : @Dispatch World) :
  let r := run_hooks exec context l d in
  results r.1
  = results d
    ++ outcomes exec context
         (filter (λ hook, pattern_gate hook context = inr true)
            (before_throw context l)) (world d)
  ∧ match r.2 with
    | None => Forall (λ hook, gate_raises context hook = false) l
    | Some e =>
        ∃ hook, hook ∈ l ∧ pattern_gate hook context = inl e
    end.
Proof.
  revert d. induction l as [|hook l IH]; intros d; simpl.
  - split; [by rewrite app_nil_r|constructor].
  - unfold gate_raises at 1.
    destruct (pattern_gate hook context) as [e|[|]] eqn:G; simpl.
    + split; [by rewrite app_nil_r|]. exists hook. split; [left|done].
    + rewrite filter_cons_True by done.
      destruct (IH (run_action exec context d hook)) as [IH1 IH2].
      rewrite IH1. split.
      * rewrite run_action_results. simpl. unfold run_action.
        destruct (exec hook context (world d)) as [w1 o]. simpl.
        by rewrite <- app_assoc.
      * destruct (run_hooks exec context l _).2 as [e|].
        -- destruct IH2 as (h & Hh & Hg). exists h. split; [by right|done].
        -- constructor; [|done]. unfold gate_raises. by rewrite G.
    + rewrite filter_cons_False by (rewrite G; discriminate).
      destruct (IH d) as [IH1 IH2]. split; [done|].
      destruct (run_hooks exec context l d).2 as [e|].
      * destruct IH2 as (h & Hh & Hg). exists h. split; [by right|done].
      * constructor; [|done]. unfold gate_raises. by rewrite G.
Qed.

(** [emit] throws exactly when the pattern test of a matching hook throws,
    whatever the actions do.  This can happen only in a file_save dispatch
    whose context carries a path, for a hook with a pattern, and the error is
    the one that [matchesPattern] raised.  The actions run up to then are
    those of the selected hooks registered before the first hook whose
    pattern test throws. *)
Theorem emit_throws_only_on_pattern (exec : Executor)
    (eventType : HookEventType) (context : HookContext) (m : Manager World)
    (w : World) :
  let r := emit_with exec eventType context m w in
  (r.2 = None
   ↔ Forall (λ hook, gate_raises context hook = false)
       (matching_hooks eventType m))
  ∧ (eventType ≠ file_save ∨ filePath context = None → r.2 = None)
  ∧ (∀ e, r.2 = Some e →
       eventType = file_save
       ∧ (∃ hook pattern path,
            hook ∈ matching_hooks file_save m
            ∧ trigger hook = on_file_save (Some pattern)
            ∧ filePath context = Some path
            ∧ matchesPattern path pattern = inl e)
       ∧ results r.1
         = outcomes exec context
             (filter (λ hook, pattern_gate hook context = inr true)
                (before_throw context (matching_hooks eventType m))) w).
Proof.
  intros r.
  pose proof (run_hooks_throws exec context (matching_hooks eventType m)
                {| manager := m; world := w; results := [] |}) as [HR HT].
  simpl in HR, HT.
  assert (r.2 = (run_hooks exec context (matching_hooks eventType m)
                   {| manager := m; world := w; results := [] |}).2) as Hr2.
  { subst r. unfold emit_with. by destruct (run_hooks _ _ _ _) as [d [e|]]. }
  assert (∀ e, r.2 = Some e →
            results r.1
            = (results (run_hooks exec context (matching_hooks eventType m)
                 {| manager := m; world := w; results := [] |}).1)) as Hr1.
  { subst r. unfold emit_with. destruct (run_hooks _ _ _ _) as [d [e|]]; done. }
  assert (∀ e, r.2 = Some e →
            ∃ hook pattern path,
              hook ∈ matching_hooks eventType m
              ∧ trigger hook = on_file_save (Some pattern)
              ∧ filePath context = Some path
              ∧ matchesPattern path pattern = inl e) as Hthrow.
  { intros e He. rewrite Hr2 in He. rewrite He in HT.
    destruct HT as (hook & Hin & Hg).
    apply pattern_gate_throws in Hg as (pattern & path & Ht & Hp & _ & _ & Hm).
    by exists hook, pattern, path. }
  split; [|split].
  - rewrite Hr2. destruct (run_hooks _ _ _ _).2 as [e|]; [|done].
    split; [done|]. intros Hall. destruct HT as (hook & Hin & Hg).
    apply (proj1 (Forall_forall _ _) Hall) in Hin.
    unfold gate_raises in Hin. by rewrite Hg in Hin.
  - intros Hor. destruct r.2 as [e|] eqn:He; [|done].
    destruct (Hthrow e eq_refl) as (hook & pattern & path & Hin & Ht & Hp & _).
    apply list_elem_of_filter in Hin as [[_ Hty] _]. rewrite Ht in Hty.
    destruct Hor as [Hne|Hnone]; [by destruct Hne|congruence].
  - intros e He.
    destruct (Hthrow e He) as (hook & pattern & path & Hin & Ht & Hp & Hm).
    pose proof Hin as Hin'.
    apply list_elem_of_filter in Hin' as [[_ Hty] _]. rewrite Ht in Hty.
    simpl in Hty. subst eventType. split; [done|].
    split; [by exists hook, pattern, path|].
    by rewrite (Hr1 e He), HR.
Qed.

End Dispatch.

End HookDispatchFacts.

(** ** The life of a watcher *)

Module WatcherLifecycleFacts.
Import ConfigWatcher ConfigWatcherSpec ConfigWatcherFacts.

Lemma subscribed_step (w : Watcher) (i : Input) :
  watchers w = (if watching w then CONFIG_PATHS.*1 else []) →
  watchers (step w i) = (if watching (step w i) then CONFIG_PATHS.*1 else []).
Proof.
  intros Hw. destruct i; simpl; try done.
  - unfold start. destruct (watching w) eqn:E; [by rewrite E|].
    simpl. by rewrite Hw.
  - unfold stop. destruct (watching w) eqn:E; [done|]. simpl. by rewrite E.
  - unfold raw_event. by case_bool_decide.
  - by rewrite elapse_eq.
Qed.

Lemma subscribed_run (ms : nat) (history : list Input) :
  let w := run (new_watcher ms) history in
  watchers w = (if watching w then CONFIG_PATHS.*1 else []).
Proof.
  induction history as [|i history IH] using rev_ind; [done|].
  unfold run. rewrite foldl_app. simpl. by apply subscribed_step.
Qed.



End WatcherLifecycleFacts.

(** ** Loading at startup *)

Module StartupLoaderFacts.
Import ConfigWatcher StartupLoader StartupLoaderSpec.

Lemma message_or_nonempty reason fallback :
  fallback ≠ [] → message_or reason fallback ≠ [].
Proof.
  intros Hf. unfold message_or. destruct reason as [[|c text]|]; done.
Qed.

Lemma process_spec {A} (settled : Reason + list A) t noun failed :
  let r := process settled t noun failed in
  r.1.1 = value_of settled
  ∧ error_type <$> r.1.2 = (if rejected settled then [t] else [])
  ∧ length r.2 = 1
  ∧ (failed ≠ [] → ∀ e, e ∈ r.1.2 → error_message e ≠ []).
Proof.
  destruct settled as [reason|value]; simpl; repeat split; try done.
  - intros Hf e He. apply list_elem_of_singleton in He as ->. simpl.
    by apply message_or_nonempty.
  - intros _ e He. in_nil.
Qed.

(** [loadAll] settles every load by itself: each category of the result
    holds what its own load returned, or nothing when that load was
    rejected, whatever the other two did; the errors name exactly the
    rejected categories, in the order specs, hooks, steering, each with a
    message that is not empty; the result has no errors exactly when no
    load was rejected; and the logger is told of the start, of each category
    and of the end. *)
Theorem loadAll_isolates_failures {S F} (l : Loader S F) :
  let r := loadAll l in
  specs_loaded r.1 = value_of (loadSpecs l)
  ∧ hooks_loaded r.1 = value_of (loadHooks l)
  ∧ steeringFiles_loaded r.1 = value_of (loadSteeringFiles l)
  ∧ error_type <$> errors r.1
    = filter (λ t, fails l t = true) [specs; hooks; steering]
  ∧ (∀ e, e ∈ errors r.1 → error_message e ≠ [])
  ∧ (errors r.1 = [] ↔ ∀ t, fails l t = false)
  ∧ length r.2 = 5.
Proof.
  intros r. subst r. unfold loadAll.
  pose proof (process_spec (loadSpecs l) specs (str "spec(s)")
                (str "Failed to load specs")) as (A1 & A2 & A3 & A4).
  pose proof (process_spec (loadHooks l) hooks (str "hook(s)")
                (str "Failed to load hooks")) as (B1 & B2 & B3 & B4).
  pose proof (process_spec (loadSteeringFiles l) steering
                (str "steering file(s)")
                (str "Failed to load steering files")) as (C1 & C2 & C3 & C4).
  destruct (process (loadSpecs l) _ _ _) as [[v1 e1] l1].
  destruct (process (loadHooks l) _ _ _) as [[v2 e2] l2].
  destruct (process (loadSteeringFiles l) _ _ _) as [[v3 e3] l3].
  simpl in *.
  assert (error_type <$> (e1 ++ e2 ++ e3)
          = filter (λ t, fails l t = true) [specs; hooks; steering]) as Herr.
  { rewrite !fmap_app, A2, B2, C2. rewrite !filter_cons, filter_nil. simpl.
    destruct (rejected (loadSpecs l)), (rejected (loadHooks l)),
      (rejected (loadSteeringFiles l)); done. }
  repeat split; try done.
  - intros e He. rewrite !elem_of_app in He.
    destruct He as [He|[He|He]]; [by apply A4|by apply B4|by apply C4].
  - intros He [| |]; simpl; rewrite He in Herr; simpl in Herr;
      rewrite !filter_cons, filter_nil in Herr; simpl in Herr;
      destruct (rejected (loadSpecs l)), (rejected (loadHooks l)),
        (rejected (loadSteeringFiles l)); simpl in Herr; done.
  - intros Hall. apply fmap_nil_inv with (f := error_type). rewrite Herr.
    apply filter_none. intros t _. by rewrite Hall.
  - rewrite !length_app, A3, B3, C3. done.
Qed.

End StartupLoaderFacts.

(** ** Hot reload *)

Module HotReloadFacts.
Import ConfigWatcher ConfigWatcherSpec ConfigWatcherFacts HotReload
  HotReloadSpec.

Lemma react_inputs (s : Running) (ev : Event) :
  watcher (react s ev) = run (watcher s) (inputs s ev).
Proof.
  destruct ev as [| |t e|ms]; simpl; try done.
  - unfold start. by destruct (running s).
  - unfold stop. destruct (running s); [|done]. simpl.
    by destruct (watcherDisposable s).
Qed.

Lemma watcher_reachable (ms : nat) (history : list Event) :
  ∃ l, watcher (foldl react (new_reloader ms) history)
       = run (new_watcher ms) l.
Proof.
  induction history as [|ev history [l IH]] using rev_ind.
  - by exists [].
  - rewrite foldl_app. simpl. rewrite react_inputs, IH.
    eexists. symmetry. apply run_app.
Qed.

Lemma remove_first_last (h : ConfigChangeHandler) :
  remove_first h [h] = [].
Proof. simpl. by rewrite bool_decide_eq_true_2. Qed.

Lemma Wired_react (s : Running) (ev : Event) : Wired s → Wired (react s ev).
Proof.
  intros [Hw Hh Hd]. destruct ev as [| |t e|ms]; simpl.
  - unfold start. destruct (running s) eqn:E; [by split; rewrite ?E|].
    split; simpl; try done.
    + unfold ConfigWatcher.start. simpl. rewrite Hw. done.
    + unfold ConfigWatcher.start. simpl. rewrite Hw. simpl. by rewrite Hh.
  - unfold stop. destruct (running s) eqn:E; simpl; [|by split; rewrite ?E].
    destruct (Hd eq_refl) as [h Ho]. rewrite Ho in *. simpl in *.
    split; simpl; try done.
    + unfold ConfigWatcher.stop. by rewrite Hw.
    + unfold ConfigWatcher.stop. rewrite Hw. simpl. rewrite Hh.
      apply remove_first_last.
  - split; simpl; try done.
    + unfold raw_event. by case_bool_decide.
    + unfold raw_event. by case_bool_decide.
  - split; simpl; try done; by rewrite elapse_eq.
Qed.

Lemma Wired_run (ms : nat) (history : list Event) :
  Wired (foldl react (new_reloader ms) history).
Proof.
  induction history as [|ev history IH] using rev_ind; [by split|].
  rewrite foldl_app. simpl. by apply Wired_react.
Qed.

Lemma burst_inputs (ty : ConfigChangeType) (p : jsstring) (D : nat)
    (burst : list Event) :
  ∀ (s : Running) (elapsed : nat),
    in_window ty p D elapsed (as_input <$> burst) = true →
    watcher (foldl react s burst) = run (watcher s) (as_input <$> burst).
Proof.
  induction burst as [|ev burst IH]; intros s elapsed Hw; [done|].
  destruct ev as [| |t e|ms]; simpl in *; try discriminate.
  - case_bool_decide; by erewrite IH.
  - apply andb_prop in Hw as [_ Hw]. by erewrite IH.
Qed.

Lemma reloads_filter (P : ConfigChangeEvent → Prop) `{∀ n, Decision (P n)}
    (w : Watcher) :
  filter P (notified w).*2 = (filter (λ c, P c.2) (notified w)).*2.
Proof. apply HookStoreFacts.filter_fmap_comm. Qed.

Lemma stopped_reloader_quiet (l : list Event) :
  ∀ s : Running, Wired s → Inv (watcher s) → running s = false →
    Forall (λ ev, ev ≠ StartReloader) l →
    reloads (foldl react s l) = reloads s.
Proof.
  induction l as [|ev l IH]; intros s W I Hr Hl; [done|].
  apply Forall_cons in Hl as [Hev Hl]. simpl.
  assert (watching (watcher s) = false) as Hw
    by (by rewrite (wired_watching s W)).
  destruct (inv_stopped _ I Hw) as [Ht Hws].
  assert (reloads (react s ev) = reloads s ∧ running (react s ev) = false)
    as [Hn Hr'].
  { destruct ev as [| |t e|ms]; simpl; try done.
    - unfold stop. by rewrite Hr.
    - unfold reloads, raw_event. simpl. rewrite Hws.
      rewrite bool_decide_eq_false_2; [done|]. by inversion 1.
    - unfold reloads. simpl. rewrite elapse_eq. simpl. rewrite Ht.
      unfold calls. simpl. by rewrite app_nil_r. }
  rewrite IH; try done.
  - by apply Wired_react.
  - rewrite react_inputs. by apply Inv_run.
Qed.


End HotReloadFacts.

(** ** Messages and tasks *)

Module AgentTasksFacts.
Import AgentTasks AgentTasksSpec.

Lemma drop_own {A} (l k : list A) : drop (length l) (l ++ k) = k.
Proof. by rewrite drop_app_length. Qed.

Section Tasks.
Context {World : Type} `{Collaborators World}.
Local Opaque str.

(** The cases of a call. *)
Ltac outcomes :=
  repeat match goal with
    | |- context [triggerByEvent ?t ?c ?w] =>
        destruct (triggerByEvent t c w) as [? [?|]]; simpl
    | |- context [setTaskStatus ?s ?t ?st ?w] =>
        destruct (setTaskStatus s t st w) as [? [?|]]; simpl
    | |- context [buildContext ?r ?w] =>
        destruct (buildContext r w) as [? [?|?]]; simpl
    | E : llmProvider ?a = _ |- context [llmProvider ?a] =>
        rewrite E; simpl
    | llm : ILLMProvider World |- context [?f ?c ?m ?w] =>
        constr_eq f llm; destruct (llm c m w) as [? [?|?]]; simpl
    end.

(** The recorded calls, once they are known. *)
Ltac recorded :=
  simpl; rewrite <- ?app_assoc; simpl; rewrite ?drop_own; simpl.

Ltac the_rest :=
  split; [reflexivity|split; [by repeat constructor|split; reflexivity]].

Ltac last_call :=
  first [ eexists [], _, _; the_rest
        | eexists [_], _, _; the_rest
        | eexists [_; _], _, _; the_rest
        | eexists [_; _; _], _, _; the_rest
        | eexists [_; _; _; _], _, _; the_rest ].

Ltac settle :=
  repeat match goal with
    | |- _ ∧ _ => split
    | |- _ ↔ _ => split
    end;
  try done;
  try (by eexists);
  try (intros _; last_call);
  try (intros _; by repeat constructor);
  try (rewrite ?Forall_cons, ?Forall_nil; unfold returned; simpl;
       intuition congruence).



End Tasks.

End AgentTasksFacts.

(** ** Specs on the in-memory adapter *)

Module SpecManagerFacts.
Import FileSystem SpecManager SpecManagerSpec MemoryFSFacts.

Local Abbreviation slash := MemoryFS.slash.
Local Abbreviation backslash := MemoryFS.backslash.
Local Abbreviation root := (str ".kiro/specs" ++ [MemoryFS.slash]).
Local Abbreviation doc_file := (λ d : DocType, doc_name d ++ str ".md").

Lemma valid_char (c : N) :
  is_lower c || is_digit c || bool_decide (c = 45%N) = true →
  is_white c = false ∧ c ≠ slash ∧ c ≠ backslash.
Proof.
  unfold is_lower, is_digit, is_white, MemoryFS.slash, MemoryFS.backslash.
  rewrite !orb_true_iff, !andb_true_iff, bool_decide_eq_true, !N.leb_le.
  intros Hc. split; [|lia].
  apply orb_false_iff. split.
  - apply bool_decide_eq_false. rewrite !elem_of_cons, elem_of_nil. lia.
  - apply andb_false_iff. left. apply N.leb_gt. lia.
Qed.

Lemma valid_chars (n : jsstring) :
  validPattern n = true →
  n ≠ [] ∧ Forall (λ c, is_white c = false ∧ c ≠ slash ∧ c ≠ backslash) n.
Proof.
  destruct n as [|c r]; [done|]. simpl.
  rewrite andb_true_iff, forallb_forall. intros [Hc Hr]. split; [done|].
  constructor.
  - apply valid_char. by rewrite Hc.
  - apply Forall_forall. intros d Hd. apply valid_char, Hr.
    by apply list_elem_of_In.
Qed.

Lemma valid_no_slash (n : jsstring) :
  validPattern n = true → (slash ∉ n) ∧ (backslash ∉ n) ∧ n ≠ [].
Proof.
  intros [Hne Hn]%valid_chars. rewrite Forall_forall in Hn.
  repeat split; [| |done]; intros Hin; apply Hn in Hin; tauto.
Qed.

Lemma trim_start_id (s : jsstring) :
  Forall (λ c, is_white c = false) s → trim_start s = s.
Proof. destruct 1 as [|c r Hc _]; simpl; [done|]. by rewrite Hc. Qed.

Lemma validateSpecName_valid (n : jsstring) :
  validateSpecName n = None ↔ validPattern n = true.
Proof.
  unfold validateSpecName. split.
  - destruct (blank n); [done|]. by destruct (validPattern n).
  - intros Hv. pose proof (valid_chars n Hv) as [Hne Hn].
    assert (Forall (λ c, is_white c = false) n) as Hw.
    { eapply Forall_impl; [exact Hn|]. by intros c [? _]. }
    assert (blank n = false) as ->.
    { unfold blank, trim. rewrite (trim_start_id n) by done.
      rewrite trim_start_id by (by apply Forall_reverse).
      rewrite reverse_involutive. destruct n; done. }
    by rewrite Hv.
Qed.

(** *** Paths *)

Lemma getSpecPath_shape n : getSpecPath n = root ++ n.
Proof. unfold getSpecPath, specsBasePath. by rewrite <- app_assoc. Qed.

Lemma getDocPath_shape n d :
  getDocPath n d = root ++ n ++ slash :: doc_file d.
Proof.
  unfold getDocPath. rewrite (getSpecPath_shape n). by rewrite <- !app_assoc.
Qed.

Lemma entry_doc_path n :
  (specsBasePath ++ str "/" ++ n) ++ str "/requirements.md"
  = getDocPath n requirements
  ∧ (specsBasePath ++ str "/" ++ n) ++ str "/design.md" = getDocPath n design
  ∧ (specsBasePath ++ str "/" ++ n) ++ str "/tasks.md" = getDocPath n tasks.
Proof. done. Qed.

Lemma doc_file_no_slash d : slash ∉ doc_file d.
Proof. apply HookStoreFacts.not_in_const. by destruct d; vm_compute. Qed.

Lemma doc_file_inj d d' : doc_file d = doc_file d' → d = d'.
Proof. by destruct d, d'; vm_compute. Qed.

Lemma first_segment_doc n d :
  slash ∉ n → MemoryFS.first_segment (n ++ slash :: doc_file d) = n.
Proof. apply first_segment_app. Qed.

Lemma getDocPath_inj n d n' d' :
  slash ∉ n → slash ∉ n' →
  getDocPath n d = getDocPath n' d' → n = n' ∧ d = d'.
Proof.
  intros Hn Hn'. rewrite !getDocPath_shape. intros E%app_inv_head.
  assert (n = n') as <-.
  { rewrite <- (first_segment_doc n d), <- (first_segment_doc n' d') by done.
    by rewrite E. }
  split; [done|]. apply app_inv_head in E. injection E as E.
  by apply doc_file_inj.
Qed.

Lemma getDocPath_normal n d :
  validPattern n = true → MemoryFSSpec.normal (getDocPath n d).
Proof.
  intros (Hs & Hb & Hne)%valid_no_slash. rewrite getDocPath_shape.
  split; [|split].
  - intros Hin. apply elem_of_app in Hin as [Hin|Hin].
    { by apply (HookStoreFacts.not_in_const backslash root). }
    apply elem_of_app in Hin as [Hin|Hin]; [done|].
    apply (HookStoreFacts.not_in_const backslash (slash :: doc_file d));
      [|done].
    by destruct d; vm_compute.
  - done.
  - rewrite !last_app, last_cons. by destruct d; vm_compute.
Qed.

Lemma getSpecPath_normal n :
  validPattern n = true → MemoryFSSpec.normal (getSpecPath n).
Proof.
  intros Hv. pose proof (valid_chars n Hv) as [Hne Hn].
  rewrite Forall_forall in Hn. rewrite (getSpecPath_shape n). split; [|split].
  - intros Hin. apply elem_of_app in Hin as [H0|H0].
    + by apply (HookStoreFacts.not_in_const backslash root).
    + by apply Hn in H0 as (_ & _ & ?).
  - done.
  - rewrite last_app. destruct (last n) as [c|] eqn:El.
    + intros [= ->]. apply last_Some in El as [l' ->].
      assert (slash ∈ l' ++ [slash]) as Hin by (apply elem_of_app; right; left).
      by apply Hn in Hin as (_ & ? & _).
    + by apply last_None in El.
Qed.

Lemma strip_root n d :
  Replace.strip_prefix root (getDocPath n d) = Some (n ++ slash :: doc_file d).
Proof. apply strip_prefix_Some, getDocPath_shape. Qed.

Lemma strip_spec n n' d :
  slash ∉ n → slash ∉ n' →
  Replace.strip_prefix (getSpecPath n ++ [slash]) (getDocPath n' d)
  = if decide (n = n') then Some (doc_file d) else None.
Proof.
  intros Hn Hn'. case_decide as E.
  - subst n'. apply strip_prefix_Some.
    rewrite getDocPath_shape, (getSpecPath_shape n). by rewrite <- !app_assoc.
  - destruct (Replace.strip_prefix _ _) as [r|] eqn:Hs; [|done].
    apply strip_prefix_Some in Hs.
    rewrite getDocPath_shape, (getSpecPath_shape n) in Hs.
    assert (((root ++ n) ++ [slash]) ++ r = root ++ n ++ slash :: r) as Ha
      by (by rewrite <- !app_assoc).
    rewrite Ha in Hs. apply app_inv_head in Hs. destruct E.
    rewrite <- (first_segment_doc n' d) by done. rewrite Hs.
    symmetry. by apply first_segment_app.
Qed.

Lemma elem_of_documents k names :
  k ∈ names ≫= documents ↔ ∃ n d, n ∈ names ∧ k = getDocPath n d.
Proof.
  rewrite list_elem_of_bind. split.
  - intros (n & Hk & Hn). unfold documents in Hk.
    rewrite !elem_of_cons, elem_of_nil in Hk.
    destruct Hk as [->|[->|[->|[]]]]; eauto.
  - intros (n & d & Hn & ->). exists n. split; [|done].
    unfold documents. destruct d; [left|right; left|right; right; left].
Qed.

Section Specs.
Context {C : Type} `{EqDecision C}.
Implicit Types (a : MemoryFS.Adapter C) (names : list jsstring).
Local Opaque str.

Lemma readdir_keys d a :
  MemoryFS.readdir d a
  = foldl (λ entries k,
             match Replace.strip_prefix
                     (MemoryFS.normalizePath d ++ [slash]) k with
             | Some relativePath =>
                 MemoryFS.set_add (MemoryFS.first_segment relativePath) entries
             | None => entries
             end) [] (MemoryFS.files a).*1.
Proof.
  unfold MemoryFS.readdir. generalize (@nil jsstring).
  induction (MemoryFS.files a) as [|f l IH]; intros acc; [done|].
  simpl. apply IH.
Qed.

Lemma names_slash_free a names n :
  Holds a names → n ∈ names → slash ∉ n.
Proof.
  intros [_ _ Hv] Hn. rewrite Forall_forall in Hv.
  by apply valid_no_slash, Hv.
Qed.

Lemma has_document a names n d :
  Holds a names → n ∈ names →
  MemoryFS.exists_ (getDocPath n d) a = true.
Proof.
  intros Hh Hn. pose proof Hh as [Hk _ Hv]. rewrite Forall_forall in Hv.
  unfold MemoryFS.exists_. apply orb_true_iff. left.
  rewrite (normalizePath_id _ (getDocPath_normal n d (Hv n Hn))).
  apply string_map_has_true. rewrite Hk. apply elem_of_documents. eauto.
Qed.

Lemma has_spec a names n :
  Holds a names → validPattern n = true →
  MemoryFS.exists_ (getSpecPath n) a = bool_decide (n ∈ names).
Proof.
  intros Hh Hv. pose proof Hh as [Hk _ _].
  pose proof (valid_no_slash n Hv) as (Hs & _ & _).
  unfold MemoryFS.exists_.
  rewrite (normalizePath_id _ (getSpecPath_normal n Hv)).
  apply eq_true_iff_eq.
  rewrite orb_true_iff, string_map_has_true, hasDirectory_true,
    bool_decide_eq_true, Hk.
  split.
  - intros [Hin|(k & Hin & Hsw)].
    + apply elem_of_documents in Hin as (n' & d & Hn' & E). exfalso.
      rewrite (getSpecPath_shape n), getDocPath_shape in E.
      apply app_inv_head in E. apply Hs. rewrite E.
      apply elem_of_app. right. left.
    + apply elem_of_documents in Hin as (n' & d & Hn' & ->).
      unfold MemoryFS.startsWith in Hsw. apply bool_decide_eq_true in Hsw.
      rewrite strip_spec in Hsw; [|done|by eapply names_slash_free].
      case_decide as E; [by subst|]. by destruct Hsw.
  - intros Hn. right. exists (getDocPath n requirements). split.
    + apply elem_of_documents. eauto.
    + unfold MemoryFS.startsWith. apply bool_decide_eq_true.
      rewrite strip_spec by done. by rewrite decide_True.
Qed.

Lemma listing_of_others n names acc :
  n ∉ names → Forall (λ n', slash ∉ n') names → slash ∉ n →
  foldl (λ entries k,
           match Replace.strip_prefix (getSpecPath n ++ [slash]) k with
           | Some relativePath =>
               MemoryFS.set_add (MemoryFS.first_segment relativePath) entries
           | None => entries
           end) acc (names ≫= documents)
  = acc.
Proof.
  intros Hn Hv Hs. induction names as [|n' names IH]; [done|].
  apply not_elem_of_cons in Hn as [Hne Hn].
  apply Forall_cons in Hv as [Hs' Hv].
  rewrite bind_cons, foldl_app. unfold documents at 2. simpl.
  rewrite !strip_spec by done. rewrite !decide_False by done. by apply IH.
Qed.

Lemma listing_of_spec a names n :
  Holds a names → n ∈ names →
  MemoryFS.readdir (getSpecPath n) a
  = [str "requirements.md"; str "design.md"; str "tasks.md"].
Proof.
  intros Hh Hn. pose proof Hh as [Hk Hd Hv].
  assert (Forall (λ n', slash ∉ n') names) as Hsl.
  { eapply Forall_impl; [exact Hv|]. intros n' Hn'.
    by apply valid_no_slash in Hn' as [? _]. }
  rewrite Forall_forall in Hv. pose proof (Hv n Hn) as Hvn.
  pose proof (valid_no_slash n Hvn) as (Hs & _ & _).
  rewrite readdir_keys, Hk.
  rewrite (normalizePath_id _ (getSpecPath_normal n Hvn)).
  destruct (list_elem_of_split _ _ Hn) as (l1 & l2 & ->).
  apply NoDup_app in Hd as (_ & Hd1 & Hd2).
  apply NoDup_cons in Hd2 as [Hd2 _].
  apply Forall_app in Hsl as [Hsl1 Hsl2].
  apply Forall_cons in Hsl2 as [_ Hsl2].
  rewrite bind_app, bind_cons, !foldl_app.
  rewrite (listing_of_others n l2) by done.
  rewrite (listing_of_others n l1);
    [|intros Hin; by apply (Hd1 n Hin); left|done..].
  unfold documents. simpl. rewrite !strip_spec by done.
  rewrite !decide_True by done. by vm_compute.
Qed.

Lemma listing_of_root names acc :
  NoDup names → Forall (λ n, slash ∉ n) names →
  (∀ n, n ∈ names → n ∉ acc) →
  foldl (λ entries k,
           match Replace.strip_prefix root k with
           | Some relativePath =>
               MemoryFS.set_add (MemoryFS.first_segment relativePath) entries
           | None => entries
           end) acc (names ≫= documents)
  = acc ++ names.
Proof.
  revert acc. induction names as [|n names IH]; intros acc Hd Hs Hacc.
  - by rewrite app_nil_r.
  - apply NoDup_cons in Hd as [Hn Hd]. apply Forall_cons in Hs as [Hsn Hs].
    rewrite bind_cons, foldl_app. unfold documents at 2. simpl.
    rewrite !strip_root, !first_segment_doc by done.
    assert (MemoryFS.set_add n acc = acc ++ [n]) as ->.
    { unfold MemoryFS.set_add.
      rewrite bool_decide_eq_false_2; [done|]. apply Hacc. left. }
    assert (MemoryFS.set_add n (acc ++ [n]) = acc ++ [n]) as Hsame.
    { unfold MemoryFS.set_add. rewrite bool_decide_eq_true_2; [done|].
      apply elem_of_app. right. left. }
    rewrite !Hsame. rewrite IH; [by rewrite <- app_assoc|done|done|].
    intros n' Hn'. rewrite elem_of_app, list_elem_of_singleton.
    intros [Hin| ->]; [|done]. apply (Hacc n'); [by right|done].
Qed.

Lemma summarize_complete a names (l : list jsstring) summaries :
  Holds a names → l ⊆ names →
  summarize l summaries a = (a, inr (summaries ++ (complete <$> l))).
Proof.
  intros Hh. revert summaries.
  induction l as [|n l IH]; intros summaries Hl; simpl.
  - by rewrite app_nil_r.
  - assert (n ∈ names) as Hn by (apply Hl; left).
    unfold check_entry. simpl.
    destruct (entry_doc_path n) as (-> & -> & ->).
    rewrite !(has_document a names n) by done. simpl.
    rewrite IH; [by rewrite <- app_assoc|].
    intros x Hx. apply Hl. by right.
Qed.

Lemma listSpecs_complete a names :
  Holds a names → listSpecs a = (a, inr (complete <$> names)).
Proof.
  intros Hh. pose proof Hh as [Hk Hd Hv]. unfold listSpecs. simpl.
  destruct names as [|n names].
  - assert (MemoryFS.exists_ specsBasePath a = false) as ->; [|done].
    unfold MemoryFS.exists_, MemoryFS.map_has, MemoryFS.hasDirectory.
    simpl in Hk. apply fmap_nil_inv in Hk. rewrite Hk.
    by vm_compute.
  - assert (MemoryFS.exists_ specsBasePath a = true) as ->.
    { unfold MemoryFS.exists_. apply orb_true_iff. right.
      apply hasDirectory_true. exists (getDocPath n requirements).
      split; [rewrite Hk; left|].
      apply startsWith_true. eexists.
      change (MemoryFS.normalizePath specsBasePath ++ [slash]) with root.
      apply getDocPath_shape. }
    rewrite readdir_keys, Hk.
    change (MemoryFS.normalizePath specsBasePath ++ [slash]) with root.
    rewrite listing_of_root.
    + cbn [app]. rewrite (summarize_complete a (n :: names)); [done|done|].
      by intros x Hx.
    + done.
    + eapply Forall_impl; [exact Hv|]. intros n' Hn'.
      by apply valid_no_slash in Hn' as [? _].
    + intros n' _ Hin. inversion Hin.
Qed.

Lemma keys_writeFile p content a :
  MemoryFSSpec.normal p →
  (MemoryFS.files (MemoryFS.writeFile p content a)).*1
  = if bool_decide (p ∈ (MemoryFS.files a).*1) then (MemoryFS.files a).*1
    else (MemoryFS.files a).*1 ++ [p].
Proof.
  intros Hp. unfold MemoryFS.writeFile. rewrite files_notifyWatchers. simpl.
  by rewrite (normalizePath_id p Hp), string_map_set_keys.
Qed.

Lemma createSpec_new a names n :
  Holds a names → validPattern n = true → n ∉ names →
  let a' :=
    MemoryFS.writeFile (getDocPath n tasks) TASKS_TEMPLATE
      (MemoryFS.writeFile (getDocPath n design) DESIGN_TEMPLATE
         (MemoryFS.writeFile (getDocPath n requirements)
            REQUIREMENTS_TEMPLATE a)) in
  createSpec n a
  = (a', inr {| spec_name := n; spec_path := getSpecPath n;
                spec_requirements := Some REQUIREMENTS_TEMPLATE;
                spec_design := Some DESIGN_TEMPLATE; spec_tasks := None |})
  ∧ Holds a' (names ++ [n]).
Proof.
  intros Hh Hv Hn a'. pose proof Hh as [Hk Hd Hvs].
  pose proof (valid_no_slash n Hv) as (Hs & _ & _).
  split.
  - unfold createSpec. rewrite (proj2 (validateSpecName_valid n) Hv). simpl.
    rewrite (has_spec a names n Hh Hv).
    by rewrite bool_decide_eq_false_2.
  - assert (∀ d, getDocPath n d ∉ names ≫= documents) as Hfresh.
    { intros d (n' & d' & Hn' & E)%elem_of_documents.
      apply getDocPath_inj in E as [-> _]; [done..|].
      by eapply names_slash_free. }
    split.
    + subst a'. rewrite !keys_writeFile by (by apply getDocPath_normal).
      rewrite Hk, bind_app. simpl.
      rewrite (bool_decide_eq_false_2 (getDocPath n requirements ∈ _))
        by apply Hfresh.
      rewrite (bool_decide_eq_false_2 (getDocPath n design ∈ _)).
      2:{ rewrite elem_of_app, list_elem_of_singleton.
          intros [Hin|E]; [by apply (Hfresh design)|].
          by apply getDocPath_inj in E as [_ ?]. }
      rewrite (bool_decide_eq_false_2 (getDocPath n tasks ∈ _)).
      2:{ rewrite !elem_of_app, !list_elem_of_singleton.
          intros [[Hin|E]|E]; [by apply (Hfresh tasks)|..];
            by apply getDocPath_inj in E as [_ ?]. }
      by rewrite <- !app_assoc.
    + apply NoDup_app. split; [done|]. split; [|apply NoDup_singleton].
      intros x Hx ->%list_elem_of_singleton. done.
    + apply Forall_app. split; [done|]. by constructor.
Qed.

Lemma Holds_perform a names (op : Op) :
  well_named op → Holds a names →
  Holds (perform a op)
    (match op with
     | CreateSpec n =>
         if validPattern n && bool_decide (n ∉ names) then names ++ [n]
         else names
     | UpdateDocument _ _ _ => names
     end).
Proof.
  intros Hop Hh. destruct op as [n|n d content]; simpl.
  - destruct (validPattern n) eqn:Hv; simpl.
    + case_bool_decide as Hn.
      * destruct (createSpec_new a names n Hh Hv Hn) as [-> Hh']. done.
      * unfold createSpec.
        rewrite (proj2 (validateSpecName_valid n) Hv). simpl.
        rewrite (has_spec a names n Hh Hv).
        by rewrite bool_decide_eq_true_2.
    + unfold createSpec.
      destruct (validateSpecName n) eqn:E; [done|].
      apply validateSpecName_valid in E. congruence.
  - simpl in Hop. unfold updateDocument. simpl.
    rewrite (has_spec a names n Hh Hop). case_bool_decide as Hn; [|done].
    simpl. destruct Hh as [Hk Hd Hvs]. split; [|done..].
    rewrite keys_writeFile by (by apply getDocPath_normal).
    rewrite bool_decide_eq_true_2; [done|].
    rewrite Hk. apply elem_of_documents. eauto.
Qed.

Lemma Holds_after (ops : list Op) :
  Forall well_named ops → Holds (after (C := C) ops) (created ops).
Proof.
  unfold after, created.
  induction ops as [|op ops IH] using rev_ind; intros Hops.
  - split; [done|constructor|constructor].
  - apply Forall_app in Hops as [Hops Hop]. apply Forall_cons in Hop as [Hop _].
    rewrite !foldl_app. simpl.
    pose proof (Holds_perform _ _ op Hop (IH Hops)) as Hh.
    by destruct op.
Qed.

(** Specs are listed as they were created.  A manager on a new in-memory
    adapter creates specs and updates documents, the latter under names
    that [createSpec] accepts.  Then [listSpecs] returns the names that
    [createSpec] accepted, each once and in the order of creation, each with
    its three documents; the directory of each holds exactly the three
    documents; creating a spec again under one of these names throws and
    changes nothing, as does a name that is not kebab-case; and a new valid
    name is created with the three templates, which can be read back. *)
Theorem created_specs_are_listed (ops : list Op) :
  Forall well_named ops →
  let a := after (C := C) ops in
  listSpecs a = (a, inr (complete <$> created ops))
  ∧ NoDup (created ops)
  ∧ (∀ n, n ∈ created ops →
       MemoryFS.readdir (getSpecPath n) a
       = [str "requirements.md"; str "design.md"; str "tasks.md"]
       ∧ createSpec n a
         = (a, inl (str "Spec '" ++ n ++ str "' already exists")))
  ∧ (∀ n, validPattern n = false → ∃ e, createSpec n a = (a, inl e))
  ∧ (∀ n, validPattern n = true → n ∉ created ops →
       ∃ a', createSpec n a
             = (a', inr {| spec_name := n; spec_path := getSpecPath n;
                           spec_requirements := Some REQUIREMENTS_TEMPLATE;
                           spec_design := Some DESIGN_TEMPLATE;
                           spec_tasks := None |})
             ∧ MemoryFS.readFile (getDocPath n requirements) a'
               = inr REQUIREMENTS_TEMPLATE
             ∧ MemoryFS.readFile (getDocPath n design) a'
               = inr DESIGN_TEMPLATE
             ∧ MemoryFS.readFile (getDocPath n tasks) a' = inr TASKS_TEMPLATE
             ∧ (listSpecs a').2
               = inr (complete <$> created ops ++ [n])).
Proof.
  intros Hops a. pose proof (Holds_after ops Hops) as Hh. fold a in Hh.
  split; [by apply listSpecs_complete|].
  split; [apply Hh|]. split; [|split].
  - intros n Hn. split; [by eapply listing_of_spec|].
    pose proof Hh as [_ _ Hv]. rewrite Forall_forall in Hv.
    unfold createSpec.
    rewrite (proj2 (validateSpecName_valid n) (Hv n Hn)). simpl.
    rewrite (has_spec a _ n Hh (Hv n Hn)).
    by rewrite bool_decide_eq_true_2.
  - intros n Hv. unfold createSpec.
    destruct (validateSpecName n) eqn:E; [by eexists|].
    apply validateSpecName_valid in E. congruence.
  - intros n Hv Hn.
    destruct (createSpec_new a _ n Hh Hv Hn) as [Hc Hh'].
    eexists. split; [exact Hc|].
    pose proof (valid_no_slash n Hv) as (Hs & _ & _).
    assert (∀ d d', MemoryFS.normalizePath (getDocPath n d)
                    = MemoryFS.normalizePath (getDocPath n d') → d = d') as Hi.
    { intros d d'. rewrite !normalizePath_id by (by apply getDocPath_normal).
      intros E. by apply getDocPath_inj in E as [_ ?]. }
    repeat split.
    + rewrite !read_after_write.
      rewrite (bool_decide_eq_false_2 (_ = _ (getDocPath n tasks)))
        by (intros E; by apply Hi in E).
      rewrite (bool_decide_eq_false_2 (_ = _ (getDocPath n design)))
        by (intros E; by apply Hi in E).
      by rewrite bool_decide_eq_true_2.
    + rewrite !read_after_write.
      rewrite (bool_decide_eq_false_2 (_ = _ (getDocPath n tasks)))
        by (intros E; by apply Hi in E).
      by rewrite bool_decide_eq_true_2.
    + rewrite !read_after_write.
      by rewrite bool_decide_eq_true_2.
    + by rewrite (listSpecs_complete _ _ Hh').
Qed.

End Specs.

(** [updateDocument] does not validate the name.  With the empty name
    the directory checked is that of all specs, so the document is written
    once a spec exists, and [listSpecs] shows a spec with no name. *)
Example updateDocument_unvalidated_name :
  (SpecManager.name <$>
     match (listSpecs
              (after (C := unit)
                 [CreateSpec (str "a");
                  UpdateDocument [] requirements (str "x")])).2 with
     | inr summaries => summaries
     | inl _ => []
     end)
  = [str "a"; []].
Proof. by vm_compute. Qed.

(** On these calls: one spec is listed, with its three documents. *)
Lemma created_specs_are_listed_witness :
  Forall well_named spec_calls
  ∧ (listSpecs (after (C := unit) spec_calls)).2
    = inr [complete (str "my-feature")].
Proof.
  assert (Forall well_named spec_calls) as Hw.
  { apply Forall_forall. intros op Hop. unfold spec_calls in Hop.
    rewrite !elem_of_cons, elem_of_nil in Hop.
    by destruct Hop as [->|[->|[->|[->|[]]]]]. }
  split; [exact Hw|].
  destruct (created_specs_are_listed (C := unit) spec_calls Hw) as [-> _].
  by vm_compute.
Defined.

End SpecManagerFacts.

(** ** File changes and the watcher *)

Module WatchedFilesFacts.
Import ConfigWatcher ConfigWatcherSpec ConfigWatcherFacts WatchedFiles
  WatchedFilesSpec MemoryFSFacts.

Lemma startsWith_refl (p : jsstring) : MemoryFS.startsWith p p = true.
Proof. apply startsWith_true. exists []. by rewrite app_nil_r. Qed.

Lemma watchers_notifyWatchers {C} `{EqDecision C} p ty (a : MemoryFS.Adapter C) :
  MemoryFS.watchers (MemoryFS.notifyWatchers p ty a) = MemoryFS.watchers a.
Proof. done. Qed.

Lemma handleChange_watching t e (w : Watcher) :
  watching (handleChange t e w) = watching w
  ∧ watchers (handleChange t e w) = watchers w.
Proof. done. Qed.

Lemma run_raw_events (l : list (ConfigChangeType * WatchEvent)) :
  ∀ w : Watcher,
    (∀ c, c ∈ l → c.1 ∈ watchers w) →
    foldl (λ w '(t, e), handleChange t e w) w l
    = run w ((λ c, RawEvent c.1 c.2) <$> l).
Proof.
  induction l as [|[t e] l IH]; intros w Hl; [done|].
  simpl. unfold raw_event.
  rewrite bool_decide_eq_true_2 by (apply (Hl (t, e)); left).
  apply IH. intros c Hc. simpl. apply Hl. by right.
Qed.

Section System.
Implicit Types s : System.
Local Opaque str.

(** What the adapter tells its subscribers of a change. *)
Lemma notified_subscribed s ty np (a : MemoryFS.Adapter ConfigChangeType) :
  Subscribed s → MemoryFS.watchers a = MemoryFS.watchers (adapter s) →
  MemoryFS.notified (MemoryFS.notifyWatchers np ty a)
  = MemoryFS.notified a
    ++ (if watching (watcher s) then
          (λ t, (t, {| type := ty; path := np |})) <$> concerned np
        else []).
Proof.
  intros [Hsub _] Ha. unfold MemoryFS.notifyWatchers. simpl. f_equal.
  rewrite Ha. destruct Hsub as [-> | [-> ->]]; [|done].
  unfold subscriptions, concerned.
  rewrite !filter_cons, filter_nil. simpl.
  assert (∀ q, MemoryFS.startsWith q np || bool_decide (q = np)
               = MemoryFS.startsWith q np) as Hor.
  { intros q. destruct (MemoryFS.startsWith q np) eqn:E; [done|].
    simpl. apply bool_decide_eq_false. intros <-.
    by rewrite startsWith_refl in E. }
  rewrite !Hor. rewrite ?app_nil_r.
  destruct (watching (watcher s));
    destruct (MemoryFS.startsWith (str ".kiro/specs") np),
      (MemoryFS.startsWith (str ".kiro/hooks") np),
      (MemoryFS.startsWith (str ".kiro/steering") np); simpl;
    repeat case_decide; simpl; try done; congruence.
Qed.

Lemma deliver_reports s (before after : MemoryFS.Adapter ConfigChangeType)
    (l : list (ConfigChangeType * WatchEvent)) :
  Subscribed s →
  MemoryFS.notified after = MemoryFS.notified before ++ l →
  (watching (watcher s) = false → l = []) →
  deliver before after (watcher s)
  = run (watcher s) ((λ c, RawEvent c.1 c.2) <$> l).
Proof.
  intros [_ Hw] Hl Hoff. unfold deliver. rewrite Hl, drop_app_length.
  destruct (watching (watcher s)) eqn:E.
  - apply run_raw_events. intros [t e] _. rewrite Hw. simpl.
    destruct t; [left|right; left|right; right; left].
  - by rewrite (Hoff eq_refl).
Qed.

Lemma write_reports s p content :
  Subscribed s →
  watcher (writeFile p content s)
  = run (watcher s)
      (reports s
         (if MemoryFS.map_has (MemoryFS.normalizePath p)
               (MemoryFS.files (adapter s))
          then change else create)
         (MemoryFS.normalizePath p)).
Proof.
  intros Hs. unfold writeFile. simpl.
  set (np := MemoryFS.normalizePath p).
  set (ty := if MemoryFS.map_has np (MemoryFS.files (adapter s))
             then change else create).
  rewrite (deliver_reports s _ _
             (if watching (watcher s) then
                (λ t, (t, {| type := ty; path := np |})) <$> concerned np
              else [])); [|done| |].
  - unfold reports. destruct (watching (watcher s)); [|done].
    by rewrite <- list_fmap_compose.
  - unfold MemoryFS.writeFile. fold np.
    rewrite (notified_subscribed s) by done. simpl. f_equal.
    subst ty. by destruct (MemoryFS.map_has np _).
  - by intros ->.
Qed.

Lemma delete_each s (l : list jsstring) :
  Subscribed s →
  ∀ a : MemoryFS.Adapter ConfigChangeType,
    MemoryFS.watchers a = MemoryFS.watchers (adapter s) →
    let a' :=
      foldl (λ a filePath,
               MemoryFS.notifyWatchers filePath ConfigWatcher.delete
                 {| MemoryFS.files :=
                      MemoryFS.map_delete filePath (MemoryFS.files a);
                    MemoryFS.watchers := MemoryFS.watchers a;
                    MemoryFS.notified := MemoryFS.notified a |}) a l in
    MemoryFS.watchers a' = MemoryFS.watchers (adapter s)
    ∧ MemoryFS.notified a'
      = MemoryFS.notified a
        ++ (l ≫= λ k, if watching (watcher s) then
                        (λ t, (t, {| type := ConfigWatcher.delete; path := k |}))
                          <$> concerned k
                      else []).
Proof.
  intros Hs. induction l as [|k l IH]; intros a Ha; simpl.
  - by rewrite app_nil_r.
  - match goal with |- context [foldl _ ?a1 l] =>
      destruct (IH a1) as [IH1 IH2]; [done|] end.
    split; [done|]. rewrite IH2.
    rewrite (notified_subscribed s) by done. simpl.
    by rewrite <- app_assoc.
Qed.

Lemma delete_reports s p :
  Subscribed s →
  MemoryFS.watchers (adapter (WatchedFiles.delete p s))
  = MemoryFS.watchers (adapter s)
  ∧ watcher (WatchedFiles.delete p s)
    = run (watcher s) (removed s p ≫= reports s ConfigWatcher.delete).
Proof.
  intros Hs. unfold WatchedFiles.delete, removed. simpl.
  set (np := MemoryFS.normalizePath p).
  assert (∀ l : list jsstring,
            (λ c : ConfigChangeType * WatchEvent, RawEvent c.1 c.2)
              <$> (l ≫= λ k, if watching (watcher s) then
                               (λ t, (t, {| type := ConfigWatcher.delete; path := k |}))
                                 <$> concerned k
                             else [])
            = l ≫= reports s ConfigWatcher.delete) as Hr.
  { intros l. induction l as [|k l IH]; [done|].
    rewrite !bind_cons, fmap_app, IH. f_equal. unfold reports.
    destruct (watching (watcher s)); [|done].
    by rewrite <- list_fmap_compose. }
  unfold MemoryFS.delete. fold np.
  destruct (MemoryFS.map_has np (MemoryFS.files (adapter s))) eqn:Hh.
  - split; [done|].
    rewrite (deliver_reports s _ _
               ([np] ≫= λ k, if watching (watcher s) then
                               (λ t, (t, {| type := ConfigWatcher.delete; path := k |}))
                                 <$> concerned k
                             else [])); [by rewrite Hr|done| |].
    + rewrite (notified_subscribed s) by done. simpl.
      by rewrite app_nil_r.
    + intros ->. done.
  - match goal with |- context [foldl ?f (adapter s) ?l] =>
      destruct (delete_each s l Hs (adapter s) eq_refl) as [E1 E2] end.
    split; [done|].
    rewrite (deliver_reports s _ _ _ Hs E2); [by rewrite Hr|].
    intros ->. generalize (filter (λ f, MemoryFS.startsWith (np ++ [MemoryFS.slash]) f = true)
                            (MemoryFS.files (adapter s)).*1).
    intros l. by induction l.
Qed.

Lemma raw_events_keep (l : list Input) :
  ∀ w : Watcher,
    Forall (λ i, ∃ t e, i = RawEvent t e) l →
    watching (run w l) = watching w ∧ watchers (run w l) = watchers w.
Proof.
  induction l as [|i l IH]; intros w Hl; [done|].
  apply Forall_cons in Hl as [(t & e & ->) Hl]. simpl.
  destruct (IH (raw_event t e w) Hl) as [-> ->].
  unfold raw_event. by case_bool_decide.
Qed.

Lemma reports_raw s ty np :
  Forall (λ i, ∃ t e, i = RawEvent t e) (reports s ty np).
Proof.
  apply Forall_forall. intros i Hi. unfold reports in Hi.
  destruct (watching (watcher s)); [|in_nil].
  apply list_elem_of_fmap in Hi as (t & -> & _). eauto.
Qed.

Lemma Subscribed_same s s' :
  Subscribed s →
  MemoryFS.watchers (adapter s') = MemoryFS.watchers (adapter s) →
  watching (watcher s') = watching (watcher s) →
  watchers (watcher s') = watchers (watcher s) →
  Subscribed s'.
Proof.
  intros [Hsub Hw] Ea E1 E2. unfold Subscribed, subscriptions in *.
  by rewrite Ea, E1, E2.
Qed.

Lemma Subscribed_react s (ev : Event) : Subscribed s → Subscribed (react s ev).
Proof.
  intros Hs. pose proof Hs as [Hsub Hw].
  destruct ev as [| |h|h|p content|p|ms]; simpl.
  - unfold start. destruct (watching (watcher s)) eqn:E; [done|].
    split; simpl.
    + left. unfold subscriptions, ConfigWatcher.start. simpl. rewrite E. simpl.
      unfold MemoryFS.watch. simpl.
      destruct Hsub as [-> | [-> _]]; unfold subscriptions; rewrite ?E;
        by vm_compute.
    + unfold ConfigWatcher.start. rewrite E. simpl. by rewrite Hw.
  - unfold stop. destruct (watching (watcher s)) eqn:E; [|done].
    simpl. destruct Hsub as [Hsub | [_ ?]]; [|done].
    split; simpl.
    + left. unfold subscriptions, ConfigWatcher.stop. rewrite E, Hw. simpl.
      unfold MemoryFS.dispose. simpl. rewrite Hsub.
      unfold subscriptions. rewrite E. by vm_compute.
    + unfold ConfigWatcher.stop. by rewrite E.
  - by apply (Subscribed_same s).
  - by apply (Subscribed_same s).
  - pose proof (write_reports s p content Hs) as Ew.
    match type of Ew with _ = run _ ?l =>
      destruct (raw_events_keep l (watcher s)) as [E1 E2];
        [apply reports_raw|] end.
    rewrite <- Ew in E1, E2. by apply (Subscribed_same s).
  - destruct (delete_reports s p Hs) as [Ea Ew].
    assert (Forall (λ i, ∃ t e, i = RawEvent t e)
              (removed s p ≫= reports s ConfigWatcher.delete)) as Hraw.
    { apply Forall_forall. intros i (k & Hi & _)%list_elem_of_bind.
      by apply (proj1 (Forall_forall _ _)
                  (reports_raw s ConfigWatcher.delete k)). }
    destruct (raw_events_keep _ (watcher s) Hraw) as [E1 E2].
    rewrite <- Ew in E1, E2. by apply (Subscribed_same s).
  - apply (Subscribed_same s); simpl; try done; by rewrite elapse_eq.
Qed.

Lemma Subscribed_run (ms : nat) (history : list Event) :
  Subscribed (foldl react (new_system ms) history).
Proof.
  induction history as [|ev history IH] using rev_ind.
  - split; [by right|done].
  - rewrite foldl_app. simpl. by apply Subscribed_react.
Qed.

Lemma react_run s (ev : Event) :
  Subscribed s → ∃ l, watcher (react s ev) = run (watcher s) l.
Proof.
  intros Hs. destruct ev as [| |h|h|p content|p|ms]; simpl.
  - exists [Start]. unfold start. simpl. unfold ConfigWatcher.start.
    by destruct (watching (watcher s)).
  - exists [Stop]. unfold stop. simpl. unfold ConfigWatcher.stop.
    by destruct (watching (watcher s)).
  - by exists [OnConfigChange h].
  - by exists [Dispose h].
  - eexists. by apply write_reports.
  - eexists. by apply delete_reports.
  - by exists [Elapse ms].
Qed.

Lemma watcher_run (ms : nat) (history : list Event) :
  ∃ l, watcher (foldl react (new_system ms) history) = run (new_watcher ms) l.
Proof.
  induction history as [|ev history [l IH]] using rev_ind; [by exists []|].
  rewrite foldl_app. simpl.
  destruct (react_run _ ev (Subscribed_run ms history)) as [l' ->].
  rewrite IH. eexists. symmetry. apply run_app.
Qed.

(** File changes reach the watcher.  A watcher is built on an in-memory
    adapter; it is started and stopped, handlers come and go, files are
    written and deleted, time passes.  Then the watcher is always in a state
    that [start], [stop], raw events and lapses of time lead to; while it is
    watching the adapter holds exactly one callback for each of the three
    roots, and none while it is not; a write is a raw event, create for a
    new file and change for an existing one, with the normalised path, for
    every category whose root is a prefix of that path as text (a slash need
    not follow the root); a delete is such an event for every file removed;
    and a write outside the three roots changes nothing in the watcher. *)
Theorem file_changes_reach_the_watcher (ms : nat) (history : list Event) :
  let s := foldl react (new_system ms) history in
  (∃ l, watcher s = run (new_watcher ms) l)
  ∧ (MemoryFS.watchers (adapter s) = subscriptions s
     ∨ MemoryFS.watchers (adapter s) = [] ∧ watching (watcher s) = false)
  ∧ (∀ p content,
       watcher (react s (WriteFile p content))
       = run (watcher s)
           (reports s
              (if MemoryFS.map_has (MemoryFS.normalizePath p)
                    (MemoryFS.files (adapter s))
               then change else create)
              (MemoryFS.normalizePath p)))
  ∧ (∀ p, watcher (react s (Delete p))
          = run (watcher s) (removed s p ≫= reports s ConfigWatcher.delete))
  ∧ (∀ t rest, t ∈ concerned (root_of t ++ rest))
  ∧ (∀ p content,
       concerned (MemoryFS.normalizePath p) = [] →
       watcher (react s (WriteFile p content)) = watcher s).
Proof.
  intros s. pose proof (Subscribed_run ms history) as Hs. fold s in Hs.
  split; [apply watcher_run|]. split; [apply Hs|].
  split; [intros p content; by apply write_reports|].
  split; [intros p; by apply delete_reports|]. split.
  - intros t rest. unfold concerned. apply list_elem_of_filter. split.
    + apply startsWith_true. by exists rest.
    + destruct t; [left|right; left|right; right; left].
  - intros p content Hc.
    change (react s (WriteFile p content)) with (writeFile p content s).
    rewrite write_reports by done. unfold reports. rewrite Hc. by destruct (watching (watcher s)).
Qed.

End System.

End WatchedFilesFacts.

(** ** The plugin registry *)

Module PluginRegistryFacts.
Import MemoryFS MemoryFSFacts PluginRegistry PluginRegistrySpec.

Local Opaque str.

Lemma string_map_set_new {V} k (v : V) m :
  k ∉ m.*1 → map_set k v m = m ++ [(k, v)].
Proof.
  induction m as [|[k0 v0] m IH]; [done|].
  rewrite fmap_cons, not_elem_of_cons. simpl. intros [Hne Hin].
  rewrite bool_decide_eq_false_2 by done. by rewrite IH.
Qed.

Lemma string_map_delete_absent {V} k (m : list (jsstring * V)) :
  k ∉ m.*1 → map_delete k m = m.
Proof.
  intros Hk. apply filter_all. intros [k' v] Hin E. simpl in E. subst k'.
  apply Hk. by apply (list_elem_of_fmap_2 fst) in Hin.
Qed.

Lemma string_map_delete_absent_last {V} k (v : V) m :
  k ∉ m.*1 → map_delete k (m ++ [(k, v)]) = m.
Proof.
  intros Hk. unfold map_delete. rewrite filter_app.
  fold (map_delete k m). rewrite string_map_delete_absent by done.
  rewrite filter_cons_False; [by rewrite app_nil_r|]. simpl. by intros ?.
Qed.

Lemma string_map_get_app {V} k (m1 m2 : list (jsstring * V)) :
  map_get k (m1 ++ m2)
  = match map_get k m1 with Some v => Some v | None => map_get k m2 end.
Proof.
  induction m1 as [|[k0 v0] m1 IH]; [done|]. simpl.
  by case_bool_decide.
Qed.

Lemma string_map_get_absent {V} k (m : list (jsstring * V)) :
  k ∉ m.*1 → map_get k m = None.
Proof.
  intros Hk. destruct (map_get k m) eqn:E; [|done].
  exfalso. apply Hk, string_map_get_Some. by eexists.
Qed.

Lemma string_map_get_NoDup {V} k (v : V) m :
  NoDup m.*1 → (k, v) ∈ m → map_get k m = Some v.
Proof.
  induction m as [|[k0 v0] m IH]; [by inversion 2|].
  rewrite fmap_cons, NoDup_cons, elem_of_cons. simpl.
  intros [Hk Hm] [[= -> ->]|Hin].
  - by rewrite bool_decide_eq_true_2.
  - rewrite bool_decide_eq_false_2; [by apply IH|].
    intros ->. apply Hk. by apply (list_elem_of_fmap_2 fst) in Hin.
Qed.

Lemma fold_delete {V} (ks : list jsstring) (m : list (jsstring * V)) :
  foldl (λ m k, map_delete k m) m ks = filter (λ e, e.1 ∉ ks) m.
Proof.
  revert m. induction ks as [|k ks IH]; intros m; simpl.
  - symmetry. apply filter_all. intros e _. apply not_elem_of_nil.
  - rewrite IH. unfold map_delete. rewrite list_filter_filter.
    apply filter_ext_in. intros e _. rewrite not_elem_of_cons. tauto.
Qed.

Lemma filter_not_nil {V} (m : list (jsstring * V)) :
  filter (λ x, x.1 ∉ []) m = m.
Proof. apply filter_all. intros x _. apply not_elem_of_nil. Qed.

Section Extensions.
Context {V : Type} (key : V → jsstring).

Lemma add_fold (vs : list V) m l :
  ∃ new,
    foldl (add key) (m, l) vs = (m ++ new, l ++ new.*1)
    ∧ NoDup new.*1
    ∧ (∀ k, k ∈ new.*1 → k ∉ m.*1)
    ∧ Forall (λ e, key e.2 = e.1 ∧ e.2 ∈ vs) new
    ∧ (∀ v, v ∈ vs → key v ∈ (m ++ new).*1).
Proof.
  revert m l. induction vs as [|v vs IH]; intros m l.
  - exists []. rewrite !app_nil_r. repeat split; try constructor.
    + by intros k ?%elem_of_nil.
    + by intros v ?%elem_of_nil.
  - simpl. unfold add at 2. simpl.
    destruct (map_has (key v) m) eqn:Eh.
    + destruct (IH m l) as (new & E & Hn & Hd & Hf & Hv).
      exists new. repeat split; try done.
      * eapply Forall_impl; [exact Hf|]. intros e [? ?]. split; [done|].
        by right.
      * intros v' [->|Hin]%elem_of_cons; [|by apply Hv].
        rewrite fmap_app, elem_of_app. left.
        by apply string_map_has_true.
    + assert (key v ∉ m.*1) as Hk.
      { intros Hin%string_map_has_true. congruence. }
      rewrite string_map_set_new by done.
      destruct (IH (m ++ [(key v, v)]) (l ++ [key v]))
        as (new & E & Hn & Hd & Hf & Hv).
      exists ((key v, v) :: new). rewrite E.
      rewrite <- !app_assoc. simpl. repeat split.
      * apply NoDup_cons. split; [|done]. intros Hin.
        apply (Hd _ Hin). rewrite fmap_app, elem_of_app. right.
        apply list_elem_of_here.
      * intros k [->|Hin]%elem_of_cons; [done|].
        intros Hm. apply (Hd _ Hin). rewrite fmap_app, elem_of_app.
        by left.
      * apply Forall_cons. split; [split; [done|apply list_elem_of_here]|].
        eapply Forall_impl; [exact Hf|]. intros e [? ?]. split; [done|].
        by right.
      * intros v' [->|Hin]%elem_of_cons.
        -- rewrite fmap_app, elem_of_app. right. apply list_elem_of_here.
        -- specialize (Hv _ Hin). by rewrite <- app_assoc in Hv.
Qed.

Lemma Owned_add (vs : list V) m own l :
  Owned key m (own ++ l) →
  Owned key (foldl (add key) (m, l) vs).1
    (own ++ (foldl (add key) (m, l) vs).2).
Proof.
  intros [Hk He Ho Ht].
  destruct (add_fold vs m l) as (new & -> & Hn & Hd & Hf & _). simpl.
  split.
  - rewrite fmap_app. apply NoDup_app. repeat split; try done.
    intros k Hm Hin. by apply (Hd _ Hin).
  - apply Forall_app. split; [done|].
    eapply Forall_impl; [exact Hf|]. by intros e [? ?].
  - rewrite app_assoc. apply NoDup_app. repeat split; try done.
    intros k Hin Hin'. apply (Hd _ Hin'). by apply Ht.
  - intros k. rewrite app_assoc, fmap_app. intros [Hin|Hin]%elem_of_app.
    + apply elem_of_app. left. by apply Ht.
    + apply elem_of_app. by right.
Qed.

Lemma Owned_grow (vs : list V) m own :
  Owned key m own → Owned key (foldl (add key) (m, []) vs).1 own.
Proof.
  intros Ho. pose proof (Owned_add vs m own []) as [Hk He Hn Ht].
  { by rewrite app_nil_r. }
  split; try done.
  - by apply NoDup_app in Hn as [? _].
  - intros k Hin. apply Ht. apply elem_of_app. by left.
Qed.

Lemma remove_added (new m : list (jsstring * V)) :
  (∀ k, k ∈ new.*1 → k ∉ m.*1) →
  foldl (λ m k, map_delete k m) (m ++ new) new.*1 = m.
Proof.
  intros Hd. rewrite fold_delete, filter_app.
  rewrite (filter_all _ m), (filter_none _ new); [by rewrite app_nil_r| |].
  - intros e Hin Hn. apply Hn. by apply (list_elem_of_fmap_2 fst) in Hin.
  - intros e Hin Hk. apply (Hd _ Hk). by apply (list_elem_of_fmap_2 fst) in Hin.
Qed.

Lemma Owned_remove m own1 mid own2 :
  Owned key m (own1 ++ mid ++ own2) →
  Owned key (filter (λ x, x.1 ∉ mid) m) (own1 ++ own2).
Proof.
  intros [Hk He Ho Ht]. split.
  - by apply NoDup_fmap_filter.
  - apply Forall_forall. intros x [_ Hx]%list_elem_of_filter.
    by apply (proj1 (Forall_forall _ _) He).
  - apply NoDup_app in Ho as (H1 & Hd & [H2 [Hd' H3]]%NoDup_app).
    apply NoDup_app. repeat split; try done.
    intros k Hk1 Hk2. apply (Hd _ Hk1). apply elem_of_app. by right.
  - intros k Hin.
    assert (k ∈ m.*1) as Hm.
    { apply Ht. rewrite !elem_of_app. apply elem_of_app in Hin. tauto. }
    apply list_elem_of_fmap in Hm as ([k' v] & -> & Hm).
    simpl in Hin. change k' with ((k', v).1) at 1.
    apply list_elem_of_fmap_2. apply list_elem_of_filter.
    split; [|done]. simpl. intros Hmid.
    apply NoDup_app in Ho as (H1 & Hd & [H2 [Hd' H3]]%NoDup_app).
    apply elem_of_app in Hin as [Hin|Hin].
    + apply (Hd _ Hin). apply elem_of_app. by left.
    + by apply (Hd' _ Hmid).
Qed.

End Extensions.

Lemma view_trigger t s :
  view (registerHookTriggerInternal t s)
  = (frame s.1, add trigger_type (trig s) t, modes s, cmds s).
Proof.
  destruct s as [r e]. unfold registerHookTriggerInternal, add, trig. simpl.
  by destruct (map_has _ _).
Qed.

Lemma view_mode m s :
  view (registerSteeringModeInternal m s)
  = (frame s.1, trig s, add mode_name (modes s) m, cmds s).
Proof.
  destruct s as [r e]. unfold registerSteeringModeInternal, add, modes. simpl.
  by destruct (map_has _ _).
Qed.

Lemma view_command c s :
  view (registerCommandInternal c s)
  = (frame s.1, trig s, modes s, add command_id (cmds s) c).
Proof.
  destruct s as [r e]. unfold registerCommandInternal, add, cmds. simpl.
  by destruct (map_has _ _).
Qed.

Ltac by_parts E :=
  unfold view in E; unfold view;
  apply pair_equal_spec in E as [E ?];
  apply pair_equal_spec in E as [E ?];
  apply pair_equal_spec in E as [? ?];
  repeat match goal with H : _ = _ |- _ => rewrite H; clear H end;
  reflexivity.

Lemma view_calls calls s :
  view (foldl context_call s calls)
  = (frame s.1,
     foldl (add trigger_type) (trig s) (omap as_trigger calls),
     foldl (add mode_name) (modes s) (omap as_mode calls),
     foldl (add command_id) (cmds s) (omap as_command calls)).
Proof.
  revert s. induction calls as [|c calls IH]; intros s; [done|].
  simpl. rewrite IH.
  destruct c as [t|m|c]; simpl.
  - pose proof (view_trigger t s) as E. by_parts E.
  - pose proof (view_mode m s) as E. by_parts E.
  - pose proof (view_command c s) as E. by_parts E.
Qed.

Lemma view_triggers l s :
  view (each l registerHookTriggerInternal s)
  = (frame s.1, foldl (add trigger_type) (trig s) (default [] l),
     modes s, cmds s).
Proof.
  destruct l as [l|]; [|done]. simpl.
  revert s. induction l as [|t l IH]; intros s; [done|].
  simpl. rewrite IH.
  pose proof (view_trigger t s) as E. by_parts E.
Qed.

Lemma view_modes l s :
  view (each l registerSteeringModeInternal s)
  = (frame s.1, trig s, foldl (add mode_name) (modes s) (default [] l),
     cmds s).
Proof.
  destruct l as [l|]; [|done]. simpl.
  revert s. induction l as [|t l IH]; intros s; [done|].
  simpl. rewrite IH.
  pose proof (view_mode t s) as E. by_parts E.
Qed.

Lemma view_commands l s :
  view (each l registerCommandInternal s)
  = (frame s.1, trig s, modes s,
     foldl (add command_id) (cmds s) (default [] l)).
Proof.
  destruct l as [l|]; [|done]. simpl.
  revert s. induction l as [|t l IH]; intros s; [done|].
  simpl. rewrite IH.
  pose proof (view_command t s) as E. by_parts E.
Qed.

Lemma extensions_eta (e : PluginExtensions) :
  e = {| hookTriggers := hookTriggers e; steeringModes := steeringModes e;
         ext_commands := ext_commands e |}.
Proof. by destruct e. Qed.

(** What [register] does when the plugin is accepted and [activate] has
    settled. *)
Lemma register_view p r calls thrown :
  validatePlugin p = None →
  map_has (id p) (plugins r) = false →
  activate p (workspacePath r) = (calls, thrown) →
  let declared {A} (l : option (list A)) : list A :=
    match thrown with None => default [] l | Some _ => [] end in
  let T := foldl (add trigger_type) (customHookTriggers r, [])
             (omap as_trigger calls ++ declared (plugin_hookTriggers p)) in
  let M := foldl (add mode_name) (customSteeringModes r, [])
             (omap as_mode calls ++ declared (plugin_steeringModes p)) in
  let C := foldl (add command_id) (commands r, [])
             (omap as_command calls ++ declared (plugin_commands p)) in
  (register p r).2 = thrown
  ∧ contents (register p r).1
    = match thrown with
      | None =>
          (plugins r ++ [(id p, p)], set_add (id p) (activePlugins r),
           T.1, M.1, C.1,
           map_set (id p)
             {| hookTriggers := T.2; steeringModes := M.2;
                ext_commands := C.2 |} (pluginExtensions r))
      | Some _ =>
          (plugins r, activePlugins r, T.1, M.1, C.1, pluginExtensions r)
      end
  ∧ workspacePath (register p r).1 = workspacePath r
  ∧ called (register p r).1 = called r ++ [Activate (id p)].
Proof.
  intros Hv Hh Ha declared T M C. unfold register. rewrite Hv, Hh.
  cbn [workspacePath with_plugins]. rewrite Ha.
  assert (id p ∉ (plugins r).*1) as Hid.
  { intros Hin%string_map_has_true. congruence. }
  set (s0 := (call (Activate (id p))
                (with_plugins (map_set (id p) p (plugins r)) r),
              {| hookTriggers := []; steeringModes := [];
                 ext_commands := [] |})).
  pose proof (view_calls calls s0) as E1.
  set (s1 := foldl context_call s0 calls) in *.
  unfold view in E1.
  apply pair_equal_spec in E1 as [E1 Ec1].
  apply pair_equal_spec in E1 as [E1 Em1].
  apply pair_equal_spec in E1 as [Ef1 Et1].
  unfold frame in Ef1. simpl in Ef1.
  apply pair_equal_spec in Ef1 as [Ef1 Hcalled].
  apply pair_equal_spec in Ef1 as [Ef1 Hws].
  apply pair_equal_spec in Ef1 as [Ef1 Hpe].
  apply pair_equal_spec in Ef1 as [Hpl Hact].
  destruct thrown as [e|].
  - simpl. split; [done|]. split; [|by split].
    unfold contents. simpl. rewrite Hpl, Hact, Hpe.
    rewrite string_map_set_new by done.
    rewrite string_map_delete_absent_last by done.
    subst T M C. unfold declared. rewrite !app_nil_r.
    unfold trig in Et1. unfold modes in Em1. unfold cmds in Ec1.
    apply (f_equal fst) in Et1, Em1, Ec1. simpl in Et1, Em1, Ec1.
    by rewrite Et1, Em1, Ec1.
  - set (s2 := (with_activePlugins (set_add (id p) (activePlugins s1.1)) s1.1,
                s1.2)).
    pose proof (view_triggers (plugin_hookTriggers p) s2) as E3.
    set (s3 := each (plugin_hookTriggers p) registerHookTriggerInternal s2)
      in *.
    pose proof (view_modes (plugin_steeringModes p) s3) as E4.
    set (s4 := each (plugin_steeringModes p) registerSteeringModeInternal s3)
      in *.
    pose proof (view_commands (plugin_commands p) s4) as E5.
    set (s5 := each (plugin_commands p) registerCommandInternal s4) in *.
    unfold view in E3, E4, E5.
    apply pair_equal_spec in E3 as [E3 Ec3].
    apply pair_equal_spec in E3 as [E3 Em3].
    apply pair_equal_spec in E3 as [Ef3 Et3].
    apply pair_equal_spec in E4 as [E4 Ec4].
    apply pair_equal_spec in E4 as [E4 Em4].
    apply pair_equal_spec in E4 as [Ef4 Et4].
    apply pair_equal_spec in E5 as [E5 Ec5].
    apply pair_equal_spec in E5 as [E5 Em5].
    apply pair_equal_spec in E5 as [Ef5 Et5].
    assert (frame s5.1
            = (plugins r ++ [(id p, p)], set_add (id p) (activePlugins r),
               pluginExtensions r, workspacePath r,
               called r ++ [Activate (id p)])) as Ef.
    { rewrite Ef5, Ef4, Ef3. unfold frame, s2. simpl.
      rewrite Hpl, Hact, Hpe, Hws, Hcalled.
      by rewrite string_map_set_new. }
    assert (trig s5 = T) as Et.
    { rewrite Et5, Et4, Et3. subst T. unfold declared. rewrite foldl_app.
      f_equal. exact Et1. }
    assert (modes s5 = M) as Em.
    { rewrite Em5, Em4. subst M. unfold declared. rewrite foldl_app.
      f_equal. rewrite Em3. exact Em1. }
    assert (cmds s5 = C) as Ec.
    { rewrite Ec5. subst C. unfold declared. rewrite foldl_app.
      f_equal. rewrite Ec4, Ec3. exact Ec1. }
    clearbody s5. clear -Ef Et Em Ec.
    unfold frame in Ef.
    apply pair_equal_spec in Ef as [Ef Hcalled].
    apply pair_equal_spec in Ef as [Ef Hws].
    apply pair_equal_spec in Ef as [Ef Hpe].
    apply pair_equal_spec in Ef as [Hpl Hact].
    simpl. split; [done|]. split; [|by split].
    unfold contents. simpl. rewrite Hpl, Hact, Hpe.
    rewrite (extensions_eta s5.2).
    unfold trig in Et. unfold modes in Em. unfold cmds in Ec.
    rewrite <- Et, <- Em, <- Ec. done.
Qed.

Lemma unregister_view i p r :
  map_get i (plugins r) = Some p →
  let e := default {| hookTriggers := []; steeringModes := [];
                      ext_commands := [] |}
             (map_get i (pluginExtensions r)) in
  (unregister i r).2 = None
  ∧ contents (unregister i r).1
    = (map_delete i (plugins r),
       filter (λ p, p ≠ i) (activePlugins r),
       filter (λ x, x.1 ∉ hookTriggers e) (customHookTriggers r),
       filter (λ x, x.1 ∉ steeringModes e) (customSteeringModes r),
       filter (λ x, x.1 ∉ ext_commands e) (commands r),
       map_delete i (pluginExtensions r))
  ∧ workspacePath (unregister i r).1 = workspacePath r
  ∧ called (unregister i r).1
    = called r ++ (if bool_decide (i ∈ activePlugins r) then [Deactivate i]
                   else []).
Proof.
  intros Hp e. unfold unregister. rewrite Hp.
  set (r1 := if bool_decide (i ∈ activePlugins r) then _ else r).
  assert (plugins r1 = plugins r
          ∧ activePlugins r1 = filter (λ p, p ≠ i) (activePlugins r)
          ∧ customHookTriggers r1 = customHookTriggers r
          ∧ customSteeringModes r1 = customSteeringModes r
          ∧ commands r1 = commands r
          ∧ pluginExtensions r1 = pluginExtensions r
          ∧ workspacePath r1 = workspacePath r
          ∧ called r1
            = called r ++ (if bool_decide (i ∈ activePlugins r)
                           then [Deactivate i] else []))
    as (Hpl & Hact & Ht & Hm & Hc & Hpe & Hws & Hcalled).
  { subst r1. case_bool_decide as Hin.
    - by destruct (deactivate p).
    - rewrite app_nil_r. repeat split; try done.
      symmetry. apply filter_all. by intros x Hx ->. }
  clearbody r1. split; [done|].
  unfold removePluginExtensions. rewrite Hpe.
  subst e. destruct (map_get i (pluginExtensions r)) as [e|].
  - unfold contents. simpl. rewrite !fold_delete.
    by rewrite Hpl, Hact, Ht, Hm, Hc, Hpe, Hws, Hcalled.
  - unfold contents. cbn [default hookTriggers steeringModes ext_commands].
    rewrite !filter_not_nil. simpl.
    by rewrite Hpl, Hact, Ht, Hm, Hc, Hpe, Hws, Hcalled.
Qed.

Lemma string_map_split {V} k (v : V) m :
  map_get k m = Some v →
  ∃ l1 l2, m = l1 ++ (k, v) :: l2 ∧ k ∉ l1.*1.
Proof.
  induction m as [|[k0 v0] m IH]; [done|]. simpl.
  case_bool_decide as E.
  - intros [= ->]. subst. exists [], m. split; [done|]. apply not_elem_of_nil.
  - intros (l1 & l2 & -> & Hk)%IH. exists ((k0, v0) :: l1), l2.
    split; [done|]. rewrite fmap_cons. by apply not_elem_of_cons.
Qed.

Lemma keys_map_delete {V} k (m : list (jsstring * V)) :
  (map_delete k m).*1 = filter (λ x, x ≠ k) m.*1.
Proof.
  unfold map_delete. induction m as [|[k0 v0] m IH]; [done|].
  rewrite fmap_cons, !filter_cons. simpl.
  destruct (decide (k0 ≠ k)); by rewrite ?fmap_cons, IH.
Qed.

Lemma Sound_new ws : Sound (new_registry ws).
Proof.
  split; simpl; try done; try apply NoDup_nil_2;
    split; simpl; try done; try apply NoDup_nil_2;
    by intros k ?%elem_of_nil.
Qed.

Lemma Sound_log e r : Sound r → Sound (log e r).
Proof. by intros []. Qed.

Ltac fields H :=
  unfold contents in H;
  apply pair_equal_spec in H as [H ?Hpe];
  apply pair_equal_spec in H as [H ?Hc];
  apply pair_equal_spec in H as [H ?Hm];
  apply pair_equal_spec in H as [H ?Ht];
  apply pair_equal_spec in H as [?Hpl ?Hact].

Lemma owned_snoc kind r i e :
  (pluginExtensions r ++ [(i, e)]).*2 ≫= kind = owned kind r ++ kind e.
Proof.
  unfold owned. rewrite fmap_app, bind_app. simpl. by rewrite app_nil_r.
Qed.

Lemma Sound_register p r : Sound r → Sound (register p r).1.
Proof.
  intros Hs. destruct (validatePlugin p) eqn:Hv.
  { unfold register. by rewrite Hv. }
  destruct (map_has (id p) (plugins r)) eqn:Hh.
  { unfold register. by rewrite Hv, Hh. }
  destruct (activate p (workspacePath r)) as [calls thrown] eqn:Ha.
  destruct (register_view p r calls thrown Hv Hh Ha) as (_ & E & _).
  assert (id p ∉ (plugins r).*1) as Hid.
  { intros Hin%string_map_has_true. congruence. }
  destruct Hs as [Sa Se Si Sp St Sm Sc].
  destruct thrown as [e|]; fields E.
  - split; rewrite ?Hpl, ?Hact, ?Ht, ?Hm, ?Hc; unfold owned; rewrite ?Hpe;
      try done; by apply Owned_grow.
  - rewrite string_map_set_new in Hpe by (by rewrite Se).
    split; rewrite ?Hpl, ?Hact, ?Ht, ?Hm, ?Hc; unfold owned; rewrite ?Hpe.
    + rewrite Sa, fmap_app. unfold set_add.
      by rewrite bool_decide_eq_false_2.
    + by rewrite !fmap_app, Se.
    + rewrite fmap_app. apply NoDup_app. repeat split; try done.
      * intros k Hk ->%list_elem_of_singleton. done.
      * apply NoDup_singleton.
    + apply Forall_app. split; [done|]. by repeat constructor.
    + rewrite owned_snoc. simpl. apply Owned_add. by rewrite app_nil_r.
    + rewrite owned_snoc. simpl. apply Owned_add. by rewrite app_nil_r.
    + rewrite owned_snoc. simpl. apply Owned_add. by rewrite app_nil_r.
Qed.

Lemma owned_split kind r i e l1 l2 :
  pluginExtensions r = l1 ++ (i, e) :: l2 →
  owned kind r = (l1.*2 ≫= kind) ++ kind e ++ (l2.*2 ≫= kind).
Proof.
  intros E. unfold owned. rewrite E.
  by rewrite fmap_app, bind_app, fmap_cons, bind_cons.
Qed.

Lemma Sound_unregister i r : Sound r → Sound (unregister i r).1.
Proof.
  intros Hs. destruct (map_get i (plugins r)) as [p|] eqn:Hp.
  2: { unfold unregister. by rewrite Hp. }
  destruct (unregister_view i p r Hp) as (_ & E & _).
  destruct Hs as [Sa Se Si Sp St Sm Sc].
  assert (is_Some (map_get i (pluginExtensions r))) as [e He].
  { apply string_map_get_Some. rewrite Se. apply string_map_get_Some.
    by eexists. }
  rewrite He in E. simpl in E.
  destruct (string_map_split _ _ _ He) as (l1 & l2 & Hsplit & Hl1).
  assert (i ∉ l2.*1) as Hl2.
  { rewrite <- Se, Hsplit, fmap_app, fmap_cons in Si.
    apply NoDup_app in Si as (_ & _ & Si). by apply NoDup_cons in Si as [? _]. }
  assert (map_delete i (pluginExtensions r) = l1 ++ l2) as Hdel.
  { rewrite Hsplit. unfold map_delete. rewrite filter_app, filter_cons_False.
    - fold (map_delete i l1). fold (map_delete i l2).
      by rewrite !string_map_delete_absent.
    - simpl. by intros ?. }
  fields E.
  split; rewrite ?Hpl, ?Hact, ?Ht, ?Hm, ?Hc; unfold owned; rewrite ?Hpe, ?Hdel.
  - by rewrite keys_map_delete, Sa.
  - rewrite <- Hdel. by rewrite !keys_map_delete, Se.
  - rewrite keys_map_delete. by apply NoDup_filter.
  - apply Forall_forall. intros x [_ Hx]%list_elem_of_filter.
    by apply (proj1 (Forall_forall _ _) Sp).
  - rewrite fmap_app, bind_app. apply Owned_remove.
    by rewrite <- (owned_split hookTriggers r i e).
  - rewrite fmap_app, bind_app. apply Owned_remove.
    by rewrite <- (owned_split steeringModes r i e).
  - rewrite fmap_app, bind_app. apply Owned_remove.
    by rewrite <- (owned_split ext_commands r i e).
Qed.

Lemma registerAll_snoc ps p r :
  registerAll (ps ++ [p]) r
  = (let r1 := (registerAll ps r).1 in
     let results := (registerAll ps r).2 in
     match (register p r1).2 with
     | None =>
         ((register p r1).1,
          results ++ [{| pluginId := id p; success := true;
                         error := None |}])
     | Some error =>
         (log (log_error (str "Failed to register plugin '" ++ id p
                          ++ str "'") error) (register p r1).1,
          results ++ [{| pluginId := id p; success := false;
                         error := Some error |}])
     end).
Proof.
  unfold registerAll. rewrite foldl_app. simpl.
  destruct (foldl _ _ ps) as [r1 results]. simpl.
  by destruct (register p r1) as [r2 [e|]].
Qed.

(** What [register] and [unregister] keep, [registerAll] and every
    sequence of calls keep. *)
Lemma kept_by_registerAll (P : Registry → Prop) :
  (∀ e r, P r → P (log e r)) →
  (∀ p r, P r → P (register p r).1) →
  ∀ ps r, P r → P (registerAll ps r).1.
Proof.
  intros Hl Hr ps r Hp. induction ps as [|p ps IH] using rev_ind; [done|].
  rewrite registerAll_snoc. simpl.
  destruct (register p (registerAll ps r).1).2 eqn:E; simpl.
  - by apply Hl, Hr.
  - by apply Hr.
Qed.

Lemma kept_by_step (P : Registry → Prop) :
  (∀ e r, P r → P (log e r)) →
  (∀ p r, P r → P (register p r).1) →
  (∀ i r, P r → P (unregister i r).1) →
  ∀ r op, P r → P (step r op).
Proof.
  intros Hl Hr Hu r [p|ps|i] Hp; simpl.
  - by apply Hr.
  - by apply kept_by_registerAll.
  - by apply Hu.
Qed.

Lemma Sound_step r op : Sound r → Sound (step r op).
Proof.
  apply kept_by_step.
  - apply Sound_log.
  - apply Sound_register.
  - apply Sound_unregister.
Qed.

Lemma Sound_steps r ops : Sound r → Sound (foldl step r ops).
Proof.
  revert r. induction ops as [|op ops IH]; intros r Hs; [done|].
  simpl. by apply IH, Sound_step.
Qed.

Lemma Sound_run ws ops : Sound (run ws ops).
Proof. apply Sound_steps, Sound_new. Qed.

Lemma Owned_lookup {V} (key : V → jsstring) m own :
  Owned key m own → ∀ v, v ∈ m.*2 ↔ map_get (key v) m = Some v.
Proof.
  intros [Hk He _ _] v. split.
  - intros ([k v'] & -> & Hin)%list_elem_of_fmap. simpl.
    pose proof (proj1 (Forall_forall _ _) He _ Hin) as E. simpl in E.
    rewrite E. by apply string_map_get_NoDup.
  - intros Hg%string_map_get_elem.
    by apply (list_elem_of_fmap_2 snd) in Hg.
Qed.

Lemma filter_added {V} (new m : list (jsstring * V)) :
  (∀ k, k ∈ new.*1 → k ∉ m.*1) →
  filter (λ x, x.1 ∉ new.*1) (m ++ new) = m.
Proof. intros Hd. rewrite <- fold_delete. by apply remove_added. Qed.

Lemma register_returns p r :
  (register p r).2 = None →
  validatePlugin p = None ∧ map_has (id p) (plugins r) = false
  ∧ ∃ calls, activate p (workspacePath r) = (calls, None).
Proof.
  intros Hr. destruct (validatePlugin p) eqn:Hv.
  { unfold register in Hr. by rewrite Hv in Hr. }
  destruct (map_has (id p) (plugins r)) eqn:Hh.
  { unfold register in Hr. by rewrite Hv, Hh in Hr. }
  destruct (activate p (workspacePath r)) as [calls thrown] eqn:Ha.
  destruct (register_view p r calls thrown Hv Hh Ha) as (E & _).
  rewrite Hr in E. subst thrown. eauto.
Qed.

Lemma workspacePath_register p r :
  workspacePath (register p r).1 = workspacePath r.
Proof.
  destruct (validatePlugin p) eqn:Hv.
  { unfold register. by rewrite Hv. }
  destruct (map_has (id p) (plugins r)) eqn:Hh.
  { unfold register. by rewrite Hv, Hh. }
  destruct (activate p (workspacePath r)) as [calls thrown] eqn:Ha.
  by destruct (register_view p r calls thrown Hv Hh Ha) as (_ & _ & E & _).
Qed.

Lemma workspacePath_unregister i r :
  workspacePath (unregister i r).1 = workspacePath r.
Proof.
  destruct (map_get i (plugins r)) as [p|] eqn:Hp.
  - by destruct (unregister_view i p r Hp) as (_ & _ & E & _).
  - unfold unregister. by rewrite Hp.
Qed.

Lemma workspacePath_steps ws r ops :
  workspacePath r = ws → workspacePath (foldl step r ops) = ws.
Proof.
  revert r. induction ops as [|op ops IH]; intros r Hr; [done|].
  simpl. apply IH. revert Hr. apply (kept_by_step (λ r, workspacePath r = ws)).
  - done.
  - intros p r0 <-. apply workspacePath_register.
  - intros i r0 <-. apply workspacePath_unregister.
Qed.

(** The registry is consistent.  After any calls of [register],
    [registerAll] and [unregister] on a new registry, a plugin is active
    exactly if it is registered; a plugin is registered under its own id
    and passes validation; no two registered plugins share an id; and each
    listed hook trigger, steering mode and command is the one that is
    found under its own key. *)
Theorem registered_plugins_are_active (ws : jsstring) (ops : list Op) :
  let r := run ws ops in
  (∀ i, isPluginActive i r = bool_decide (is_Some (getPlugin i r)))
  ∧ (∀ i p, getPlugin i r = Some p → id p = i ∧ validatePlugin p = None)
  ∧ NoDup (id <$> getPlugins r)
  ∧ (∀ t, t ∈ getCustomHookTriggers r
          ↔ getCustomHookTrigger (trigger_type t) r = Some t)
  ∧ (∀ m, m ∈ getCustomSteeringModes r
          ↔ getCustomSteeringMode (mode_name m) r = Some m)
  ∧ (∀ c, c ∈ getCommands r ↔ getCommand (command_id c) r = Some c).
Proof.
  intros r. destruct (Sound_run ws ops) as [Sa Se Si Sp St Sm Sc].
  fold r in Sa, Se, Si, Sp, St, Sm, Sc.
  split; [|split; [|split; [|split; [|split]]]].
  - intros i. unfold isPluginActive, getPlugin. rewrite Sa.
    apply bool_decide_ext. by rewrite string_map_get_Some.
  - intros i p Hg%string_map_get_elem.
    apply (proj1 (Forall_forall _ _) Sp _ Hg).
  - unfold getPlugins. rewrite <- list_fmap_compose.
    erewrite list_fmap_ext; [exact Si|].
    intros k x Hx%list_elem_of_lookup_2. simpl.
    apply (proj1 (Forall_forall _ _) Sp _ Hx).
  - by apply Owned_lookup with (own := owned hookTriggers r).
  - by apply Owned_lookup with (own := owned steeringModes r).
  - by apply Owned_lookup with (own := owned ext_commands r).
Qed.

(** Unregistering undoes a registration.  When [register] returns for a
    plugin, the plugin is registered and active; [unregister] of its id
    then returns, whether [deactivate] throws or not, and the registry
    holds again what it held before the registration: the plugins, the
    active ones, the hook triggers, steering modes and commands, and the
    extensions recorded for each plugin.  [activate] and [deactivate] have
    been called once each. *)
Theorem unregister_undoes_register (ws : jsstring) (ops : list Op)
    (p : Plugin) :
  let r := run ws ops in
  (register p r).2 = None →
  let r1 := (register p r).1 in
  getPlugin (id p) r1 = Some p
  ∧ isPluginActive (id p) r1 = true
  ∧ (unregister (id p) r1).2 = None
  ∧ contents (unregister (id p) r1).1 = contents r
  ∧ called (unregister (id p) r1).1
    = called r ++ [Activate (id p); Deactivate (id p)].
Proof.
  intros r Hr r1.
  destruct (register_returns p r Hr) as (Hv & Hh & calls & Ha).
  destruct (register_view p r calls None Hv Hh Ha) as (_ & E & _ & Hcalled).
  fold r1 in E, Hcalled. cbv zeta in E.
  destruct (Sound_run ws ops) as [Sa Se Si _ _ _ _].
  fold r in Sa, Se, Si.
  assert (id p ∉ (plugins r).*1) as Hid.
  { intros Hin%string_map_has_true. congruence. }
  rewrite (string_map_set_new (id p)) in E by (by rewrite Se).
  destruct (add_fold trigger_type
              (omap as_trigger calls ++ default [] (plugin_hookTriggers p))
              (customHookTriggers r) []) as (nt & Et & _ & Hdt & _).
  destruct (add_fold mode_name
              (omap as_mode calls ++ default [] (plugin_steeringModes p))
              (customSteeringModes r) []) as (nm & Em & _ & Hdm & _).
  destruct (add_fold command_id
              (omap as_command calls ++ default [] (plugin_commands p))
              (commands r) []) as (nc & Ec & _ & Hdc & _).
  rewrite Et, Em, Ec in E. simpl in E. fields E.
  assert (getPlugin (id p) r1 = Some p) as Hg.
  { unfold getPlugin. rewrite Hpl, string_map_get_app.
    rewrite string_map_get_absent by done. simpl.
    by rewrite bool_decide_eq_true_2. }
  assert (id p ∈ activePlugins r1) as Hin.
  { rewrite Hact. apply elem_of_set_add. by right. }
  destruct (unregister_view (id p) p r1 Hg) as (Hu & E' & _ & Hcalled').
  split; [done|]. split; [by apply bool_decide_eq_true_2|].
  split; [done|]. split.
  - rewrite E'. unfold contents.
    rewrite Hpl, Hact, Ht, Hm, Hc, Hpe.
    rewrite string_map_get_app, string_map_get_absent by (by rewrite Se).
    simpl. rewrite bool_decide_eq_true_2 by done. simpl.
    rewrite !filter_added by done.
    rewrite !string_map_delete_absent_last by (done || by rewrite Se).
    unfold set_add. rewrite bool_decide_eq_false_2 by (by rewrite Sa).
    rewrite filter_app, filter_cons_False, filter_nil, app_nil_r
      by (by intros ?).
    rewrite filter_all; [done|]. intros x Hx ->. apply Hid. by rewrite <- Sa.
  - rewrite Hcalled', Hcalled, bool_decide_eq_true_2 by done.
    by rewrite <- app_assoc.
Qed.

Section Strays.
Context {V : Type} (key : V → jsstring).

Lemma added_found (vs : list V) m v :
  NoDup m.*1 → v ∈ vs → key v ∉ m.*1 →
  ∃ v', v' ∈ vs ∧ key v' = key v
        ∧ map_get (key v) (foldl (add key) (m, []) vs).1 = Some v'.
Proof.
  intros Hm Hv Hk.
  destruct (add_fold key vs m []) as (new & -> & Hn & Hd & Hf & Hin).
  simpl. specialize (Hin _ Hv). rewrite fmap_app, elem_of_app in Hin.
  destruct Hin as [Hin|Hin]; [done|].
  apply list_elem_of_fmap in Hin as ([k v'] & E & Hin). simpl in E. subst k.
  pose proof (proj1 (Forall_forall _ _) Hf _ Hin) as [E Hv']. simpl in E, Hv'.
  exists v'. split; [done|]. split; [done|].
  rewrite string_map_get_app, string_map_get_absent by done.
  by apply string_map_get_NoDup.
Qed.

Lemma stray_added (kind : PluginExtensions → list jsstring)
    (vs : list V) m m' (pe pe' : list (jsstring * PluginExtensions))
    i e k v :
  m' = (foldl (add key) (m, []) vs).1 →
  pe' = pe
  ∨ pe' = pe ++ [(i, e)] ∧ kind e = (foldl (add key) (m, []) vs).2 →
  map_get k m = Some v → k ∉ pe.*2 ≫= kind →
  map_get k m' = Some v ∧ k ∉ pe'.*2 ≫= kind.
Proof.
  intros -> Hpe Hg Ho.
  destruct (add_fold key vs m []) as (new & E & _ & Hd & _). rewrite E in *.
  simpl in *. split.
  - by rewrite string_map_get_app, Hg.
  - destruct Hpe as [->|[-> Hk]]; [done|].
    rewrite fmap_app, bind_app. simpl. rewrite app_nil_r, Hk.
    intros [Hin|Hin]%elem_of_app; [done|].
    apply (Hd _ Hin). apply string_map_get_Some. by eexists.
Qed.

Lemma stray_spared (kind : PluginExtensions → list jsstring)
    (m m' : list (jsstring * V)) (pe : list (jsstring * PluginExtensions))
    i e k v :
  map_get i pe = Some e →
  m' = filter (λ x, x.1 ∉ kind e) m →
  map_get k m = Some v → k ∉ pe.*2 ≫= kind →
  map_get k m' = Some v ∧ k ∉ (map_delete i pe).*2 ≫= kind.
Proof.
  intros He -> Hg Ho. split.
  - pose proof (string_map_get_filter (λ k, k ∉ kind e) k m) as E.
    simpl in E. rewrite E. rewrite decide_True; [done|].
    intros Hin. apply Ho. apply list_elem_of_bind. exists e. split; [done|].
    apply string_map_get_elem in He.
    by apply (list_elem_of_fmap_2 snd) in He.
  - intros (e' & Hin & He')%list_elem_of_bind. apply Ho.
    apply list_elem_of_bind. exists e'. split; [done|].
    apply list_elem_of_fmap in He' as (x & -> & [_ Hx]%list_elem_of_filter).
    by apply list_elem_of_fmap_2.
Qed.

End Strays.

Lemma keeps_refl r : keeps r r.
Proof. by repeat split. Qed.

Lemma keeps_trans r1 r2 r3 : keeps r1 r2 → keeps r2 r3 → keeps r1 r3.
Proof.
  intros (Ht & Hm & Hc) (Ht' & Hm' & Hc').
  split; [|split]; intros k v Hg Ho.
  - destruct (Ht _ _ Hg Ho). by apply Ht'.
  - destruct (Hm _ _ Hg Ho). by apply Hm'.
  - destruct (Hc _ _ Hg Ho). by apply Hc'.
Qed.

Lemma keeps_register p r : Sound r → keeps r (register p r).1.
Proof.
  intros Hs. destruct (validatePlugin p) eqn:Hv.
  { unfold register. rewrite Hv. apply keeps_refl. }
  destruct (map_has (id p) (plugins r)) eqn:Hh.
  { unfold register. rewrite Hv, Hh. apply keeps_refl. }
  destruct (activate p (workspacePath r)) as [calls thrown] eqn:Ha.
  destruct (register_view p r calls thrown Hv Hh Ha) as (_ & E & _).
  assert (id p ∉ (pluginExtensions r).*1) as Hid.
  { rewrite (Sound_extensions _ Hs). intros Hin%string_map_has_true.
    congruence. }
  destruct thrown as [e|]; fields E.
  - split; [|split]; intros k v Hg Ho; unfold owned; rewrite Hpe.
    + eapply (stray_added trigger_type hookTriggers _ _ _ _ _ (id p)
                {| hookTriggers := []; steeringModes := [];
                   ext_commands := [] |}); [exact Ht|left; reflexivity|exact Hg|exact Ho].
    + eapply (stray_added mode_name steeringModes _ _ _ _ _ (id p)
                {| hookTriggers := []; steeringModes := [];
                   ext_commands := [] |}); [exact Hm|left; reflexivity|exact Hg|exact Ho].
    + eapply (stray_added command_id ext_commands _ _ _ _ _ (id p)
                {| hookTriggers := []; steeringModes := [];
                   ext_commands := [] |}); [exact Hc|left; reflexivity|exact Hg|exact Ho].
  - rewrite string_map_set_new in Hpe by done.
    split; [|split]; intros k v Hg Ho; unfold owned.
    + eapply (stray_added trigger_type hookTriggers);
        [exact Ht|right; split; [exact Hpe|done]|exact Hg|exact Ho].
    + eapply (stray_added mode_name steeringModes);
        [exact Hm|right; split; [exact Hpe|done]|exact Hg|exact Ho].
    + eapply (stray_added command_id ext_commands);
        [exact Hc|right; split; [exact Hpe|done]|exact Hg|exact Ho].
Qed.

Lemma keeps_unregister i r : Sound r → keeps r (unregister i r).1.
Proof.
  intros Hs. destruct (map_get i (plugins r)) as [p|] eqn:Hp.
  2: { unfold unregister. rewrite Hp. apply keeps_refl. }
  destruct (unregister_view i p r Hp) as (_ & E & _).
  assert (is_Some (map_get i (pluginExtensions r))) as [e He].
  { apply string_map_get_Some. rewrite (Sound_extensions _ Hs).
    apply string_map_get_Some. by eexists. }
  rewrite He in E. simpl in E. fields E.
  split; [|split]; intros k v Hg Ho; unfold owned; rewrite Hpe.
  - eapply (stray_spared hookTriggers); [exact He|done|exact Hg|exact Ho].
  - eapply (stray_spared steeringModes); [exact He|done|exact Hg|exact Ho].
  - eapply (stray_spared ext_commands); [exact He|done|exact Hg|exact Ho].
Qed.

Lemma keeps_step r op : Sound r → keeps r (step r op).
Proof.
  intros Hs.
  apply (kept_by_step (λ r', Sound r' ∧ keeps r r')); [| | |by split; [|apply keeps_refl]].
  - intros e r' [Hs' Hk]. split; [by apply Sound_log|]. exact Hk.
  - intros p r' [Hs' Hk]. split; [by apply Sound_register|].
    eapply keeps_trans; [exact Hk|]. by apply keeps_register.
  - intros j r' [Hs' Hk]. split; [by apply Sound_unregister|].
    eapply keeps_trans; [exact Hk|]. by apply keeps_unregister.
Qed.

Lemma keeps_steps r ops : Sound r → keeps r (foldl step r ops).
Proof.
  revert r. induction ops as [|op ops IH]; intros r Hs; [apply keeps_refl|].
  simpl. eapply keeps_trans; [by apply keeps_step|].
  by apply IH, Sound_step.
Qed.

Lemma register_invalid p r e :
  validatePlugin p = Some e → register p r = (r, Some e).
Proof. intros Hv. unfold register. by rewrite Hv. Qed.

Lemma register_duplicate p r :
  validatePlugin p = None → is_Some (getPlugin (id p) r) →
  register p r
  = (r, Some (str "Plugin '" ++ id p ++ str "' is already registered")).
Proof.
  intros Hv Hg. unfold register. rewrite Hv.
  unfold map_has. by rewrite bool_decide_eq_true_2.
Qed.

Lemma register_keeps p r i q :
  getPlugin i r = Some q → getPlugin i (register p r).1 = Some q.
Proof.
  intros Hg. destruct (validatePlugin p) eqn:Hv.
  { by rewrite (register_invalid _ _ _ Hv). }
  destruct (map_has (id p) (plugins r)) eqn:Hh.
  { unfold register. by rewrite Hv, Hh. }
  destruct (activate p (workspacePath r)) as [calls thrown] eqn:Ha.
  destruct (register_view p r calls thrown Hv Hh Ha) as (_ & E & _).
  unfold getPlugin in *. destruct thrown as [e|]; fields E; rewrite Hpl.
  - done.
  - by rewrite string_map_get_app, Hg.
Qed.

Lemma register_registers p r :
  (register p r).2 = None → getPlugin (id p) (register p r).1 = Some p.
Proof.
  intros Hr. destruct (register_returns p r Hr) as (Hv & Hh & calls & Ha).
  destruct (register_view p r calls None Hv Hh Ha) as (_ & E & _).
  fields E. unfold getPlugin. rewrite Hpl, string_map_get_app.
  rewrite string_map_get_absent.
  - simpl. by rewrite bool_decide_eq_true_2.
  - intros Hin%string_map_has_true. congruence.
Qed.

Lemma registerAll_keeps ps r i q :
  getPlugin i r = Some q → getPlugin i (registerAll ps r).1 = Some q.
Proof.
  intros Hg. revert Hg.
  apply (kept_by_registerAll (λ r, getPlugin i r = Some q)); [done|].
  intros p r0. apply register_keeps.
Qed.


(** An activation that fails leaves its extensions behind.  When
    [activate] throws, [register] throws the same and the plugin is not
    registered, so that [unregister] of its id throws.  But a hook
    trigger, steering mode or command that [activate] had registered
    through its context, under a key that was free, stays registered
    whatever is registered or unregistered afterwards. *)
Theorem failed_activation_leaves_extensions (ws : jsstring)
    (before : list Op) (p : Plugin) (e : Exn) :
  let r := run ws before in
  validatePlugin p = None →
  getPlugin (id p) r = None →
  (activate p ws).2 = Some e →
  let r1 := (register p r).1 in
  (register p r).2 = Some e
  ∧ getPlugins r1 = getPlugins r
  ∧ (unregister (id p) r1).2
    = Some (str "Plugin '" ++ id p ++ str "' is not registered")
  ∧ (∀ t, RegisterHookTrigger t ∈ (activate p ws).1 →
          getCustomHookTrigger (trigger_type t) r = None →
          ∃ t', RegisterHookTrigger t' ∈ (activate p ws).1
                ∧ trigger_type t' = trigger_type t
                ∧ ∀ after,
                    getCustomHookTrigger (trigger_type t)
                      (foldl step r1 after) = Some t')
  ∧ (∀ m, RegisterSteeringMode m ∈ (activate p ws).1 →
          getCustomSteeringMode (mode_name m) r = None →
          ∃ m', RegisterSteeringMode m' ∈ (activate p ws).1
                ∧ mode_name m' = mode_name m
                ∧ ∀ after,
                    getCustomSteeringMode (mode_name m)
                      (foldl step r1 after) = Some m')
  ∧ (∀ c, RegisterCommand c ∈ (activate p ws).1 →
          getCommand (command_id c) r = None →
          ∃ c', RegisterCommand c' ∈ (activate p ws).1
                ∧ command_id c' = command_id c
                ∧ ∀ after,
                    getCommand (command_id c) (foldl step r1 after)
                    = Some c').
Proof.
  intros r Hv Hg He r1.
  assert (workspacePath r = ws) as Hws by (by apply workspacePath_steps).
  destruct (activate p ws) as [calls thrown] eqn:Ha. simpl in He.
  subst thrown. rewrite <- Hws in Ha.
  assert (map_has (id p) (plugins r) = false) as Hh.
  { unfold map_has. apply bool_decide_eq_false_2. unfold getPlugin in Hg.
    rewrite Hg. by intros [? ?]. }
  destruct (register_view p r calls (Some e) Hv Hh Ha) as (Hr & E & _).
  fold r1 in E. cbv zeta in E. rewrite !app_nil_r in E. fields E.
  pose proof (Sound_run ws before) as Hs. fold r in Hs.
  assert (Sound r1) as Hs1 by (by apply Sound_register).
  split; [done|]. split; [unfold getPlugins; by rewrite Hpl|]. split.
  { unfold unregister. rewrite Hpl. unfold getPlugin in Hg. by rewrite Hg. }
  simpl. split; [|split].
  - intros t Hin Hfree.
    destruct (added_found trigger_type (omap as_trigger calls)
                (customHookTriggers r) t) as (t' & Hin' & Hk & Hget).
    + apply Hs.
    + apply list_elem_of_omap. by exists (RegisterHookTrigger t).
    + intros Hk%string_map_get_Some. unfold getCustomHookTrigger in Hfree.
      rewrite Hfree in Hk. by destruct Hk.
    + exists t'. split; [|split; [done|]].
      { apply list_elem_of_omap in Hin' as ([] & ? & [= ->]). done. }
      intros after.
      destruct (keeps_steps r1 after Hs1) as (Hkeep & _ & _).
      apply Hkeep; [by rewrite Ht|].
      unfold owned. rewrite Hpe. intros Ho.
      apply (Owned_there _ _ _ (Sound_triggers _ Hs)) in Ho.
      apply string_map_get_Some in Ho. unfold getCustomHookTrigger in Hfree.
      rewrite Hfree in Ho. by destruct Ho.
  - intros t Hin Hfree.
    destruct (added_found mode_name (omap as_mode calls)
                (customSteeringModes r) t) as (t' & Hin' & Hk & Hget).
    + apply Hs.
    + apply list_elem_of_omap. by exists (RegisterSteeringMode t).
    + intros Hk%string_map_get_Some. unfold getCustomSteeringMode in Hfree.
      rewrite Hfree in Hk. by destruct Hk.
    + exists t'. split; [|split; [done|]].
      { apply list_elem_of_omap in Hin' as ([] & ? & [= ->]). done. }
      intros after.
      destruct (keeps_steps r1 after Hs1) as (_ & Hkeep & _).
      apply Hkeep; [by rewrite Hm|].
      unfold owned. rewrite Hpe. intros Ho.
      apply (Owned_there _ _ _ (Sound_modes _ Hs)) in Ho.
      apply string_map_get_Some in Ho. unfold getCustomSteeringMode in Hfree.
      rewrite Hfree in Ho. by destruct Ho.
  - intros t Hin Hfree.
    destruct (added_found command_id (omap as_command calls)
                (commands r) t) as (t' & Hin' & Hk & Hget).
    + apply Hs.
    + apply list_elem_of_omap. by exists (RegisterCommand t).
    + intros Hk%string_map_get_Some. unfold getCommand in Hfree.
      rewrite Hfree in Hk. by destruct Hk.
    + exists t'. split; [|split; [done|]].
      { apply list_elem_of_omap in Hin' as ([] & ? & [= ->]). done. }
      intros after.
      destruct (keeps_steps r1 after Hs1) as (_ & _ & Hkeep).
      apply Hkeep; [by rewrite Hc|].
      unfold owned. rewrite Hpe. intros Ho.
      apply (Owned_there _ _ _ (Sound_commands _ Hs)) in Ho.
      apply string_map_get_Some in Ho. unfold getCommand in Hfree.
      rewrite Hfree in Ho. by destruct Ho.
Qed.

Lemma owned_disjoint (kind : PluginExtensions → list jsstring)
    (pe : list (jsstring * PluginExtensions)) i j e e' :
  NoDup (pe.*2 ≫= kind) →
  map_get i pe = Some e → map_get j pe = Some e' → j ≠ i →
  ∀ k, k ∈ kind e' → k ∉ kind e.
Proof.
  intros Hn Hi Hj Hne k Hk' Hk.
  destruct (string_map_split _ _ _ Hi) as (l1 & l2 & -> & _).
  apply string_map_get_elem in Hj.
  rewrite fmap_app, bind_app, fmap_cons, bind_cons in Hn.
  apply NoDup_app in Hn as (_ & Hd1 & (_ & Hd2 & _)%NoDup_app).
  apply elem_of_app in Hj as [Hj|Hj].
  - apply (Hd1 k); [|apply elem_of_app; by left].
    apply list_elem_of_bind. exists e'. split; [done|].
    by apply (list_elem_of_fmap_2 snd) in Hj.
  - apply elem_of_cons in Hj as [[= -> ->]|Hj]; [done|].
    apply (Hd2 k); [done|].
    apply list_elem_of_bind. exists e'. split; [done|].
    by apply (list_elem_of_fmap_2 snd) in Hj.
Qed.

Lemma owned_elem (kind : PluginExtensions → list jsstring) r j e k :
  map_get j (pluginExtensions r) = Some e → k ∈ kind e → k ∈ owned kind r.
Proof.
  intros Hj%string_map_get_elem Hk. apply list_elem_of_bind.
  exists e. split; [done|]. by apply (list_elem_of_fmap_2 snd) in Hj.
Qed.

Lemma spared {V} (m : list (jsstring * V)) (mid : list jsstring) k :
  map_get k (filter (λ x, x.1 ∉ mid) m)
  = if bool_decide (k ∈ mid) then None else map_get k m.
Proof.
  pose proof (string_map_get_filter (λ k, k ∉ mid) k m) as E. simpl in E.
  rewrite E. case_bool_decide; case_decide; done.
Qed.

(** [unregister] removes what the plugin registered and nothing else.
    For a registered plugin it returns; the plugin is then neither
    registered nor active; the keys that it had registered itself are
    free, and every other key is bound as before.  Each other plugin that
    was registered is still registered and active, with the same record of
    its extensions, none of which the call has removed. *)
Theorem unregister_removes_own_extensions_only (ws : jsstring)
    (ops : list Op) (i : jsstring) :
  let r := run ws ops in
  is_Some (getPlugin i r) →
  let r' := (unregister i r).1 in
  ∃ e,
    map_get i (pluginExtensions r) = Some e
    ∧ (unregister i r).2 = None
    ∧ getPlugin i r' = None
    ∧ isPluginActive i r' = false
    ∧ (∀ k, getCustomHookTrigger k r'
            = if bool_decide (k ∈ hookTriggers e) then None
              else getCustomHookTrigger k r)
    ∧ (∀ k, getCustomSteeringMode k r'
            = if bool_decide (k ∈ steeringModes e) then None
              else getCustomSteeringMode k r)
    ∧ (∀ k, getCommand k r'
            = if bool_decide (k ∈ ext_commands e) then None
              else getCommand k r)
    ∧ (∀ j q, j ≠ i → getPlugin j r = Some q →
         getPlugin j r' = Some q
         ∧ isPluginActive j r' = true
         ∧ ∃ e', map_get j (pluginExtensions r) = Some e'
                 ∧ map_get j (pluginExtensions r') = Some e'
                 ∧ (∀ k, k ∈ hookTriggers e' →
                         is_Some (getCustomHookTrigger k r'))
                 ∧ (∀ k, k ∈ steeringModes e' →
                         is_Some (getCustomSteeringMode k r'))
                 ∧ (∀ k, k ∈ ext_commands e' →
                         is_Some (getCommand k r'))).
Proof.
  intros r [p Hp] r'. unfold getPlugin in Hp.
  destruct (unregister_view i p r Hp) as (Hu & E & _). fold r' in E.
  pose proof (Sound_run ws ops) as Hs. fold r in Hs.
  destruct Hs as [Sa Se Si Sp St Sm Sc].
  assert (is_Some (map_get i (pluginExtensions r))) as [e He].
  { apply string_map_get_Some. rewrite Se. apply string_map_get_Some.
    by eexists. }
  rewrite He in E. simpl in E. fields E.
  exists e. split; [done|]. split; [done|].
  unfold getPlugin, isPluginActive, getCustomHookTrigger,
    getCustomSteeringMode, getCommand.
  rewrite Hpl, Hact, Ht, Hm, Hc, Hpe.
  split; [by rewrite string_map_get_delete, decide_True|].
  split.
  { apply bool_decide_eq_false_2. by intros [? _]%list_elem_of_filter. }
  split; [apply spared|]. split; [apply spared|]. split; [apply spared|].
  intros j q Hne Hq.
  split; [by rewrite string_map_get_delete, decide_False|].
  split.
  { apply bool_decide_eq_true_2. apply list_elem_of_filter. split; [done|].
    rewrite Sa. apply string_map_get_Some. by eexists. }
  assert (is_Some (map_get j (pluginExtensions r))) as [e' He'].
  { apply string_map_get_Some. rewrite Se. apply string_map_get_Some.
    by eexists. }
  exists e'. split; [done|].
  split; [by rewrite string_map_get_delete, decide_False|].
  split; [|split]; intros k Hk; rewrite spared.
  - rewrite bool_decide_eq_false_2.
    + apply string_map_get_Some. apply St. by eapply owned_elem.
    + eapply (owned_disjoint hookTriggers); [apply St|exact He|exact He'|
                                             done|done].
  - rewrite bool_decide_eq_false_2.
    + apply string_map_get_Some. apply Sm. by eapply owned_elem.
    + eapply (owned_disjoint steeringModes); [apply Sm|exact He|exact He'|
                                              done|done].
  - rewrite bool_decide_eq_false_2.
    + apply string_map_get_Some. apply Sc. by eapply owned_elem.
    + eapply (owned_disjoint ext_commands); [apply Sc|exact He|exact He'|
                                             done|done].
Qed.

(** The sample plugin is registered on a new registry and unregistered. *)
Lemma unregister_undoes_register_witness :
  (register sample_plugin (run (str "/workspace") [])).2 = None
  ∧ contents
      (unregister (id sample_plugin)
         (register sample_plugin (run (str "/workspace") [])).1).1
    = contents (run (str "/workspace") []).
Proof.
  assert ((register sample_plugin (run (str "/workspace") [])).2 = None)
    as Hr by (by vm_compute).
  split; [exact Hr|].
  apply (unregister_undoes_register (str "/workspace") [] sample_plugin Hr).
Defined.

(** The plugin whose activation fails, on a new registry. *)
Lemma failed_activation_leaves_extensions_witness :
  validatePlugin failing_plugin = None
  ∧ getPlugin (id failing_plugin) (run (str "/workspace") []) = None
  ∧ (activate failing_plugin (str "/workspace")).2
    = Some (str "activation failed")
  ∧ (register failing_plugin (run (str "/workspace") [])).2
    = Some (str "activation failed").
Proof.
  assert (validatePlugin failing_plugin = None) as Hv by (by vm_compute).
  assert (getPlugin (id failing_plugin) (run (str "/workspace") []) = None)
    as Hg by (by vm_compute).
  assert ((activate failing_plugin (str "/workspace")).2
          = Some (str "activation failed")) as Ha by (by vm_compute).
  split; [exact Hv|]. split; [exact Hg|]. split; [exact Ha|].
  apply (failed_activation_leaves_extensions (str "/workspace") []
           failing_plugin (str "activation failed") Hv Hg Ha).
Defined.

(** The sample plugin is unregistered after its registration. *)
Lemma unregister_removes_own_extensions_only_witness :
  is_Some (getPlugin (str "sample")
             (run (str "/workspace") [Register sample_plugin]))
  ∧ ∃ e,
      map_get (str "sample")
        (pluginExtensions (run (str "/workspace") [Register sample_plugin]))
      = Some e.
Proof.
  assert (is_Some (getPlugin (str "sample")
                     (run (str "/workspace") [Register sample_plugin])))
    as Hg by (eexists; by vm_compute).
  split; [exact Hg|].
  destruct (unregister_removes_own_extensions_only (str "/workspace")
              [Register sample_plugin] (str "sample") Hg) as (e & He & _).
  by exists e.
Defined.

End PluginRegistryFacts.

(** ** The tree of tasks *)

Module TaskTreeFacts.
Import AgentTasks TaskTree TaskTreeSpec.

Lemma first_found_head {A B} (f : A → option B) (g : A → list B) l :
  Forall (λ x, f x = head (g x)) l → first_found f l = head (l ≫= g).
Proof.
  induction 1 as [|x l Hx Hl IH]; [done|].
  simpl. rewrite Hx, IH. by destruct (g x).
Qed.

Lemma find_in_flatten taskId (task : Task) :
  find_in taskId task
  = head (filter (λ t, task_id t = taskId) (flatten task)).
Proof.
  revert task. fix IH 1. intros [i d s subs reqs]. simpl.
  rewrite filter_cons. simpl.
  destruct (decide (i = taskId)) as [->|Hne].
  - by rewrite bool_decide_eq_true_2.
  - rewrite bool_decide_eq_false_2 by done.
    destruct subs as [subs|]; [|done].
    induction subs as [|t subs IHs]; [done|].
    simpl. rewrite filter_app, IH, IHs.
    by destruct (filter _ (flatten t)).
Qed.

(** [findTaskById] returns the first task with the id, in the order of the
    document and at any depth; so a task that it returns has the id and
    is in the tree, and it returns [null] exactly if no task of the tree
    has the id. *)
Theorem findTaskById_first_in_document (tasks : list Task)
    (taskId : jsstring) :
  findTaskById tasks taskId
  = head (filter (λ t, task_id t = taskId) (tasks ≫= flatten))
  ∧ (∀ task, findTaskById tasks taskId = Some task →
             task_id task = taskId ∧ task ∈ tasks ≫= flatten)
  ∧ (findTaskById tasks taskId = None
     ↔ ∀ task, task ∈ tasks ≫= flatten → task_id task ≠ taskId).
Proof.
  assert (findTaskById tasks taskId
          = head (filter (λ t, task_id t = taskId) (tasks ≫= flatten))) as E.
  { unfold findTaskById.
    rewrite (first_found_head _
               (λ t, filter (λ t, task_id t = taskId) (flatten t))).
    - f_equal. induction tasks as [|t tasks IH]; [done|].
      by rewrite !bind_cons, filter_app, IH.
    - apply Forall_forall. intros t _. apply find_in_flatten. }
  split; [exact E|]. rewrite E. split.
  - intros task Hh. apply head_Some_elem_of in Hh.
    by apply list_elem_of_filter in Hh.
  - rewrite head_None. split.
    + intros Hf task Hin Hid.
      assert (task ∈ filter (λ t, task_id t = taskId) (tasks ≫= flatten))
        as Hin' by (by apply list_elem_of_filter).
      rewrite Hf in Hin'. by apply elem_of_nil in Hin'.
    + intros Hf. apply filter_none. intros t Hin. by apply Hf.
Qed.

End TaskTreeFacts.

(** ** The context manager *)

Module ContextManagerFacts.
Import MemoryFS MemoryFSFacts ContextManager ContextManagerSpec.

Local Opaque str.

Section Loading.
Context {C : Type} `{EqDecision C}.
Implicit Types a : MemoryFS.Adapter C.

Lemma Loaded_push a processed contents path content :
  Loaded a processed contents → path ∉ processed →
  readFile path a = inr content →
  Loaded a (set_add path processed)
    (contents ++ [{| AgentTasks.file_path := path;
                     AgentTasks.file_content := content |}]).
Proof.
  intros [Hp Hn Hr] Hin Hread. unfold set_add.
  rewrite bool_decide_eq_false_2 by done. split.
  - by rewrite fmap_app, Hp.
  - apply NoDup_app. repeat split; try done.
    + by intros x Hx ->%list_elem_of_singleton.
    + apply NoDup_singleton.
  - apply Forall_app. split; [done|]. by repeat constructor.
Qed.

Lemma Loaded_found a processed contents path content :
  Loaded a processed contents → path ∈ processed →
  readFile path a = inr content →
  {| AgentTasks.file_path := path; AgentTasks.file_content := content |}
  ∈ contents.
Proof.
  intros [Hp Hn Hr] Hin Hread. rewrite Hp in Hin.
  apply list_elem_of_fmap in Hin as ([p c] & -> & Hin).
  pose proof (proj1 (Forall_forall _ _) Hr _ Hin) as E.
  unfold read_from in E. simpl in *. rewrite E in Hread.
  by injection Hread as ->.
Qed.

(** One file. *)
Lemma load_file_spec a processed contents path :
  Loaded a processed contents →
  ∃ processed' more,
    load_file (a, processed, contents) path
    = (a, processed', contents ++ more)
    ∧ Loaded a processed' (contents ++ more)
    ∧ Forall (λ fc, AgentTasks.file_path fc = path) more
    ∧ (∀ content, readFile path a = inr content →
         {| AgentTasks.file_path := path;
            AgentTasks.file_content := content |} ∈ contents ++ more).
Proof.
  intros Hl. unfold load_file.
  destruct (decide (path ∈ processed)) as [Hin|Hin].
  - rewrite bool_decide_eq_true_2 by done.
    exists processed, []. rewrite app_nil_r. repeat split; try done.
    + apply Hl.
    + apply Hl.
    + apply Hl.
    + intros content Hread. by eapply Loaded_found.
  - rewrite bool_decide_eq_false_2 by done.
    unfold safeReadFile. simpl.
    destruct (readFile path a) as [e|content] eqn:Hread.
    + exists processed, []. rewrite app_nil_r. repeat split; try done.
      * apply Hl.
      * apply Hl.
      * apply Hl.
    + eexists _, [_]. split; [done|]. split; [by apply Loaded_push|].
      split; [by repeat constructor|].
      intros c [= <-]. apply elem_of_app. right. apply list_elem_of_here.
Qed.

Lemma load_files_spec (paths : list jsstring) a processed contents :
  Loaded a processed contents →
  ∃ processed' more,
    foldl load_file (a, processed, contents) paths
    = (a, processed', contents ++ more)
    ∧ Loaded a processed' (contents ++ more)
    ∧ Forall (λ fc, AgentTasks.file_path fc ∈ paths) more
    ∧ (∀ path content, path ∈ paths → readFile path a = inr content →
         {| AgentTasks.file_path := path;
            AgentTasks.file_content := content |} ∈ contents ++ more).
Proof.
  revert processed contents.
  induction paths as [|path paths IH]; intros processed contents Hl.
  - exists processed, []. rewrite app_nil_r. repeat split; try done.
    + apply Hl.
    + apply Hl.
    + apply Hl.
    + by intros ? ? ?%elem_of_nil.
  - cbn [foldl].
    destruct (load_file_spec a processed contents path Hl)
      as (p1 & m1 & -> & Hl1 & Hm1 & Hf1).
    destruct (IH _ _ Hl1) as (p2 & m2 & -> & Hl2 & Hm2 & Hf2).
    exists p2, (m1 ++ m2). rewrite app_assoc. repeat split; try done.
    + apply Hl2.
    + apply Hl2.
    + apply Hl2.
    + apply Forall_app. split.
      * eapply Forall_impl; [exact Hm1|]. intros fc ->. apply list_elem_of_here.
      * eapply Forall_impl; [exact Hm2|]. intros fc ?. by right.
    + intros p c [->|Hin]%elem_of_cons Hread; [|by eapply Hf2].
      apply elem_of_app. left. by apply Hf1.
Qed.

Lemma below_entry depth folder entry :
  below (S depth) folder (folder ++ str "/" ++ entry).
Proof. exists [entry]. split; [done|]. split; [simpl; lia|done]. Qed.

Lemma below_deeper depth folder entry path :
  below depth (folder ++ str "/" ++ entry) path →
  below (S depth) folder path.
Proof.
  intros (entries & Hne & Hlen & ->). exists (entry :: entries).
  split; [done|]. split; [simpl; lia|done].
Qed.

(** One folder: what is found is appended, read from the adapter, new,
    and at most [depth] entries below the folder. *)
Lemma loadFolderContents_spec depth folder a processed :
  NoDup processed →
  ∃ found,
    loadFolderContents depth folder a processed
    = (a, processed ++ (AgentTasks.file_path <$> found), found)
    ∧ NoDup (processed ++ (AgentTasks.file_path <$> found))
    ∧ Forall (read_from a) found
    ∧ Forall (λ fc, below depth folder (AgentTasks.file_path fc)) found.
Proof.
  revert folder processed.
  induction depth as [|depth IH]; intros folder processed Hn.
  { exists []. simpl. rewrite app_nil_r. by repeat split. }
  cbn [loadFolderContents]. simpl.
  generalize (readdir folder a). intros entries.
  assert (∀ found0,
            NoDup (processed ++ (AgentTasks.file_path <$> found0)) →
            Forall (read_from a) found0 →
            Forall (λ fc, below (S depth) folder (AgentTasks.file_path fc))
              found0 →
            ∃ found,
              foldl
                (λ '(w, processedPaths, contents) entry,
                   if bool_decide (folder ++ str "/" ++ entry
                                   ∈ processedPaths)
                   then (w, processedPaths, contents)
                   else
                     let '(w0, content) :=
                       safeReadFile (folder ++ str "/" ++ entry) w in
                     match content with
                     | Some content0 =>
                         (w0,
                          set_add (folder ++ str "/" ++ entry)
                            processedPaths,
                          contents
                          ++ [{| AgentTasks.file_path :=
                                   folder ++ str "/" ++ entry;
                                 AgentTasks.file_content := content0 |}])
                     | None =>
                         let '(w1, processedPaths0, subContents) :=
                           loadFolderContents depth
                             (folder ++ str "/" ++ entry) w0
                             processedPaths in
                         (w1, processedPaths0, contents ++ subContents)
                     end)
                (a, processed ++ (AgentTasks.file_path <$> found0), found0)
                entries
              = (a, processed ++ (AgentTasks.file_path <$> found), found)
              ∧ NoDup (processed ++ (AgentTasks.file_path <$> found))
              ∧ Forall (read_from a) found
              ∧ Forall (λ fc, below (S depth) folder
                                (AgentTasks.file_path fc)) found) as Hloop.
  { induction entries as [|entry entries IHe]; intros found0 Hn0 Hr0 Hb0.
    { by exists found0. }
    cbn [foldl].
    set (entryPath := folder ++ str "/" ++ entry).
    destruct (decide (entryPath
                      ∈ processed ++ (AgentTasks.file_path <$> found0)))
      as [Hin|Hin].
    { rewrite bool_decide_eq_true_2 by done. by apply IHe. }
    rewrite bool_decide_eq_false_2 by done.
    unfold safeReadFile. simpl.
    destruct (readFile entryPath a) as [e|content] eqn:Hread.
    - destruct (IH entryPath _ Hn0) as (sub & -> & Hns & Hrs & Hbs).
      rewrite <- app_assoc, <- fmap_app.
      rewrite <- app_assoc, <- fmap_app in Hns.
      apply IHe; [done|..].
      + by apply Forall_app.
      + apply Forall_app. split; [done|].
        eapply Forall_impl; [exact Hbs|]. intros fc.
        apply below_deeper.
    - unfold set_add. rewrite bool_decide_eq_false_2 by done.
      rewrite <- app_assoc.
      change [entryPath]
        with (AgentTasks.file_path
                <$> [{| AgentTasks.file_path := entryPath;
                        AgentTasks.file_content := content |}]).
      rewrite <- fmap_app. apply IHe.
      + rewrite fmap_app, app_assoc. apply NoDup_app.
        repeat split; try done.
        * by intros x Hx ->%list_elem_of_singleton.
        * apply NoDup_singleton.
      + apply Forall_app. split; [done|]. by repeat constructor.
      + apply Forall_app. split; [done|]. repeat constructor.
        apply below_entry. }
  destruct (Hloop []) as (found & E & ?); [by rewrite app_nil_r|done..|].
  exists found. split; [|done]. rewrite <- E. simpl. by rewrite app_nil_r.
Qed.

Lemma load_folders_spec (folders : list jsstring) a processed contents :
  Loaded a processed contents →
  ∃ processed' more,
    foldl load_folder (a, processed, contents) folders
    = (a, processed', contents ++ more)
    ∧ Loaded a processed' (contents ++ more)
    ∧ Forall (λ fc, ∃ folder, folder ∈ folders
                              ∧ below 3 folder (AgentTasks.file_path fc))
        more.
Proof.
  revert processed contents.
  induction folders as [|folder folders IH]; intros processed contents Hl.
  - exists processed, []. rewrite app_nil_r. repeat split; try done; apply Hl.
  - cbn [foldl]. unfold load_folder at 2.
    destruct (loadFolderContents_spec 3 folder a processed)
      as (found & -> & Hn & Hr & Hb); [apply Hl|].
    assert (Loaded a (processed ++ (AgentTasks.file_path <$> found))
              (contents ++ found)) as Hl1.
    { split; [|done|].
      - rewrite fmap_app. f_equal. apply Hl.
      - apply Forall_app. split; [apply Hl|done]. }
    destruct (IH _ _ Hl1) as (p2 & m2 & -> & Hl2 & Hb2).
    exists p2, (found ++ m2). rewrite app_assoc. split; [done|].
    split; [done|]. apply Forall_app. split.
    + eapply Forall_impl; [exact Hb|]. intros fc ?. exists folder.
      split; [apply list_elem_of_here|done].
    + eapply Forall_impl; [exact Hb2|]. intros fc (f & ? & ?). exists f.
      split; [by right|done].
Qed.

(** The files and folders of a request and of the context, loaded. *)
Lemma loadFileContents_spec (request : AgentTasks.ContextRequest)
    (m : Manager) a :
  let files :=
    default [] (AgentTasks.explicitFiles request) ++ explicitFiles m in
  let folders :=
    default [] (AgentTasks.explicitFolders request) ++ explicitFolders m in
  ∃ contents,
    loadFileContents request m a = (a, contents)
    ∧ Forall (read_from a) contents
    ∧ NoDup (AgentTasks.file_path <$> contents)
    ∧ (∀ path content,
         path ∈ files → readFile path a = inr content →
         {| AgentTasks.file_path := path;
            AgentTasks.file_content := content |} ∈ contents)
    ∧ (∀ fc, fc ∈ contents →
         AgentTasks.file_path fc ∈ files
         ∨ ∃ folder, folder ∈ folders
                     ∧ below 3 folder (AgentTasks.file_path fc)).
Proof.
  intros files folders. unfold loadFileContents.
  assert (∀ s : Adapter C * list jsstring * list AgentTasks.FileContent,
            match AgentTasks.explicitFiles request with
               | Some l => foldl load_file s l
               | None => s
               end
               = foldl load_file s
                   (default [] (AgentTasks.explicitFiles request))) as E1.
  { intros s. by destruct (AgentTasks.explicitFiles request). }
  assert (∀ s : Adapter C * list jsstring * list AgentTasks.FileContent,
            match AgentTasks.explicitFolders request with
               | Some l => foldl load_folder s l
               | None => s
               end
               = foldl load_folder s
                   (default [] (AgentTasks.explicitFolders request))) as E2.
  { intros s. by destruct (AgentTasks.explicitFolders request). }
  rewrite E1, E2, <- !foldl_app. fold files. fold folders.
  destruct (load_files_spec files a [] []) as (p1 & c1 & -> & Hl1 & Hin1 & Hf1).
  { split; [done|constructor|constructor]. }
  simpl in Hl1, Hf1. simpl.
  destruct (load_folders_spec folders a p1 c1 Hl1)
    as (p2 & c2 & -> & Hl2 & Hb2).
  exists (c1 ++ c2). simpl. split; [done|]. split; [apply Hl2|].
  split; [|split].
  - rewrite <- (Loaded_paths _ _ _ Hl2). apply Hl2.
  - intros path content Hin Hread. apply elem_of_app. left. by eapply Hf1.
  - intros fc [Hin|Hin]%elem_of_app.
    + left. apply (proj1 (Forall_forall _ _) Hin1 _ Hin).
    + right. apply (proj1 (Forall_forall _ _) Hb2 _ Hin).
Qed.

(** Each file is read once.  [loadFileContents] on an in-memory adapter
    leaves the adapter as it is; every content that it returns is what the
    adapter gives for its path; no path is returned twice; every file of
    the request or of the context that can be read is returned; and every
    file returned is one of these or lies at most three entries below a
    folder of the request or of the context. *)
Theorem loadFileContents_reads_each_file_once
    (request : AgentTasks.ContextRequest) (m : Manager) a :
  let files :=
    default [] (AgentTasks.explicitFiles request) ++ explicitFiles m in
  let folders :=
    default [] (AgentTasks.explicitFolders request) ++ explicitFolders m in
  let contents := (loadFileContents request m a).2 in
  (loadFileContents request m a).1 = a
  ∧ Forall (read_from a) contents
  ∧ NoDup (AgentTasks.file_path <$> contents)
  ∧ (∀ path content,
       path ∈ files → readFile path a = inr content →
       {| AgentTasks.file_path := path;
          AgentTasks.file_content := content |} ∈ contents)
  ∧ (∀ fc, fc ∈ contents →
       AgentTasks.file_path fc ∈ files
       ∨ ∃ folder, folder ∈ folders
                   ∧ below 3 folder (AgentTasks.file_path fc)).
Proof.
  intros files folders contents. subst contents.
  by destruct (loadFileContents_spec request m a) as (contents & -> & ?).
Qed.

Lemma unique_snoc (l : list jsstring) x :
  unique (l ++ [x]) = set_add x (unique l).
Proof. unfold unique. by rewrite foldl_app. Qed.

Lemma elem_of_unique (l : list jsstring) x : x ∈ unique l ↔ x ∈ l.
Proof.
  induction l as [|y l IH] using rev_ind; [done|].
  rewrite unique_snoc, elem_of_set_add, IH, elem_of_app,
    list_elem_of_singleton. done.
Qed.

Lemma NoDup_unique (l : list jsstring) : NoDup (unique l).
Proof.
  induction l as [|y l IH] using rev_ind; [constructor|].
  rewrite unique_snoc. by apply NoDup_set_add.
Qed.

Lemma since_clear_snoc ops op :
  since_clear (ops ++ [op])
  = match op with ClearContext => [] | _ => since_clear ops ++ [op] end.
Proof. unfold since_clear. by rewrite foldl_app. Qed.

Lemma run_since_clear a (ops : list Op) :
  explicitFiles (run a ops)
  = unique (filter (λ path, exists_ path a = true)
              (omap as_file (since_clear ops)))
  ∧ explicitFolders (run a ops)
    = unique (filter (λ path, exists_ path a = true)
                (omap as_folder (since_clear ops)))
  ∧ conversationHistory (run a ops) = omap as_message (since_clear ops).
Proof.
  induction ops as [|op ops (IH1 & IH2 & IH3)] using rev_ind; [done|].
  unfold run in *. rewrite foldl_app, since_clear_snoc. cbn [foldl].
  set (m := foldl (step a) new_manager ops) in *.
  destruct op as [path|path|message|]; simpl; [| | |done].
  - rewrite !omap_app. simpl. rewrite !app_nil_r, filter_app.
    unfold addFile. simpl. destruct (exists_ path a) eqn:He; simpl.
    + rewrite filter_cons_True, filter_nil by done.
      by rewrite unique_snoc, IH1.
    + rewrite filter_cons_False, filter_nil, app_nil_r by (by rewrite He).
      done.
  - rewrite !omap_app. simpl. rewrite !app_nil_r, filter_app.
    unfold addFolder. simpl. destruct (exists_ path a) eqn:He; simpl.
    + rewrite filter_cons_True, filter_nil by done.
      by rewrite unique_snoc, IH2.
    + rewrite filter_cons_False, filter_nil, app_nil_r by (by rewrite He).
      done.
  - rewrite !omap_app. simpl. rewrite !app_nil_r. by rewrite IH3.
Qed.

Lemma readable_exists a path content :
  readFile path a = inr content → exists_ path a = true.
Proof.
  unfold readFile, exists_.
  destruct (map_get _ _) eqn:E; [|done]. intros _.
  apply orb_true_iff. left. unfold map_has.
  apply bool_decide_eq_true_2. by eexists.
Qed.

End Loading.

Section Context.
Context {C : Type} `{EqDecision C} `{!Managers (MemoryFS.Adapter C)}.
Implicit Types a : MemoryFS.Adapter C.

Lemma build_with_spec request specContext (m : Manager) a a' context :
  Quiet → build_with request specContext m a = (a', inr context) →
  a' = a
  ∧ systemPrompt context = DEFAULT_SYSTEM_PROMPT
  ∧ ContextManager.specContext context = specContext
  ∧ context_conversationHistory context = conversationHistory m
  ∧ fileContents context = (loadFileContents request m a).2.
Proof.
  intros [_ Hq]. unfold build_with.
  set (sc := {| activeFiles := _; manualInclusions := _ |}).
  specialize (Hq sc a). destruct (getActiveSteeringContent sc a) as [a1 r].
  simpl in Hq. subst a1. destruct r as [e|text]; [done|].
  destruct (loadFileContents_spec request m a) as (contents & E & _).
  rewrite E. by intros [= <- <-].
Qed.

(** What has been added is in the context.  A context manager on an
    in-memory adapter, with managers that leave the adapter alone, holds
    the files and folders added since the context was last cleared that
    existed, each once, and the messages added since.  [addFile] of a path
    that does not exist throws and changes nothing.  A context that
    [buildContext] returns carries the default system prompt and these
    messages; no path is in it twice, every content is what the adapter
    gives for its path, and every file added since the last clearing that
    can be read is in it. *)
Theorem added_files_are_in_the_context a (ops : list Op)
    (request : AgentTasks.ContextRequest) :
  Quiet →
  let m := run a ops in
  explicitFiles m
  = unique (filter (λ path, exists_ path a = true)
              (omap as_file (since_clear ops)))
  ∧ explicitFolders m
    = unique (filter (λ path, exists_ path a = true)
                (omap as_folder (since_clear ops)))
  ∧ conversationHistory m = omap as_message (since_clear ops)
  ∧ (∀ path, exists_ path a = false →
       addFile path m a = (m, a, Some (str "File not found: " ++ path)))
  ∧ (∀ a' context,
       buildContext request m a = (a', inr context) →
       a' = a
       ∧ systemPrompt context = DEFAULT_SYSTEM_PROMPT
       ∧ context_conversationHistory context
         = omap as_message (since_clear ops)
       ∧ NoDup (AgentTasks.file_path <$> fileContents context)
       ∧ Forall (read_from a) (fileContents context)
       ∧ ∀ path content,
           path ∈ omap as_file (since_clear ops) →
           readFile path a = inr content →
           {| AgentTasks.file_path := path;
              AgentTasks.file_content := content |}
           ∈ fileContents context).
Proof.
  intros Hq m. destruct (run_since_clear a ops) as (Hf & Hd & Hm).
  fold m in Hf, Hd, Hm.
  split; [done|]. split; [done|]. split; [done|]. split.
  { intros path He. unfold addFile. simpl. by rewrite He. }
  intros a' context Hb.
  assert (∃ specContext,
            build_with request specContext m a = (a', inr context))
    as [specContext Hw].
  { unfold buildContext in Hb.
    destruct (AgentTasks.request_spec request) as [spec|]; [|by eexists].
    destruct (truthy spec); [|by eexists].
    unfold buildSpecContext in Hb.
    pose proof (proj1 Hq spec a) as Hs.
    destruct (loadSpec spec a) as [a1 r]. simpl in Hs. subst a1.
    destruct r as [e|sp]; [done|]. by eexists. }
  destruct (build_with_spec _ _ _ _ _ _ Hq Hw) as (-> & Hp & _ & Hh & Hc).
  destruct (loadFileContents_spec request m a)
    as (contents & E & Hr & Hn & Hin & _).
  rewrite E in Hc. simpl in Hc. rewrite Hc, Hh, Hm.
  repeat split; try done.
  intros path content Hadded Hread. apply Hin; [|done].
  apply elem_of_app. right. rewrite Hf. apply elem_of_unique.
  apply list_elem_of_filter. split; [|done]. by eapply readable_exists.
Qed.

End Context.

(** Without specs and steering files: one file is added and read. *)
Lemma added_files_are_in_the_context_witness :
  @Quiet unit _ no_managers
  ∧ explicitFiles
      (run (C := unit)
         (writeFile (str "notes.md") (str "text") new_adapter)
         [AddFile (str "missing.md"); AddFile (str "notes.md")])
    = [str "notes.md"].
Proof.
  assert (@Quiet unit _ no_managers) as Hq by (by split).
  split; [exact Hq|].
  destruct (@added_files_are_in_the_context unit _ no_managers
              (writeFile (str "notes.md") (str "text") new_adapter)
              [AddFile (str "missing.md"); AddFile (str "notes.md")]
              {| AgentTasks.request_message := [];
                 AgentTasks.request_spec := None;
                 AgentTasks.request_taskId := None;
                 AgentTasks.explicitFiles := None;
                 AgentTasks.explicitFolders := None;
                 AgentTasks.manualSteering := None |} Hq) as (-> & _).
  by vm_compute.
Defined.

End ContextManagerFacts.

(** ** References to files in steering content *)

Module SteeringReferencesFacts.
Import Replace MemoryFS SteeringReferences SteeringReferencesSpec.

Local Opaque str.

Lemma opening : str "#[[file:" = [35; 91; 91; 102; 105; 108; 101; 58]%N.
Proof. by vm_compute. Qed.

Lemma closing : str "]]" = [93; 93]%N.
Proof. by vm_compute. Qed.

Lemma strip_prefix_app (p s : jsstring) : strip_prefix p (p ++ s) = Some s.
Proof.
  induction p as [|c p IH]; [by destruct s|].
  simpl. by rewrite bool_decide_eq_true_2.
Qed.

Lemma not_brackets_app (t rest : jsstring) :
  93%N ∉ t → not_brackets (t ++ 93%N :: rest) = t.
Proof.
  induction t as [|c t IH]; intros Ht; simpl.
  - done.
  - apply not_elem_of_cons in Ht as [Hc Ht].
    rewrite bool_decide_eq_false_2 by done. by rewrite IH.
Qed.

Lemma match_reference_at (t rest : jsstring) :
  t ≠ [] → 93%N ∉ t →
  match_reference (reference t ++ rest) = Some (reference t, t).
Proof.
  intros Hne Ht. unfold match_reference, reference.
  rewrite <- !app_assoc, strip_prefix_app. cbv zeta.
  rewrite closing. change ([93%N; 93%N] ++ rest) with (93%N :: 93%N :: rest).
  rewrite not_brackets_app by done.
  destruct t as [|c t]; [done|]. by rewrite drop_app_length.
Qed.

Lemma match_reference_plain c (s : jsstring) :
  c ≠ 35%N → match_reference (c :: s) = None.
Proof.
  intros Hc. unfold match_reference. rewrite opening. simpl.
  by rewrite bool_decide_eq_false_2.
Qed.

Lemma extract_go_skip (l rest : jsstring) :
  extract_go (l ++ rest) (length l) = extract_go rest 0.
Proof.
  induction l as [|c l IH]; [|done]. simpl. by destruct rest.
Qed.

Lemma extract_go_plain (t rest : jsstring) :
  plain t → extract_go (t ++ rest) 0 = extract_go rest 0.
Proof.
  unfold plain. induction t as [|c t IH]; intros Ht; [done|].
  apply not_elem_of_cons in Ht as [Hc Ht]. cbn [app extract_go].
  rewrite match_reference_plain by done. by apply IH.
Qed.

Lemma extract_go_reference (t rest : jsstring) :
  t ≠ [] → 93%N ∉ t →
  extract_go (reference t ++ rest) 0
  = {| fullMatch := reference t; ref_path := trim t |} :: extract_go rest 0.
Proof.
  intros Hne Ht.
  pose proof (match_reference_at t rest Hne Ht) as Hm.
  assert (∃ c l, reference t = c :: l) as (c & l & E).
  { unfold reference. rewrite opening. simpl. eauto. }
  rewrite E in *. cbn [app] in Hm. cbn [app extract_go]. rewrite Hm. f_equal.
  simpl. rewrite Nat.sub_0_r. apply extract_go_skip.
Qed.

Lemma extract_render (parts : list Part) (last : jsstring) :
  Forall well_formed parts → plain last →
  extractFileReferences (render parts last)
  = (λ part, {| fullMatch := reference (target part);
                ref_path := trim (target part) |}) <$> parts.
Proof.
  unfold extractFileReferences, render. intros Hp Hl.
  induction Hp as [|part parts (Ht & Hne & Hb & _) _ IH].
  - simpl. rewrite <- (app_nil_r last). by rewrite extract_go_plain.
  - rewrite bind_cons, <- !app_assoc, fmap_cons.
    rewrite extract_go_plain, extract_go_reference by done.
    by rewrite IH.
Qed.

(** The content of a file is put in as it is. *)
Lemma escaped_verbatim (matched before after fileContent : jsstring) :
  get_substitution matched before after
    (replace_all [36%N] (str "$$$$") fileContent)
  = fileContent.
Proof.
  unfold replace_all. generalize (@nil N) at 2. intros passed.
  assert (str "$$$$" = [36; 36; 36; 36]%N) as -> by (by vm_compute).
  revert passed. induction fileContent as [|c r IH]; intros passed; [done|].
  cbn [replace_go strip_prefix].
  destruct (decide (36%N = c)) as [<-|Hc].
  - rewrite bool_decide_eq_true_2 by done. simpl. by rewrite IH.
  - rewrite bool_decide_eq_false_2 by done. simpl.
    rewrite bool_decide_eq_false_2 by done. by rewrite IH.
Qed.

Lemma get_substitution_plain (matched before after template : jsstring) :
  36%N ∉ template →
  get_substitution matched before after template = template.
Proof.
  induction template as [|c r IH]; intros Ht; [done|].
  apply not_elem_of_cons in Ht as [Hc Ht]. simpl.
  rewrite bool_decide_eq_false_2 by done. by rewrite IH.
Qed.

Lemma strip_prefix_head c (n : jsstring) d (s : jsstring) :
  c ≠ d → strip_prefix (c :: n) (d :: s) = None.
Proof. intros Hne. simpl. by rewrite bool_decide_eq_false_2. Qed.

Lemma replace_first_go_eq (needle template before s : jsstring) :
  replace_first_go needle template before s
  = match strip_prefix needle s with
    | Some after => get_substitution needle before after template ++ after
    | None =>
        match s with
        | [] => []
        | c :: r => c :: replace_first_go needle template (before ++ [c]) r
        end
    end.
Proof. by destruct s. Qed.

Lemma replace_first_plain (pre needle template before post : jsstring) :
  plain pre → head needle = Some 35%N →
  replace_first_go needle template before (pre ++ needle ++ post)
  = pre ++ get_substitution needle (before ++ pre) post template ++ post.
Proof.
  intros Hpre Hn. destruct needle as [|c n]; [done|].
  simpl in Hn. injection Hn as ->.
  revert before. induction pre as [|d pre IH]; intros before.
  - rewrite app_nil_r. cbn [app].
    change (35%N :: n ++ post) with ((35%N :: n) ++ post).
    by rewrite replace_first_go_eq, strip_prefix_app.
  - apply not_elem_of_cons in Hpre as [Hd Hpre].
    rewrite replace_first_go_eq.
    change ((d :: pre) ++ (35%N :: n) ++ post)
      with (d :: pre ++ (35%N :: n) ++ post).
    rewrite strip_prefix_head by done.
    rewrite IH by done. by rewrite <- app_assoc.
Qed.

Lemma elem_of_trim_start x (s : jsstring) : x ∈ trim_start s → x ∈ s.
Proof.
  induction s as [|c s IH]; [done|]. simpl.
  destruct (is_white c); [|done]. intros Hx. right. by apply IH.
Qed.

Lemma elem_of_trim x (s : jsstring) : x ∈ trim s → x ∈ s.
Proof.
  unfold trim. intros Hx. rewrite elem_of_reverse in Hx.
  apply elem_of_trim_start in Hx. rewrite elem_of_reverse in Hx.
  by apply elem_of_trim_start.
Qed.

Lemma absent (c : N) (s : jsstring) : bool_decide (c ∈ s) = false → c ∉ s.
Proof. by intros ?%bool_decide_eq_false. Qed.

Section Resolve.
Context {C : Type} `{EqDecision C}.
Implicit Types a : MemoryFS.Adapter C.

Lemma head_reference (t : jsstring) : head (reference t) = Some 35%N.
Proof. unfold reference. by rewrite opening. Qed.

Lemma not_found_plain (c : N) (t : jsstring) :
  c = 35%N ∨ c = 36%N → c ∉ t →
  c ∉ str "[File not found: " ++ trim t ++ str "]".
Proof.
  intros Hc Ht. rewrite !elem_of_app. intros [Hin|[Hin|Hin]].
  - revert Hin. apply absent. by destruct Hc as [-> | ->]; vm_compute.
  - by apply elem_of_trim in Hin.
  - revert Hin. apply absent. by destruct Hc as [-> | ->]; vm_compute.
Qed.

Lemma resolve_part a (passed rest : jsstring) (part : Part) :
  plain passed → well_formed part →
  (∀ fileContent,
     readFile (trim (target part)) a = inr fileContent → plain fileContent) →
  resolve (a, passed ++ text part ++ reference (target part) ++ rest)
    {| fullMatch := reference (target part);
       ref_path := trim (target part) |}
  = (a, (passed ++ text part ++ replacement a (target part)) ++ rest)
  ∧ plain (passed ++ text part ++ replacement a (target part)).
Proof.
  intros Hpassed (Ht & Hne & Hb & Hp & Hd) Hfile.
  assert (plain (passed ++ text part)) as Hpre.
  { unfold plain in *. rewrite elem_of_app. tauto. }
  unfold resolve, replacement, replace_first. simpl.
  rewrite (app_assoc passed).
  destruct (readFile (trim (target part)) a) as [e|fileContent] eqn:Hread.
  - rewrite replace_first_plain by (done || apply head_reference).
    rewrite get_substitution_plain by (by apply not_found_plain; [right|]).
    rewrite <- !app_assoc. split; [done|].
    unfold plain. rewrite app_assoc, elem_of_app.
    intros [Hin|Hin]; [done|]. revert Hin.
    by apply not_found_plain; [left|].
  - rewrite replace_first_plain by (done || apply head_reference).
    rewrite escaped_verbatim. rewrite <- !app_assoc. split; [done|].
    unfold plain. rewrite app_assoc, elem_of_app.
    intros [Hin|Hin]; [done|]. by apply (Hfile fileContent).
Qed.

Lemma resolve_parts a (parts : list Part) (passed last : jsstring) :
  plain passed → Forall well_formed parts → plain_files a parts →
  foldl resolve (a, passed ++ render parts last)
    ((λ part, {| fullMatch := reference (target part);
                 ref_path := trim (target part) |}) <$> parts)
  = (a, passed ++ resolved a parts last).
Proof.
  revert passed. induction parts as [|part parts IH]; intros passed Hp Hw Hf.
  { done. }
  apply Forall_cons in Hw as [Hw Hws].
  unfold render, resolved. rewrite !bind_cons, fmap_cons. cbn [foldl].
  rewrite <- !app_assoc.
  destruct (resolve_part a passed
              ((parts ≫= (λ part, text part ++ reference (target part)))
               ++ last) part Hp Hw) as [-> Hp'].
  { intros fileContent. apply Hf. apply list_elem_of_here. }
  fold (render parts last). rewrite IH; [|done|done|].
  - unfold resolved. by rewrite <- !app_assoc.
  - intros p c Hin. apply Hf. by right.
Qed.

(** References are replaced by the files.  In a content whose texts and
    targets have no number sign, with targets that are not empty and have
    no closing bracket or dollar sign, and files without number sign:
    [resolveReferences] replaces every reference by the content of the
    file at the trimmed target, as it is, whatever dollar signs it holds,
    or by [[File not found: ...]] when the file cannot be read; the texts
    between stay, and the adapter is left as it is. *)
Theorem references_are_replaced_by_files a (parts : list Part)
    (last : jsstring) :
  Forall well_formed parts → plain last → plain_files a parts →
  resolveReferences (render parts last) a = (a, resolved a parts last).
Proof.
  intros Hw Hl Hf. unfold resolveReferences.
  rewrite extract_render by done.
  destruct parts as [|part parts]; [done|].
  rewrite length_fmap. cbn [length Nat.eqb].
  apply (resolve_parts a (part :: parts) [] last); [|done|done].
  apply not_elem_of_nil.
Qed.

End Resolve.

(** A file that holds the text of a later reference: that reference is
    replaced inside the file's content, and stays where it was written. *)
Example reference_inside_a_file :
  (resolveReferences (str "#[[file:a]] #[[file:b]]") nested_files).2
  = str "B #[[file:b]]".
Proof. by vm_compute. Qed.

(** The replacement patterns of the file are kept. *)
Lemma references_are_replaced_by_files_witness :
  Forall well_formed sample_parts
  ∧ plain (str "!")
  ∧ plain_files sample_files sample_parts
  ∧ resolveReferences (str "See #[[file: notes.md ]]!") sample_files
    = (sample_files, str "See cost: $& and $$ and $1!").
Proof.
  assert (Forall well_formed sample_parts) as Hw.
  { repeat constructor; try (apply absent; by vm_compute).
    by vm_compute. }
  assert (plain (str "!")) as Hl by (apply absent; by vm_compute).
  assert (plain_files sample_files sample_parts) as Hf.
  { intros part c ->%list_elem_of_singleton Hr. vm_compute in Hr.
    injection Hr as <-. apply absent. by vm_compute. }
  split; [exact Hw|]. split; [exact Hl|]. split; [exact Hf|].
  pose proof (references_are_replaced_by_files sample_files sample_parts
                (str "!") Hw Hl Hf) as E.
  vm_compute in E. vm_compute. exact E.
Defined.

End SteeringReferencesFacts.
